(** * Binding resolution of curv definitions (src/curv/definition.cc)

    A shallow embedding of the two scoping disciplines of curv's analyzer,
    [Sequential_Scope] and [Recursive_Scope], with the lazy Tarjan
    strongly-connected-component analysis that orders initializer actions
    and groups mutually recursive functions. *)

From stdpp Require Import base option list gmap strings sorting.

Set Default Proof Using "Type".
Set Warnings "-register-all".


(** ** Data model *)

(** A slot is an index into a frame or into a module's field list.  The C++
    type is an unsigned integer; its width is not visible in definition.cc and
    no computation below can wrap, so slots are natural numbers.  The sentinel
    [(slot_t)(-1)] that marks "no module" is [None] in [option slot_t]. *)
Definition slot_t := nat.

(** A source location: phrase handles that the code keeps only for error
    context ([source_], the syntax of a constant) are represented by it. *)
Definition Location := nat.

Record Identifier := mkIdentifier { atom_ : string; id_loc : Location }.

(** Modelled from the spec: the phrase tree is produced by the parser and
    consumed by the general analyzer, both external to definition.cc.  A phrase
    is represented by what the analyzer does with it in a lookup environment:
    it looks up the phrase's free identifiers, in source order. *)
Record Phrase := mkPhrase { ph_loc : Location; ph_ids : list Identifier }.

(** A lambda phrase: parameter count, frame size and body.  The identifiers of
    the body are its free ones: parameters are resolved by the lambda itself. *)
Record Lambda_Phrase := mkLambda_Phrase {
  lam_loc : Location; lam_nargs : nat; lam_nslots : nat; lam_body : Phrase }.

(** Meanings.  Every constructor except [Nullptr] and [Metafunction] is an
    [Operation] in the C++ class hierarchy. *)
Inductive Meaning :=
| Nullptr
| Metafunction (name : string)
| Constant (syntax : Location) (value : Value)
| Indirect_Strict_Ref (id : Identifier) (module_slot : option slot_t) (slot : slot_t)
| Let_Ref (id : Identifier) (slot : slot_t)
| Symbolic_Ref (id : Identifier)
| Generic_Op (syntax : Phrase) (args : list Meaning)
| Lambda_Expr (body_ : Meaning) (nargs_ nslots_ : nat)
| Module_Data_Setter (source : Location) (module_slot : option slot_t)
    (slot : slot_t) (expr : Meaning)
| Data_Setter (source : Location) (slot : slot_t) (expr : Meaning) (reassign : bool)
| Enum_Module_Expr (source : Location) (dictionary : gmap string slot_t)
    (exprs : list Meaning)
| Function_Setter (source : Location) (module_slot : option slot_t)
    (nonlocals : Meaning) (elements : list (slot_t * option Lambda))
with Lambda :=
| mkLambda (body : Meaning) (nargs nslots : nat)
with Value :=
| Lambda_Value (lambda : option Lambda)
| Other_Value (n : nat).

Definition isa_Constant (m : Meaning) : bool :=
  match m with Constant _ _ => true | _ => false end.

Definition isa_Operation (m : Meaning) : bool :=
  match m with Nullptr | Metafunction _ => false | _ => true end.

(** The slots an action writes when it is executed. *)
Definition writes (op : Meaning) : list slot_t :=
  match op with
  | Module_Data_Setter _ _ slot _ => [slot]
  | Data_Setter _ slot _ _ => [slot]
  | Function_Setter _ _ _ elements => elements.*1
  | _ => []
  end.

Definition isa_Function_Setter (op : Meaning) : bool :=
  match op with Function_Setter _ _ _ _ => true | _ => false end.

(** Definitions.  The mutable members ([slot_], [definiens_expr_], [lambda_])
    are fields of the value; a null handle is [Nullptr] or [None]. *)
Inductive Unitary_Definition :=
| Data_Definition (source_ : Location) (name_ : Identifier) (slot_ : slot_t)
    (definiens_phrase_ : Phrase) (definiens_expr_ : Meaning)
| Function_Definition (source_ : Location) (name_ : Identifier) (slot_ : slot_t)
    (lambda_phrase_ : Lambda_Phrase) (lambda_ : option Lambda).

Inductive Definition_Kind := k_sequential | k_recursive.

#[global] Instance Definition_Kind_eq_dec : EqDecision Definition_Kind.
Proof. solve_decision. Defined.

Inductive Abstract_Definition :=
| Unitary (kind_ : Definition_Kind) (d : Unitary_Definition)
| Compound (kind_ : Definition_Kind) (source_ : Location)
    (elements : list (Phrase * option Abstract_Definition)).

Definition def_kind (def : Abstract_Definition) : Definition_Kind :=
  match def with Unitary k _ => k | Compound k _ _ => k end.

Definition def_source (def : Abstract_Definition) : Location :=
  match def with
  | Unitary _ (Data_Definition s _ _ _ _) => s
  | Unitary _ (Function_Definition s _ _ _ _) => s
  | Compound _ s _ => s
  end.

Definition source_of (d : Unitary_Definition) : Location :=
  match d with Data_Definition s _ _ _ _ | Function_Definition s _ _ _ _ => s end.
Definition name_of (d : Unitary_Definition) : Identifier :=
  match d with Data_Definition _ n _ _ _ | Function_Definition _ n _ _ _ => n end.
Definition slot_of (d : Unitary_Definition) : slot_t :=
  match d with Data_Definition _ _ s _ _ | Function_Definition _ _ s _ _ => s end.
Definition is_data_def (d : Unitary_Definition) : bool :=
  match d with Data_Definition _ _ _ _ _ => true | _ => false end.
(** The identifiers the analysis of the definition looks up. *)
Definition ids_of (d : Unitary_Definition) : list Identifier :=
  match d with
  | Data_Definition _ _ _ ph _ => ph_ids ph
  | Function_Definition _ _ _ lp _ => ph_ids (lam_body lp)
  end.
Definition set_slot (slot : slot_t) (d : Unitary_Definition) : Unitary_Definition :=
  match d with
  | Data_Definition s n _ ph e => Data_Definition s n slot ph e
  | Function_Definition s n _ lp l => Function_Definition s n slot lp l
  end.

(** ** Exceptions, assertions and the analysis monad *)

Inductive Exception :=
| Multiply_defined (name : string)
| Not_defined (id : Identifier)
| Illegal_recursive_reference (id : Identifier)
| Recursive_data_definition (source : Location).

(** How a call fails: it throws, stops at a failed [assert] (named by its
    line in definition.cc), runs into behaviour C++ leaves undefined, or
    exhausts the recursion budget of the embedding. *)
Inductive Failure :=
| Throws (e : Exception)
| Assertion_failed (line : nat)
| Undefined_behaviour
| Out_of_fuel.

Inductive Outcome (A : Type) :=
| Returns (a : A)
| Fails (f : Failure).
Arguments Returns {A} a.
Arguments Fails {A} f.

(** State is kept when a call fails: what has been emitted before an
    exception is observable. *)
Definition M (S A : Type) : Type := S → Outcome A * S.

Definition ret {S A} (a : A) : M S A := λ st, (Returns a, st).
Definition bind {S A B} (m : M S A) (k : A → M S B) : M S B :=
  λ st, match m st with
        | (Returns a, st') => k a st'
        | (Fails f, st') => (Fails f, st')
        end.
Definition get {S} : M S S := λ st, (Returns st, st).
Definition modify {S} (f : S → S) : M S unit := λ st, (Returns tt, f st).
Definition fail {S A} (f : Failure) : M S A := λ st, (Fails f, st).
Definition throw {S A} (e : Exception) : M S A := fail (Throws e).
Definition undefined {S A} : M S A := fail Undefined_behaviour.
Definition out_of_fuel {S A} : M S A := fail Out_of_fuel.

Notation "'let*' x ':=' m 'in' k" := (bind m (λ x, k))
  (at level 10, x pattern, m at level 100, k at level 200,
   format "'let*'  x  :=  m  'in'  '//' k").

(** [assert(cond)]: a no-op when the condition holds; otherwise the program
    stops, unless it was built with NDEBUG, where the macro expands to nothing. *)
Definition assert_ {S} (NDEBUG : bool) (line : nat) (cond : bool) : M S unit :=
  if cond then ret tt
  else if NDEBUG then ret tt
  else fail (Assertion_failed line).

Fixpoint mapM {S A B} (f : A → M S B) (l : list A) : M S (list B) :=
  match l with
  | [] => ret []
  | x :: l' => let* y := f x in let* ys := mapM f l' in ret (y :: ys)
  end.

Fixpoint forM_ {S A} (l : list A) (f : A → M S unit) : M S unit :=
  match l with
  | [] => ret tt
  | x :: l' => let* _ := f x in forM_ l' f
  end.

(** [std::vector] used as a stack: the bottom is the head of the list. *)
Definition push_back {A} (v : list A) (x : A) : list A := v ++ [x].
Definition back {A} (v : list A) : option A := last v.
Definition pop_back {A} (v : list A) : list A := removelast v.

(** ** The external analyzer *)

(** Modelled from the spec: "a general expression/statement analyzer resolves
    an arbitrary phrase into an executable operation given a lookup-capable
    environment".  [analyze_op] is not in definition.cc; here it looks up the
    identifiers of the phrase through the environment it is given and keeps
    the meanings it got. *)
Definition analyze_op {S} (env_lookup : Identifier → M S Meaning) (ph : Phrase)
  : M S Meaning :=
  let* ms := mapM env_lookup (ph_ids ph) in ret (Generic_Op ph ms).

(** Modelled from the spec: the analysis of a lambda phrase yields a lambda
    expression: the analyzed body, the parameter count and the frame size. *)
Definition analyze_lambda {S} (env_lookup : Identifier → M S Meaning)
    (lp : Lambda_Phrase) : M S Meaning :=
  let* body := analyze_op env_lookup (lam_body lp) in
  ret (Lambda_Expr body (lam_nargs lp) (lam_nslots lp)).

(** ** Definition variants *)

Section Definitions.
Context {S : Type}.
Variable NDEBUG : bool.

(** [Data_Definition::analyze] and [Function_Definition::analyze]: the
    result is the definition as the analysis leaves it. *)
Definition Definition_analyze (env_lookup : Identifier → M S Meaning)
    (d : Unitary_Definition) : M S Unitary_Definition :=
  match d with
  | Data_Definition s n slot ph _ =>
      let* e := analyze_op env_lookup ph in
      ret (Data_Definition s n slot ph e)
  | Function_Definition s n slot lp _ =>
      (* lambda_phrase_->shared_nonlocals_ = true: free variables of the
         body go to the environment's own lookup *)
      let* expr := analyze_lambda env_lookup lp in
      match expr with
      | Lambda_Expr body nargs nslots =>
          ret (Function_Definition s n slot lp (Some (mkLambda body nargs nslots)))
      | _ =>
          let* _ := assert_ NDEBUG 41 false in undefined
      end
  end.

(** [Data_Definition::make_setter] and [Function_Definition::make_setter]. *)
Definition make_setter (d : Unitary_Definition) (module_slot : option slot_t)
  : M S Meaning :=
  match d with
  | Data_Definition s _ slot _ e =>
      match module_slot with
      | Some ms => ret (Module_Data_Setter s (Some ms) slot e)
      | None => ret (Data_Setter s slot e false)
      end
  | Function_Definition _ _ _ _ _ =>
      let* _ := assert_ NDEBUG 56 false in
      ret Nullptr
  end.

(** The interface of a scope, as [add_to_scope] uses it.  Definitions are
    values here, so [begin_unit] hands back the definition as its analysis
    left it and [end_unit] receives it with its slot assigned. *)
Class Scope := {
  add_action : Phrase → M S unit;
  begin_unit : Unitary_Definition → M S (nat * Unitary_Definition);
  add_binding : Identifier → nat → M S slot_t;
  end_unit : nat → Unitary_Definition → M S unit
}.

Context `{!Scope}.

(** [Data_Definition::add_to_scope] and [Function_Definition::add_to_scope]
    (the same code). *)
Definition Unitary_add_to_scope (d : Unitary_Definition) : M S unit :=
  let* r := begin_unit d in
  let* slot := add_binding (name_of r.2) r.1 in
  end_unit r.1 (set_slot slot r.2).

(** [Compound_Definition_Base::add_to_scope], with the virtual call on each
    nested definition. *)
Fixpoint add_to_scope (def : Abstract_Definition) : M S unit :=
  match def with
  | Unitary _ d => Unitary_add_to_scope d
  | Compound _ _ elements =>
      (fix each (es : list (Phrase * option Abstract_Definition)) : M S unit :=
         match es with
         | [] => ret tt
         | (phrase_, None) :: es' => let* _ := add_action phrase_ in each es'
         | (_, Some definition_) :: es' => let* _ := add_to_scope definition_ in each es'
         end) elements
  end.
End Definitions.

(** Modelled from the spec: [Environ::lookup] (declared outside definition.cc)
    asks the scope first and then the chain of enclosing environments; a name
    that none of them defines is an error.  The enclosing environments are a
    parameter: a state of their own and a lookup that may change it. *)
Section Environ.
Context {S Parent : Type}.
Variable parent_lookup : Identifier → Parent → option Meaning * Parent.
Variable get_parent : S → Parent.
Variable set_parent : Parent → S → S.

Definition parent_chain_lookup (id : Identifier) : M S Meaning :=
  λ st, let r := parent_lookup id (get_parent st) in
        match r.1 with
        | Some m => (Returns m, set_parent r.2 st)
        | None => (Fails (Throws (Not_defined id)), set_parent r.2 st)
        end.

Definition Environ_lookup (single_lookup : Identifier → M S (option Meaning))
    (id : Identifier) : M S Meaning :=
  let* m := single_lookup id in
  match m with
  | Some m => ret m
  | None => parent_chain_lookup id
  end.
End Environ.

(** ** Sequential scope *)

Module Sequential_Scope.
Section Sequential.
Variable NDEBUG : bool.
Variable Parent : Type.
Variable parent_lookup : Identifier → Parent → option Meaning * Parent.

(** The members of [Environ], [Scope] and [Sequential_Scope], and those of
    the executable the scope writes to. *)
Record t := mk {
  parent_ : Parent;
  parent_frame_maxslots_ : nat;
  frame_nslots_ : nat;
  frame_maxslots_ : nat;
  target_is_module_ : bool;
  actions_ : list Meaning;
  module_slot_ : option slot_t;
  module_dictionary_ : option (gmap string slot_t);
  dictionary_ : gmap string slot_t
}.

Definition set_parent (p : Parent) (sc : t) : t :=
  mk p (parent_frame_maxslots_ sc) (frame_nslots_ sc) (frame_maxslots_ sc)
     (target_is_module_ sc) (actions_ sc) (module_slot_ sc)
     (module_dictionary_ sc) (dictionary_ sc).
Definition set_parent_frame_maxslots (n : nat) (sc : t) : t :=
  mk (parent_ sc) n (frame_nslots_ sc) (frame_maxslots_ sc)
     (target_is_module_ sc) (actions_ sc) (module_slot_ sc)
     (module_dictionary_ sc) (dictionary_ sc).
Definition set_frame (nslots maxslots : nat) (sc : t) : t :=
  mk (parent_ sc) (parent_frame_maxslots_ sc) nslots maxslots
     (target_is_module_ sc) (actions_ sc) (module_slot_ sc)
     (module_dictionary_ sc) (dictionary_ sc).
Definition set_actions (a : list Meaning) (sc : t) : t :=
  mk (parent_ sc) (parent_frame_maxslots_ sc) (frame_nslots_ sc) (frame_maxslots_ sc)
     (target_is_module_ sc) a (module_slot_ sc)
     (module_dictionary_ sc) (dictionary_ sc).
Definition set_module_dictionary (d : option (gmap string slot_t)) (sc : t) : t :=
  mk (parent_ sc) (parent_frame_maxslots_ sc) (frame_nslots_ sc) (frame_maxslots_ sc)
     (target_is_module_ sc) (actions_ sc) (module_slot_ sc)
     d (dictionary_ sc).
Definition set_dictionary (d : gmap string slot_t) (sc : t) : t :=
  mk (parent_ sc) (parent_frame_maxslots_ sc) (frame_nslots_ sc) (frame_maxslots_ sc)
     (target_is_module_ sc) (actions_ sc) (module_slot_ sc)
     (module_dictionary_ sc) d.

(** Modelled from the spec: [Scope::make_slot] (declared outside
    definition.cc) hands out the next frame offset and keeps the frame's
    high-water mark. *)
Definition make_slot : M t slot_t :=
  let* sc := get in
  let slot := frame_nslots_ sc in
  let* _ := modify (set_frame (Datatypes.S slot) (frame_maxslots_ sc `max` Datatypes.S slot)) in
  ret slot.

Definition single_lookup (id : Identifier) : M t (option Meaning) :=
  let* sc := get in
  match dictionary_ sc !! atom_ id with
  | Some slot =>
      if target_is_module_ sc
      then ret (Some (Indirect_Strict_Ref id (module_slot_ sc) slot))
      else ret (Some (Let_Ref id slot))
  | None => ret None
  end.

Definition lookup : Identifier → M t Meaning :=
  Environ_lookup parent_lookup parent_ set_parent single_lookup.

Definition add_action (phrase : Phrase) : M t unit :=
  let* op := analyze_op lookup phrase in
  modify (λ sc, set_actions (push_back (actions_ sc) op) sc).

Definition begin_unit (def : Unitary_Definition) : M t (nat * Unitary_Definition) :=
  let* def' := Definition_analyze NDEBUG lookup def in
  ret (0, def').

Definition add_binding (name : Identifier) (unitno : nat) : M t slot_t :=
  let* sc := get in
  if decide (is_Some (dictionary_ sc !! atom_ name))
  then throw (Multiply_defined (atom_ name))
  else
    let* slot := (if target_is_module_ sc then ret (size (dictionary_ sc))
                  else make_slot) in
    let* _ := modify (λ sc, set_dictionary (<[atom_ name := slot]> (dictionary_ sc)) sc) in
    ret slot.

Definition end_unit (unitno : nat) (def : Unitary_Definition) : M t unit :=
  let* sc := get in
  let* op := make_setter NDEBUG def (module_slot_ sc) in
  modify (λ sc, set_actions (push_back (actions_ sc) op) sc).

#[local] Instance scope : Scope :=
  Build_Scope add_action begin_unit add_binding end_unit.

Definition analyze (def : Abstract_Definition) : M t unit :=
  let* _ := assert_ NDEBUG 73
              (bool_decide (def_kind def = k_sequential)) in
  let* _ := add_to_scope def in
  let* _ := modify (λ sc, set_parent_frame_maxslots (frame_maxslots_ sc) sc) in
  let* sc := get in
  if target_is_module_ sc
  then modify (set_module_dictionary (Some (dictionary_ sc)))
  else ret tt.
End Sequential.

Arguments parent_ {Parent}.
Arguments parent_frame_maxslots_ {Parent}.
Arguments frame_nslots_ {Parent}.
Arguments frame_maxslots_ {Parent}.
Arguments target_is_module_ {Parent}.
Arguments actions_ {Parent}.
Arguments module_slot_ {Parent}.
Arguments module_dictionary_ {Parent}.
Arguments dictionary_ {Parent}.
Arguments mk {Parent}.
Arguments set_parent {Parent}.
Arguments set_parent_frame_maxslots {Parent}.
Arguments set_frame {Parent}.
Arguments set_actions {Parent}.
Arguments set_module_dictionary {Parent}.
Arguments set_dictionary {Parent}.
Arguments make_slot {Parent}.
Arguments single_lookup {Parent}.
Arguments lookup {Parent}.
Arguments add_action {Parent}.
Arguments begin_unit NDEBUG {Parent}.
Arguments add_binding {Parent}.
Arguments end_unit NDEBUG {Parent}.
Arguments scope NDEBUG {Parent}.
Arguments analyze NDEBUG {Parent}.
End Sequential_Scope.

(** ** Recursive scope *)

Module Recursive_Scope.
Section Recursive.
Variable NDEBUG : bool.
Variable Parent : Type.
Variable parent_lookup : Identifier → Parent → option Meaning * Parent.

Inductive Unit_State := k_not_analyzed | k_analysis_in_progress | k_analyzed.

#[global] Instance Unit_State_eq_dec : EqDecision Unit_State.
Proof. solve_decision. Defined.

(** A unit: the definition with its cycle-detection state.  [scc_ord_] and
    [scc_lowlink_] are read only after [analyze_unit] has set them. *)
Record Unit := mkUnit {
  def_ : Unitary_Definition;
  state_ : Unit_State;
  scc_ord_ : nat;
  scc_lowlink_ : nat;
  nonlocals_ : gmap string Meaning
}.

Definition is_data (u : Unit) : bool := is_data_def (def_ u).

Record Binding := mkBinding { slot_index_ : slot_t; unit_index_ : nat }.

(** The members of [Environ], [Scope] and [Recursive_Scope], and those of
    the executable the scope writes to.  The two stacks hold units by their
    index in [units_]. *)
Record t := mk {
  parent_ : Parent;
  parent_frame_maxslots_ : nat;
  frame_nslots_ : nat;
  frame_maxslots_ : nat;
  target_is_module_ : bool;
  actions_ : list Meaning;
  module_slot_ : option slot_t;
  module_dictionary_ : option (gmap string slot_t);
  source_ : Location;
  dictionary_ : gmap string Binding;
  action_phrases_ : list Phrase;
  units_ : list Unit;
  scc_count_ : nat;
  scc_stack_ : list nat;
  analysis_stack_ : list nat
}.

Definition set_parent (x : Parent) (sc : t) : t :=
  mk x (parent_frame_maxslots_ sc) (frame_nslots_ sc) (frame_maxslots_ sc)
    (target_is_module_ sc) (actions_ sc) (module_slot_ sc)
    (module_dictionary_ sc) (source_ sc) (dictionary_ sc) (action_phrases_
    sc) (units_ sc) (scc_count_ sc) (scc_stack_ sc) (analysis_stack_ sc).
Definition set_parent_frame_maxslots (x : nat) (sc : t) : t :=
  mk (parent_ sc) x (frame_nslots_ sc) (frame_maxslots_ sc)
    (target_is_module_ sc) (actions_ sc) (module_slot_ sc)
    (module_dictionary_ sc) (source_ sc) (dictionary_ sc) (action_phrases_
    sc) (units_ sc) (scc_count_ sc) (scc_stack_ sc) (analysis_stack_ sc).
Definition set_frame_nslots (x : nat) (sc : t) : t :=
  mk (parent_ sc) (parent_frame_maxslots_ sc) x (frame_maxslots_ sc)
    (target_is_module_ sc) (actions_ sc) (module_slot_ sc)
    (module_dictionary_ sc) (source_ sc) (dictionary_ sc) (action_phrases_
    sc) (units_ sc) (scc_count_ sc) (scc_stack_ sc) (analysis_stack_ sc).
Definition set_frame_maxslots (x : nat) (sc : t) : t :=
  mk (parent_ sc) (parent_frame_maxslots_ sc) (frame_nslots_ sc) x
    (target_is_module_ sc) (actions_ sc) (module_slot_ sc)
    (module_dictionary_ sc) (source_ sc) (dictionary_ sc) (action_phrases_
    sc) (units_ sc) (scc_count_ sc) (scc_stack_ sc) (analysis_stack_ sc).
Definition set_actions (x : list Meaning) (sc : t) : t :=
  mk (parent_ sc) (parent_frame_maxslots_ sc) (frame_nslots_ sc)
    (frame_maxslots_ sc) (target_is_module_ sc) x (module_slot_ sc)
    (module_dictionary_ sc) (source_ sc) (dictionary_ sc) (action_phrases_
    sc) (units_ sc) (scc_count_ sc) (scc_stack_ sc) (analysis_stack_ sc).
Definition set_module_dictionary (x : option (gmap string slot_t)) (sc : t) : t :=
  mk (parent_ sc) (parent_frame_maxslots_ sc) (frame_nslots_ sc)
    (frame_maxslots_ sc) (target_is_module_ sc) (actions_ sc) (module_slot_
    sc) x (source_ sc) (dictionary_ sc) (action_phrases_ sc) (units_ sc)
    (scc_count_ sc) (scc_stack_ sc) (analysis_stack_ sc).
Definition set_source (x : Location) (sc : t) : t :=
  mk (parent_ sc) (parent_frame_maxslots_ sc) (frame_nslots_ sc)
    (frame_maxslots_ sc) (target_is_module_ sc) (actions_ sc) (module_slot_
    sc) (module_dictionary_ sc) x (dictionary_ sc) (action_phrases_ sc)
    (units_ sc) (scc_count_ sc) (scc_stack_ sc) (analysis_stack_ sc).
Definition set_dictionary (x : gmap string Binding) (sc : t) : t :=
  mk (parent_ sc) (parent_frame_maxslots_ sc) (frame_nslots_ sc)
    (frame_maxslots_ sc) (target_is_module_ sc) (actions_ sc) (module_slot_
    sc) (module_dictionary_ sc) (source_ sc) x (action_phrases_ sc) (units_
    sc) (scc_count_ sc) (scc_stack_ sc) (analysis_stack_ sc).
Definition set_action_phrases (x : list Phrase) (sc : t) : t :=
  mk (parent_ sc) (parent_frame_maxslots_ sc) (frame_nslots_ sc)
    (frame_maxslots_ sc) (target_is_module_ sc) (actions_ sc) (module_slot_
    sc) (module_dictionary_ sc) (source_ sc) (dictionary_ sc) x (units_ sc)
    (scc_count_ sc) (scc_stack_ sc) (analysis_stack_ sc).
Definition set_units (x : list Unit) (sc : t) : t :=
  mk (parent_ sc) (parent_frame_maxslots_ sc) (frame_nslots_ sc)
    (frame_maxslots_ sc) (target_is_module_ sc) (actions_ sc) (module_slot_
    sc) (module_dictionary_ sc) (source_ sc) (dictionary_ sc)
    (action_phrases_ sc) x (scc_count_ sc) (scc_stack_ sc) (analysis_stack_
    sc).
Definition set_scc_count (x : nat) (sc : t) : t :=
  mk (parent_ sc) (parent_frame_maxslots_ sc) (frame_nslots_ sc)
    (frame_maxslots_ sc) (target_is_module_ sc) (actions_ sc) (module_slot_
    sc) (module_dictionary_ sc) (source_ sc) (dictionary_ sc)
    (action_phrases_ sc) (units_ sc) x (scc_stack_ sc) (analysis_stack_ sc).
Definition set_scc_stack (x : list nat) (sc : t) : t :=
  mk (parent_ sc) (parent_frame_maxslots_ sc) (frame_nslots_ sc)
    (frame_maxslots_ sc) (target_is_module_ sc) (actions_ sc) (module_slot_
    sc) (module_dictionary_ sc) (source_ sc) (dictionary_ sc)
    (action_phrases_ sc) (units_ sc) (scc_count_ sc) x (analysis_stack_ sc).
Definition set_analysis_stack (x : list nat) (sc : t) : t :=
  mk (parent_ sc) (parent_frame_maxslots_ sc) (frame_nslots_ sc)
    (frame_maxslots_ sc) (target_is_module_ sc) (actions_ sc) (module_slot_
    sc) (module_dictionary_ sc) (source_ sc) (dictionary_ sc)
    (action_phrases_ sc) (units_ sc) (scc_count_ sc) (scc_stack_ sc) x.

Definition set_def (d : Unitary_Definition) (u : Unit) : Unit :=
  mkUnit d (state_ u) (scc_ord_ u) (scc_lowlink_ u) (nonlocals_ u).
Definition set_state (s : Unit_State) (u : Unit) : Unit :=
  mkUnit (def_ u) s (scc_ord_ u) (scc_lowlink_ u) (nonlocals_ u).
Definition set_scc (ord lowlink : nat) (u : Unit) : Unit :=
  mkUnit (def_ u) (state_ u) ord lowlink (nonlocals_ u).
Definition set_lowlink (lowlink : nat) (u : Unit) : Unit :=
  mkUnit (def_ u) (state_ u) (scc_ord_ u) lowlink (nonlocals_ u).
Definition set_nonlocals (n : gmap string Meaning) (u : Unit) : Unit :=
  mkUnit (def_ u) (state_ u) (scc_ord_ u) (scc_lowlink_ u) n.

(** [units_[ui]]; an index outside the vector is undefined behaviour. *)
Definition get_unit (ui : nat) : M t Unit :=
  let* sc := get in
  match units_ sc !! ui with
  | Some u => ret u
  | None => undefined
  end.

Definition update_unit (ui : nat) (f : Unit → Unit) : M t unit :=
  modify (λ sc, set_units (alter f ui (units_ sc)) sc).

Definition push_action (op : Meaning) : M t unit :=
  modify (λ sc, set_actions (push_back (actions_ sc) op) sc).

(** Modelled from the spec: [Scope::make_slot] (declared outside
    definition.cc) hands out the next frame offset and keeps the frame's
    high-water mark. *)
Definition make_slot : M t slot_t :=
  let* sc := get in
  let slot := frame_nslots_ sc in
  let* _ := modify (λ sc, set_frame_maxslots (frame_maxslots_ sc `max` S slot)
                            (set_frame_nslots (S slot) sc)) in
  ret slot.

(** *** Grouped initializer *)

(** The shared nonlocals under construction: the dictionary, the
    expressions and the next free slot of the enumeration. *)
Record Enumeration := mkEnumeration {
  nonlocal_dictionary : gmap string slot_t;
  nonlocal_exprs : list Meaning;
  next_slot : slot_t
}.

Definition enter (name : string) (expr : Meaning) (e : Enumeration) : Enumeration :=
  mkEnumeration (<[name := next_slot e]> (nonlocal_dictionary e))
                (push_back (nonlocal_exprs e) expr)
                (S (next_slot e)).

(** First loop of [make_function_setter]: every member must be a function;
    its lambda is entered as a constant under its own name. *)
Fixpoint enter_functions (units : list Unit)
    (funs : list (slot_t * option Lambda)) (e : Enumeration)
  : Exception + list (slot_t * option Lambda) * Enumeration :=
  match units with
  | [] => inr (funs, e)
  | u :: units' =>
      match def_ u with
      | Function_Definition _ name slot lp lambda =>
          enter_functions units' (push_back funs (slot, lambda))
            (enter (atom_ name) (Constant (lam_loc lp) (Lambda_Value lambda)) e)
      | Data_Definition source _ _ _ _ =>
          inl (Recursive_data_definition source)
      end
  end.

(** Modelled from the spec: the captures of a unit are "a mapping from
    captured free-variable name to its resolved expression" ([nonlocals_], a
    map declared outside definition.cc).  The loop of lines 259-264 visits
    the map in the increasing order of its keys, every key once; atoms are
    compared as strings. *)
Definition atom_le (a b : string) : Prop := String.leb a b = true.

#[global] Instance atom_le_dec a b : Decision (atom_le a b).
Proof. unfold atom_le. apply _. Defined.

Definition capture_le (a b : string * Meaning) : Prop := atom_le a.1 b.1.

#[global] Instance capture_le_dec a b : Decision (capture_le a b).
Proof. unfold capture_le. apply _. Defined.

Definition captures_in_order (u : Unit) : list (string * Meaning) :=
  merge_sort capture_le (map_to_list (nonlocals_ u)).

(** Second loop: the captures of each member, in the order of the map,
    unless the name is already in the enumeration. *)
Definition enter_capture (e : Enumeration) (b : string * Meaning) : Enumeration :=
  if decide (is_Some (nonlocal_dictionary e !! b.1)) then e
  else enter b.1 b.2 e.

Definition enter_captures (e : Enumeration) (u : Unit) : Enumeration :=
  foldl enter_capture e (captures_in_order u).

Definition make_function_setter (group : list nat) : M t Meaning :=
  let* sc := get in
  let* units := mapM get_unit group in
  let source :=
    match units with
    | [u] => source_of (def_ u)
    | _ => source_ sc
    end in
  match enter_functions units [] (mkEnumeration ∅ [] 0) with
  | inl e => throw e
  | inr (funs, e) =>
      let e' := foldl enter_captures e units in
      let nonlocals :=
        Enum_Module_Expr source (nonlocal_dictionary e') (nonlocal_exprs e') in
      ret (Function_Setter source (module_slot_ sc) nonlocals funs)
  end.

(** *** Per-unit analysis *)

(** The index that the scan [while (ui < size && scc_stack_[ui] != &unit)]
    stops at. *)
Fixpoint scan (ui : nat) (stack : list nat) : nat :=
  match stack with
  | [] => 0
  | x :: stack' => if decide (x = ui) then 0 else S (scan ui stack')
  end.

(** The [do ... while (u != &unit)] loop that retires a component; it runs
    at most once per stack entry, which [n] counts. *)
Fixpoint pop_component (n : nat) (ui : nat) : M t unit :=
  let* sc := get in
  let* _ := assert_ NDEBUG 227 (bool_decide (0 < length (scc_stack_ sc))) in
  match back (scc_stack_ sc) with
  | None => undefined
  | Some u =>
      let* _ := modify (set_scc_stack (pop_back (scc_stack_ sc))) in
      let* popped := get_unit u in
      let* unit := get_unit ui in
      let* _ := assert_ NDEBUG 230
                  (bool_decide (scc_ord_ popped = scc_ord_ unit)) in
      let* _ := update_unit u (set_state k_analyzed) in
      if decide (u = ui) then ret tt
      else match n with
           | 0 => out_of_fuel
           | S n' => pop_component n' ui
           end
  end.

(** The exception "illegal recursive reference" is located at the phrase
    that [id] points to; [id] is null in the calls that
    [Recursive_Scope::analyze] makes, and reading through it is undefined. *)
Definition illegal_recursive_reference {A} (id : option Identifier) : M t A :=
  match id with
  | Some i => throw (Illegal_recursive_reference i)
  | None => undefined
  end.

(** Lines 174-183: after the body of [ui], pass its lowlink to the unit
    that is now on top of the analysis stack. *)
Definition propagate (ui : nat) (id : option Identifier) : M t unit :=
  let* sc := get in
  match back (analysis_stack_ sc) with
  | None => ret tt
  | Some parent =>
      let* unit := get_unit ui in
      let* p := get_unit parent in
      if decide (scc_lowlink_ unit < scc_lowlink_ p) then
        let* _ := update_unit parent (set_lowlink (scc_lowlink_ unit)) in
        if is_data unit then illegal_recursive_reference id
        else ret tt
      else ret tt
  end.

(** Lines 205-234: if [ui] is the lowest unit of its component, output the
    initialization action of the component. *)
Definition output_component (ui : nat) : M t unit :=
  let* unit := get_unit ui in
  if decide (scc_lowlink_ unit = scc_ord_ unit) then
    let* sc := get in
    if is_data unit then
      let* _ := assert_ NDEBUG 209
                  (bool_decide (back (scc_stack_ sc) = Some ui)) in
      match scc_stack_ sc with
      | [] => undefined
      | _ =>
          let* _ := modify (set_scc_stack (pop_back (scc_stack_ sc))) in
          let* _ := update_unit ui (set_state k_analyzed) in
          let* op := make_setter NDEBUG (def_ unit) (module_slot_ sc) in
          push_action op
      end
    else
      let pos := scan ui (scc_stack_ sc) in
      match scc_stack_ sc !! pos with
      | None => undefined
      | Some _ =>
          let* op := make_function_setter (drop pos (scc_stack_ sc)) in
          let* _ := push_action op in
          pop_component (length (scc_stack_ sc)) ui
      end
  else ret tt.

Section Step.
(** The recursive call, one level down. *)
Variable analyze_unit : nat → option Identifier → M t unit.

Definition single_lookup (id : Identifier) : M t (option Meaning) :=
  let* sc := get in
  match dictionary_ sc !! atom_ id with
  | Some b =>
      let* _ := analyze_unit (unit_index_ b) (Some id) in
      if target_is_module_ sc
      then ret (Some (Indirect_Strict_Ref id (module_slot_ sc) (slot_index_ b)))
      else ret (Some (Let_Ref id (slot_index_ b)))
  | None => ret None
  end.

Definition lookup : Identifier → M t Meaning :=
  Environ_lookup parent_lookup parent_ set_parent single_lookup.

(** [Function_Environ::single_lookup], for the environment of unit
    [unit_].  It never returns null, so it is also the environment's
    [lookup]. *)
Definition Function_Environ_single_lookup (unit_ : nat) (id : Identifier)
  : M t Meaning :=
  let* m := lookup id in
  if isa_Constant m then ret m
  else if isa_Operation m then
    let* _ := update_unit unit_
                (λ u, set_nonlocals (<[atom_ id := m]> (nonlocals_ u)) u) in
    ret (Symbolic_Ref id)
  else ret m.

Definition analyze_unit_step (ui : nat) (id : option Identifier) : M t unit :=
  let* unit := get_unit ui in
  match state_ unit with
  | k_not_analyzed =>
      let* sc := get in
      let* _ := update_unit ui (λ u, set_scc (scc_count_ sc) (scc_count_ sc)
                                       (set_state k_analysis_in_progress u)) in
      let* _ := modify (λ sc, set_scc_count (S (scc_count_ sc)) sc) in
      let* _ := modify (λ sc, set_scc_stack (push_back (scc_stack_ sc) ui) sc) in
      let* _ := modify (λ sc, set_analysis_stack
                                (push_back (analysis_stack_ sc) ui) sc) in
      let* _ :=
        (if is_data unit then
           let* def' := Definition_analyze NDEBUG lookup (def_ unit) in
           update_unit ui (set_def def')
         else
           let* fenv := get in
           let* def' := Definition_analyze NDEBUG
                          (Function_Environ_single_lookup ui) (def_ unit) in
           let* _ := update_unit ui (set_def def') in
           modify (λ sc, set_frame_maxslots
                           (frame_maxslots_ sc `max` frame_maxslots_ fenv) sc)) in
      let* _ := modify (λ sc, set_analysis_stack
                                (pop_back (analysis_stack_ sc)) sc) in
      let* _ := propagate ui id in
      output_component ui
  | k_analysis_in_progress =>
      if is_data unit then illegal_recursive_reference id
      else
        let* sc := get in
        let* _ := assert_ NDEBUG 192
                    (bool_decide (analysis_stack_ sc ≠ [])) in
        match back (analysis_stack_ sc) with
        | None => undefined
        | Some parent =>
            update_unit parent
              (λ p, set_lowlink (scc_lowlink_ p `min` scc_ord_ unit) p)
        end
  | k_analyzed => ret tt
  end.
End Step.

Fixpoint analyze_unit (fuel : nat) (ui : nat) (id : option Identifier) : M t unit :=
  match fuel with
  | 0 => out_of_fuel
  | S fuel' => analyze_unit_step (analyze_unit fuel') ui id
  end.

(** *** Registration *)

Definition add_action (phrase : Phrase) : M t unit :=
  modify (λ sc, set_action_phrases (push_back (action_phrases_ sc) phrase) sc).

Definition begin_unit (def : Unitary_Definition) : M t (nat * Unitary_Definition) :=
  let* _ := modify (λ sc, set_units
              (push_back (units_ sc) (mkUnit def k_not_analyzed 0 0 ∅)) sc) in
  let* sc := get in
  ret (length (units_ sc) - 1, def).

Definition add_binding (name : Identifier) (unitno : nat) : M t slot_t :=
  let* sc := get in
  if decide (is_Some (dictionary_ sc !! atom_ name))
  then throw (Multiply_defined (atom_ name))
  else
    let* slot := (if target_is_module_ sc then ret (size (dictionary_ sc))
                  else make_slot) in
    let* _ := modify (λ sc, set_dictionary
                (<[atom_ name := mkBinding slot unitno]> (dictionary_ sc)) sc) in
    ret slot.

(** [end_unit] has an empty body.  The unit shares its definition with the
    caller, which has just assigned [slot_]; with definitions as values the
    assignment has to be copied into the unit. *)
Definition end_unit (unitno : nat) (def : Unitary_Definition) : M t unit :=
  update_unit unitno (set_def def).

#[local] Instance scope : Scope :=
  Build_Scope add_action begin_unit add_binding end_unit.

(** *** Top-level analysis *)

(** Analysis of a unit started from the top level: the budget covers every
    unit of the scope. *)
Definition fuel_of (sc : t) : nat := S (length (units_ sc)).

(** The body of the loop of lines 133-136. *)
Definition force_unit (fuel : nat) (ui : nat) : M t unit :=
  let* unit := get_unit ui in
  if decide (state_ unit = k_not_analyzed)
  then analyze_unit fuel ui None
  else ret tt.

Definition analyze (def : Abstract_Definition) : M t unit :=
  let* _ := assert_ NDEBUG 126 (bool_decide (def_kind def = k_recursive)) in
  let* _ := modify (set_source (def_source def)) in
  let* _ := add_to_scope def in
  let* sc := get in
  let* _ := forM_ (action_phrases_ sc) (λ a,
              let* op := analyze_op (lookup (analyze_unit (fuel_of sc))) a in
              push_action op) in
  let* _ := forM_ (seq 0 (length (units_ sc))) (force_unit (fuel_of sc)) in
  let* _ := modify (λ sc, set_parent_frame_maxslots (frame_maxslots_ sc) sc) in
  if target_is_module_ sc
  then modify (λ sc, set_module_dictionary
                       (Some (slot_index_ <$> dictionary_ sc)) sc)
  else ret tt.

(** Modelled from the spec: the constructor of [Recursive_Scope] is
    declared outside definition.cc; a new scope has registered nothing and
    emitted nothing. *)
Definition new_scope (parent : Parent) (target_is_module : bool)
    (module_slot : option slot_t) (frame_nslots frame_maxslots : nat) : t :=
  mk parent frame_maxslots frame_nslots frame_maxslots target_is_module []
     module_slot None 0 ∅ [] [] 0 [] [].
End Recursive.

Arguments single_lookup {Parent}.
Arguments lookup {Parent}.
Arguments Function_Environ_single_lookup {Parent}.
Arguments analyze_unit_step NDEBUG {Parent}.
Arguments analyze_unit NDEBUG {Parent}.
Arguments output_component NDEBUG {Parent}.
Arguments pop_component NDEBUG {Parent}.
Arguments analyze NDEBUG {Parent}.
Arguments force_unit NDEBUG {Parent}.
Arguments scope {Parent}.
Arguments parent_ {Parent}.
Arguments parent_frame_maxslots_ {Parent}.
Arguments frame_nslots_ {Parent}.
Arguments frame_maxslots_ {Parent}.
Arguments target_is_module_ {Parent}.
Arguments actions_ {Parent}.
Arguments module_slot_ {Parent}.
Arguments module_dictionary_ {Parent}.
Arguments source_ {Parent}.
Arguments dictionary_ {Parent}.
Arguments action_phrases_ {Parent}.
Arguments units_ {Parent}.
Arguments scc_count_ {Parent}.
Arguments scc_stack_ {Parent}.
Arguments analysis_stack_ {Parent}.
Arguments set_parent {Parent}.
Arguments set_parent_frame_maxslots {Parent}.
Arguments set_frame_nslots {Parent}.
Arguments set_frame_maxslots {Parent}.
Arguments set_actions {Parent}.
Arguments set_module_dictionary {Parent}.
Arguments set_source {Parent}.
Arguments set_dictionary {Parent}.
Arguments set_action_phrases {Parent}.
Arguments set_units {Parent}.
Arguments set_scc_count {Parent}.
Arguments set_scc_stack {Parent}.
Arguments set_analysis_stack {Parent}.
Arguments mk {Parent}.
Arguments get_unit {Parent}.
Arguments update_unit {Parent}.
Arguments push_action {Parent}.
Arguments make_slot {Parent}.
Arguments make_function_setter {Parent}.
Arguments propagate {Parent}.
Arguments illegal_recursive_reference {Parent A}.
Arguments add_action {Parent}.
Arguments begin_unit {Parent}.
Arguments add_binding {Parent}.
Arguments end_unit {Parent}.
Arguments fuel_of {Parent}.
Arguments new_scope {Parent}.
End Recursive_Scope.

(** * Tarjan's algorithm on the cycle-detection state *)

Module SCC.
Import Recursive_Scope.

(** ** The state

    The cycle-detection state of a scope, without the members the ordering
    argument does not depend on (the analyzed expressions, the captures, the
    frame and the enclosing environments). *)

Record View := mkView {
  v_data : bool;
  v_name : Identifier;
  v_slot : slot_t;
  v_ids : list Identifier;
  v_state : Unit_State;
  v_ord : nat;
  v_low : nat
}.

Definition view (u : Unit) : View :=
  mkView (is_data u) (name_of (def_ u)) (slot_of (def_ u)) (ids_of (def_ u))
         (state_ u) (scc_ord_ u) (scc_lowlink_ u).

Record Tarjan := mkTarjan {
  views : list View;
  dict : gmap string Binding;
  sstack : list nat;
  astack : list nat;
  count : nat;
  acts : list Meaning
}.

Definition v_static (v : View) : bool * Identifier * slot_t * list Identifier :=
  (v_data v, v_name v, v_slot v, v_ids v).

Definition state_of (T : Tarjan) (i : nat) : option Unit_State :=
  v_state <$> views T !! i.
Definition ord (T : Tarjan) (i : nat) : nat := default 0 (v_ord <$> views T !! i).
Definition low (T : Tarjan) (i : nat) : nat := default 0 (v_low <$> views T !! i).
Definition slot (T : Tarjan) (i : nat) : slot_t :=
  default 0 (v_slot <$> views T !! i).
Definition is_fun (T : Tarjan) (i : nat) : Prop :=
  v_data <$> views T !! i = Some false.

(** The dependency graph: unit [u] depends on unit [v] when the definition of
    [u] refers to a name that the scope binds to [v]. *)
Definition edge (T : Tarjan) (u v : nat) : Prop :=
  ∃ vu id b, views T !! u = Some vu ∧ id ∈ v_ids vu ∧
             dict T !! atom_ id = Some b ∧ unit_index_ b = v.

Definition reach (T : Tarjan) : nat → nat → Prop := rtc (edge T).

(** What a unit's analysis knows of a unit it has looked up: it is
    initialized already, or it is still in progress and the lowlink [l]
    accounts for it. *)
Definition looked (T : Tarjan) (v : nat) (l : nat) : Prop :=
  state_of T v = Some k_analyzed ∨
  (state_of T v = Some k_analysis_in_progress ∧ l ≤ ord T v).

(** The number of times the actions write slot [s]. *)
Definition count_writes (s : slot_t) (l : list Meaning) : nat :=
  length (filter (λ x, x = s) (l ≫= writes)).

(** Action number [i] writes slot [s]. *)
Definition writer (T : Tarjan) (s : slot_t) (i : nat) : Prop :=
  ∃ a, acts T !! i = Some a ∧ s ∈ writes a.

Definition notan (T : Tarjan) : nat :=
  length (filter (λ v, v_state v = k_not_analyzed) (views T)).

(** Registration leaves the dictionary and the units in step. *)
Record WF (T : Tarjan) : Prop := {
  wf_dict : ∀ name b, dict T !! name = Some b →
    ∃ v, views T !! unit_index_ b = Some v ∧ atom_ (v_name v) = name ∧
         v_slot v = slot_index_ b;
  wf_units : ∀ i v, views T !! i = Some v →
    dict T !! atom_ (v_name v) = Some (mkBinding (v_slot v) i);
  wf_slots : ∀ i j vi vj, views T !! i = Some vi → views T !! j = Some vj →
    v_slot vi = v_slot vj → i = j
}.

(** Two states with the same definitions and dictionary. *)
Definition same_static (T T' : Tarjan) : Prop :=
  v_static <$> views T' = v_static <$> views T ∧ dict T' = dict T.

(** The scope as registration left it, when the analysis starts. *)
Class Initial := initial : Tarjan.

Section Invariant.
Context {Hinitial : Initial}.

(** What holds of the emitted actions at any time, also when the analysis
    has failed: a slot is written once its unit is analyzed and not before,
    and an analyzed unit's dependencies were written before it, or with it by
    the same grouped setter. *)
Record Emitted (T : Tarjan) : Prop := {
  e_wf : WF T;
  e_written : ∀ i v, views T !! i = Some v →
    count_writes (v_slot v) (acts T) = if decide (v_state v = k_analyzed) then 1 else 0;
  e_topo : ∀ u v, state_of T u = Some k_analyzed → edge T u v →
    state_of T v = Some k_analyzed ∧
    ∃ i j a, acts T !! i = Some a ∧ slot T u ∈ writes a ∧ writer T (slot T v) j ∧
             (j < i ∨ (j = i ∧ isa_Function_Setter a = true));
  e_tie : ∀ u v i j, state_of T u = Some k_analyzed → state_of T v = Some k_analyzed →
    writer T (slot T u) i → writer T (slot T v) j → j < i → ord T u < ord T v →
    reach T u v;
  e_scc : ∀ u v i, state_of T u = Some k_analyzed → state_of T v = Some k_analyzed →
    writer T (slot T u) i → writer T (slot T v) i → reach T u v;
  e_stmt : ∀ i ph ms id b, acts T !! i = Some (Generic_Op ph ms) →
    id ∈ ph_ids ph → dict T !! atom_ id = Some b →
    ∃ j, j < i ∧ writer T (slot_index_ b) j;
  e_fun : ∀ u i a, state_of T u = Some k_analyzed → acts T !! i = Some a →
    slot T u ∈ writes a → isa_Function_Setter a = true → is_fun T u;
  e_static : same_static initial T
}.

(** The invariant of the analysis, between two calls of [analyze_unit]. *)
Record TInv (T : Tarjan) : Prop := {
  i_emitted : Emitted T;
  i_stack : ∀ i, i ∈ sstack T ↔ state_of T i = Some k_analysis_in_progress;
  i_sorted : ∀ i j x y, sstack T !! i = Some x → sstack T !! j = Some y →
    i < j → ord T x < ord T y;
  i_count : ∀ i s, state_of T i = Some s → s ≠ k_not_analyzed → ord T i < count T;
  i_ain : ∀ a, a ∈ astack T → a ∈ sstack T;
  i_asorted : ∀ i j x y, astack T !! i = Some x → astack T !! j = Some y →
    i < j → ord T x < ord T y;
  i_low_le : ∀ w, w ∈ sstack T → low T w ≤ ord T w;
  i_low_tgt : ∀ w, w ∈ sstack T →
    ∃ z, z ∈ sstack T ∧ ord T z = low T w ∧ (z = w ∨ is_fun T z) ∧ reach T w z;
  i_anc : ∀ w, w ∈ sstack T → ∃ a, a ∈ astack T ∧ ord T a ≤ ord T w;
  i_compl : ∀ w, w ∈ sstack T → w ∉ astack T → low T w < ord T w;
  i_near : ∀ a w, a ∈ astack T → w ∈ sstack T → w ∉ astack T →
    ord T a < ord T w →
    (∀ a', a' ∈ astack T → ord T a' < ord T w → ord T a' ≤ ord T a) →
    low T a ≤ low T w;
  i_done : ∀ w v, w ∈ sstack T → w ∉ astack T → edge T w v → looked T v (low T w);
  i_reach : ∀ a w s, a ∈ astack T → state_of T w = Some s → s ≠ k_not_analyzed →
    ord T a ≤ ord T w → reach T a w
}.

(** The steps of the algorithm on this state. *)
Definition v_discover (n : nat) (v : View) : View :=
  mkView (v_data v) (v_name v) (v_slot v) (v_ids v) k_analysis_in_progress n n.
Definition v_set_low (l : nat) (v : View) : View :=
  mkView (v_data v) (v_name v) (v_slot v) (v_ids v) (v_state v) (v_ord v) l.
Definition v_set_state (s : Unit_State) (v : View) : View :=
  mkView (v_data v) (v_name v) (v_slot v) (v_ids v) s (v_ord v) (v_low v).

Definition t_discover (ui : nat) (T : Tarjan) : Tarjan :=
  mkTarjan (alter (v_discover (count T)) ui (views T)) (dict T)
           (sstack T ++ [ui]) (astack T ++ [ui]) (S (count T)) (acts T).
Definition t_lower (p l : nat) (T : Tarjan) : Tarjan :=
  mkTarjan (alter (v_set_low l) p (views T)) (dict T) (sstack T) (astack T)
           (count T) (acts T).
Definition t_set_astack (A : list nat) (T : Tarjan) : Tarjan :=
  mkTarjan (views T) (dict T) (sstack T) A (count T) (acts T).
Definition t_retire (K G : list nat) (op : Meaning) (T : Tarjan) : Tarjan :=
  mkTarjan (foldr (alter (v_set_state k_analyzed)) (views T) G) (dict T) K
           (astack T) (count T) (acts T ++ [op]).
Definition t_push (op : Meaning) (T : Tarjan) : Tarjan :=
  mkTarjan (views T) (dict T) (sstack T) (astack T) (count T) (acts T ++ [op]).

(** The frame of a step: what it may do to the units. *)
Record Mono (T T' : Tarjan) : Prop := {
  m_dict : dict T' = dict T;
  m_length : length (views T') = length (views T);
  m_units : ∀ i v, views T !! i = Some v →
    ∃ v', views T' !! i = Some v' ∧ v_static v' = v_static v ∧
          (v_state v = k_analyzed → v' = v) ∧
          (v_state v ≠ k_not_analyzed →
             v_state v' ≠ k_not_analyzed ∧ v_ord v' = v_ord v ∧ v_low v' ≤ v_low v);
  m_count : count T ≤ count T';
  m_acts : acts T `prefix_of` acts T'
}.


(** ** Lists used as stacks *)

Lemma removelast_snoc {A} (l : list A) (x : A) : removelast (l ++ [x]) = l.
Proof. apply removelast_last. Qed.

Lemma lookup_lt_sorted_app {A} (f : A → nat) (l1 l2 : list A) (x y : A) :
  (∀ i j a b, (l1 ++ l2) !! i = Some a → (l1 ++ l2) !! j = Some b → i < j → f a < f b) →
  x ∈ l1 → y ∈ l2 → f x < f y.
Proof.
  intros Hs [i Hi]%list_elem_of_lookup [j Hj]%list_elem_of_lookup.
  apply (Hs i (length l1 + j)).
  - by apply lookup_app_l_Some.
  - rewrite lookup_app_r by lia. by replace (length l1 + j - length l1) with j by lia.
  - apply lookup_lt_Some in Hi. lia.
Qed.

Lemma sorted_NoDup {A} (f : A → nat) (l : list A) :
  (∀ i j a b, l !! i = Some a → l !! j = Some b → i < j → f a < f b) → NoDup l.
Proof.
  intros Hs. apply NoDup_alt. intros i j x Hi Hj.
  destruct (Nat.lt_trichotomy i j) as [Hlt|[->|Hlt]]; [|done|].
  - pose proof (Hs _ _ _ _ Hi Hj Hlt). lia.
  - pose proof (Hs _ _ _ _ Hj Hi Hlt). lia.
Qed.

Lemma sorted_inj {A} (f : A → nat) (l : list A) (x y : A) :
  (∀ i j a b, l !! i = Some a → l !! j = Some b → i < j → f a < f b) →
  x ∈ l → y ∈ l → f x = f y → x = y.
Proof.
  intros Hs [i Hi]%list_elem_of_lookup [j Hj]%list_elem_of_lookup Hf.
  destruct (Nat.lt_trichotomy i j) as [Hlt|[->|Hlt]].
  - pose proof (Hs _ _ _ _ Hi Hj Hlt). lia.
  - congruence.
  - pose proof (Hs _ _ _ _ Hj Hi Hlt). lia.
Qed.

Lemma sorted_app_l {A} (f : A → nat) (l1 l2 : list A) :
  (∀ i j a b, (l1 ++ l2) !! i = Some a → (l1 ++ l2) !! j = Some b → i < j → f a < f b) →
  (∀ i j a b, l1 !! i = Some a → l1 !! j = Some b → i < j → f a < f b).
Proof.
  intros Hs i j a b Hi Hj. apply Hs; by apply lookup_app_l_Some.
Qed.

Lemma sorted_snoc {A} (f : A → nat) (l : list A) (x : A) :
  (∀ i j a b, l !! i = Some a → l !! j = Some b → i < j → f a < f b) →
  (∀ a, a ∈ l → f a < f x) →
  (∀ i j a b, (l ++ [x]) !! i = Some a → (l ++ [x]) !! j = Some b → i < j → f a < f b).
Proof.
  intros Hs Hx i j a b Hi Hj Hlt.
  apply lookup_snoc_Some in Hi as [[Hi1 Hi2]|[Hi1 Hi2]];
    apply lookup_snoc_Some in Hj as [[Hj1 Hj2]|[Hj1 Hj2]]; subst.
  - eauto.
  - apply Hx. by eapply list_elem_of_lookup_2.
  - lia.
  - lia.
Qed.

(** ** Reading a state after a step *)

Lemma state_of_Some T i s :
  state_of T i = Some s ↔ ∃ v, views T !! i = Some v ∧ v_state v = s.
Proof.
  unfold state_of. destruct (views T !! i) as [v|]; simpl.
  - split; [intros [= <-]; eauto|intros (? & [= <-] & <-); done].
  - split; [done|intros (? & ? & _); done].
Qed.

Lemma state_of_lookup T i v : views T !! i = Some v → state_of T i = Some (v_state v).
Proof. unfold state_of. by intros ->. Qed.
Lemma ord_lookup T i v : views T !! i = Some v → ord T i = v_ord v.
Proof. unfold ord. by intros ->. Qed.
Lemma low_lookup T i v : views T !! i = Some v → low T i = v_low v.
Proof. unfold low. by intros ->. Qed.
Lemma slot_lookup T i v : views T !! i = Some v → slot T i = v_slot v.
Proof. unfold slot. by intros ->. Qed.
Lemma is_fun_lookup T i v : views T !! i = Some v → is_fun T i ↔ v_data v = false.
Proof. unfold is_fun. intros ->. simpl. split; [by intros [= ->]|by intros ->]. Qed.


Lemma same_static_refl T : same_static T T.
Proof. done. Qed.

Lemma same_static_trans T1 T2 T3 :
  same_static T1 T2 → same_static T2 T3 → same_static T1 T3.
Proof. intros [? ?] [? ?]. split; congruence. Qed.

Lemma same_static_lookup T T' i v :
  same_static T T' → views T !! i = Some v →
  ∃ v', views T' !! i = Some v' ∧ v_static v' = v_static v.
Proof.
  intros [Hs _] Hv.
  assert ((v_static <$> views T') !! i = Some (v_static v)) as H.
  { rewrite Hs, list_lookup_fmap, Hv. done. }
  rewrite list_lookup_fmap in H.
  destruct (views T' !! i) as [v'|]; simpl in H; [|done].
  injection H as H. eexists; split; [done|]. unfold v_static; congruence.
Qed.

Lemma same_static_sym T T' : same_static T T' → same_static T' T.
Proof. intros [? ?]. split; congruence. Qed.

Lemma v_static_inv v v' :
  v_static v' = v_static v →
  v_data v' = v_data v ∧ v_name v' = v_name v ∧ v_slot v' = v_slot v ∧ v_ids v' = v_ids v.
Proof. unfold v_static. naive_solver. Qed.

Lemma same_static_edge T T' u v : same_static T T' → edge T u v → edge T' u v.
Proof.
  intros Hs (vu & id & b & Hu & Hid & Hb & Hv).
  destruct (same_static_lookup _ _ _ _ Hs Hu) as (vu' & Hu' & Hst).
  apply v_static_inv in Hst as (_ & _ & _ & Hids).
  exists vu', id, b. rewrite Hids. destruct Hs as [_ ->]. done.
Qed.

Lemma same_static_reach T T' u v : same_static T T' → reach T u v → reach T' u v.
Proof.
  intros Hs. induction 1 as [|x y z Hxy _ IH]; [apply rtc_refl|].
  eapply rtc_l; [|done]. by eapply same_static_edge.
Qed.

Lemma same_static_is_fun T T' i : same_static T T' → is_fun T i → is_fun T' i.
Proof.
  intros Hs. unfold is_fun. destruct (views T !! i) as [v|] eqn:Hv; [|done].
  destruct (same_static_lookup _ _ _ _ Hs Hv) as (v' & -> & Hst).
  apply v_static_inv in Hst as (Hst & _). simpl. by rewrite Hst.
Qed.

Lemma same_static_slot T T' i : same_static T T' → slot T' i = slot T i.
Proof.
  intros Hs. unfold slot. destruct (views T !! i) as [v|] eqn:Hv.
  - destruct (same_static_lookup _ _ _ _ Hs Hv) as (v' & -> & Hst).
    apply v_static_inv in Hst as (_ & _ & Hst & _). simpl. by rewrite Hst.
  - destruct (views T' !! i) as [v'|] eqn:Hv'; [|done].
    destruct (same_static_lookup _ _ _ _ (same_static_sym _ _ Hs) Hv') as (? & ? & _).
    congruence.
Qed.

Lemma same_static_WF T T' : same_static T T' → WF T → WF T'.
Proof.
  intros Hs [Hd Hu Hsl]. pose proof (same_static_sym _ _ Hs) as Hs'.
  split.
  - intros name b Hb. destruct Hs as [Hs1 Hs2]. rewrite Hs2 in Hb.
    destruct (Hd _ _ Hb) as (v & Hv & Hn & Hslot).
    destruct (same_static_lookup T T' _ _ (conj Hs1 Hs2) Hv) as (v' & Hv' & Hst).
    apply v_static_inv in Hst as (_ & Hst1 & Hst2 & _).
    exists v'. rewrite Hst1, Hst2. done.
  - intros i v' Hv'.
    destruct (same_static_lookup _ _ _ _ Hs' Hv') as (v & Hv & Hst).
    apply v_static_inv in Hst as (_ & Hst1 & Hst2 & _).
    destruct Hs as [_ ->]. rewrite <- Hst1, <- Hst2. eauto.
  - intros i j vi vj Hi Hj Heq.
    destruct (same_static_lookup _ _ _ _ Hs' Hi) as (wi & Hwi & Hsti).
    destruct (same_static_lookup _ _ _ _ Hs' Hj) as (wj & Hwj & Hstj).
    apply v_static_inv in Hsti as (_ & _ & Hsi & _).
    apply v_static_inv in Hstj as (_ & _ & Hsj & _).
    eapply Hsl; eauto. congruence.
Qed.

Lemma fmap_static_alter (f : View → View) (i : nat) (vs : list View) :
  (∀ v, v_static (f v) = v_static v) →
  v_static <$> alter f i vs = v_static <$> vs.
Proof.
  intros Hf. rewrite (list_fmap_alter v_static f id).
  - by apply list_alter_id.
  - apply Forall_forall. intros; apply Hf.
Qed.

Lemma fmap_static_foldr_alter (f : View → View) (G : list nat) (vs : list View) :
  (∀ v, v_static (f v) = v_static v) →
  v_static <$> foldr (alter f) vs G = v_static <$> vs.
Proof.
  intros Hf. induction G as [|g G IH]; [done|]. simpl.
  by rewrite fmap_static_alter.
Qed.

Lemma lookup_foldr_alter (f : View → View) (G : list nat) (vs : list View) (i : nat) :
  (∀ v, f (f v) = f v) →
  foldr (alter f) vs G !! i = if decide (i ∈ G) then f <$> vs !! i else vs !! i.
Proof.
  intros Hf. induction G as [|g G IH]; [done|]. simpl.
  rewrite list_lookup_alter. destruct (decide (g = i)) as [->|Hne].
  - rewrite decide_True by set_solver. rewrite IH.
    case_decide; [|done]. destruct (vs !! i); simpl; by rewrite ?Hf.
  - rewrite IH. repeat case_decide; try done.
    + destruct H0. by right.
    + destruct H. by apply elem_of_cons in H0 as [?|?].
Qed.


(** *** Lowering a lowlink *)

Lemma lower_static p l T : same_static T (t_lower p l T).
Proof. split; [|done]. simpl. by apply fmap_static_alter. Qed.

Lemma state_of_lower p l T i : state_of (t_lower p l T) i = state_of T i.
Proof.
  unfold state_of, t_lower; simpl. rewrite list_lookup_alter.
  case_decide; subst; [|done]. by destruct (views T !! i).
Qed.

Lemma ord_lower p l T i : ord (t_lower p l T) i = ord T i.
Proof.
  unfold ord, t_lower; simpl. rewrite list_lookup_alter.
  case_decide; subst; [|done]. by destruct (views T !! i).
Qed.

Lemma low_lower_ne p l T i : i ≠ p → low (t_lower p l T) i = low T i.
Proof.
  intros. unfold low, t_lower; simpl. by rewrite list_lookup_alter_ne.
Qed.

Lemma low_lower_eq p l T : is_Some (views T !! p) → low (t_lower p l T) p = l.
Proof.
  intros [v Hv]. unfold low, t_lower; simpl.
  by rewrite list_lookup_alter_eq, Hv.
Qed.

Lemma low_lower_le p l T i : l ≤ low T p → low (t_lower p l T) i ≤ low T i.
Proof.
  intros. destruct (decide (i = p)) as [->|]; [|by rewrite low_lower_ne].
  unfold low, t_lower in *; simpl. rewrite list_lookup_alter_eq.
  by destruct (views T !! p).
Qed.

Lemma looked_lower p l T v k : looked T v k → looked (t_lower p l T) v k.
Proof.
  unfold looked. by rewrite state_of_lower, ord_lower.
Qed.

(** *** Discovering a unit *)

Lemma discover_static ui T : same_static T (t_discover ui T).
Proof. split; [|done]. simpl. by apply fmap_static_alter. Qed.

Lemma state_of_discover_ne ui T i : i ≠ ui → state_of (t_discover ui T) i = state_of T i.
Proof. intros. unfold state_of, t_discover; simpl. by rewrite list_lookup_alter_ne. Qed.

Lemma state_of_discover_eq ui T :
  is_Some (views T !! ui) →
  state_of (t_discover ui T) ui = Some k_analysis_in_progress.
Proof.
  intros [v Hv]. unfold state_of, t_discover; simpl.
  by rewrite list_lookup_alter_eq, Hv.
Qed.

Lemma ord_discover_ne ui T i : i ≠ ui → ord (t_discover ui T) i = ord T i.
Proof. intros. unfold ord, t_discover; simpl. by rewrite list_lookup_alter_ne. Qed.

Lemma ord_discover_eq ui T :
  is_Some (views T !! ui) → ord (t_discover ui T) ui = count T.
Proof.
  intros [v Hv]. unfold ord, t_discover; simpl.
  by rewrite list_lookup_alter_eq, Hv.
Qed.

Lemma low_discover_ne ui T i : i ≠ ui → low (t_discover ui T) i = low T i.
Proof. intros. unfold low, t_discover; simpl. by rewrite list_lookup_alter_ne. Qed.

Lemma low_discover_eq ui T :
  is_Some (views T !! ui) → low (t_discover ui T) ui = count T.
Proof.
  intros [v Hv]. unfold low, t_discover; simpl.
  by rewrite list_lookup_alter_eq, Hv.
Qed.

(** *** Retiring a component *)

Lemma v_set_state_idemp s v : v_set_state s (v_set_state s v) = v_set_state s v.
Proof. done. Qed.

Lemma retire_static K G op T : same_static T (t_retire K G op T).
Proof. split; [|done]. simpl. by apply fmap_static_foldr_alter. Qed.

Lemma views_retire K G op T i :
  views (t_retire K G op T) !! i =
  if decide (i ∈ G) then v_set_state k_analyzed <$> views T !! i else views T !! i.
Proof. simpl. apply lookup_foldr_alter, v_set_state_idemp. Qed.

Lemma state_of_retire_in K G op T i :
  i ∈ G → is_Some (views T !! i) →
  state_of (t_retire K G op T) i = Some k_analyzed.
Proof.
  intros Hi [v Hv]. unfold state_of. rewrite views_retire, decide_True by done.
  by rewrite Hv.
Qed.

Lemma state_of_retire_out K G op T i :
  i ∉ G → state_of (t_retire K G op T) i = state_of T i.
Proof. intros Hi. unfold state_of. by rewrite views_retire, decide_False. Qed.

Lemma ord_retire K G op T i : ord (t_retire K G op T) i = ord T i.
Proof.
  unfold ord. rewrite views_retire. case_decide; [|done].
  by destruct (views T !! i).
Qed.

Lemma low_retire K G op T i : low (t_retire K G op T) i = low T i.
Proof.
  unfold low. rewrite views_retire. case_decide; [|done].
  by destruct (views T !! i).
Qed.

(** ** Consequences of the invariant *)

Section Consequences.
Context (T : Tarjan) (HT : TInv T).

Lemma stack_valid i : i ∈ sstack T → is_Some (views T !! i).
Proof using HT.
  intros Hi. apply (i_stack _ HT) in Hi. apply state_of_Some in Hi as (v & -> & _).
  eauto.
Qed.

Lemma sstack_NoDup : NoDup (sstack T).
Proof using HT. eapply sorted_NoDup, (i_sorted _ HT). Qed.

Lemma astack_NoDup : NoDup (astack T).
Proof using HT. eapply sorted_NoDup, (i_asorted _ HT). Qed.

Lemma sstack_ord_inj x y : x ∈ sstack T → y ∈ sstack T → ord T x = ord T y → x = y.
Proof using HT. eapply sorted_inj, (i_sorted _ HT). Qed.

Lemma astack_top A r a : astack T = A ++ [r] → a ∈ A → ord T a < ord T r.
Proof using HT.
  intros HA Ha. eapply (lookup_lt_sorted_app (ord T) A [r]).
  - rewrite <- HA. apply (i_asorted _ HT).
  - done.
  - by apply list_elem_of_singleton.
Qed.

Lemma astack_le_top A r a : astack T = A ++ [r] → a ∈ astack T → ord T a ≤ ord T r.
Proof using HT.
  intros HA Ha. rewrite HA in Ha. apply elem_of_app in Ha as [Ha|Ha].
  - pose proof (astack_top _ _ _ HA Ha). lia.
  - apply list_elem_of_singleton in Ha as ->. done.
Qed.

Lemma top_in_sstack A r : astack T = A ++ [r] → r ∈ sstack T.
Proof using HT.
  intros HA. apply (i_ain _ HT). rewrite HA. apply elem_of_app. right.
  by apply list_elem_of_singleton.
Qed.

(** Above the unit under analysis there are only completed units, and their
    lowlinks are not below its own. *)
Lemma above_top A r w :
  astack T = A ++ [r] → w ∈ sstack T → ord T r < ord T w →
  (w ∉ astack T) ∧ low T r ≤ low T w ∧ low T w < ord T w.
Proof using HT.
  intros HA Hw Hlt.
  assert (w ∉ astack T) as Hn.
  { intros Hin. pose proof (astack_le_top _ _ _ HA Hin). lia. }
  split_and!; [done| |by apply (i_compl _ HT)].
  apply (i_near _ HT); [|done|done|done|].
  - rewrite HA. apply elem_of_app. right. by apply list_elem_of_singleton.
  - intros a' Ha' _. by eapply astack_le_top.
Qed.

(** Every unit above the unit under analysis reaches it, once this one is
    the root of its component. *)
Lemma above_root_reach A r :
  astack T = A ++ [r] → low T r = ord T r →
  ∀ n w, ord T w ≤ n → w ∈ sstack T → ord T r ≤ ord T w → reach T w r.
Proof using HT.
  intros HA Hroot. induction n as [|n IH]; intros w Hn Hw Hle.
  - assert (w = r) as ->; [|apply rtc_refl].
    eapply sstack_ord_inj; [done|by eapply top_in_sstack|lia].
  - destruct (decide (ord T w = ord T r)) as [Heq|Hne].
    { assert (w = r) as ->; [|apply rtc_refl].
      eapply sstack_ord_inj; [done|by eapply top_in_sstack|lia]. }
    destruct (above_top A r w HA Hw) as (Hna & Hlow & Hlt); [lia|].
    destruct (i_low_tgt _ HT w Hw) as (z & Hz & Hzo & _ & Hreach).
    eapply rtc_trans; [exact Hreach|]. apply IH; [lia|done|lia].
Qed.

(** A data unit that is the root of its component is alone on top of the
    stack. *)
Lemma data_root_top A r :
  astack T = A ++ [r] → low T r = ord T r → ¬ (is_fun T r) →
  ∀ n w, ord T w ≤ n → w ∈ sstack T → ord T r ≤ ord T w → w = r.
Proof using HT.
  intros HA Hroot Hdata. induction n as [|n IH]; intros w Hn Hw Hle.
  - eapply sstack_ord_inj; [done|by eapply top_in_sstack|lia].
  - destruct (decide (ord T w = ord T r)) as [Heq|Hne].
    { eapply sstack_ord_inj; [done|by eapply top_in_sstack|lia]. }
    destruct (above_top A r w HA Hw) as (Hna & Hlow & Hlt); [lia|].
    destruct (i_low_tgt _ HT w Hw) as (z & Hz & Hzo & Hzf & _).
    assert (z = r) as -> by (apply IH; [lia|done|lia]).
    destruct Hzf as [->|Hf]; [lia|done].
Qed.

End Consequences.


(** ** Steps that emit nothing *)

Record same_emitted (T T' : Tarjan) : Prop := {
  se_static : same_static T T';
  se_acts : acts T' = acts T;
  se_keep : ∀ i, state_of T i = Some k_analyzed → views T' !! i = views T !! i;
  se_back : ∀ i, state_of T' i = Some k_analyzed → state_of T i = Some k_analyzed
}.

Lemma same_emitted_refl T : same_emitted T T.
Proof. split; done. Qed.

Lemma same_emitted_trans T1 T2 T3 :
  same_emitted T1 T2 → same_emitted T2 T3 → same_emitted T1 T3.
Proof.
  intros [S1 A1 K1 B1] [S2 A2 K2 B2]. split.
  - by eapply same_static_trans.
  - congruence.
  - intros i Hi. rewrite K2, K1; [done|done|].
    unfold state_of. by rewrite K1.
  - eauto.
Qed.

Lemma same_emitted_state T T' i :
  same_emitted T T' → state_of T' i = Some k_analyzed ↔ state_of T i = Some k_analyzed.
Proof.
  intros H. split; [apply (se_back _ _ H)|].
  intros Hi. unfold state_of. rewrite (se_keep _ _ H) by done. done.
Qed.

Lemma same_emitted_writer T T' s i : same_emitted T T' → writer T' s i ↔ writer T s i.
Proof. intros H. unfold writer. by rewrite (se_acts _ _ H). Qed.

Lemma same_emitted_ord T T' i :
  same_emitted T T' → state_of T i = Some k_analyzed → ord T' i = ord T i.
Proof. intros H Hi. unfold ord. by rewrite (se_keep _ _ H). Qed.

Lemma Emitted_same T T' : same_emitted T T' → Emitted T → Emitted T'.
Proof.
  intros H [Hwf Hwr Htopo Htie Hscc Hstmt Hfun Hinit].
  pose proof (se_static _ _ H) as Hs.
  pose proof (same_static_sym _ _ Hs) as Hs'.
  split.
  - by eapply same_static_WF.
  - intros i v' Hv'. rewrite (se_acts _ _ H).
    destruct (same_static_lookup _ _ _ _ Hs' Hv') as (v & Hv & Hst).
    apply v_static_inv in Hst as (_ & _ & Hslot & _).
    rewrite <- Hslot, (Hwr _ _ Hv).
    pose proof (same_emitted_state _ _ i H) as Hiff.
    rewrite (state_of_lookup _ _ _ Hv), (state_of_lookup _ _ _ Hv') in Hiff.
    repeat case_decide; try done.
    + exfalso. apply H1. assert (Some (v_state v') = Some k_analyzed) as [=]; [|done].
      apply Hiff. by f_equal.
    + exfalso. apply H0. assert (Some (v_state v) = Some k_analyzed) as [=]; [|done].
      apply Hiff. by f_equal.
  - intros u v Hu Huv.
    apply (same_emitted_state _ _ _ H) in Hu.
    apply (same_static_edge _ _ _ _ Hs') in Huv.
    destruct (Htopo _ _ Hu Huv) as (Hv & i & j & a & Ha & Hin & Hw & Hij).
    split; [by apply (same_emitted_state _ _ _ H)|].
    exists i, j, a. rewrite (se_acts _ _ H), !(same_static_slot _ _ _ Hs).
    split_and!; [done|done| |done]. by apply (same_emitted_writer _ _ _ _ H).
  - intros u v i j Hu Hv Hwu Hwv Hlt Hord.
    apply (same_emitted_state _ _ _ H) in Hu, Hv.
    rewrite (same_static_slot _ _ u Hs) in Hwu.
    rewrite (same_static_slot _ _ v Hs) in Hwv.
    apply (same_emitted_writer _ _ _ _ H) in Hwu, Hwv.
    rewrite !(same_emitted_ord _ _ _ H) in Hord by done.
    eapply same_static_reach; eauto.
  - intros u v i Hu Hv Hwu Hwv.
    apply (same_emitted_state _ _ _ H) in Hu, Hv.
    rewrite (same_static_slot _ _ u Hs) in Hwu.
    rewrite (same_static_slot _ _ v Hs) in Hwv.
    apply (same_emitted_writer _ _ _ _ H) in Hwu, Hwv.
    eapply same_static_reach; eauto.
  - intros i ph ms id b Hi Hid Hb.
    rewrite (se_acts _ _ H) in Hi. destruct Hs as [_ Hd]. rewrite Hd in Hb.
    destruct (Hstmt _ _ _ _ _ Hi Hid Hb) as (j & Hj & Hw).
    exists j. split; [done|]. by apply (same_emitted_writer _ _ _ _ H).
  - intros u i a Hu Ha Hin Hfs.
    apply (same_emitted_state _ _ _ H) in Hu.
    rewrite (se_acts _ _ H) in Ha. rewrite (same_static_slot _ _ u Hs) in Hin.
    eapply same_static_is_fun; [exact Hs|]. by eapply Hfun.
  - by eapply same_static_trans.
Qed.

Lemma lower_same_emitted p l T :
  state_of T p ≠ Some k_analyzed → same_emitted T (t_lower p l T).
Proof.
  intros Hp. split.
  - apply lower_static.
  - done.
  - intros i Hi. simpl. rewrite list_lookup_alter_ne; [done|]. congruence.
  - intros i. by rewrite state_of_lower.
Qed.

Lemma discover_same_emitted ui T :
  state_of T ui = Some k_not_analyzed → same_emitted T (t_discover ui T).
Proof.
  intros Hp. split.
  - apply discover_static.
  - done.
  - intros i Hi. simpl. rewrite list_lookup_alter_ne; [done|]. congruence.
  - intros i Hi. destruct (decide (i = ui)) as [->|Hne].
    + rewrite state_of_discover_eq in Hi; [done|].
      apply state_of_Some in Hp as (? & ? & _). eauto.
    + by rewrite state_of_discover_ne in Hi.
Qed.

Lemma set_astack_same_emitted A T : same_emitted T (t_set_astack A T).
Proof. split; done. Qed.


(** ** The steps keep the invariant *)

(** The call is made from the unit under analysis, for a name it refers to. *)
Definition called_from_top (T : Tarjan) (ui : nat) : Prop :=
  ∀ p, last (astack T) = Some p → edge T p ui.

Lemma discover_inv T ui :
  TInv T → state_of T ui = Some k_not_analyzed → called_from_top T ui →
  TInv (t_discover ui T).
Proof.
  intros HT Hui Hcall.
  assert (is_Some (views T !! ui)) as Hvalid.
  { apply state_of_Some in Hui as (? & ? & _). eauto. }
  assert (ui ∉ sstack T) as Hns.
  { intros Hin. apply (i_stack _ HT) in Hin. congruence. }
  assert (ui ∉ astack T) as Hna.
  { intros Hin. by apply Hns, (i_ain _ HT). }
  assert (∀ w, w ∈ sstack T → w ≠ ui ∧ ord T w < count T) as Hold.
  { intros w Hw. split; [congruence|].
    eapply (i_count _ HT); [by apply (i_stack _ HT)|done]. }
  pose proof (discover_static ui T) as Hs.
  split.
  - eapply Emitted_same; [by apply discover_same_emitted|apply HT].
  - intros i. simpl. rewrite elem_of_app, list_elem_of_singleton.
    destruct (decide (i = ui)) as [->|Hne].
    + rewrite state_of_discover_eq by done. split; auto.
    + rewrite state_of_discover_ne by done. rewrite <- (i_stack _ HT). split; [|auto].
      intros [?|?]; done.
  - simpl. apply sorted_snoc.
    + intros i j a b Hi Hj Hlt.
      destruct (Hold a) as [? _]; [by eapply list_elem_of_lookup_2|].
      destruct (Hold b) as [? _]; [by eapply list_elem_of_lookup_2|].
      rewrite !ord_discover_ne by done. by eapply (i_sorted _ HT).
    + intros a Ha. destruct (Hold a Ha). rewrite ord_discover_ne, ord_discover_eq by done.
      done.
  - intros i s Hi Hs'. simpl. destruct (decide (i = ui)) as [->|Hne].
    + rewrite ord_discover_eq by done. lia.
    + rewrite ord_discover_ne by done. rewrite state_of_discover_ne in Hi by done.
      pose proof (i_count _ HT _ _ Hi Hs'). lia.
  - intros a. simpl. rewrite !elem_of_app. intros [Ha|Ha]; [left|by right].
    by apply (i_ain _ HT).
  - simpl. apply sorted_snoc.
    + intros i j a b Hi Hj Hlt.
      destruct (Hold a) as [? _]; [by eapply (i_ain _ HT), list_elem_of_lookup_2|].
      destruct (Hold b) as [? _]; [by eapply (i_ain _ HT), list_elem_of_lookup_2|].
      rewrite !ord_discover_ne by done. by eapply (i_asorted _ HT).
    + intros a Ha. destruct (Hold a); [by apply (i_ain _ HT)|].
      rewrite ord_discover_ne, ord_discover_eq by done. done.
  - intros w. simpl. rewrite elem_of_app, list_elem_of_singleton. intros [Hw| ->].
    + destruct (Hold w Hw). rewrite low_discover_ne, ord_discover_ne by done.
      by apply (i_low_le _ HT).
    + by rewrite low_discover_eq, ord_discover_eq.
  - intros w. simpl. rewrite elem_of_app, list_elem_of_singleton. intros [Hw| ->].
    + destruct (Hold w Hw).
      destruct (i_low_tgt _ HT w Hw) as (z & Hz & Hzo & Hzf & Hzr).
      destruct (Hold z Hz). exists z.
      rewrite elem_of_app, ord_discover_ne, low_discover_ne by done.
      split_and!; [by left|done| |by eapply same_static_reach].
      destruct Hzf; [by left|right]. by eapply same_static_is_fun.
    + exists ui. rewrite elem_of_app, list_elem_of_singleton.
      rewrite low_discover_eq, ord_discover_eq by done.
      split_and!; [by right|done|by left|apply rtc_refl].
  - intros w. simpl. rewrite elem_of_app, list_elem_of_singleton. intros [Hw| ->].
    + destruct (Hold w Hw).
      destruct (i_anc _ HT w Hw) as (a & Ha & Hle).
      destruct (Hold a); [by apply (i_ain _ HT)|].
      exists a. rewrite elem_of_app, !ord_discover_ne by done. auto.
    + exists ui. rewrite elem_of_app, list_elem_of_singleton. auto.
  - intros w. simpl. rewrite !elem_of_app, !list_elem_of_singleton.
    intros [Hw| ->] Hn; [|by destruct Hn; right].
    destruct (Hold w Hw). rewrite low_discover_ne, ord_discover_ne by done.
    apply (i_compl _ HT); [done|]. intros ?; apply Hn; by left.
  - intros a w. simpl. rewrite !elem_of_app, !list_elem_of_singleton.
    intros Ha [Hw| ->] Hn; [|by destruct Hn; right].
    destruct (Hold w Hw) as [Hwne Hwc].
    rewrite (ord_discover_ne _ _ w), (low_discover_ne _ _ w) by done.
    destruct Ha as [Ha| ->].
    + destruct (Hold a) as [Hane _]; [by apply (i_ain _ HT)|].
      rewrite ord_discover_ne, low_discover_ne by done.
      intros Hlt Hnear. apply (i_near _ HT); [done|done| |done|].
      * intros ?; apply Hn; by left.
      * intros a' Ha' Hlt'.
        destruct (Hold a') as [Ha'ne _]; [by apply (i_ain _ HT)|].
        specialize (Hnear a'). rewrite ord_discover_ne in Hnear by done.
        apply Hnear; [apply elem_of_app; by left|done].
    + rewrite ord_discover_eq by done. lia.
  - intros w v. simpl. rewrite !elem_of_app, !list_elem_of_singleton.
    intros [Hw| ->] Hn Hwv; [|by destruct Hn; right].
    destruct (Hold w Hw) as [Hwne Hwc]. rewrite low_discover_ne by done.
    apply (same_static_edge _ _ _ _ (same_static_sym _ _ Hs)) in Hwv.
    assert (w ∉ astack T) as Hn' by (intros ?; apply Hn; by left).
    pose proof (i_done _ HT w v Hw Hn' Hwv) as Hl.
    assert (v ≠ ui) as Hvne.
    { intros ->. destruct Hl as [?|[? _]]; congruence. }
    unfold looked in *. by rewrite state_of_discover_ne, ord_discover_ne by done.
  - intros a w s. simpl. rewrite !elem_of_app, !list_elem_of_singleton.
    intros Ha Hw Hs' Hle.
    destruct Ha as [Ha| ->].
    + destruct (Hold a) as [Hane Hac]; [by apply (i_ain _ HT)|].
      rewrite ord_discover_ne in Hle by done.
      eapply same_static_reach; [done|].
      destruct (decide (w = ui)) as [->|Hwne].
      * destruct (last (astack T)) as [p|] eqn:Hp.
        -- apply last_Some in Hp as Hp'. destruct Hp' as [A HA].
           eapply rtc_r; [|by apply Hcall].
           eapply (i_reach _ HT); [done| | |by eapply astack_le_top].
           ++ apply (i_stack _ HT). eapply top_in_sstack; done.
           ++ done.
        -- apply last_None in Hp. rewrite Hp in Ha. by apply elem_of_nil in Ha.
      * rewrite state_of_discover_ne in Hw by done.
        rewrite ord_discover_ne in Hle by done.
        by eapply (i_reach _ HT).
    + rewrite ord_discover_eq in Hle by done.
      destruct (decide (w = ui)) as [->|Hwne]; [apply rtc_refl|].
      rewrite state_of_discover_ne in Hw by done.
      rewrite ord_discover_ne in Hle by done.
      pose proof (i_count _ HT _ _ Hw Hs'). lia.
Qed.

End Invariant.
End SCC.

(** * The steps of the analysis keep the invariant *)

Module SCC_Steps.
Import Recursive_Scope SCC.

Section Steps.
Context {Hinitial : Initial}.

(** ** A lookup that finds a function in progress *)

Lemma lower_inv T A p ui :
  TInv T → astack T = A ++ [p] →
  state_of T ui = Some k_analysis_in_progress → is_fun T ui → edge T p ui →
  TInv (t_lower p (low T p `min` ord T ui) T).
Proof.
  intros HT HA Hui Hfun Hedge.
  set (l := low T p `min` ord T ui).
  assert (p ∈ sstack T) as Hp by (by eapply top_in_sstack).
  assert (p ∈ astack T) as Hpa.
  { rewrite HA, elem_of_app, list_elem_of_singleton. by right. }
  assert (is_Some (views T !! p)) as Hvalid by (by eapply stack_valid).
  assert (l ≤ low T p) as Hl by lia.
  pose proof (lower_static p l T) as Hs.
  split.
  - eapply Emitted_same; [|apply HT]. apply lower_same_emitted.
    apply (i_stack _ HT) in Hp. congruence.
  - intros i. rewrite state_of_lower. apply (i_stack _ HT).
  - intros i j x y. rewrite !ord_lower. apply (i_sorted _ HT).
  - intros i s. rewrite state_of_lower, ord_lower. apply (i_count _ HT).
  - apply (i_ain _ HT).
  - intros i j x y. rewrite !ord_lower. apply (i_asorted _ HT).
  - intros w Hw. rewrite ord_lower.
    pose proof (low_lower_le p l T w Hl). pose proof (i_low_le _ HT w Hw). lia.
  - intros w Hw. simpl in Hw.
    destruct (decide (w = p)) as [->|Hne].
    + rewrite low_lower_eq by done.
      destruct (decide (ord T ui < low T p)) as [Hlt|Hge].
      * exists ui. rewrite ord_lower. split_and!.
        -- by apply (i_stack _ HT).
        -- lia.
        -- right. by eapply same_static_is_fun.
        -- eapply same_static_reach; [done|]. by apply rtc_once.
      * destruct (i_low_tgt _ HT p Hp) as (z & Hz & Hzo & Hzf & Hzr).
        exists z. rewrite ord_lower. split_and!; [done|lia| |by eapply same_static_reach].
        destruct Hzf; [by left|right]. by eapply same_static_is_fun.
    + rewrite low_lower_ne by done.
      destruct (i_low_tgt _ HT w Hw) as (z & Hz & Hzo & Hzf & Hzr).
      exists z. rewrite ord_lower. split_and!; [done|done| |by eapply same_static_reach].
      destruct Hzf; [by left|right]. by eapply same_static_is_fun.
  - intros w Hw. setoid_rewrite ord_lower. by apply (i_anc _ HT).
  - intros w Hw Hn. simpl in *. rewrite ord_lower.
    pose proof (low_lower_le p l T w Hl). pose proof (i_compl _ HT w Hw Hn). lia.
  - intros a w Ha Hw Hn. simpl in *. rewrite !ord_lower. setoid_rewrite ord_lower.
    intros Hlt Hnear.
    assert (w ≠ p) by congruence.
    rewrite (low_lower_ne _ _ _ w) by done.
    pose proof (low_lower_le p l T a Hl). pose proof (i_near _ HT a w Ha Hw Hn Hlt Hnear).
    lia.
  - intros w v Hw Hn Hwv. simpl in *.
    assert (w ≠ p) by congruence.
    rewrite low_lower_ne by done. apply looked_lower.
    apply (i_done _ HT); [done|done|].
    by eapply same_static_edge; [apply same_static_sym|].
  - intros a w s. simpl. rewrite state_of_lower, !ord_lower. intros.
    eapply same_static_reach; [done|]. by eapply (i_reach _ HT).
Qed.

(** The unit that was looked up is accounted for by the new lowlink. *)
Lemma lower_looked T A p ui :
  TInv T → astack T = A ++ [p] →
  state_of T ui = Some k_analysis_in_progress → is_fun T ui →
  let T' := t_lower p (low T p `min` ord T ui) T in
  looked T' ui (low T' p).
Proof.
  intros HT HA Hui Hfun T'. right. unfold T'.
  rewrite state_of_lower, ord_lower. split; [done|].
  rewrite low_lower_eq; [lia|]. eapply stack_valid; [done|]. by eapply top_in_sstack.
Qed.


(** ** A unit completes without being the root of its component *)

Lemma state_of_set_astack A T : state_of (t_set_astack A T) = state_of T.
Proof. done. Qed.
Lemma ord_set_astack A T : ord (t_set_astack A T) = ord T.
Proof. done. Qed.
Lemma low_set_astack A T : low (t_set_astack A T) = low T.
Proof. done. Qed.
Lemma slot_set_astack A T : slot (t_set_astack A T) = slot T.
Proof. done. Qed.
Lemma is_fun_set_astack A T : is_fun (t_set_astack A T) = is_fun T.
Proof. done. Qed.
Lemma edge_set_astack A T : edge (t_set_astack A T) = edge T.
Proof. done. Qed.
Lemma reach_set_astack A T : reach (t_set_astack A T) = reach T.
Proof. done. Qed.
Lemma looked_set_astack A T : looked (t_set_astack A T) = looked T.
Proof. done. Qed.
Lemma writer_set_astack A T : writer (t_set_astack A T) = writer T.
Proof. done. Qed.

Ltac sa :=
  rewrite ?state_of_set_astack, ?ord_set_astack, ?low_set_astack, ?slot_set_astack,
    ?is_fun_set_astack, ?edge_set_astack, ?reach_set_astack, ?looked_set_astack,
    ?writer_set_astack in *.

Lemma complete_has_parent T A ui :
  TInv T → astack T = A ++ [ui] → low T ui ≠ ord T ui → A ≠ [].
Proof.
  intros HT HA Hne ->. simpl in HA.
  assert (ui ∈ sstack T) as Hui by (by eapply (top_in_sstack _ HT [])).
  destruct (i_low_tgt _ HT ui Hui) as (z & Hz & Hzo & _).
  destruct (i_anc _ HT z Hz) as (a & Ha & Hle).
  rewrite HA in Ha. apply list_elem_of_singleton in Ha as ->.
  pose proof (i_low_le _ HT ui Hui). lia.
Qed.

Lemma complete_inv T A p ui :
  TInv T → astack T = (A ++ [p]) ++ [ui] →
  (∀ v, edge T ui v → looked T v (low T ui)) →
  low T ui ≠ ord T ui →
  TInv (t_set_astack (A ++ [p]) (t_lower p (low T p `min` low T ui) T)).
Proof.
  intros HT HA Hbody Hnr.
  set (l := low T p `min` low T ui).
  assert (ui ∈ sstack T) as Hui by (by eapply top_in_sstack).
  assert (ui ∈ astack T) as Huia.
  { rewrite HA, elem_of_app, list_elem_of_singleton. by right. }
  assert (∀ a, a ∈ A ++ [p] → a ∈ astack T) as Hsub.
  { intros a Ha. rewrite HA, elem_of_app. by left. }
  assert (p ∈ A ++ [p]) as HpA.
  { rewrite elem_of_app, list_elem_of_singleton. by right. }
  assert (p ∈ astack T) as Hpa by (by apply Hsub).
  assert (p ∈ sstack T) as Hp by (by apply (i_ain _ HT)).
  assert (∀ a, a ∈ A ++ [p] → ord T a < ord T ui) as Hlt_ui.
  { intros a Ha. by eapply astack_top. }
  assert (∀ a, a ∈ A ++ [p] → ord T a ≤ ord T p) as Hle_p.
  { intros a Ha. apply elem_of_app in Ha as [Ha|Ha].
    - assert (ord T a < ord T p); [|lia].
      eapply (lookup_lt_sorted_app (ord T) A ([p] ++ [ui])).
      + rewrite app_assoc, <- HA. apply (i_asorted _ HT).
      + done.
      + rewrite elem_of_app, list_elem_of_singleton. by left.
    - apply list_elem_of_singleton in Ha as ->. done. }
  assert (ui ≠ p) as Hne.
  { intros ->. pose proof (Hlt_ui p HpA). lia. }
  assert (is_Some (views T !! p)) as Hvalid by (by eapply stack_valid).
  assert (l ≤ low T p) as Hl by lia.
  assert (low T ui < ord T ui) as Hlow_ui.
  { pose proof (i_low_le _ HT ui Hui). lia. }
  assert (∀ a, a ∈ A ++ [p] → ord T p ≤ ord T a → a = p) as Hisp.
  { intros a Ha Hle. eapply sstack_ord_inj; [done|by apply (i_ain _ HT), Hsub|done|].
    pose proof (Hle_p a Ha). lia. }
  pose proof (lower_static p l T) as Hs.
  pose proof (low_lower_le p l T) as Hdec.
  split; sa.
  - eapply Emitted_same; [|apply HT].
    eapply same_emitted_trans; [|apply set_astack_same_emitted].
    apply lower_same_emitted. apply (i_stack _ HT) in Hp. congruence.
  - intros i. rewrite state_of_lower. apply (i_stack _ HT).
  - intros i j x y. rewrite !ord_lower. apply (i_sorted _ HT).
  - intros i s. rewrite state_of_lower, ord_lower. apply (i_count _ HT).
  - intros a Ha. simpl in *. by apply (i_ain _ HT), Hsub.
  - intros i j x y. simpl. rewrite !ord_lower.
    apply (sorted_app_l (ord T) (A ++ [p]) [ui]). rewrite <- HA. apply (i_asorted _ HT).
  - intros w Hw. rewrite ord_lower.
    pose proof (Hdec w Hl). pose proof (i_low_le _ HT w Hw). lia.
  - intros w Hw. simpl in Hw.
    destruct (decide (w = p)) as [->|Hnew].
    + rewrite low_lower_eq by done.
      destruct (decide (low T ui < low T p)) as [Hlt|Hge].
      * destruct (i_low_tgt _ HT ui Hui) as (z & Hz & Hzo & Hzf & Hzr).
        exists z. rewrite ord_lower. split_and!; [done|unfold l; simpl; lia| |].
        -- right. eapply same_static_is_fun; [done|].
           destruct Hzf as [->|?]; [lia|done].
        -- eapply same_static_reach; [done|]. eapply rtc_trans; [|done].
           eapply (i_reach _ HT); [done|by apply (i_stack _ HT)|done|].
           pose proof (Hlt_ui p HpA). lia.
      * destruct (i_low_tgt _ HT p Hp) as (z & Hz & Hzo & Hzf & Hzr).
        exists z. rewrite ord_lower.
        split_and!; [done|unfold l; simpl; lia| |by eapply same_static_reach].
        destruct Hzf; [by left|right]. by eapply same_static_is_fun.
    + rewrite low_lower_ne by done.
      destruct (i_low_tgt _ HT w Hw) as (z & Hz & Hzo & Hzf & Hzr).
      exists z. rewrite ord_lower. split_and!; [done|done| |by eapply same_static_reach].
      destruct Hzf; [by left|right]. by eapply same_static_is_fun.
  - intros w Hw. simpl in *. setoid_rewrite ord_lower.
    destruct (i_anc _ HT w Hw) as (a & Ha & Hle).
    rewrite HA in Ha. apply elem_of_app in Ha as [Ha|Ha]; [by exists a|].
    apply list_elem_of_singleton in Ha as ->.
    exists p. split; [done|]. pose proof (Hlt_ui p HpA). lia.
  - intros w Hw Hn. simpl in *. rewrite ord_lower.
    pose proof (Hdec w Hl) as Hle.
    destruct (decide (w = ui)) as [->|Hnew]; [lia|].
    assert (w ∉ astack T) as Hn'.
    { rewrite HA, elem_of_app, list_elem_of_singleton. intros [?|?]; done. }
    pose proof (i_compl _ HT w Hw Hn'). lia.
  - intros a w Ha Hw Hn. simpl in *. rewrite !ord_lower. setoid_rewrite ord_lower.
    intros Hlt Hnear.
    assert (w ≠ p) as Hwp by (by intros ->).
    rewrite (low_lower_ne _ _ _ w) by done.
    pose proof (Hdec a Hl) as Hle.
    destruct (decide (w = ui)) as [->|Hnew].
    { assert (a = p) as ->.
      { apply Hisp; [done|]. apply Hnear; [done|]. by apply Hlt_ui. }
      rewrite low_lower_eq by done. unfold l. lia. }
    assert (w ∉ astack T) as Hn'.
    { rewrite HA, elem_of_app, list_elem_of_singleton. intros [?|?]; done. }
    destruct (decide (ord T ui < ord T w)) as [Habove|Hbelow].
    + destruct (above_top _ HT _ _ _ HA Hw Habove) as (_ & Hlow & _).
      assert (a = p) as ->.
      { apply Hisp; [done|]. apply Hnear; [done|]. pose proof (Hlt_ui p HpA). lia. }
      rewrite low_lower_eq by done. unfold l. lia.
    + assert (ord T w ≠ ord T ui) as Hneq.
      { intros Heq. apply Hnew. by eapply sstack_ord_inj. }
      assert (low T a ≤ low T w); [|lia].
      apply (i_near _ HT); [by apply Hsub|done|done|done|].
      intros a' Ha' Hlt'. rewrite HA in Ha'. apply elem_of_app in Ha' as [Ha'|Ha'].
      * by apply Hnear.
      * apply list_elem_of_singleton in Ha' as ->. lia.
  - intros w v Hw Hn Hwv. simpl in *.
    assert (w ≠ p) as Hwp by (by intros ->).
    rewrite low_lower_ne by done. apply looked_lower.
    apply (same_static_edge _ _ _ _ (same_static_sym _ _ Hs)) in Hwv.
    destruct (decide (w = ui)) as [->|Hnew]; [by apply Hbody|].
    apply (i_done _ HT); [done| |done].
    rewrite HA, elem_of_app, list_elem_of_singleton. intros [?|?]; done.
  - intros a w s. simpl. rewrite state_of_lower, !ord_lower. intros Ha ? ? ?.
    eapply same_static_reach; [done|]. eapply (i_reach _ HT); [by apply Hsub|done..].
Qed.

(** Lowering to the value the lowlink already has changes nothing. *)
Lemma lower_id p T : t_lower p (low T p) T = T.
Proof.
  destruct T as [vs d ss as_ c a]. unfold t_lower, low. simpl. f_equal.
  apply list_eq. intros i. rewrite list_lookup_alter. case_decide; [|done]. subst.
  by destruct (vs !! i) as [[]|].
Qed.


(** ** Counting the writes of a slot *)

Lemma count_writes_app s l1 l2 :
  count_writes s (l1 ++ l2) = count_writes s l1 + count_writes s l2.
Proof. unfold count_writes. by rewrite bind_app, filter_app, length_app. Qed.

Lemma count_writes_single s op :
  count_writes s [op] = length (filter (λ x, x = s) (writes op)).
Proof. unfold count_writes. simpl. by rewrite app_nil_r. Qed.

Lemma filter_eq_length_0 (s : slot_t) (l : list slot_t) :
  s ∉ l → length (filter (λ x, x = s) l) = 0.
Proof.
  induction l as [|x l IH]; [done|]. intros Hn.
  rewrite filter_cons. case_decide.
  - subst. destruct Hn. by left.
  - apply IH. intros ?; apply Hn; by right.
Qed.

Lemma filter_eq_length_1 (s : slot_t) (l : list slot_t) :
  NoDup l → s ∈ l → length (filter (λ x, x = s) l) = 1.
Proof.
  induction 1 as [|x l Hx Hnd IH]; [by intros ?%elem_of_nil|].
  intros Hs. rewrite filter_cons. case_decide.
  - subst. simpl. by rewrite filter_eq_length_0.
  - apply IH. apply elem_of_cons in Hs as [?|?]; [congruence|done].
Qed.

Lemma filter_eq_length_pos (s : slot_t) (l : list slot_t) :
  s ∈ l → 0 < length (filter (λ x, x = s) l).
Proof.
  induction l as [|x l IH]; [by intros ?%elem_of_nil|].
  intros Hs. rewrite filter_cons. case_decide; [simpl; lia|].
  apply IH. apply elem_of_cons in Hs as [?|?]; [congruence|done].
Qed.

Lemma count_writes_writer s l i a :
  l !! i = Some a → s ∈ writes a → 0 < count_writes s l.
Proof.
  intros Hi Hs. apply list_elem_of_split_length in Hi as (l1 & l2 & -> & _).
  rewrite count_writes_app. change (a :: l2) with ([a] ++ l2).
  rewrite count_writes_app, count_writes_single.
  pose proof (filter_eq_length_pos _ _ Hs). lia.
Qed.

Lemma count_writes_pos s l :
  0 < count_writes s l → ∃ i a, l !! i = Some a ∧ s ∈ writes a.
Proof.
  induction l as [|a l IH]; [unfold count_writes; simpl; lia|].
  change (a :: l) with ([a] ++ l). rewrite count_writes_app, count_writes_single.
  destruct (decide (s ∈ writes a)) as [Hin|Hn].
  - intros _. exists 0, a. done.
  - rewrite filter_eq_length_0 by done. intros (i & b & Hi & Hb)%IH.
    exists (S i), b. done.
Qed.

(** ** The root of a component retires it *)

Lemma state_of_set_astack_retire A K G op T i :
  state_of (t_set_astack A (t_retire K G op T)) i = state_of (t_retire K G op T) i.
Proof. done. Qed.

Lemma retire_inv T A ui K G' op :
  TInv T → astack T = A ++ [ui] → sstack T = K ++ ui :: G' →
  (∀ v, edge T ui v → looked T v (low T ui)) →
  (edge T ui ui → is_fun T ui) →
  low T ui = ord T ui →
  writes op = slot T <$> (ui :: G') →
  (isa_Function_Setter op = true ∨ ¬ (is_fun T ui)) →
  (isa_Function_Setter op = true → ∀ g, g ∈ ui :: G' → is_fun T g) →
  TInv (t_set_astack A (t_retire K (ui :: G') op T)).
Proof.
  intros HT HA HS Hbody Hself Hroot Hwrites Hkind Hfuns.
  set (G := ui :: G') in *.
  set (n := length (acts T)).
  pose proof (i_emitted _ HT) as HE.
  assert (ui ∈ astack T) as Huia.
  { rewrite HA, elem_of_app, list_elem_of_singleton. by right. }
  assert (ui ∈ G) as HuiG by (by left).
  assert (∀ w, w ∈ G → w ∈ sstack T) as HG_in.
  { intros w Hw. rewrite HS, elem_of_app. by right. }
  assert (∀ w, w ∈ K → w ∈ sstack T) as HK_in.
  { intros w Hw. rewrite HS, elem_of_app. by left. }
  assert (∀ w, w ∈ K → ord T w < ord T ui) as Hord_K.
  { intros w Hw. eapply (lookup_lt_sorted_app (ord T) K G); [|done|done].
    rewrite <- HS. apply (i_sorted _ HT). }
  assert (∀ w, w ∈ G → ord T ui ≤ ord T w) as Hord_G.
  { intros w [->|Hw]%elem_of_cons; [done|].
    assert (ord T ui < ord T w); [|lia].
    eapply (lookup_lt_sorted_app (ord T) (K ++ [ui]) G'); [|by apply elem_of_app; right; left|done].
    rewrite <- app_assoc. simpl. fold G. rewrite <- HS. apply (i_sorted _ HT). }
  assert (∀ w, w ∈ K → w ∉ G) as Hdisj.
  { intros w Hw Hw'. pose proof (Hord_K w Hw). pose proof (Hord_G w Hw'). lia. }
  assert (∀ w, w ∈ sstack T → ord T ui ≤ ord T w → w ∈ G) as Hsplit.
  { intros w Hw Hle. rewrite HS in Hw. apply elem_of_app in Hw as [Hw|Hw]; [|done].
    pose proof (Hord_K w Hw). lia. }
  assert (∀ w, w ∈ sstack T → w ∉ G → w ∈ K) as Hsplit'.
  { intros w Hw Hn. rewrite HS in Hw. by apply elem_of_app in Hw as [Hw|Hw]. }
  assert (NoDup G) as HGnd.
  { pose proof (sstack_NoDup _ HT) as Hnd. rewrite HS in Hnd.
    by apply NoDup_app in Hnd as (_ & _ & ?). }
  assert (∀ w, w ∈ G → state_of T w = Some k_analysis_in_progress) as HG_prog.
  { intros w Hw. by apply (i_stack _ HT), HG_in. }
  assert (∀ w, w ∈ G → is_Some (views T !! w)) as HG_valid.
  { intros w Hw. eapply stack_valid; [done|by apply HG_in]. }
  assert (∀ w, w ∈ G → reach T w ui) as Hto_root.
  { intros w Hw. eapply (above_root_reach _ HT _ _ HA Hroot (ord T w)); auto. }
  assert (∀ w, w ∈ G → reach T ui w) as Hfrom_root.
  { intros w Hw. eapply (i_reach _ HT); [done|by apply HG_prog|done|by apply Hord_G]. }
  assert (∀ w, w ∈ G → w ≠ ui → (w ∉ astack T) ∧ ord T ui ≤ low T w) as HG_compl.
  { intros w Hw Hne.
    assert (ord T ui < ord T w) as Hlt.
    { pose proof (Hord_G w Hw).
      assert (ord T w ≠ ord T ui); [|lia].
      intros Heq. apply Hne. eapply sstack_ord_inj; eauto. }
    destruct (above_top _ HT _ _ _ HA (HG_in _ Hw) Hlt) as (? & ? & ?).
    split; [done|lia]. }
  assert (∀ u v, u ∈ G → edge T u v → state_of T v = Some k_analyzed ∨ v ∈ G) as Hclosed.
  { intros u v Hu Huv.
    assert (looked T v (ord T ui)) as [?|(Hv & Hle)]; [|by left|].
    - destruct (decide (u = ui)) as [->|Hne].
      + rewrite <- Hroot. by apply Hbody.
      + destruct (HG_compl u Hu Hne) as [Hn Hle].
        destruct (i_done _ HT u v (HG_in _ Hu) Hn Huv) as [?|(? & ?)]; [by left|right].
        split; [done|lia].
    - right. apply Hsplit; [|done]. by apply (i_stack _ HT). }
  assert (∀ a, a ∈ A → a ∈ K ∧ a ∈ astack T) as HA_K.
  { intros a Ha.
    assert (a ∈ astack T) as Ha' by (rewrite HA, elem_of_app; by left).
    split; [|done]. apply Hsplit'; [by apply (i_ain _ HT)|].
    intros HaG. pose proof (astack_top _ HT _ _ _ HA Ha). pose proof (Hord_G a HaG). lia. }
  assert (∀ u, is_Some (views T !! u) → slot T u ∈ writes op → u ∈ G) as Hslot_G.
  { intros u [vu Hvu] Hin. rewrite Hwrites in Hin.
    apply list_elem_of_fmap in Hin as (g & Heq & Hg).
    destruct (HG_valid g Hg) as [vg Hvg].
    rewrite (slot_lookup _ _ _ Hvu), (slot_lookup _ _ _ Hvg) in Heq.
    by rewrite (wf_slots _ (e_wf _ HE) _ _ _ _ Hvu Hvg Heq). }
  assert (∀ u i, is_Some (views T !! u) → writer T (slot T u) i →
                 state_of T u = Some k_analyzed) as Hold_an.
  { intros u i [vu Hvu] (a & Ha & Hin).
    pose proof (e_written _ HE _ _ Hvu) as Hc.
    pose proof (count_writes_writer _ _ _ _ Ha Hin) as Hpos.
    rewrite (slot_lookup _ _ _ Hvu) in Hpos. rewrite (state_of_lookup _ _ _ Hvu).
    case_decide; [by f_equal|lia]. }
  assert (∀ u, state_of T u = Some k_analyzed → ∃ j, j < n ∧ writer T (slot T u) j)
    as Han_old.
  { intros u Hu. apply state_of_Some in Hu as (vu & Hvu & Hst).
    pose proof (e_written _ HE _ _ Hvu) as Hc. rewrite decide_True in Hc by done.
    destruct (count_writes_pos (v_slot vu) (acts T)) as (j & a & Hj & Hin); [lia|].
    exists j. split; [by eapply lookup_lt_Some|].
    rewrite (slot_lookup _ _ _ Hvu). by exists a. }
  assert (NoDup (slot T <$> G)) as HslotND.
  { apply NoDup_fmap_2_strong; [|done].
    intros x y Hx Hy Heq.
    destruct (HG_valid x Hx) as [vx Hvx]. destruct (HG_valid y Hy) as [vy Hvy].
    rewrite (slot_lookup _ _ _ Hvx), (slot_lookup _ _ _ Hvy) in Heq.
    by eapply (wf_slots _ (e_wf _ HE)). }
  pose proof (retire_static K G op T) as Hs.
  assert (∀ s i, writer (t_retire K G op T) s i →
                 (i < n ∧ writer T s i) ∨ (i = n ∧ s ∈ writes op)) as Hwr.
  { intros s i (a & Ha & Hin). simpl in Ha.
    apply lookup_snoc_Some in Ha as [[? ?]|[? ->]]; [left|right; done].
    split; [done|by exists a]. }
  assert (∀ s i, writer T s i → writer (t_retire K G op T) s i) as Hwr_old.
  { intros s i (a & Ha & Hin). exists a. split; [|done]. simpl.
    by apply lookup_app_l_Some. }
  assert (∀ u, u ∈ G → writer (t_retire K G op T) (slot T u) n) as Hwr_new.
  { intros u Hu. exists op. split.
    - simpl. by rewrite lookup_app_r, Nat.sub_diag by done.
    - rewrite Hwrites. by apply list_elem_of_fmap_2. }
  assert (∀ u, state_of (t_retire K G op T) u = Some k_analyzed →
               (u ∈ G) ∨ ((u ∉ G) ∧ state_of T u = Some k_analyzed)) as Hst_new.
  { intros u Hu. destruct (decide (u ∈ G)); [by left|right].
    by rewrite state_of_retire_out in Hu. }
  assert (∀ u, state_of T u = Some k_analyzed → u ∉ G) as Han_notG.
  { intros u Hu HuG. pose proof (HG_prog u HuG). congruence. }
  assert (∀ u, state_of T u = Some k_analyzed →
               state_of (t_retire K G op T) u = Some k_analyzed) as Han_keep.
  { intros u Hu. rewrite state_of_retire_out; [done|by apply Han_notG]. }
  assert (∀ u, state_of (t_retire K G op T) u = Some k_analyzed →
               is_Some (views T !! u)) as Hvalid_new.
  { intros u [Hu|[_ Hu]]%Hst_new; [by apply HG_valid|].
    apply state_of_Some in Hu as (? & ? & _). eauto. }
  split; sa; rewrite ?state_of_set_astack_retire.
  - (* emitted *)
    eapply Emitted_same; [apply set_astack_same_emitted|].
    split.
    + eapply same_static_WF; [done|apply HE].
    + intros i v' Hv'. rewrite views_retire in Hv'. simpl.
      rewrite count_writes_app, count_writes_single, Hwrites.
      case_decide as HiG.
      * destruct (views T !! i) as [v|] eqn:Hv; [|done]. simpl in Hv'.
        injection Hv' as <-. simpl.
        pose proof (e_written _ HE _ _ Hv) as Hc.
        pose proof (HG_prog i HiG) as Hst. rewrite (state_of_lookup _ _ _ Hv) in Hst.
        rewrite decide_False in Hc by congruence. rewrite Hc.
        rewrite filter_eq_length_1; [done|exact HslotND|].
        rewrite <- (slot_lookup _ _ _ Hv).
        exact (list_elem_of_fmap_2 (slot T) G i HiG).
      * rewrite (e_written _ HE _ _ Hv').
        rewrite filter_eq_length_0; [lia|].
        intros Hin. apply HiG. apply Hslot_G; [by eauto|].
        rewrite Hwrites, (slot_lookup _ _ _ Hv'). done.
    + intros u v Hu Huv.
      apply (same_static_edge _ _ _ _ (same_static_sym _ _ Hs)) in Huv.
      rewrite !(same_static_slot _ _ _ Hs).
      destruct (Hst_new u Hu) as [HuG|[HuG Hu']].
      * destruct (Hclosed u v HuG Huv) as [Hv|HvG].
        -- split; [by apply Han_keep|].
           destruct (Han_old v Hv) as (j & Hj & Hw).
           exists n, j, op. split_and!.
           ++ simpl. by rewrite lookup_app_r, Nat.sub_diag by done.
           ++ rewrite Hwrites. by apply list_elem_of_fmap_2.
           ++ by apply Hwr_old.
           ++ by left.
        -- split; [by apply state_of_retire_in; [|apply HG_valid]|].
           exists n, n, op. split_and!.
           ++ simpl. by rewrite lookup_app_r, Nat.sub_diag by done.
           ++ rewrite Hwrites. by apply list_elem_of_fmap_2.
           ++ by apply Hwr_new.
           ++ right. split; [done|]. destruct Hkind as [?|Hdata]; [done|].
              exfalso.
              assert (∀ w, w ∈ G → w = ui) as Hall.
              { intros w Hw.
                eapply (data_root_top _ HT _ _ HA Hroot Hdata (ord T w)); auto. }
              rewrite (Hall u HuG), (Hall v HvG) in Huv. by apply Hdata, Hself.
      * destruct (e_topo _ HE u v Hu' Huv) as (Hv & i & j & a & Ha & Hin & Hw & Hij).
        split; [by apply Han_keep|].
        exists i, j, a. split_and!; [|done|by apply Hwr_old|done].
        simpl. by apply lookup_app_l_Some.
    + intros u v i j Hu Hv Hwu Hwv Hlt Hord.
      rewrite !ord_retire in Hord.
      rewrite (same_static_slot _ _ u Hs) in Hwu.
      rewrite (same_static_slot _ _ v Hs) in Hwv.
      eapply same_static_reach; [done|].
      apply Hwr in Hwu as [[Hi Hwu]|[-> Hwu]], Hwv as [[Hj Hwv]|[-> Hwv]]; try lia.
      * eapply (e_tie _ HE); eauto using Hvalid_new.
      * apply Hslot_G in Hwu; [|by apply Hvalid_new].
        pose proof (Hold_an v j (Hvalid_new _ Hv) Hwv) as Hv'.
        eapply rtc_trans; [by apply Hto_root|].
        eapply (i_reach _ HT); [done|done|done|].
        pose proof (Hord_G u Hwu). lia.
    + intros u v i Hu Hv Hwu Hwv.
      rewrite (same_static_slot _ _ u Hs) in Hwu.
      rewrite (same_static_slot _ _ v Hs) in Hwv.
      eapply same_static_reach; [done|].
      apply Hwr in Hwu as [[Hi Hwu]|[-> Hwu]], Hwv as [[Hj Hwv]|[Hj Hwv]]; try lia.
      * eapply (e_scc _ HE); eauto using Hvalid_new.
      * apply Hslot_G in Hwu; [|by apply Hvalid_new].
        apply Hslot_G in Hwv; [|by apply Hvalid_new].
        eapply rtc_trans; [by apply Hto_root|by apply Hfrom_root].
    + intros i ph ms id b Hi Hid Hb. simpl in Hi, Hb.
      apply lookup_snoc_Some in Hi as [[Hi1 Hi2]|[_ ->]].
      * destruct (e_stmt _ HE _ _ _ _ _ Hi2 Hid Hb) as (j & Hj & Hw).
        exists j. split; [done|]. by apply Hwr_old.
      * simpl in Hwrites. done.
    + intros u i a Hu Ha Hin Hfs. simpl in Ha.
      eapply same_static_is_fun; [exact Hs|].
      rewrite (same_static_slot _ _ u Hs) in Hin.
      apply lookup_snoc_Some in Ha as [[Hi1 Hi2]|[_ <-]].
      * eapply (e_fun _ HE); [|exact Hi2|done|done].
        eapply Hold_an; [by apply Hvalid_new|]. by exists a.
      * apply Hfuns; [done|]. apply Hslot_G; [by apply Hvalid_new|done].
    + eapply same_static_trans; [apply (e_static _ HE)|exact Hs].
  - (* stack *)
    intros i. simpl. destruct (decide (i ∈ G)) as [HiG|HiG].
    + rewrite state_of_retire_in by auto. split; [|done].
      intros HiK. by destruct (Hdisj i HiK).
    + rewrite state_of_retire_out by done. rewrite <- (i_stack _ HT). split; [auto|].
      intros Hi. by apply Hsplit'.
  - intros i j x y. simpl. rewrite !ord_retire.
    apply (sorted_app_l (ord T) K G). rewrite <- HS. apply (i_sorted _ HT).
  - intros i s Hi Hne. simpl. rewrite ord_retire.
    destruct (decide (i ∈ G)) as [HiG|HiG].
    + eapply (i_count _ HT); [by apply HG_prog|done].
    + rewrite state_of_retire_out in Hi by done. by eapply (i_count _ HT).
  - intros a Ha. simpl in *. by apply HA_K.
  - intros i j x y. simpl. rewrite !ord_retire.
    apply (sorted_app_l (ord T) A [ui]). rewrite <- HA. apply (i_asorted _ HT).
  - intros w Hw. simpl in Hw. rewrite low_retire, ord_retire.
    by apply (i_low_le _ HT), HK_in.
  - intros w Hw. simpl in Hw. rewrite low_retire.
    destruct (i_low_tgt _ HT w (HK_in _ Hw)) as (z & Hz & Hzo & Hzf & Hzr).
    exists z. rewrite ord_retire. split_and!; [|done| |by eapply same_static_reach].
    + simpl. apply Hsplit'; [done|]. intros HzG.
      pose proof (Hord_G z HzG). pose proof (Hord_K w Hw).
      pose proof (i_low_le _ HT w (HK_in _ Hw)). lia.
    + destruct Hzf; [by left|right]. by eapply same_static_is_fun.
  - intros w Hw. simpl in *. setoid_rewrite ord_retire.
    destruct (i_anc _ HT w (HK_in _ Hw)) as (a & Ha & Hle).
    exists a. split; [|done].
    rewrite HA in Ha. apply elem_of_app in Ha as [Ha|Ha]; [done|].
    apply list_elem_of_singleton in Ha as ->. pose proof (Hord_K w Hw). lia.
  - intros w Hw Hn. simpl in *. rewrite low_retire, ord_retire.
    apply (i_compl _ HT); [by apply HK_in|].
    rewrite HA, elem_of_app, list_elem_of_singleton. intros [?| ->]; [done|].
    by destruct (Hdisj ui Hw).
  - intros a w Ha Hw Hn. simpl in *. rewrite !low_retire, !ord_retire.
    setoid_rewrite ord_retire. intros Hlt Hnear.
    apply (i_near _ HT); [by apply HA_K|by apply HK_in| |done|].
    + rewrite HA, elem_of_app, list_elem_of_singleton. intros [?| ->]; [done|].
      by destruct (Hdisj ui Hw).
    + intros a' Ha' Hlt'. rewrite HA in Ha'. apply elem_of_app in Ha' as [Ha'|Ha'].
      * by apply Hnear.
      * apply list_elem_of_singleton in Ha' as ->. pose proof (Hord_K w Hw). lia.
  - intros w v Hw Hn Hwv. simpl in *. rewrite low_retire.
    apply (same_static_edge _ _ _ _ (same_static_sym _ _ Hs)) in Hwv.
    assert (w ∉ astack T) as Hn'.
    { rewrite HA, elem_of_app, list_elem_of_singleton. intros [?| ->]; [done|].
      by destruct (Hdisj ui Hw). }
    unfold looked. rewrite ord_retire.
    destruct (i_done _ HT w v (HK_in _ Hw) Hn' Hwv) as [Hv|(Hv & Hle)].
    + left. by apply Han_keep.
    + destruct (decide (v ∈ G)) as [HvG|HvG].
      * left. apply state_of_retire_in; [done|by apply HG_valid].
      * right. by rewrite state_of_retire_out by done.
  - intros a w s Ha Hw Hne. simpl in Ha. rewrite !ord_retire. intros Hle.
    eapply same_static_reach; [done|].
    destruct (decide (w ∈ G)) as [HwG|HwG].
    + eapply (i_reach _ HT); [by apply HA_K|by apply HG_prog|done|done].
    + rewrite state_of_retire_out in Hw by done.
      eapply (i_reach _ HT); [by apply HA_K|done..].
Qed.


(** ** A bare statement is appended *)

Lemma push_inv T ph ms :
  TInv T →
  (∀ id b, id ∈ ph_ids ph → dict T !! atom_ id = Some b →
           state_of T (unit_index_ b) = Some k_analyzed) →
  TInv (t_push (Generic_Op ph ms) T).
Proof.
  intros HT Hids. pose proof (i_emitted _ HT) as HE.
  set (op := Generic_Op ph ms). set (n := length (acts T)).
  assert (∀ s i, writer (t_push op T) s i → writer T s i) as Hwr.
  { intros s i (a & Ha & Hin). simpl in Ha.
    apply lookup_snoc_Some in Ha as [[? ?]|[? <-]]; [by exists a|].
    by apply elem_of_nil in Hin. }
  assert (∀ s i, writer T s i → writer (t_push op T) s i) as Hwr_old.
  { intros s i (a & Ha & Hin). exists a. split; [|done]. simpl.
    by apply lookup_app_l_Some. }
  split; try apply HT.
  split.
  - eapply same_static_WF; [|apply (e_wf _ HE)]. done.
  - intros i v Hv. simpl. rewrite count_writes_app, count_writes_single. simpl.
    rewrite Nat.add_0_r. by apply (e_written _ HE _ _ Hv).
  - intros u v Hu Huv.
    destruct (e_topo _ HE u v Hu Huv) as (Hv & i & j & a & Ha & Hin & Hw & Hij).
    split; [done|]. exists i, j, a. split_and!; [|done|by apply Hwr_old|done].
    simpl. by apply lookup_app_l_Some.
  - intros u v i j Hu Hv Hwu Hwv. apply (e_tie _ HE); auto.
  - intros u v i Hu Hv Hwu Hwv. eapply (e_scc _ HE); eauto.
  - intros i ph' ms' id b Hi Hid Hb. simpl in Hi, Hb.
    apply lookup_snoc_Some in Hi as [[Hi1 Hi2]|[-> Heq]].
    + destruct (e_stmt _ HE _ _ _ _ _ Hi2 Hid Hb) as (j & Hj & Hw).
      exists j. split; [done|]. by apply Hwr_old.
    + injection Heq as <- <-.
      pose proof (Hids _ _ Hid Hb) as Han.
      apply state_of_Some in Han as (v & Hv & Hst).
      destruct (wf_dict _ (e_wf _ HE) _ _ Hb) as (v' & Hv' & _ & Hslot).
      pose proof (e_written _ HE _ _ Hv) as Hc. rewrite decide_True in Hc by done.
      destruct (count_writes_pos (v_slot v) (acts T)) as (j & a & Hj & Hin); [lia|].
      exists j. split; [by eapply lookup_lt_Some|].
      apply Hwr_old. exists a. split; [done|]. congruence.
  - intros u i a Hu Ha Hin Hfs. simpl in Ha.
    apply lookup_snoc_Some in Ha as [[Hi1 Hi2]|[_ <-]]; [|done].
    by eapply (e_fun _ HE).
  - apply (e_static _ HE).
Qed.

(** ** The state before the analysis *)

Lemma initial_inv T :
  same_static initial T →
  WF T → (∀ i v, views T !! i = Some v → v_state v = k_not_analyzed) →
  sstack T = [] → astack T = [] → acts T = [] → TInv T.
Proof.
  intros Hinit Hwf Hnot Hs Ha Hacts.
  assert (∀ i s, state_of T i = Some s → s = k_not_analyzed) as Hst.
  { intros i s (v & Hv & <-)%state_of_Some. eauto. }
  assert (∀ s i, ¬ writer T s i) as Hnw.
  { intros s i (a & Hi & _). by rewrite Hacts in Hi. }
  split; rewrite ?Hs, ?Ha.
  - split.
    + done.
    + intros i v Hv. rewrite Hacts, (Hnot _ _ Hv). done.
    + intros u v Hu. by apply Hst in Hu.
    + intros u v i j Hu. by apply Hst in Hu.
    + intros u v i Hu. by apply Hst in Hu.
    + intros i ph ms id b Hi. by rewrite Hacts in Hi.
    + intros u i a Hu. by apply Hst in Hu.
    + done.
  - intros i. split; [by intros ?%elem_of_nil|]. intros Hi. by apply Hst in Hi.
  - intros i j x y Hi. done.
  - intros i s Hi Hne. by apply Hst in Hi.
  - done.
  - intros i j x y Hi. done.
  - by intros w ?%elem_of_nil.
  - by intros w ?%elem_of_nil.
  - by intros w ?%elem_of_nil.
  - by intros w ?%elem_of_nil.
  - by intros a w ?%elem_of_nil.
  - by intros w v ?%elem_of_nil.
  - by intros a w s ?%elem_of_nil.
Qed.

(** Between two top-level calls nothing is in progress. *)
Lemma top_level_stack T : TInv T → astack T = [] → sstack T = [].
Proof.
  intros HT Ha. destruct (sstack T) as [|w l] eqn:Hs; [done|].
  destruct (i_anc _ HT w) as (a & Hin & _); [rewrite Hs; by left|].
  rewrite Ha in Hin. by apply elem_of_nil in Hin.
Qed.

Lemma top_level_state T i s :
  TInv T → astack T = [] → state_of T i = Some s → s ≠ k_analysis_in_progress.
Proof.
  intros HT Ha Hi ->. apply (i_stack _ HT) in Hi.
  rewrite (top_level_stack _ HT Ha) in Hi. by apply elem_of_nil in Hi.
Qed.

(** ** The frame of the steps *)

Lemma Mono_refl T : Mono T T.
Proof.
  split; [done|done| |done|done].
  intros i v Hv. exists v. split_and!; [done|done|done|]. intros ?. split_and!; done.
Qed.

Lemma Mono_trans T1 T2 T3 : Mono T1 T2 → Mono T2 T3 → Mono T1 T3.
Proof.
  intros [D1 L1 U1 C1 A1] [D2 L2 U2 C2 A2]. split.
  - congruence.
  - congruence.
  - intros i v1 Hv1.
    destruct (U1 _ _ Hv1) as (v2 & Hv2 & S1 & K1 & N1).
    destruct (U2 _ _ Hv2) as (v3 & Hv3 & S2 & K2 & N2).
    exists v3. split_and!; [done|congruence| |].
    + intros Han. specialize (K1 Han). subst v2. by apply K2.
    + intros Hne. destruct (N1 Hne) as (? & ? & ?). destruct N2 as (? & ? & ?); [done|].
      split_and!; [done|congruence|lia].
  - lia.
  - by etrans.
Qed.

Lemma Mono_alter (f : View → View) p T T' :
  views T' = alter f p (views T) → dict T' = dict T → count T ≤ count T' →
  acts T `prefix_of` acts T' →
  (∀ v, views T !! p = Some v →
        v_static (f v) = v_static v ∧ v_state v ≠ k_analyzed ∧
        (v_state v ≠ k_not_analyzed →
           v_state (f v) ≠ k_not_analyzed ∧ v_ord (f v) = v_ord v ∧ v_low (f v) ≤ v_low v)) →
  Mono T T'.
Proof.
  intros Hv Hd Hc Ha Hf. split; [done| | |done|done].
  - by rewrite Hv, length_alter.
  - intros i v Hi. rewrite Hv, list_lookup_alter. case_decide.
    + subst. rewrite Hi. simpl. destruct (Hf _ Hi) as (? & ? & ?).
      exists (f v). split_and!; done.
    + exists v. split_and!; [done|done|done|]. intros ?. split_and!; done.
Qed.

Lemma lower_Mono p l T :
  l ≤ low T p → state_of T p ≠ Some k_analyzed → Mono T (t_lower p l T).
Proof.
  intros Hl Hp. eapply (Mono_alter (v_set_low l) p); try done.
  intros v Hv. rewrite (low_lookup _ _ _ Hv) in Hl.
  rewrite (state_of_lookup _ _ _ Hv) in Hp.
  split_and!; [done|congruence|]. intros ?. split_and!; done.
Qed.

Lemma discover_Mono ui T :
  state_of T ui = Some k_not_analyzed → Mono T (t_discover ui T).
Proof.
  intros Hp. eapply (Mono_alter (v_discover (count T)) ui); try done.
  - simpl. lia.
  - intros v Hv. rewrite (state_of_lookup _ _ _ Hv) in Hp.
    split_and!; [done|congruence|congruence].
Qed.

Lemma set_astack_Mono A T : Mono T (t_set_astack A T).
Proof.
  split; [done|done| |done|done].
  intros i v Hv. exists v. split_and!; [done|done|done|]. intros ?. split_and!; done.
Qed.

Lemma push_Mono op T : Mono T (t_push op T).
Proof.
  split; [done|done| |done|by apply prefix_app_r].
  intros i v Hv. exists v. split_and!; [done|done|done|]. intros ?. split_and!; done.
Qed.

Lemma retire_Mono K G op T :
  (∀ g, g ∈ G → state_of T g = Some k_analysis_in_progress) →
  Mono T (t_retire K G op T).
Proof.
  intros HG. split; [done| | |done|by apply prefix_app_r].
  - simpl. induction G as [|g G IH]; [done|]. simpl. rewrite length_alter.
    apply IH. intros; apply HG; by right.
  - intros i v Hv. rewrite views_retire, Hv. case_decide as Hi.
    + exists (v_set_state k_analyzed v). specialize (HG i Hi).
      rewrite (state_of_lookup _ _ _ Hv) in HG.
      split_and!; [done|done|congruence|]. intros ?. split_and!; done.
    + exists v. split_and!; [done|done|done|]. intros ?. split_and!; done.
Qed.

Lemma Mono_static T T' : Mono T T' → same_static T T'.
Proof.
  intros [Hd Hl Hu _ _]. split; [|done].
  apply list_eq. intros i. rewrite !list_lookup_fmap.
  destruct (views T !! i) as [v|] eqn:Hv.
  - destruct (Hu _ _ Hv) as (v' & -> & Hst & _). simpl. by rewrite Hst.
  - apply lookup_ge_None in Hv. rewrite <- Hl in Hv.
    apply lookup_ge_None in Hv. by rewrite Hv.
Qed.

Lemma Mono_state T T' i s :
  Mono T T' → state_of T i = Some s → s ≠ k_not_analyzed →
  ∃ s', state_of T' i = Some s' ∧ s' ≠ k_not_analyzed ∧ ord T' i = ord T i ∧
        low T' i ≤ low T i ∧ (s = k_analyzed → s' = k_analyzed).
Proof.
  intros HM (v & Hv & <-)%state_of_Some Hne.
  destruct (m_units _ _ HM _ _ Hv) as (v' & Hv' & _ & Hk & Hn).
  destruct (Hn Hne) as (? & ? & ?).
  exists (v_state v').
  rewrite (state_of_lookup _ _ _ Hv'), (ord_lookup _ _ _ Hv'), (ord_lookup _ _ _ Hv),
    (low_lookup _ _ _ Hv'), (low_lookup _ _ _ Hv).
  split_and!; [done..|]. intros Han. by rewrite (Hk Han).
Qed.

Lemma looked_Mono T T' v l l' :
  Mono T T' → looked T v l → l' ≤ l → looked T' v l'.
Proof.
  intros HM Hl Hle. destruct Hl as [Han|(Hip & Hlo)].
  - left. destruct (Mono_state _ _ _ _ HM Han) as (s' & Hs' & _ & _ & _ & Hk); [done|].
    by rewrite Hs', Hk.
  - destruct (Mono_state _ _ _ _ HM Hip) as (s' & Hs' & Hne & Ho & _); [done|].
    destruct s'; [done|right|by left].
    split; [done|lia].
Qed.

Lemma filter_length_mono {A} (P : A → Prop) `{∀ x, Decision (P x)} (l l' : list A) :
  length l' = length l →
  (∀ i x', l' !! i = Some x' → P x' → ∃ x, l !! i = Some x ∧ P x) →
  length (filter P l') ≤ length (filter P l).
Proof.
  revert l'. induction l as [|x l IH]; intros [|x' l'] Hlen Hp; simplify_eq/=; [done|].
  rewrite !filter_cons.
  assert (length (filter P l') ≤ length (filter P l)) as Hle.
  { apply IH; [done|]. intros i y Hy Py. exact (Hp (S i) y Hy Py). }
  destruct (decide (P x')) as [Px'|].
  - destruct (Hp 0 x' eq_refl Px') as (y & [= <-] & Py). rewrite decide_True by done.
    simpl. lia.
  - case_decide; simpl; lia.
Qed.

Lemma notan_Mono T T' : Mono T T' → notan T' ≤ notan T.
Proof.
  intros HM. apply filter_length_mono; [apply HM|].
  intros i v' Hv' Hst.
  destruct (views T !! i) as [v|] eqn:Hv.
  - exists v. split; [done|].
    destruct (m_units _ _ HM _ _ Hv) as (v'' & Hv'' & _ & _ & Hn).
    assert (v'' = v') as -> by congruence.
    destruct (decide (v_state v = k_not_analyzed)); [done|].
    by destruct (Hn n) as (? & _).
  - apply lookup_ge_None in Hv. rewrite <- (m_length _ _ HM) in Hv.
    apply lookup_ge_None in Hv. congruence.
Qed.

Lemma filter_length_alter {A} (P : A → Prop) `{∀ x, Decision (P x)}
    (f : A → A) (l : list A) (i : nat) (x : A) :
  l !! i = Some x → P x → ¬ P (f x) →
  S (length (filter P (alter f i l))) = length (filter P l).
Proof.
  revert i. induction l as [|y l IH]; intros [|i] Hi Px Pfx; simplify_eq/=.
  - rewrite !filter_cons. destruct (decide (P (f x))); [done|].
    destruct (decide (P x)); done.
  - rewrite !filter_cons. case_decide; simpl; erewrite <- IH; eauto.
Qed.

Lemma discover_notan ui T :
  state_of T ui = Some k_not_analyzed → S (notan (t_discover ui T)) = notan T.
Proof.
  intros (v & Hv & Hst)%state_of_Some. unfold notan. simpl.
  by eapply filter_length_alter.
Qed.


(** ** Cycles through a data definition *)

Lemma count_writes_unique s l i j a b :
  l !! i = Some a → s ∈ writes a → l !! j = Some b → s ∈ writes b →
  count_writes s l ≤ 1 → i = j.
Proof.
  revert i j. induction l as [|x l IH]; intros i j Hi Ha Hj Hb Hc; [done|].
  change (x :: l) with ([x] ++ l) in Hc.
  rewrite count_writes_app, count_writes_single in Hc.
  destruct i as [|i], j as [|j]; simpl in Hi, Hj.
  - done.
  - injection Hi as ->. pose proof (filter_eq_length_pos _ _ Ha).
    pose proof (count_writes_writer _ _ _ _ Hj Hb). lia.
  - injection Hj as ->. pose proof (filter_eq_length_pos _ _ Hb).
    pose proof (count_writes_writer _ _ _ _ Hi Ha). lia.
  - f_equal. eapply IH; eauto. lia.
Qed.

Lemma writer_unique T u i j :
  Emitted T → is_Some (views T !! u) →
  writer T (slot T u) i → writer T (slot T u) j → i = j.
Proof.
  intros HE [v Hv] (a & Ha & Hina) (b & Hb & Hinb).
  eapply count_writes_unique; eauto.
  rewrite (slot_lookup _ _ _ Hv), (e_written _ HE _ _ Hv). case_decide; lia.
Qed.

(** What an initialized unit depends on is initialized, and not later than
    the unit. *)
Lemma analyzed_reach T u v :
  Emitted T → state_of T u = Some k_analyzed → reach T u v →
  state_of T v = Some k_analyzed ∧
  ∀ i j, writer T (slot T u) i → writer T (slot T v) j → j ≤ i.
Proof.
  intros HE Hu Hr. induction Hr as [u|u w v Huw _ IH].
  - split; [done|]. intros i j Hi Hj.
    assert (i = j); [|lia]. eapply writer_unique; eauto.
    apply state_of_Some in Hu as (? & ? & _). eauto.
  - destruct (e_topo _ HE _ _ Hu Huw) as (Hw & i0 & j0 & a & Ha & Hin & Hwj & Hle).
    destruct (IH Hw) as [Hv Hord]. split; [done|].
    intros i j Hi Hj.
    assert (i = i0) as ->.
    { eapply writer_unique; eauto.
      - apply state_of_Some in Hu as (? & ? & _). eauto.
      - by exists a. }
    pose proof (Hord _ _ Hwj Hj). lia.
Qed.


End Steps.
End SCC_Steps.

(** * The analysis code performs the steps *)

(** ** Weakest preconditions for the analysis monad *)

Definition wp {S A} (m : M S A) (Q : A → S → Prop) (E : Failure → S → Prop)
    (st : S) : Prop :=
  match m st with
  | (Returns a, st') => Q a st'
  | (Fails f, st') => E f st'
  end.

Lemma wp_ret {S A} (a : A) (Q : A → S → Prop) E st : Q a st → wp (ret a) Q E st.
Proof. done. Qed.

Lemma wp_bind {S A B} (m : M S A) (k : A → M S B) Q E st :
  wp m (λ a st', wp (k a) Q E st') E st → wp (bind m k) Q E st.
Proof. unfold wp, bind. by destruct (m st) as [[a|f] st']. Qed.

Lemma wp_get {S} (Q : S → S → Prop) E st : Q st st → wp get Q E st.
Proof. done. Qed.

Lemma wp_modify {S} (f : S → S) (Q : unit → S → Prop) E st :
  Q tt (f st) → wp (modify f) Q E st.
Proof. done. Qed.

Lemma wp_fail {S A} (f : Failure) (Q : A → S → Prop) (E : Failure → S → Prop) st :
  E f st → wp (fail f) Q E st.
Proof. done. Qed.

Lemma wp_mono {S A} (m : M S A) (Q Q' : A → S → Prop) (E E' : Failure → S → Prop) st :
  wp m Q E st → (∀ a st', Q a st' → Q' a st') → (∀ f st', E f st' → E' f st') →
  wp m Q' E' st.
Proof. unfold wp. destruct (m st) as [[a|f] st']; auto. Qed.

Lemma wp_assert {S} (NDEBUG : bool) line (cond : bool) (Q : unit → S → Prop) E st :
  (cond = true ∨ NDEBUG = true → Q tt st) →
  (cond = false → NDEBUG = false → E (Assertion_failed line) st) →
  wp (assert_ NDEBUG line cond) Q E st.
Proof.
  unfold assert_. intros H1 H2. destruct cond; [apply H1; by left|].
  destruct NDEBUG; [apply H1; by right|]. by apply H2.
Qed.

Lemma wp_returns {S A} (m : M S A) Q E st a st' :
  wp m Q E st → m st = (Returns a, st') → Q a st'.
Proof. unfold wp. intros H Heq. by rewrite Heq in H. Qed.

Lemma wp_fails {S A} (m : M S A) Q E st f st' :
  wp m Q E st → m st = (Fails f, st') → E f st'.
Proof. unfold wp. intros H Heq. by rewrite Heq in H. Qed.

Lemma wp_returns_ex {S A} (m : M S A) (Q : A → S → Prop) st :
  wp m Q (λ _ _, False) st → ∃ a st', m st = (Returns a, st') ∧ Q a st'.
Proof. unfold wp. destruct (m st) as [[a|f] st']; [eauto|done]. Qed.

Lemma wp_fails_ex {S A} (m : M S A) (E : Failure → S → Prop) st :
  wp m (λ _ _, False) E st → ∃ f st', m st = (Fails f, st') ∧ E f st'.
Proof. unfold wp. destruct (m st) as [[a|f] st']; [done|eauto]. Qed.

Lemma wp_run {S A} (m : M S A) (Q : A → S → Prop) (E : Failure → S → Prop) st :
  (∀ a st', m st = (Returns a, st') → Q a st') →
  (∀ f st', m st = (Fails f, st') → E f st') →
  wp m Q E st.
Proof. unfold wp. destruct (m st) as [[a|f] st']; auto. Qed.

Lemma wp_conj {S A} (m : M S A) (Q Q' : A → S → Prop) (E E' : Failure → S → Prop) st :
  wp m Q E st → wp m Q' E' st →
  wp m (λ a s, Q a s ∧ Q' a s) (λ f s, E f s ∧ E' f s) st.
Proof. unfold wp. by destruct (m st) as [[a|f] st']. Qed.

(** A loop over a list, with an invariant [I], a frame [R] that relates two
    states of the loop, and facts [P] gathered per element. *)
Lemma wp_mapM {S A B} (f : A → M S B) (l : list A)
    (I : S → Prop) (R : S → S → Prop) (P : A → S → Prop)
    (E : S → Failure → S → Prop) st :
  (∀ s, R s s) →
  (∀ s1 s2 s3, R s1 s2 → R s2 s3 → R s1 s3) →
  (∀ x s1 s2, I s1 → R s1 s2 → P x s1 → P x s2) →
  (∀ s0 s1 s2 fl, R s0 s1 → E s1 fl s2 → E s0 fl s2) →
  (∀ x s1, x ∈ l → I s1 → R st s1 →
     wp (f x) (λ _ s2, I s2 ∧ R s1 s2 ∧ P x s2) (E s1) s1) →
  I st →
  wp (mapM f l) (λ _ s', I s' ∧ R st s' ∧ ∀ x, x ∈ l → P x s') (E st) st.
Proof.
  intros Hrefl Htrans Hpers Hfail Hf HI.
  cut (∀ l' s1, (∀ x, x ∈ l' → x ∈ l) → I s1 → R st s1 →
        wp (mapM f l') (λ _ s', I s' ∧ R s1 s' ∧ ∀ x, x ∈ l' → P x s') (E s1) s1).
  { intros H. by apply H. }
  induction l' as [|x l' IH]; intros s1 Hsub Hs1 HR; simpl.
  { apply wp_ret. split_and!; [done|done|by intros x ?%elem_of_nil]. }
  apply wp_bind. eapply wp_mono; [apply Hf; [apply Hsub; by left|done|done]| |done].
  intros y s2 (HI2 & HR2 & HP2). simpl.
  apply wp_bind. eapply wp_mono; [apply IH| |].
  - intros; apply Hsub; by right.
  - done.
  - by eapply Htrans.
  - intros ys s3 (HI3 & HR3 & HP3). apply wp_ret. split_and!; [done|by eapply Htrans|].
    intros z [->|Hz]%elem_of_cons; [exact (Hpers _ _ _ HI2 HR3 HP2)|by apply HP3].
  - intros fl s3 HE. by eapply Hfail.
Qed.

Lemma wp_forM {S A} (f : A → M S unit) (l : list A)
    (I : S → Prop) (R : S → S → Prop) (P : A → S → Prop)
    (E : S → Failure → S → Prop) st :
  (∀ s, R s s) →
  (∀ s1 s2 s3, R s1 s2 → R s2 s3 → R s1 s3) →
  (∀ x s1 s2, I s1 → R s1 s2 → P x s1 → P x s2) →
  (∀ s0 s1 s2 fl, R s0 s1 → E s1 fl s2 → E s0 fl s2) →
  (∀ x s1, x ∈ l → I s1 → R st s1 →
     wp (f x) (λ _ s2, I s2 ∧ R s1 s2 ∧ P x s2) (E s1) s1) →
  I st →
  wp (forM_ l f) (λ _ s', I s' ∧ R st s' ∧ ∀ x, x ∈ l → P x s') (E st) st.
Proof.
  intros Hrefl Htrans Hpers Hfail Hf HI.
  cut (∀ l' s1, (∀ x, x ∈ l' → x ∈ l) → I s1 → R st s1 →
        wp (forM_ l' f) (λ _ s', I s' ∧ R s1 s' ∧ ∀ x, x ∈ l' → P x s') (E s1) s1).
  { intros H. by apply H. }
  induction l' as [|x l' IH]; intros s1 Hsub Hs1 HR; simpl.
  { apply wp_ret. split_and!; [done|done|by intros x ?%elem_of_nil]. }
  apply wp_bind. eapply wp_mono; [apply Hf; [apply Hsub; by left|done|done]| |done].
  intros y s2 (HI2 & HR2 & HP2). simpl.
  eapply wp_mono; [apply IH| |].
  - intros; apply Hsub; by right.
  - done.
  - by eapply Htrans.
  - intros ys s3 (HI3 & HR3 & HP3). split_and!; [done|by eapply Htrans|].
    intros z [->|Hz]%elem_of_cons; [exact (Hpers _ _ _ HI2 HR3 HP2)|by apply HP3].
  - intros fl s3 HE. by eapply Hfail.
Qed.

Module Recursive_Scope_Correct.
Import Recursive_Scope SCC SCC_Steps.

Section Correct.
Variable NDEBUG : bool.
Variable Parent : Type.
Variable parent_lookup : Identifier → Parent → option Meaning * Parent.

Local Abbreviation St := (t Parent).
Implicit Types (sc : St).

(** ** The cycle-detection state of a scope *)

Definition abs (sc : St) : Tarjan :=
  mkTarjan (view <$> units_ sc) (dictionary_ sc) (scc_stack_ sc)
           (analysis_stack_ sc) (scc_count_ sc) (actions_ sc).

Section Analysis.
Context {Hinitial : Initial}.

Definition Inv (sc : St) : Prop := TInv (abs sc).

(** What a call may change besides the cycle-detection state. *)
Record Frame (sc sc' : St) : Prop := {
  f_mono : Mono (abs sc) (abs sc');
  f_astack : analysis_stack_ sc' = analysis_stack_ sc;
  f_target : target_is_module_ sc' = target_is_module_ sc;
  f_module_slot : module_slot_ sc' = module_slot_ sc;
  f_source : source_ sc' = source_ sc;
  f_phrases : action_phrases_ sc' = action_phrases_ sc
}.

(** The unit the caller has looked up is initialized, or in progress and
    accounted for by the caller's lowlink. *)
Definition looked_top (T : Tarjan) (v : nat) : Prop :=
  state_of T v = Some k_analyzed ∨
  ∃ p, last (astack T) = Some p ∧ state_of T v = Some k_analysis_in_progress ∧
       low T p ≤ ord T v ∧ (v = p → is_fun T p).

(** How the analysis may fail: by an exception for illegal recursion or for
    a name that nothing defines, with the emitted actions still in order, or
    at the assertion of line 230 when assertions are compiled in. *)
Definition fail_ok (f : Failure) (sc' : St) : Prop :=
  match f with
  | Throws e =>
      Emitted (abs sc') ∧
      match e with
      | Illegal_recursive_reference _ | Recursive_data_definition _ => True
      | Not_defined id =>
          dictionary_ sc' !! atom_ id = None ∧ ∃ p, (parent_lookup id p).1 = None
      | Multiply_defined _ => False
      end
  | Assertion_failed line => line = 230 ∧ NDEBUG = false
  | Undefined_behaviour => False
  | Out_of_fuel => False
  end.

(** The recursion budget [F] runs out only when it is not above the number
    of units still to analyze. *)
Definition allowed (F : nat) (sc : St) (f : Failure) (sc' : St) : Prop :=
  match f with
  | Out_of_fuel => F ≤ notan (abs sc)
  | _ => fail_ok f sc'
  end.

Definition rec_spec (F : nat) (rec : nat → option Identifier → M St unit) : Prop :=
  ∀ ui id sc, Inv sc → is_Some (units_ sc !! ui) → called_from_top (abs sc) ui →
    (id = None → analysis_stack_ sc = []) →
    wp (rec ui id)
       (λ _ sc', Inv sc' ∧ Frame sc sc' ∧ looked_top (abs sc') ui)
       (allowed F sc) sc.

Lemma Frame_refl sc : Frame sc sc.
Proof. split; try done. apply Mono_refl. Qed.

Lemma Frame_trans sc1 sc2 sc3 : Frame sc1 sc2 → Frame sc2 sc3 → Frame sc1 sc3.
Proof.
  intros [] []. split; try congruence. by eapply Mono_trans.
Qed.

Lemma allowed_weaken F sc0 sc1 f sc2 :
  Frame sc0 sc1 → allowed F sc1 f sc2 → allowed F sc0 f sc2.
Proof.
  intros HF. destruct f; simpl; try done.
  pose proof (notan_Mono _ _ (f_mono _ _ HF)). lia.
Qed.

Lemma allowed_fuel F F' sc f sc' : F' ≤ F → allowed F sc f sc' → allowed F' sc f sc'.
Proof. intros HF. destruct f; simpl; try done. lia. Qed.

Lemma fail_ok_allowed F sc f sc' : fail_ok f sc' → allowed F sc f sc'.
Proof. by destruct f. Qed.

(** *** Reading the state after an update *)

Lemma fmap_alter_at {A B} (f : A → B) (g : A → A) (h : B → B) (l : list A) (i : nat) :
  (∀ x, l !! i = Some x → f (g x) = h (f x)) →
  f <$> alter g i l = alter h i (f <$> l).
Proof.
  revert i. induction l as [|y l IH]; intros [|i] H; simpl; [done|done| |].
  - f_equal. by apply H.
  - f_equal. apply IH. intros x Hx. by apply H.
Qed.

Lemma views_alter_neutral (g : Unit → Unit) (us : list Unit) (i : nat) :
  (∀ u, us !! i = Some u → view (g u) = view u) →
  view <$> alter g i us = view <$> us.
Proof.
  intros H. rewrite (fmap_alter_at view g id) by done. by apply list_alter_id.
Qed.

Lemma abs_lookup sc i u : units_ sc !! i = Some u → views (abs sc) !! i = Some (view u).
Proof. intros H. simpl. by rewrite list_lookup_fmap, H. Qed.

Lemma abs_lookup_inv sc i v :
  views (abs sc) !! i = Some v → ∃ u, units_ sc !! i = Some u ∧ v = view u.
Proof.
  simpl. rewrite list_lookup_fmap. destruct (units_ sc !! i) as [u|]; [|done].
  intros [= <-]. eauto.
Qed.

Lemma abs_valid sc i : is_Some (units_ sc !! i) ↔ is_Some (views (abs sc) !! i).
Proof. simpl. rewrite list_lookup_fmap. by rewrite fmap_is_Some. Qed.


Lemma wp_get_unit ui u (Q : Unit → St → Prop) E sc :
  units_ sc !! ui = Some u → Q u sc → wp (get_unit ui) Q E sc.
Proof. intros Hu HQ. unfold get_unit. apply wp_bind, wp_get. by rewrite Hu. Qed.

(** An update of a unit that the cycle-detection state does not see. *)
Lemma abs_neutral (g : Unit → Unit) sc i :
  (∀ u, units_ sc !! i = Some u → view (g u) = view u) →
  abs (set_units (alter g i (units_ sc)) sc) = abs sc.
Proof. intros H. unfold abs. simpl. by rewrite views_alter_neutral. Qed.

Lemma abs_lower sc p l :
  abs (set_units (alter (set_lowlink l) p (units_ sc)) sc) = t_lower p l (abs sc).
Proof.
  unfold abs, t_lower. simpl. f_equal.
  by apply (fmap_alter_at view (set_lowlink l) (v_set_low l)).
Qed.

Lemma abs_discover sc ui :
  abs (set_analysis_stack (push_back (analysis_stack_ sc) ui)
        (set_scc_stack (push_back (scc_stack_ sc) ui)
          (set_scc_count (S (scc_count_ sc))
            (set_units (alter (λ u, set_scc (scc_count_ sc) (scc_count_ sc)
                                       (set_state k_analysis_in_progress u))
                              ui (units_ sc)) sc))))
  = t_discover ui (abs sc).
Proof.
  unfold abs, t_discover. simpl. f_equal.
  by apply (fmap_alter_at view _ (v_discover (scc_count_ sc))).
Qed.

Lemma abs_set_state sc i :
  view <$> alter (set_state k_analyzed) i (units_ sc)
  = alter (v_set_state k_analyzed) i (view <$> units_ sc).
Proof. by apply (fmap_alter_at view _ (v_set_state k_analyzed)). Qed.

Lemma state_of_abs sc i u : units_ sc !! i = Some u → state_of (abs sc) i = Some (state_ u).
Proof. intros H. by rewrite (state_of_lookup _ _ _ (abs_lookup _ _ _ H)). Qed.
Lemma ord_abs sc i u : units_ sc !! i = Some u → ord (abs sc) i = scc_ord_ u.
Proof. intros H. by rewrite (ord_lookup _ _ _ (abs_lookup _ _ _ H)). Qed.
Lemma low_abs sc i u : units_ sc !! i = Some u → low (abs sc) i = scc_lowlink_ u.
Proof. intros H. by rewrite (low_lookup _ _ _ (abs_lookup _ _ _ H)). Qed.
Lemma slot_abs sc i u : units_ sc !! i = Some u → slot (abs sc) i = slot_of (def_ u).
Proof. intros H. by rewrite (slot_lookup _ _ _ (abs_lookup _ _ _ H)). Qed.
Lemma is_fun_abs sc i u : units_ sc !! i = Some u → is_fun (abs sc) i ↔ is_data u = false.
Proof. intros H. by rewrite (is_fun_lookup _ _ _ (abs_lookup _ _ _ H)). Qed.

(** [looked_top] survives further calls made by the same unit. *)
Lemma looked_top_Frame sc sc' v :
  Inv sc → Frame sc sc' → looked_top (abs sc) v → looked_top (abs sc') v.
Proof.
  intros HI HF [Han|(p & Hp & Hv & Hle & Hfun)].
  - left. destruct (Mono_state _ _ _ _ (f_mono _ _ HF) Han) as (s' & -> & _ & _ & _ & Hk);
      [done|]. by rewrite Hk.
  - assert (last (astack (abs sc')) = Some p) as Hp'.
    { simpl in *. by rewrite (f_astack _ _ HF). }
    assert (state_of (abs sc) p = Some k_analysis_in_progress) as Hpst.
    { apply (i_stack _ HI), (i_ain _ HI). by apply last_Some_elem_of. }
    destruct (Mono_state _ _ _ _ (f_mono _ _ HF) Hpst) as (sp & Hsp & _ & _ & Hlow & _);
      [done|].
    destruct (Mono_state _ _ _ _ (f_mono _ _ HF) Hv) as (s' & Hs' & Hne & Hord & _);
      [done|].
    destruct s'; [done| |by left].
    right. exists p. split_and!; [done|done|lia|].
    intros ->. eapply same_static_is_fun; [apply Mono_static, HF|by apply Hfun].
Qed.

(** *** Lookups *)

Section Lookup.
Variable F : nat.
Variable rec : nat → option Identifier → M St unit.
Hypothesis Hrec : rec_spec F rec.

(** The names a call may look up: those that lead to a unit do so along an
    edge from the unit under analysis. *)
Definition may_look_up (sc : St) (id : Identifier) : Prop :=
  ∀ b, dictionary_ sc !! atom_ id = Some b → called_from_top (abs sc) (unit_index_ b).

Definition looked_up (sc0 : St) (id : Identifier) (sc' : St) : Prop :=
  ∀ b, dictionary_ sc0 !! atom_ id = Some b → looked_top (abs sc') (unit_index_ b).

Lemma single_lookup_spec id sc :
  Inv sc → may_look_up sc id →
  wp (single_lookup rec id)
     (λ m sc', Inv sc' ∧ Frame sc sc' ∧ looked_up sc id sc' ∧
               (m = None → dictionary_ sc !! atom_ id = None ∧ sc' = sc))
     (allowed F sc) sc.
Proof using Hrec.
  intros HI Hmay. unfold single_lookup. apply wp_bind, wp_get.
  destruct (dictionary_ sc !! atom_ id) as [b|] eqn:Hb.
  - destruct (wf_dict _ (e_wf _ (i_emitted _ HI)) _ _ Hb) as (v & Hv & _).
    apply wp_bind. eapply wp_mono; [apply Hrec; [done| |by apply Hmay|done]| |done].
    + apply abs_valid. eauto.
    + intros [] sc' (HI' & HF & Hl). simpl.
      assert (looked_up sc id sc') as Hlu.
      { intros b' Hb'. rewrite Hb in Hb'. by injection Hb' as <-. }
      destruct (target_is_module_ sc); apply wp_ret; done.
  - apply wp_ret. split_and!; [done|apply Frame_refl| |done].
    intros b' Hb'. by rewrite Hb in Hb'.
Qed.

Lemma abs_set_parent p sc : abs (set_parent p sc) = abs sc.
Proof. done. Qed.

Lemma Frame_set_parent p sc : Frame sc (set_parent p sc).
Proof. split; try done. apply Mono_refl. Qed.

Lemma lookup_spec id sc :
  Inv sc → may_look_up sc id →
  wp (lookup parent_lookup rec id)
     (λ _ sc', Inv sc' ∧ Frame sc sc' ∧ looked_up sc id sc')
     (allowed F sc) sc.
Proof using Hrec.
  intros HI Hmay. unfold lookup, Environ_lookup.
  apply wp_bind. eapply wp_mono; [by apply single_lookup_spec| |done].
  intros [m|] sc' (HI' & HF & Hl & Hnone); simpl; [by apply wp_ret|].
  destruct Hnone as [Hd ->]; [done|].
  unfold wp, parent_chain_lookup.
  destruct (parent_lookup id (parent_ sc)) as [[m|] p'] eqn:Hp; simpl.
  - split_and!; [done|apply Frame_set_parent|]. intros b Hb. by rewrite Hd in Hb.
  - split; [apply HI|]. split; [done|]. exists (parent_ sc). by rewrite Hp.
Qed.

Lemma Function_Environ_single_lookup_spec ui id sc :
  Inv sc → may_look_up sc id →
  wp (Function_Environ_single_lookup parent_lookup rec ui id)
     (λ _ sc', Inv sc' ∧ Frame sc sc' ∧ looked_up sc id sc')
     (allowed F sc) sc.
Proof using Hrec.
  intros HI Hmay. unfold Function_Environ_single_lookup.
  apply wp_bind. eapply wp_mono; [by apply lookup_spec| |done].
  intros m sc' (HI' & HF & Hl). simpl.
  destruct (isa_Constant m); [by apply wp_ret|].
  destruct (isa_Operation m); [|by apply wp_ret].
  apply wp_bind, wp_modify, wp_ret.
  assert (abs (set_units (alter (λ u, set_nonlocals (<[atom_ id:=m]> (nonlocals_ u)) u)
                                ui (units_ sc')) sc') = abs sc') as Habs.
  { by apply abs_neutral. }
  split_and!.
  - unfold Inv. by rewrite Habs.
  - destruct HF. split; try done. by rewrite Habs.
  - intros b Hb. rewrite Habs. by apply Hl.
Qed.

Lemma may_look_up_Frame sc sc' id :
  Frame sc sc' → may_look_up sc id → may_look_up sc' id.
Proof.
  intros HF Hmay b Hb p Hp.
  pose proof (m_dict _ _ (f_mono _ _ HF)) as Hd. simpl in Hd, Hp. rewrite Hd in Hb.
  rewrite (f_astack _ _ HF) in Hp.
  eapply same_static_edge; [apply Mono_static, HF|]. by apply (Hmay b Hb p).
Qed.

Lemma looked_up_Frame sc0 sc sc' id :
  Inv sc → Frame sc sc' → looked_up sc0 id sc → looked_up sc0 id sc'.
Proof. intros HI HF Hl b Hb. eapply looked_top_Frame; eauto. Qed.

Lemma looked_up_dict sc0 sc1 sc' id :
  Frame sc0 sc1 → looked_up sc1 id sc' → looked_up sc0 id sc'.
Proof.
  intros HF Hl b Hb. apply Hl.
  pose proof (m_dict _ _ (f_mono _ _ HF)) as Hd. simpl in Hd. by rewrite Hd.
Qed.

(** An environment whose lookups go through the scope. *)
Definition env_spec (env : Identifier → M St Meaning) : Prop :=
  ∀ id sc, Inv sc → may_look_up sc id →
    wp (env id) (λ _ sc', Inv sc' ∧ Frame sc sc' ∧ looked_up sc id sc') (allowed F sc) sc.

Lemma mapM_lookup_spec env ids sc :
  env_spec env → Inv sc → (∀ id, id ∈ ids → may_look_up sc id) →
  wp (mapM env ids)
     (λ _ sc', Inv sc' ∧ Frame sc sc' ∧ ∀ id, id ∈ ids → looked_up sc id sc')
     (allowed F sc) sc.
Proof.
  intros Henv HI Hmay.
  apply (wp_mapM env ids Inv Frame (λ id s, looked_up sc id s) (allowed F)).
  - apply Frame_refl.
  - apply Frame_trans.
  - intros id s1 s2 HI1 HF Hl. by eapply looked_up_Frame.
  - intros s0 s1 s2 fl HF. by apply allowed_weaken.
  - intros id s1 Hid HI1 HF.
    eapply wp_mono; [apply Henv; [done|]| |done].
    + eapply may_look_up_Frame; [done|by apply Hmay].
    + intros m s2 (HI2 & HF2 & Hl). split_and!; [done|done|].
      by eapply looked_up_dict.
  - done.
Qed.

Lemma Definition_analyze_spec env d sc :
  env_spec env → Inv sc → (∀ id, id ∈ ids_of d → may_look_up sc id) →
  wp (Definition_analyze NDEBUG env d)
     (λ d' sc', Inv sc' ∧ Frame sc sc' ∧ (∀ id, id ∈ ids_of d → looked_up sc id sc') ∧
                is_data_def d' = is_data_def d ∧ name_of d' = name_of d ∧
                slot_of d' = slot_of d ∧ ids_of d' = ids_of d)
     (allowed F sc) sc.
Proof.
  intros Henv HI Hmay. destruct d as [s n sl ph e|s n sl lp l]; simpl.
  - apply wp_bind. unfold analyze_op. apply wp_bind.
    eapply wp_mono; [by apply mapM_lookup_spec| |done].
    intros ms sc' (HI' & HF & Hl). simpl. by apply wp_ret, wp_ret.
  - apply wp_bind. unfold analyze_lambda, analyze_op. apply wp_bind, wp_bind.
    eapply wp_mono; [by apply mapM_lookup_spec| |done].
    intros ms sc' (HI' & HF & Hl). simpl. by apply wp_ret, wp_ret, wp_ret.
Qed.

End Lookup.


(** *** The grouped setter *)

Lemma mapM_get_unit sc (G : list nat) (us : list Unit) :
  Forall2 (λ g u, units_ sc !! g = Some u) G us →
  mapM get_unit G sc = (Returns us, sc).
Proof.
  induction 1 as [|g u G us Hg _ IH]; [done|]. simpl.
  unfold bind at 1. unfold get_unit at 1. unfold bind at 1. simpl. rewrite Hg. simpl.
  unfold bind at 1. by rewrite IH.
Qed.

Lemma units_of_group sc (G : list nat) :
  (∀ g, g ∈ G → is_Some (units_ sc !! g)) →
  ∃ us, Forall2 (λ g u, units_ sc !! g = Some u) G us.
Proof.
  induction G as [|g G IH]; intros H; [by exists []|].
  destruct (H g) as [u Hu]; [by left|].
  destruct IH as [us Hus]; [intros; apply H; by right|].
  exists (u :: us). by constructor.
Qed.

Lemma enter_functions_inr us funs e funs' e' :
  enter_functions us funs e = inr (funs', e') →
  funs'.*1 = funs.*1 ++ ((λ u, slot_of (def_ u)) <$> us) ∧
  Forall (λ u, is_data u = false) us.
Proof.
  revert funs e. induction us as [|u us IH]; intros funs e; simpl.
  - intros [= <- <-]. by rewrite app_nil_r.
  - unfold is_data. destruct (def_ u) as [| src name sl lp lam] eqn:Hd; [done|].
    intros H. apply IH in H as [H1 H2]. split.
    + rewrite H1. unfold push_back. rewrite fmap_app. simpl. by rewrite <- app_assoc.
    + constructor; [by rewrite Hd|done].
Qed.

Lemma enter_functions_inl us funs e ex :
  enter_functions us funs e = inl ex → ∃ src, ex = Recursive_data_definition src.
Proof.
  revert funs e. induction us as [|u us IH]; intros funs e; simpl; [done|].
  destruct (def_ u); [intros [= <-]; eauto|apply IH].
Qed.

Lemma make_function_setter_spec sc (G : list nat) (us : list Unit) :
  Forall2 (λ g u, units_ sc !! g = Some u) G us →
  wp (make_function_setter G)
     (λ op sc', sc' = sc ∧ isa_Function_Setter op = true ∧
                writes op = (λ u, slot_of (def_ u)) <$> us ∧
                Forall (λ u, is_data u = false) us)
     (λ f sc', sc' = sc ∧ ∃ src, f = Throws (Recursive_data_definition src)) sc.
Proof.
  intros HG. unfold make_function_setter. apply wp_bind, wp_get.
  apply wp_bind. unfold wp at 1. rewrite (mapM_get_unit _ _ _ HG).
  destruct (enter_functions us [] (mkEnumeration ∅ [] 0)) as [ex|[funs e]] eqn:He.
  - apply enter_functions_inl in He as [src ->]. unfold throw. apply wp_fail. eauto.
  - apply enter_functions_inr in He as [H1 H2]. apply wp_ret. done.
Qed.

(** *** Retiring a component *)

Definition others (sc : St) :=
  (parent_ sc, parent_frame_maxslots_ sc, frame_nslots_ sc, frame_maxslots_ sc,
   target_is_module_ sc, actions_ sc, module_slot_ sc, module_dictionary_ sc,
   source_ sc, dictionary_ sc, action_phrases_ sc, scc_count_ sc, analysis_stack_ sc).

Lemma pop_component_spec (G' : list nat) : ∀ n K ui sc,
  scc_stack_ sc = K ++ ui :: G' → length G' ≤ n → ui ∉ G' →
  (∀ g, g ∈ ui :: G' → is_Some (units_ sc !! g)) →
  wp (pop_component NDEBUG n ui)
     (λ _ sc', scc_stack_ sc' = K ∧
               units_ sc' = foldr (alter (set_state k_analyzed)) (units_ sc) (ui :: G') ∧
               others sc' = others sc)
     (λ f sc', f = Assertion_failed 230 ∧ NDEBUG = false) sc.
Proof.
  induction G' as [|g G' IH] using rev_ind; intros n K ui sc Hst Hn Hni Hvalid.
  - destruct (Hvalid ui) as [u Hu]; [by left|].
    assert (wp (let* sc0 := get in
                let* _ := assert_ NDEBUG 227 (bool_decide (0 < length (scc_stack_ sc0))) in
                match back (scc_stack_ sc0) with
                | None => undefined
                | Some u0 =>
                    let* _ := modify (set_scc_stack (pop_back (scc_stack_ sc0))) in
                    let* popped := get_unit u0 in
                    let* unit := get_unit ui in
                    let* _ := assert_ NDEBUG 230
                                (bool_decide (scc_ord_ popped = scc_ord_ unit)) in
                    let* _ := update_unit u0 (set_state k_analyzed) in
                    if decide (u0 = ui) then ret tt
                    else match n with
                         | 0 => out_of_fuel
                         | S n' => pop_component NDEBUG n' ui
                         end
                end)
              (λ _ sc', scc_stack_ sc' = K ∧
                 units_ sc' = foldr (alter (set_state k_analyzed)) (units_ sc) [ui] ∧
                 others sc' = others sc)
              (λ f sc', f = Assertion_failed 230 ∧ NDEBUG = false) sc) as H.
    { apply wp_bind, wp_get. apply wp_bind, wp_assert.
      2:{ rewrite Hst, length_app. simpl. intros ?%bool_decide_eq_false. lia. }
      intros _. unfold back. rewrite Hst, last_snoc.
      apply wp_bind, wp_modify. apply wp_bind. eapply wp_get_unit; [exact Hu|].
      apply wp_bind. eapply wp_get_unit; [exact Hu|].
      apply wp_bind, wp_assert; [intros _|by intros ?%bool_decide_eq_false].
      apply wp_bind, wp_modify. rewrite decide_True by done. apply wp_ret.
      simpl. unfold pop_back. by rewrite removelast_last. }
    by destruct n.
  - assert (g ≠ ui) as Hne.
    { intros ->. apply Hni. apply elem_of_app. right. by left. }
    destruct (Hvalid ui) as [u Hu]; [by left|].
    destruct (Hvalid g) as [ug Hug]; [right; apply elem_of_app; right; by left|].
    rewrite length_app in Hn. simpl in Hn. destruct n as [|n]; [lia|].
    simpl. apply wp_bind, wp_get. apply wp_bind, wp_assert.
    2:{ rewrite Hst, !length_app. simpl. intros ?%bool_decide_eq_false. lia. }
    intros _. unfold back.
    assert (scc_stack_ sc = (K ++ ui :: G') ++ [g]) as Hst'.
    { rewrite Hst. by rewrite <- app_assoc. }
    rewrite Hst', last_snoc.
    apply wp_bind, wp_modify. apply wp_bind. eapply wp_get_unit; [exact Hug|].
    apply wp_bind. eapply wp_get_unit; [exact Hu|].
    apply wp_bind, wp_assert; [intros _|done].
    apply wp_bind, wp_modify. rewrite decide_False by done.
    eapply wp_mono; [apply (IH n K ui)| |done].
    + simpl. unfold pop_back. by rewrite removelast_last.
    + lia.
    + intros ?. apply Hni. apply elem_of_app. by left.
    + intros g' Hg'. simpl. apply lookup_lt_is_Some. rewrite length_alter.
      apply lookup_lt_is_Some. apply Hvalid.
      apply elem_of_cons in Hg' as [->|?]; [by left|right; apply elem_of_app; by left].
    + intros [] sc' (H1 & H2 & H3). split_and!; [done| |done].
      rewrite H2. simpl. by rewrite foldr_app.
Qed.


Lemma scan_spec (K : list nat) ui (G' : list nat) :
  ui ∉ K → scan ui (K ++ ui :: G') = length K.
Proof.
  induction K as [|k K IH]; intros Hn; simpl.
  - by rewrite decide_True.
  - rewrite decide_False; [f_equal; apply IH|].
    + intros ?; apply Hn; by right.
    + intros ->. apply Hn. by left.
Qed.

Lemma views_foldr_analyzed (us : list Unit) (G : list nat) :
  view <$> foldr (alter (set_state k_analyzed)) us G
  = foldr (alter (v_set_state k_analyzed)) (view <$> us) G.
Proof.
  induction G as [|g G IH]; [done|]. simpl. rewrite <- IH.
  by apply (fmap_alter_at view _ (v_set_state k_analyzed)).
Qed.

Lemma slots_of_group sc (G : list nat) (us : list Unit) :
  Forall2 (λ g u, units_ sc !! g = Some u) G us →
  (λ u, slot_of (def_ u)) <$> us = slot (abs sc) <$> G.
Proof.
  induction 1 as [|g u G us Hg _ IH]; [done|].
  by rewrite !fmap_cons, IH, (slot_abs _ _ _ Hg).
Qed.

Lemma funs_of_group sc (G : list nat) (us : list Unit) :
  Forall2 (λ g u, units_ sc !! g = Some u) G us →
  Forall (λ u, is_data u = false) us →
  ∀ g, g ∈ G → is_fun (abs sc) g.
Proof.
  induction 1 as [|g u G us Hg _ IH]; intros Hf x Hx; [by apply elem_of_nil in Hx|].
  apply Forall_cons in Hf as [Hu Hf].
  apply elem_of_cons in Hx as [->|Hx]; [|by apply IH].
  by apply (is_fun_abs _ _ _ Hg).
Qed.

(** The members of a scope that the analysis of a unit leaves alone. *)
Definition rest (sc : St) :=
  (target_is_module_ sc, module_slot_ sc, source_ sc, action_phrases_ sc).

Lemma Frame_intro sc sc' :
  Mono (abs sc) (abs sc') → analysis_stack_ sc' = analysis_stack_ sc →
  rest sc' = rest sc → Frame sc sc'.
Proof. intros HM HA [= ? ? ? ?]. by split. Qed.

Lemma Frame_rest sc sc' : Frame sc sc' → rest sc' = rest sc.
Proof. intros []. unfold rest. congruence. Qed.

(** *** The root of a component outputs its action *)

Lemma output_root_spec s2 T A ui :
  abs s2 = t_set_astack A T → TInv T → astack T = A ++ [ui] →
  (∀ v, edge T ui v → looked T v (low T ui)) →
  (edge T ui ui → is_fun T ui) →
  low T ui = ord T ui →
  wp (output_component NDEBUG ui)
     (λ _ s3, Inv s3 ∧ Mono T (abs s3) ∧ analysis_stack_ s3 = A ∧ rest s3 = rest s2 ∧
              state_of (abs s3) ui = Some k_analyzed)
     fail_ok s2.
Proof.
  intros Habs HT HA Hbody Hself Hroot.
  assert (views T = view <$> units_ s2) as Hviews
    by (symmetry; exact (f_equal views Habs)).
  assert (sstack T = scc_stack_ s2) as Hss by (symmetry; exact (f_equal sstack Habs)).
  assert (A = analysis_stack_ s2) as HAs by (symmetry; exact (f_equal astack Habs)).
  assert (acts T = actions_ s2) as Hacts by (symmetry; exact (f_equal acts Habs)).
  assert (dict T = dictionary_ s2) as Hdict by (symmetry; exact (f_equal dict Habs)).
  assert (count T = scc_count_ s2) as Hcount by (symmetry; exact (f_equal count Habs)).
  assert (ui ∈ sstack T) as Hui by (by eapply top_in_sstack).
  destruct (stack_valid _ HT _ Hui) as [vu Hvu].
  assert (∃ u, units_ s2 !! ui = Some u ∧ vu = view u) as (u & Hu & ->).
  { rewrite Hviews, list_lookup_fmap in Hvu.
    destruct (units_ s2 !! ui) as [u|]; [|done]. injection Hvu as <-. eauto. }
  rewrite (low_lookup _ _ _ Hvu), (ord_lookup _ _ _ Hvu) in Hroot. simpl in Hroot.
  destruct (list_elem_of_split _ _ Hui) as (K & G' & HS).
  assert (NoDup (K ++ ui :: G')) as Hnd by (rewrite <- HS; by apply sstack_NoDup).
  assert ((ui ∉ K) ∧ (ui ∉ G')) as [HniK HniG].
  { apply NoDup_app in Hnd as (_ & H1 & H2). apply NoDup_cons in H2 as [H2 _].
    split; [|done]. intros ?. apply (H1 ui); [done|by left]. }
  assert (∀ g, g ∈ ui :: G' → is_Some (units_ s2 !! g)) as Hvalid.
  { intros g Hg. assert (is_Some (views T !! g)) as Hv.
    { eapply stack_valid; [done|]. rewrite HS, elem_of_app. by right. }
    rewrite Hviews, list_lookup_fmap in Hv. by apply fmap_is_Some in Hv. }
  unfold output_component. apply wp_bind. eapply wp_get_unit; [exact Hu|].
  rewrite decide_True by done. apply wp_bind, wp_get.
  destruct (is_data u) eqn:Hdata.
  - (* a data definition *)
    assert (¬ (is_fun T ui)) as Hnf.
    { rewrite (is_fun_lookup _ _ _ Hvu). simpl. congruence. }
    assert (G' = []) as ->.
    { destruct G' as [|g G']; [done|]. exfalso.
      assert (g ∈ sstack T) as Hg.
      { rewrite HS, elem_of_app. right. right. by left. }
      assert (ord T ui < ord T g) as Hlt.
      { eapply (lookup_lt_sorted_app (ord T) (K ++ [ui]) (g :: G')).
        - rewrite <- app_assoc. simpl. rewrite <- HS. apply (i_sorted _ HT).
        - apply elem_of_app. right. by left.
        - by left. }
      assert (g = ui) as ->; [|lia].
      eapply (data_root_top _ HT _ _ HA); [|done|done|done|lia].
      by rewrite (low_lookup _ _ _ Hvu), (ord_lookup _ _ _ Hvu). }
    rewrite <- Hss, HS. unfold back. rewrite last_snoc.
    apply wp_bind, wp_assert; [intros _|by intros ?%bool_decide_eq_false].
    assert (wp (let* _ := modify (set_scc_stack (pop_back (K ++ [ui]))) in
                let* _ := update_unit ui (set_state k_analyzed) in
                let* op := make_setter NDEBUG (def_ u) (module_slot_ s2) in
                push_action op)
              (λ _ s3, Inv s3 ∧ Mono T (abs s3) ∧ analysis_stack_ s3 = A ∧
                       rest s3 = rest s2 ∧ state_of (abs s3) ui = Some k_analyzed)
              fail_ok s2) as Hwp.
    { apply wp_bind, wp_modify. apply wp_bind, wp_modify.
      unfold is_data in Hdata. destruct (def_ u) as [src name sl ph e|] eqn:Hdef; [|done].
      set (op := match module_slot_ s2 with
                 | Some ms => Module_Data_Setter src (Some ms) sl e
                 | None => Data_Setter src sl e false
                 end).
      assert (writes op = [sl]) as Hw by (unfold op; by destruct (module_slot_ s2)).
      assert (wp (push_action op)
                (λ _ s3, Inv s3 ∧ Mono T (abs s3) ∧ analysis_stack_ s3 = A ∧
                         rest s3 = rest s2 ∧ state_of (abs s3) ui = Some k_analyzed)
                fail_ok
                (set_units (alter (set_state k_analyzed) ui
                              (units_ (set_scc_stack (pop_back (K ++ [ui])) s2)))
                   (set_scc_stack (pop_back (K ++ [ui])) s2))) as Hpush.
      { apply wp_modify.
        match goal with |- context [Inv ?s] => set (s3 := s) end.
        assert (abs s3 = t_set_astack A (t_retire K [ui] op T)) as Habs3.
        { unfold abs, s3, t_set_astack, t_retire. simpl.
          unfold pop_back, push_back. rewrite removelast_last, abs_set_state.
          by rewrite <- Hviews, <- Hdict, <- Hcount, <- Hacts, <- HAs. }
        split_and!.
        - unfold Inv. rewrite Habs3.
          apply (retire_inv T A ui K [] op HT HA HS Hbody Hself).
          + by rewrite (low_lookup _ _ _ Hvu), (ord_lookup _ _ _ Hvu).
          + rewrite Hw. simpl. rewrite (slot_lookup _ _ _ Hvu). simpl. by rewrite Hdef.
          + by right.
          + intros Hf. unfold op in Hf. by destruct (module_slot_ s2).
        - rewrite Habs3. eapply Mono_trans; [|apply set_astack_Mono].
          apply retire_Mono. intros g ->%list_elem_of_singleton.
          by apply (i_stack _ HT).
        - simpl. done.
        - done.
        - rewrite Habs3. rewrite state_of_set_astack.
          apply state_of_retire_in; [by left|eauto]. }
      unfold make_setter. unfold op in Hpush.
      destruct (module_slot_ s2); apply wp_bind, wp_ret; exact Hpush. }
    destruct K; exact Hwp.
  - (* a function definition *)
    rewrite <- Hss, HS, (scan_spec _ _ _ HniK).
    rewrite lookup_app_r, Nat.sub_diag by done. simpl.
    rewrite drop_app_length.
    destruct (units_of_group s2 (ui :: G') Hvalid) as [us Hus].
    set (T2 := t_set_astack A T).
    assert (Emitted (abs s2)) as HE2.
    { rewrite Habs. eapply Emitted_same; [apply set_astack_same_emitted|apply HT]. }
    apply wp_bind. eapply wp_mono; [by apply make_function_setter_spec| |].
    2:{ intros f sc' (-> & src & ->). simpl. done. }
    intros op sc' (-> & Hfs & Hw & Hfun). simpl.
    apply wp_bind, wp_modify.
    eapply wp_mono; [apply (pop_component_spec G' _ K ui)| |].
    + simpl. by rewrite <- Hss.
    + rewrite length_app. simpl. lia.
    + done.
    + exact Hvalid.
    + intros [] s3 (Hst3 & Hun3 & Hoth).
      injection Hoth as Hth1 Hth2 Hth3 Hth4 Hth5 Hth6 Hth7 Hth8 Hth9 Hth10 Hth11 Hth12 Hth13.
      assert (units_ s3 = foldr (alter (set_state k_analyzed)) (units_ s2) (ui :: G'))
        as Hun3' by exact Hun3.
      assert (actions_ s3 = actions_ s2 ++ [op]) as Hact3 by exact Hth6.
      assert (analysis_stack_ s3 = analysis_stack_ s2) as Has3 by exact Hth13.
      assert (scc_count_ s3 = scc_count_ s2) as Hc3 by exact Hth12.
      assert (dictionary_ s3 = dictionary_ s2) as Hd3 by exact Hth10.
      assert (rest s3 = rest s2) as Hrest3.
      { unfold rest. f_equal; [f_equal; [f_equal|]|]; assumption. }
      clear Hun3 Hth1 Hth2 Hth3 Hth4 Hth5 Hth6 Hth7 Hth8 Hth9 Hth10 Hth11 Hth12 Hth13.
      assert (abs s3 = t_set_astack A (t_retire K (ui :: G') op T)) as Habs3.
      { unfold abs, t_set_astack, t_retire.
        rewrite Hst3, Hun3', views_foldr_analyzed, Hact3, Has3, Hc3, Hd3.
        by rewrite <- Hviews, <- Hdict, <- Hcount, <- Hacts, <- HAs. }
      split_and!.
      * unfold Inv. rewrite Habs3.
        apply (retire_inv T A ui K G' op HT HA HS Hbody Hself).
        -- by rewrite (low_lookup _ _ _ Hvu), (ord_lookup _ _ _ Hvu).
        -- rewrite Hw. rewrite (slots_of_group _ _ _ Hus).
           apply list_fmap_ext. intros i g Hg. by rewrite Habs, slot_set_astack.
        -- by left.
        -- intros _ g Hg. pose proof (funs_of_group _ _ _ Hus Hfun g Hg) as Hg'.
           rewrite Habs in Hg'. exact Hg'.
      * rewrite Habs3. eapply Mono_trans; [|apply set_astack_Mono].
        apply retire_Mono. intros g Hg. apply (i_stack _ HT).
        rewrite HS, elem_of_app. by right.
      * congruence.
      * done.
      * rewrite Habs3, state_of_set_astack.
        apply state_of_retire_in; [by left|eauto].
    + intros f s3 [-> Hnd']. simpl. done.
Qed.


(** *** A unit completes *)

Lemma output_nonroot_spec s ui u (Q : unit → St → Prop) E :
  units_ s !! ui = Some u → scc_lowlink_ u ≠ scc_ord_ u → Q tt s →
  wp (output_component NDEBUG ui) Q E s.
Proof.
  intros Hu Hne HQ. unfold output_component.
  apply wp_bind. eapply wp_get_unit; [exact Hu|].
  rewrite decide_False by done. by apply wp_ret.
Qed.

Lemma finish_spec sc A ui id :
  Inv sc → analysis_stack_ sc = A ++ [ui] → (id = None → A = []) →
  (∀ v, edge (abs sc) ui v → looked (abs sc) v (low (abs sc) ui)) →
  (edge (abs sc) ui ui → is_fun (abs sc) ui) →
  wp (let* _ := modify (λ sc, set_analysis_stack (pop_back (analysis_stack_ sc)) sc) in
      let* _ := propagate ui id in
      output_component NDEBUG ui)
     (λ _ sc', Inv sc' ∧ Mono (abs sc) (abs sc') ∧ analysis_stack_ sc' = A ∧
               rest sc' = rest sc ∧ looked_top (abs sc') ui)
     fail_ok sc.
Proof.
  intros HI HA Hid Hbody Hself.
  assert (astack (abs sc) = A ++ [ui]) as HAT by exact HA.
  assert (ui ∈ sstack (abs sc)) as Hui by (by eapply top_in_sstack).
  destruct (stack_valid _ HI _ Hui) as [vu Hvu].
  destruct (abs_lookup_inv _ _ _ Hvu) as (u & Hu & ->).
  pose proof (low_abs _ _ _ Hu) as Hlow. pose proof (ord_abs _ _ _ Hu) as Hord.
  apply wp_bind, wp_modify.
  set (s1 := set_analysis_stack (pop_back (analysis_stack_ sc)) sc).
  assert (abs s1 = t_set_astack A (abs sc)) as Habs1.
  { unfold abs, s1, t_set_astack. simpl. unfold pop_back.
    by rewrite HA, removelast_last. }
  assert (analysis_stack_ s1 = A) as HA1.
  { unfold s1. simpl. unfold pop_back. by rewrite HA, removelast_last. }
  assert (units_ s1 !! ui = Some u) as Hu1 by exact Hu.
  assert (rest s1 = rest sc) as Hrest1 by done.
  apply wp_bind. unfold propagate. apply wp_bind, wp_get. unfold back. rewrite HA1.
  destruct (decide (scc_lowlink_ u = scc_ord_ u)) as [Hroot|Hnroot].
  - (* the root of a component: nothing is passed on *)
    assert (wp (output_component NDEBUG ui)
              (λ _ sc', Inv sc' ∧ Mono (abs sc) (abs sc') ∧ analysis_stack_ sc' = A ∧
                        rest sc' = rest sc ∧ looked_top (abs sc') ui)
              fail_ok s1) as Hout.
    { eapply wp_mono; [apply (output_root_spec s1 (abs sc) A ui)| |done];
        try done; try congruence.
      intros [] s3 (H1 & H2 & H3 & H4 & H5).
      split_and!; try done; try congruence. by left. }
    destruct (last A) as [p|] eqn:Hp; [|apply wp_ret; exact Hout].
    apply last_Some in Hp as [A' ->].
    assert (p ∈ astack (abs sc)) as HpT.
    { rewrite HAT, !elem_of_app, list_elem_of_singleton. left. by right. }
    destruct (stack_valid _ HI p) as [vp Hvp]; [by apply (i_ain _ HI)|].
    destruct (abs_lookup_inv _ _ _ Hvp) as (pu & Hpu & ->).
    apply wp_bind. eapply wp_get_unit; [exact Hu1|].
    apply wp_bind. eapply wp_get_unit; [exact Hpu|].
    rewrite decide_False; [apply wp_ret; exact Hout|].
    pose proof (astack_top _ HI _ _ p HAT) as Hlt.
    pose proof (i_low_le _ HI p (i_ain _ HI _ HpT)) as Hle.
    rewrite (low_abs _ _ _ Hpu) in Hle. rewrite (ord_abs _ _ _ Hpu), Hord in Hlt.
    rewrite (ord_abs _ _ _ Hpu) in Hle.
    assert (scc_ord_ pu < scc_ord_ u); [|lia].
    apply Hlt. rewrite elem_of_app, list_elem_of_singleton. by right.
  - (* not the root: the parent takes the lowlink over *)
    assert (low (abs sc) ui ≠ ord (abs sc) ui) as HnrT by congruence.
    pose proof (complete_has_parent _ _ _ HI HAT HnrT) as HAne.
    destruct (last A) as [p|] eqn:Hp; [|by apply last_None in Hp].
    apply last_Some in Hp as [A' ->].
    assert (p ∈ astack (abs sc)) as HpT.
    { rewrite HAT, !elem_of_app, list_elem_of_singleton. left. by right. }
    assert (p ∈ sstack (abs sc)) as HpS by (by apply (i_ain _ HI)).
    destruct (stack_valid _ HI p HpS) as [vp Hvp].
    destruct (abs_lookup_inv _ _ _ Hvp) as (pu & Hpu & ->).
    assert (p ≠ ui) as Hpne.
    { intros ->. pose proof (astack_top _ HI _ _ ui HAT) as Hlt.
      assert (ord (abs sc) ui < ord (abs sc) ui); [|lia].
      apply Hlt. rewrite elem_of_app, list_elem_of_singleton. by right. }
    pose proof (low_abs _ _ _ Hpu) as Hlowp.
    pose proof (complete_inv _ _ _ _ HI HAT Hbody HnrT) as Hcomp.
    assert (state_of (abs sc) p ≠ Some k_analyzed) as Hpst.
    { apply (i_stack _ HI) in HpS. congruence. }
    assert (state_of (abs sc) ui = Some k_analysis_in_progress) as Huist.
    { by apply (i_stack _ HI). }
    assert (∀ s' l, abs s' = t_set_astack (A' ++ [p]) (t_lower p l (abs sc)) →
              l = low (abs sc) p `min` low (abs sc) ui →
              analysis_stack_ s' = A' ++ [p] → rest s' = rest sc →
              Inv s' ∧ Mono (abs sc) (abs s') ∧ analysis_stack_ s' = A' ++ [p] ∧
              rest s' = rest sc ∧ looked_top (abs s') ui) as Hfinal.
    { intros s' l Habs' -> HA' Hrest'. split_and!; try done.
      - unfold Inv. by rewrite Habs'.
      - rewrite Habs'. eapply Mono_trans; [|apply set_astack_Mono].
        apply lower_Mono; [lia|done].
      - right. exists p. rewrite Habs'. split_and!.
        + simpl. by rewrite last_snoc.
        + by rewrite state_of_set_astack, state_of_lower.
        + rewrite low_set_astack, ord_set_astack, ord_lower, low_lower_eq by eauto.
          pose proof (i_low_le _ HI ui Hui). lia.
        + intros ->. done. }
    apply wp_bind. eapply wp_get_unit; [exact Hu1|].
    apply wp_bind. eapply wp_get_unit; [exact Hpu|].
    destruct (decide (scc_lowlink_ u < scc_lowlink_ pu)) as [Hlt|Hge].
    + apply wp_bind, wp_modify.
      set (s2 := set_units (alter (set_lowlink (scc_lowlink_ u)) p (units_ s1)) s1).
      assert (abs s2 = t_set_astack (A' ++ [p]) (t_lower p (scc_lowlink_ u) (abs sc))) as Habs2.
      { unfold s2. rewrite abs_lower, Habs1. done. }
      assert (units_ s2 !! ui = Some u) as Hu2.
      { unfold s2. simpl. by rewrite list_lookup_alter_ne. }
      destruct (is_data u) eqn:Hdata.
      * destruct id as [i|]; [|by destruct (app_cons_not_nil A' [] p); rewrite Hid].
        unfold illegal_recursive_reference, throw. apply wp_fail. simpl. split; [|done].
        rewrite Habs2. eapply Emitted_same; [|apply HI].
        eapply same_emitted_trans; [|apply set_astack_same_emitted].
        by apply lower_same_emitted.
      * apply wp_ret. eapply output_nonroot_spec; [exact Hu2|done|].
        eapply Hfinal; [exact Habs2|lia|done|done].
    + apply wp_ret. eapply output_nonroot_spec; [exact Hu1|done|].
      eapply (Hfinal s1 (low (abs sc) p)); [|lia|done|done].
      by rewrite lower_id.
Qed.


(** *** One level of [analyze_unit] *)

(** Storing the analyzed definition back into its unit is invisible to the
    cycle detection. *)
Lemma set_def_neutral s1 s2 ui u d' :
  units_ s1 !! ui = Some u → Mono (abs s1) (abs s2) →
  is_data_def d' = is_data_def (def_ u) → name_of d' = name_of (def_ u) →
  slot_of d' = slot_of (def_ u) → ids_of d' = ids_of (def_ u) →
  abs (set_units (alter (set_def d') ui (units_ s2)) s2) = abs s2.
Proof.
  intros Hu HM H1 H2 H3 H4. apply abs_neutral. intros u' Hu'.
  destruct (m_units _ _ HM _ _ (abs_lookup _ _ _ Hu)) as (v' & Hv' & Hs & _).
  rewrite (abs_lookup _ _ _ Hu') in Hv'. injection Hv' as <-.
  unfold v_static in Hs. simpl in Hs. injection Hs as Hs1 Hs2 Hs3 Hs4.
  unfold view, is_data. simpl. unfold is_data in Hs1. f_equal; congruence.
Qed.

(** What the lookups of a definition's body leave behind for its unit. *)
Lemma body_facts s1 s2 A ui u :
  Inv s1 → Inv s2 → Frame s1 s2 →
  units_ s1 !! ui = Some u → analysis_stack_ s1 = A ++ [ui] →
  (∀ id, id ∈ ids_of (def_ u) → ∀ b, dictionary_ s1 !! atom_ id = Some b →
         looked_top (abs s2) (unit_index_ b)) →
  (∀ v, edge (abs s2) ui v → looked (abs s2) v (low (abs s2) ui)) ∧
  (edge (abs s2) ui ui → is_fun (abs s2) ui).
Proof.
  intros HI1 HI2 HF Hu HA Hl.
  assert (analysis_stack_ s2 = A ++ [ui]) as HA2 by (by rewrite (f_astack _ _ HF)).
  assert (∀ v, edge (abs s2) ui v → looked_top (abs s2) v) as Hlt.
  { intros v He.
    apply (same_static_edge _ (abs s1)) in He;
      [|apply same_static_sym, Mono_static, HF].
    destruct He as (vu & i & b & Hvu & Hi & Hb & <-).
    rewrite (abs_lookup _ _ _ Hu) in Hvu. injection Hvu as <-.
    by apply (Hl i Hi b). }
  assert (state_of (abs s2) ui = Some k_analysis_in_progress) as Hst.
  { apply (i_stack _ HI2). by eapply top_in_sstack. }
  split.
  - intros v He. destruct (Hlt v He) as [?|(p & Hp & Hv & Hle & _)]; [by left|].
    simpl in Hp. rewrite HA2, last_snoc in Hp. injection Hp as <-. by right.
  - intros He. destruct (Hlt ui He) as [Han|(p & Hp & _ & _ & Hfun)]; [congruence|].
    simpl in Hp. rewrite HA2, last_snoc in Hp. injection Hp as <-. by apply Hfun.
Qed.

Lemma alter_lower_at (us : list Unit) (p : nat) (pu : Unit) (f : Unit → nat) :
  us !! p = Some pu →
  alter (λ q, set_lowlink (f q) q) p us = alter (set_lowlink (f pu)) p us.
Proof.
  intros Hp. apply list_eq. intros i. rewrite !list_lookup_alter.
  case_decide; [|done]. subst. by rewrite Hp.
Qed.


Lemma step_spec F rec :
  rec_spec F rec → rec_spec (S F) (analyze_unit_step NDEBUG parent_lookup rec).
Proof.
  intros Hrec ui id sc HI [u Hu] Hcall Hid. unfold analyze_unit_step.
  apply wp_bind. eapply wp_get_unit; [exact Hu|].
  pose proof (state_of_abs _ _ _ Hu) as Hst.
  destruct (state_ u) eqn:Hsu.
  - (* first visit *)
    apply wp_bind, wp_get. unfold update_unit at 1.
    apply wp_bind, wp_modify, wp_bind, wp_modify, wp_bind, wp_modify, wp_bind, wp_modify.
    match goal with |- wp _ _ _ ?s => set (s1 := s) end.
    set (u1 := set_scc (scc_count_ sc) (scc_count_ sc) (set_state k_analysis_in_progress u)).
    assert (abs s1 = t_discover ui (abs sc)) as Habs1
      by (etrans; [|apply abs_discover]; reflexivity).
    assert (Inv s1) as HI1 by (unfold Inv; rewrite Habs1; by apply discover_inv).
    assert (Mono (abs sc) (abs s1)) as HM1 by (rewrite Habs1; by apply discover_Mono).
    assert (S (notan (abs s1)) = notan (abs sc)) as Hnot
      by (rewrite Habs1; by apply discover_notan).
    assert (analysis_stack_ s1 = analysis_stack_ sc ++ [ui]) as HA1 by done.
    assert (units_ s1 !! ui = Some u1) as Hu1.
    { unfold s1. simpl. by rewrite list_lookup_alter_eq, Hu. }
    assert (rest s1 = rest sc) as Hrest1 by done.
    assert (∀ i, i ∈ ids_of (def_ u) → may_look_up s1 i) as Hmay.
    { intros i Hi b Hb p Hp. change (last (analysis_stack_ s1) = Some p) in Hp.
      rewrite HA1, last_snoc in Hp. injection Hp as <-.
      exists (view u1), i, b. split_and!; [by apply abs_lookup|done|done|done]. }
    apply wp_bind.
    match goal with |- wp ?m _ _ _ =>
      assert (wp m (λ _ s2, Inv s2 ∧ Frame s1 s2 ∧
                     ∀ i, i ∈ ids_of (def_ u) → looked_up s1 i s2)
                (allowed F s1) s1) as Hbody end.
    { destruct (is_data u).
      - apply wp_bind.
        eapply wp_mono;
          [apply (Definition_analyze_spec F (lookup parent_lookup rec));
             [intros ? ? ? ?; by apply (lookup_spec F rec Hrec)|done|done]| |done].
        intros d' s2 (HI2 & HF2 & Hl & Hd1 & Hd2 & Hd3 & Hd4). simpl.
        apply wp_modify.
        pose proof (set_def_neutral s1 s2 ui u1 d' Hu1 (f_mono _ _ HF2) Hd1 Hd2 Hd3 Hd4)
          as Habs.
        split_and!.
        + unfold Inv. by rewrite Habs.
        + destruct HF2. split; try done. by rewrite Habs.
        + intros i Hi b Hb. rewrite Habs. by apply (Hl i Hi).
      - apply wp_bind, wp_get. apply wp_bind.
        eapply wp_mono;
          [apply (Definition_analyze_spec F
                    (Function_Environ_single_lookup parent_lookup rec ui));
             [intros ? ? ? ?; by apply (Function_Environ_single_lookup_spec F rec Hrec)
             |done|done]
          | |done].
        intros d' s2 (HI2 & HF2 & Hl & Hd1 & Hd2 & Hd3 & Hd4). simpl.
        apply wp_bind, wp_modify, wp_modify.
        pose proof (set_def_neutral s1 s2 ui u1 d' Hu1 (f_mono _ _ HF2) Hd1 Hd2 Hd3 Hd4)
          as Habs.
        match goal with |- Inv ?s ∧ _ =>
          assert (abs s = abs s2) as Habs' by exact Habs end.
        split_and!.
        + unfold Inv. by rewrite Habs'.
        + destruct HF2. split; try done. by rewrite Habs'.
        + intros i Hi b Hb. rewrite Habs'. by apply (Hl i Hi). }
    eapply wp_mono; [exact Hbody| |].
    + intros [] s2 (HI2 & HF2 & Hl).
      destruct (body_facts s1 s2 (analysis_stack_ sc) ui u1 HI1 HI2 HF2 Hu1 HA1)
        as [Hb1 Hb2]; [intros i Hi b Hb; by apply (Hl i Hi)|].
      eapply wp_mono; [apply (finish_spec s2 (analysis_stack_ sc) ui id)| |].
      * done.
      * by rewrite (f_astack _ _ HF2).
      * done.
      * done.
      * done.
      * intros [] s3 (HI3 & HM3 & HA3 & Hrest3 & Hlk). split_and!; [done| |done].
        apply Frame_intro; [|done|].
        -- eapply Mono_trans; [exact HM1|]. eapply Mono_trans; [apply HF2|done].
        -- rewrite Hrest3, (Frame_rest _ _ HF2). done.
      * intros f s' Hf. by apply fail_ok_allowed.
    + intros f s' Hf. destruct f; try done. simpl in *. lia.
  - (* a unit whose analysis is in progress *)
    assert (ui ∈ sstack (abs sc)) as Hui by (by apply (i_stack _ HI)).
    destruct (i_anc _ HI _ Hui) as (a & Ha & _).
    assert (analysis_stack_ sc ≠ []) as Hne.
    { intros Hnil. simpl in Ha. rewrite Hnil in Ha. by apply elem_of_nil in Ha. }
    destruct (is_data u) eqn:Hdata.
    { destruct id as [i|]; [|by destruct Hne; apply Hid].
      apply wp_fail. simpl. split; [apply HI|done]. }
    apply wp_bind, wp_get. apply wp_bind, wp_assert.
    2:{ intros Hf. by apply bool_decide_eq_false in Hf. }
    intros _. unfold back.
    destruct (last (analysis_stack_ sc)) as [p|] eqn:Hp; [|by apply last_None in Hp].
    pose proof (Hcall p Hp) as Hedge.
    apply last_Some in Hp as [A HA].
    assert (p ∈ sstack (abs sc)) as HpS by (by eapply top_in_sstack).
    destruct (stack_valid _ HI _ HpS) as [vp Hvp].
    destruct (abs_lookup_inv _ _ _ Hvp) as (pu & Hpu & ->).
    assert (is_fun (abs sc) ui) as Hfun by (by apply (is_fun_abs _ _ _ Hu)).
    apply wp_modify.
    rewrite (alter_lower_at _ _ _ (λ q, scc_lowlink_ q `min` scc_ord_ u) Hpu).
    match goal with |- Inv ?s ∧ _ => set (s' := s) end.
    assert (abs s' = t_lower p (low (abs sc) p `min` ord (abs sc) ui) (abs sc)) as Habs.
    { rewrite (low_abs _ _ _ Hpu), (ord_abs _ _ _ Hu). apply abs_lower. }
    pose proof (lower_inv _ _ _ _ HI HA Hst Hfun Hedge) as HI'.
    pose proof (lower_looked _ _ _ _ HI HA Hst Hfun) as Hlk. simpl in Hlk.
    assert (state_of (abs sc) p ≠ Some k_analyzed) as Hpst.
    { apply (i_stack _ HI) in HpS. congruence. }
    split_and!.
    + unfold Inv. by rewrite Habs.
    + apply Frame_intro; [|done|done]. rewrite Habs. apply lower_Mono; [lia|done].
    + rewrite Habs. right. exists p. split_and!.
      * simpl. by rewrite HA, last_snoc.
      * by rewrite state_of_lower.
      * destruct Hlk as [Han|[_ Hle]]; [|done].
        rewrite state_of_lower in Han. congruence.
      * intros <-. eapply same_static_is_fun; [apply lower_static|done].
  - (* an initialized unit *)
    apply wp_ret. split_and!; [done|apply Frame_refl|by left].
Qed.


(** *** [analyze_unit], for any recursion budget *)

Lemma analyze_unit_spec fuel : rec_spec fuel (analyze_unit NDEBUG parent_lookup fuel).
Proof.
  induction fuel as [|fuel IH].
  - intros ui id sc _ _ _ _. simpl. unfold out_of_fuel. apply wp_fail. simpl. lia.
  - simpl. by apply step_spec.
Qed.

End Analysis.

(** ** Registration *)

(** The unitary definitions and the bare statements of a definition, in the
    order in which [add_to_scope] meets them. *)
Fixpoint unitary_defs (def : Abstract_Definition) : list Unitary_Definition :=
  match def with
  | Unitary _ d => [d]
  | Compound _ _ elements =>
      (fix each (es : list (Phrase * option Abstract_Definition)) :=
         match es with
         | [] => []
         | (_, None) :: es' => each es'
         | (_, Some d) :: es' => unitary_defs d ++ each es'
         end) elements
  end.

Fixpoint statements (def : Abstract_Definition) : list Phrase :=
  match def with
  | Unitary _ d => []
  | Compound _ _ elements =>
      (fix each (es : list (Phrase * option Abstract_Definition)) :=
         match es with
         | [] => []
         | (ph, None) :: es' => ph :: each es'
         | (_, Some d) :: es' => statements d ++ each es'
         end) elements
  end.

(** What the dependency graph sees of a definition. *)
Definition shape (d : Unitary_Definition) : bool * Identifier * list Identifier :=
  (is_data_def d, name_of d, ids_of d).

Definition shapes (sc : St) : list (bool * Identifier * list Identifier) :=
  (λ u, shape (def_ u)) <$> units_ sc.

Definition def_names (ds : list Unitary_Definition) : list string :=
  (λ d, atom_ (name_of d)) <$> ds.

Definition unit_names (sc : St) : list string :=
  (λ u, atom_ (name_of (def_ u))) <$> units_ sc.

(** The first slot that no unit of the scope has. *)
Definition bound (sc : St) : nat :=
  if target_is_module_ sc then size (dictionary_ sc) else frame_nslots_ sc.

(** The scope between two registrations. *)
Record Reg (sc : St) : Prop := {
  r_wf : WF (abs sc);
  r_fresh : ∀ i u, units_ sc !! i = Some u → state_ u = k_not_analyzed;
  r_sstack : scc_stack_ sc = [];
  r_astack : analysis_stack_ sc = [];
  r_acts : actions_ sc = [];
  r_bound : ∀ i u, units_ sc !! i = Some u → slot_of (def_ u) < bound sc;
  r_size : size (dictionary_ sc) = length (units_ sc);
  r_module : target_is_module_ sc = true →
             ∀ (i : nat) u, units_ sc !! i = Some u → slot_of (def_ u) = i
}.

Definition kept (sc : St) := (target_is_module_ sc, module_slot_ sc, source_ sc).

Lemma Reg_new p tm ms fn fm : Reg (new_scope p tm ms fn fm).
Proof.
  split; done.
Qed.

Lemma Reg_set_source src sc : Reg sc → Reg (set_source src sc).
Proof. intros []. by split. Qed.


Lemma slot_of_set_slot slot d : slot_of (set_slot slot d) = slot.
Proof. by destruct d. Qed.
Lemma name_of_set_slot slot d : name_of (set_slot slot d) = name_of d.
Proof. by destruct d. Qed.
Lemma shape_set_slot slot d : shape (set_slot slot d) = shape d.
Proof. by destruct d. Qed.

Lemma bound_old sc i u :
  Reg sc → units_ sc !! i = Some u → slot_of (def_ u) < bound sc.
Proof. intros HR. apply (r_bound _ HR). Qed.

(** One more unit, bound to the first free slot. *)
Lemma Reg_step sc d sc1 :
  Reg sc → dictionary_ sc !! atom_ (name_of d) = None →
  units_ sc1 = units_ sc ++ [mkUnit (set_slot (bound sc) d) k_not_analyzed 0 0 ∅] →
  dictionary_ sc1 = <[atom_ (name_of d) := mkBinding (bound sc) (length (units_ sc))]>
                      (dictionary_ sc) →
  target_is_module_ sc1 = target_is_module_ sc →
  (target_is_module_ sc = false → frame_nslots_ sc1 = S (frame_nslots_ sc)) →
  scc_stack_ sc1 = [] → analysis_stack_ sc1 = [] → actions_ sc1 = [] →
  Reg sc1.
Proof.
  intros HR Hnone Hu Hd Htm Hfn Hss Has Hacts.
  set (n := length (units_ sc)) in *.
  set (u0 := mkUnit (set_slot (bound sc) d) k_not_analyzed 0 0 ∅) in *.
  assert (bound sc1 = S (bound sc)) as Hb.
  { unfold bound. rewrite Htm. destruct (target_is_module_ sc); [|by apply Hfn].
    rewrite Hd. by apply map_size_insert_None. }
  assert (∀ i u, units_ sc1 !! i = Some u →
            (i < n ∧ units_ sc !! i = Some u) ∨ (i = n ∧ u = u0)) as Hcases.
  { intros i u Hi. rewrite Hu in Hi.
    apply lookup_snoc_Some in Hi as [[? ?]|[? ?]]; [by left|by right]. }
  assert (∀ i v, views (abs sc1) !! i = Some v →
            (i < n ∧ views (abs sc) !! i = Some v) ∨ (i = n ∧ v = view u0)) as Hvcases.
  { intros i v Hi. apply abs_lookup_inv in Hi as (u & Hi & ->).
    destruct (Hcases _ _ Hi) as [[? ?]|[? ->]]; [left|by right].
    split; [done|by apply abs_lookup]. }
  assert (∀ i v, views (abs sc) !! i = Some v → views (abs sc1) !! i = Some v) as Hvold.
  { intros i v Hi. apply abs_lookup_inv in Hi as (u & Hi & ->).
    apply abs_lookup. rewrite Hu. by apply lookup_app_l_Some. }
  assert (views (abs sc1) !! n = Some (view u0)) as Hvnew.
  { apply abs_lookup. rewrite Hu. by apply list_lookup_middle. }
  assert (∀ i v, views (abs sc) !! i = Some v → v_slot v < bound sc) as Hvb.
  { intros i v Hi. apply abs_lookup_inv in Hi as (u & Hi & ->). simpl.
    by eapply r_bound. }
  assert (v_slot (view u0) = bound sc) as Hs0 by apply slot_of_set_slot.
  assert (atom_ (v_name (view u0)) = atom_ (name_of d)) as Hn0.
  { simpl. by rewrite name_of_set_slot. }
  split.
  - split.
    + intros name b Hb'. change (dictionary_ sc1 !! name = Some b) in Hb'.
      rewrite Hd in Hb'. apply lookup_insert_Some in Hb' as [[<- <-]|[Hne Hb']].
      * exists (view u0). done.
      * destruct (wf_dict _ (r_wf _ HR) _ _ Hb') as (v & Hv & ? & ?).
        exists v. split_and!; [by apply Hvold|done|done].
    + intros i v Hi. change (dictionary_ sc1 !! atom_ (v_name v) =
                             Some (mkBinding (v_slot v) i)).
      rewrite Hd. destruct (Hvcases _ _ Hi) as [[Hlt Hv]|[-> ->]].
      * pose proof (wf_units _ (r_wf _ HR) _ _ Hv) as Hb'. simpl in Hb'.
        rewrite lookup_insert_ne; [done|]. intros Heq. rewrite <- Heq in Hb'.
        congruence.
      * rewrite Hn0, Hs0. by rewrite lookup_insert_eq.
    + intros i j vi vj Hi Hj Heq.
      destruct (Hvcases _ _ Hi) as [[? Hvi]|[-> ->]],
               (Hvcases _ _ Hj) as [[? Hvj]|[-> ->]]; try done.
      * by eapply (wf_slots _ (r_wf _ HR)).
      * pose proof (Hvb _ _ Hvi). rewrite Hs0 in Heq. lia.
      * pose proof (Hvb _ _ Hvj). rewrite Hs0 in Heq. lia.
  - intros i u Hi. destruct (Hcases _ _ Hi) as [[? ?]|[? ->]]; [|done].
    by eapply r_fresh.
  - done.
  - done.
  - done.
  - intros i u Hi. rewrite Hb. destruct (Hcases _ _ Hi) as [[? ?]|[? ->]].
    + pose proof (r_bound _ HR _ _ H0). lia.
    + simpl. rewrite slot_of_set_slot. lia.
  - rewrite Hd, Hu, length_app, map_size_insert_None by done.
    rewrite (r_size _ HR). simpl. lia.
  - intros Hm i u Hi. rewrite Htm in Hm.
    destruct (Hcases _ _ Hi) as [[? ?]|[-> ->]]; [by eapply r_module|].
    simpl. rewrite slot_of_set_slot. unfold bound. rewrite Hm. apply (r_size _ HR).
Qed.

Lemma Unitary_add_to_scope_spec d sc :
  Reg sc →
  wp (Unitary_add_to_scope (H := scope) d)
     (λ _ sc', Reg sc' ∧ shapes sc' = shapes sc ++ [shape d] ∧
               action_phrases_ sc' = action_phrases_ sc ∧ kept sc' = kept sc)
     (λ f _, f = Throws (Multiply_defined (atom_ (name_of d))) ∧
             atom_ (name_of d) ∈ unit_names sc)
     sc.
Proof.
  intros HR. unfold Unitary_add_to_scope. simpl.
  unfold begin_unit, add_binding, end_unit, update_unit.
  apply wp_bind, wp_bind, wp_modify, wp_bind, wp_get, wp_ret. simpl.
  apply wp_bind, wp_bind, wp_get. simpl.
  set (u0 := mkUnit d k_not_analyzed 0 0 ∅).
  assert (length (push_back (units_ sc) u0) - 1 = length (units_ sc)) as ->.
  { unfold push_back. rewrite length_app. simpl. lia. }
  assert (alter (set_def (set_slot (bound sc) d)) (length (units_ sc))
            (push_back (units_ sc) u0)
          = units_ sc ++ [mkUnit (set_slot (bound sc) d) k_not_analyzed 0 0 ∅]) as Halt.
  { unfold push_back. by rewrite alter_app_r_alt, Nat.sub_diag by done. }
  destruct (decide (is_Some (dictionary_ sc !! atom_ (name_of d)))) as [[b Hb]|Hnot].
  { apply wp_fail. split; [done|].
    destruct (wf_dict _ (r_wf _ HR) _ _ Hb) as (v & Hv & Hname & _).
    apply abs_lookup_inv in Hv as (u & Hu & ->).
    apply list_elem_of_fmap. exists u. split; [done|]. by eapply list_elem_of_lookup_2. }
  assert (dictionary_ sc !! atom_ (name_of d) = None) as Hnone.
  { by apply eq_None_not_Some. }
  unfold bound in Halt. unfold make_slot.
  destruct (target_is_module_ sc) eqn:Htm.
  - apply wp_bind, wp_ret, wp_bind, wp_modify, wp_ret, wp_modify.
    split_and!.
    + eapply (Reg_step sc d); try done; try apply (r_sstack _ HR); try apply (r_astack _ HR);
        try apply (r_acts _ HR); unfold bound; rewrite Htm; try done;
        try (simpl; exact Halt).
    + unfold shapes. simpl. rewrite Halt, fmap_app. simpl. by rewrite shape_set_slot.
    + done.
    + unfold kept. simpl. by rewrite Htm.
  - apply wp_bind, wp_bind, wp_get, wp_bind, wp_modify, wp_ret, wp_bind, wp_modify, wp_ret, wp_modify.
    split_and!.
    + eapply (Reg_step sc d); try done; try apply (r_sstack _ HR); try apply (r_astack _ HR);
        try apply (r_acts _ HR); unfold bound; rewrite Htm; try done;
        try (simpl; exact Halt).
    + unfold shapes. simpl. rewrite Halt, fmap_app. simpl. by rewrite shape_set_slot.
    + done.
    + unfold kept. simpl. by rewrite Htm.
Qed.

Lemma unit_names_shapes sc : unit_names sc = (λ x, atom_ x.1.2) <$> shapes sc.
Proof. unfold unit_names, shapes. rewrite <- list_fmap_compose. done. Qed.

Lemma def_names_shapes ds : def_names ds = (λ x, atom_ x.1.2) <$> (shape <$> ds).
Proof. unfold def_names. rewrite <- list_fmap_compose. done. Qed.

Lemma unit_names_app sc sc' ds :
  shapes sc' = shapes sc ++ (shape <$> ds) → unit_names sc' = unit_names sc ++ def_names ds.
Proof.
  intros H. by rewrite !unit_names_shapes, def_names_shapes, H, fmap_app.
Qed.

(** Registration fails only on a name that is defined twice. *)
Definition reg_fail (sc : St) (ds : list Unitary_Definition) (f : Failure) (sc' : St)
  : Prop :=
  ∃ n, f = Throws (Multiply_defined n) ∧ ¬ NoDup (unit_names sc ++ def_names ds).

Lemma add_to_scope_spec : ∀ def sc,
  Reg sc →
  wp (add_to_scope (H := scope) def)
     (λ _ sc', Reg sc' ∧ shapes sc' = shapes sc ++ (shape <$> unitary_defs def) ∧
               action_phrases_ sc' = action_phrases_ sc ++ statements def ∧
               kept sc' = kept sc)
     (reg_fail sc (unitary_defs def)) sc.
Proof.
  fix IH 1. intros [k d|k src es] sc HR.
  - simpl. eapply wp_mono; [by apply Unitary_add_to_scope_spec| |].
    + intros [] sc' (? & ? & ? & ?). split_and!; [done|done|by rewrite app_nil_r|done].
    + intros f sc' [-> Hin]. eexists; split; [done|]. simpl.
      intros Hnd. apply NoDup_app in Hnd as (_ & Hd & _). apply (Hd _ Hin). by left.
  - simpl. revert sc HR. induction es as [|[ph [d|]] es IHes]; intros sc HR.
    + apply wp_ret. rewrite !app_nil_r. done.
    + apply wp_bind. eapply wp_mono; [apply IH; done| |].
      * intros [] sc1 (HR1 & Hs1 & Ha1 & Hk1). simpl.
        eapply wp_mono; [apply IHes; done| |].
        -- intros [] sc2 (HR2 & Hs2 & Ha2 & Hk2).
           split_and!; [done| | |congruence].
           ++ by rewrite Hs2, Hs1, fmap_app, app_assoc.
           ++ by rewrite Ha2, Ha1, app_assoc.
        -- intros f sc2 (n & -> & Hnd). exists n. split; [done|].
           rewrite (unit_names_app _ _ _ Hs1), <- app_assoc in Hnd.
           unfold def_names in *. by rewrite fmap_app.
      * intros f sc1 (n & -> & Hnd). exists n. split; [done|].
        intros Hall. apply Hnd. unfold def_names in *. rewrite fmap_app, app_assoc in Hall.
        by apply NoDup_app in Hall as (? & _ & _).
    + apply wp_bind. unfold add_action at 1. apply wp_modify.
      eapply wp_mono; [apply IHes; by destruct HR| |].
      * intros [] sc2 (HR2 & Hs2 & Ha2 & Hk2). split_and!; [done|done| |done].
        rewrite Ha2. simpl. unfold push_back. by rewrite <- app_assoc.
      * intros f sc2 Hf. exact Hf.
Qed.


(** ** The whole analysis *)

(** The emitted actions are in order, whatever the scope was at the start. *)
Definition Ordered (T : Tarjan) : Prop := Emitted (Hinitial := T) T.

Lemma Emitted_Ordered G T : Emitted (Hinitial := G) T → Ordered T.
Proof. intros []. by split. Qed.

Definition all_analyzed (sc : St) : Prop :=
  ∀ i u, units_ sc !! i = Some u → state_ u = k_analyzed.

Lemma same_static_shapes sc sc' : same_static (abs sc) (abs sc') → shapes sc' = shapes sc.
Proof.
  intros [Hv _]. simpl in Hv. unfold shapes.
  assert (∀ l : list Unit, (λ u, shape (def_ u)) <$> l
            = (λ x : bool * Identifier * slot_t * list Identifier,
                 (x.1.1.1, x.1.1.2, x.2)) <$> (v_static <$> (view <$> l))) as Heq.
  { intros l. rewrite <- !list_fmap_compose. by apply list_fmap_ext. }
  by rewrite !Heq, Hv.
Qed.

Lemma same_static_slots sc sc' :
  same_static (abs sc) (abs sc') →
  (λ u, slot_of (def_ u)) <$> units_ sc' = (λ u, slot_of (def_ u)) <$> units_ sc.
Proof.
  intros [Hv _]. simpl in Hv.
  assert (∀ l : list Unit, (λ u, slot_of (def_ u)) <$> l
            = (λ x : bool * Identifier * slot_t * list Identifier, x.1.2)
                <$> (v_static <$> (view <$> l))) as Heq.
  { intros l. rewrite <- !list_fmap_compose. by apply list_fmap_ext. }
  by rewrite !Heq, Hv.
Qed.

(** How the analysis of a definition may fail. *)
Definition top_fail (def : Abstract_Definition) (f : Failure) (sc' : St) : Prop :=
  match f with
  | Throws (Multiply_defined _) => ¬ NoDup (def_names (unitary_defs def))
  | Throws e =>
      Ordered (abs sc') ∧ shapes sc' = shape <$> unitary_defs def ∧
      match e with
      | Not_defined id =>
          dictionary_ sc' !! atom_ id = None ∧ ∃ p, (parent_lookup id p).1 = None
      | _ => True
      end
  | Assertion_failed line =>
      NDEBUG = false ∧ (line = 230 ∨ (line = 126 ∧ def_kind def ≠ k_recursive))
  | Undefined_behaviour | Out_of_fuel => False
  end.

(** A successful analysis. *)
Record analyzed_ok (def : Abstract_Definition) (tm : bool) (sc' : St) : Prop := {
  a_ordered : Ordered (abs sc');
  a_target : target_is_module_ sc' = tm;
  a_all : all_analyzed sc';
  a_shapes : shapes sc' = shape <$> unitary_defs def;
  a_sstack : scc_stack_ sc' = [];
  a_size : size (dictionary_ sc') = length (unitary_defs def);
  a_module : target_is_module_ sc' = true →
             module_dictionary_ sc' = Some (slot_index_ <$> dictionary_ sc') ∧
             ∀ (i : nat) u, units_ sc' !! i = Some u → slot_of (def_ u) = i
}.

Lemma allowed_top def sc1 fuel f sc' :
  notan (abs sc1) < fuel → shapes sc1 = shape <$> unitary_defs def →
  allowed (Hinitial := abs sc1) fuel sc1 f sc' → top_fail def f sc'.
Proof.
  intros Hfuel Hsh Hal. destruct f as [e|line| |]; simpl in *; try done; [| |lia].
  - destruct Hal as [HE He].
    pose proof (same_static_shapes _ _ (e_static _ HE)) as Hsh'.
    destruct e; try done;
      (split_and!; [by eapply Emitted_Ordered|congruence|try done..]); tauto.
  - destruct Hal as [-> ->]. split; [done|by left].
Qed.


Lemma notan_length sc : notan (abs sc) ≤ length (units_ sc).
Proof.
  unfold notan. simpl. etrans; [apply length_filter|]. by rewrite length_fmap.
Qed.

(** Between two top-level calls a unit that has been looked up is
    initialized. *)
Lemma looked_top_analyzed T v :
  astack T = [] → looked_top T v → state_of T v = Some k_analyzed.
Proof. intros Ha [?|(p & Hp & _)]; [done|]. by rewrite Ha in Hp. Qed.

Lemma analyze_spec def p tm ms fn fm :
  wp (analyze NDEBUG parent_lookup def) (λ _ sc', analyzed_ok def tm sc') (top_fail def)
     (new_scope p tm ms fn fm).
Proof.
  unfold analyze. apply wp_bind, wp_assert.
  2:{ intros Hk HN. simpl. split; [done|]. right. split; [done|].
      by apply bool_decide_eq_false in Hk. }
  intros _. apply wp_bind, wp_modify. apply wp_bind.
  eapply wp_mono; [apply add_to_scope_spec, Reg_set_source, Reg_new| |].
  2:{ intros f sc' (n & -> & Hnd). simpl. exact Hnd. }
  intros [] sc1 (HR & Hsh & Hph & Hk). simpl in Hsh.
  apply wp_bind, wp_get.
  pose (G := abs sc1 : Initial).
  assert (Inv (Hinitial := G) sc1) as HI1.
  { apply initial_inv; [done|apply (r_wf _ HR)| |apply (r_sstack _ HR)
                       |apply (r_astack _ HR)|apply (r_acts _ HR)].
    intros i v Hv. apply abs_lookup_inv in Hv as (u & Hu & ->). simpl.
    by eapply r_fresh. }
  assert (notan (abs sc1) < fuel_of sc1) as Hfuel.
  { pose proof (notan_length sc1). unfold fuel_of. lia. }
  pose proof (analyze_unit_spec (Hinitial := G) (fuel_of sc1)) as Hrec.
  set (I := λ s : St, Inv (Hinitial := G) s ∧ analysis_stack_ s = []).
  (* the bare statements *)
  apply wp_bind.
  eapply wp_mono;
    [apply (wp_forM _ _ I Frame (λ _ _, True)
              (allowed (Hinitial := G) (fuel_of sc1)))| |].
  - apply Frame_refl.
  - apply Frame_trans.
  - done.
  - intros s0 s1 s2 fl HF. by apply allowed_weaken.
  - intros a s Ha [HI HA] HF. apply wp_bind. unfold analyze_op. apply wp_bind.
    eapply wp_mono;
      [apply (mapM_lookup_spec (fuel_of sc1)
                (lookup parent_lookup (analyze_unit NDEBUG parent_lookup (fuel_of sc1))))
      | |done].
    + intros ? ? ? ?. by apply (lookup_spec _ _ Hrec).
    + done.
    + intros id _ b _ q Hq. simpl in Hq. by rewrite HA in Hq.
    + intros m_s s' (HI' & HF' & Hl). simpl. apply wp_ret. apply wp_modify.
      assert (analysis_stack_ s' = []) as HA' by (by rewrite (f_astack _ _ HF')).
      set (op := Generic_Op a m_s).
      assert (abs (set_actions (push_back (actions_ s') op) s') = t_push op (abs s'))
        as Habs by done.
      split_and!; [split| |done].
      * unfold Inv. rewrite Habs. apply push_inv; [done|].
        intros id b Hid Hb. apply (looked_top_analyzed (abs s') _ HA').
        apply (Hl id Hid b).
        pose proof (m_dict _ _ (f_mono _ _ HF')) as Hd. simpl in Hd, Hb.
        by rewrite <- Hd.
      * done.
      * eapply Frame_trans; [exact HF'|].
        apply Frame_intro; [|done|done]. rewrite Habs. apply push_Mono.
  - split; [done|apply (r_astack _ HR)].
  - intros [] s2 ([HI2 HA2] & HF2 & _). simpl.
    (* the units that nothing has looked up *)
    apply wp_bind.
    eapply wp_mono;
      [apply (wp_forM _ _ I Frame (λ ui s, state_of (abs s) ui = Some k_analyzed)
                (allowed (Hinitial := G) (fuel_of sc1)))| |].
    + apply Frame_refl.
    + apply Frame_trans.
    + intros ui s s' _ HF Han.
      destruct (Mono_state _ _ _ _ (f_mono _ _ HF) Han) as (s'' & -> & _ & _ & _ & Hk');
        [done|]. by rewrite Hk'.
    + intros s0 s1 s3 fl HF. by apply allowed_weaken.
    + intros ui s Hui [HI HA] HF. unfold force_unit.
      assert (is_Some (units_ s !! ui)) as [u Hu].
      { apply lookup_lt_is_Some. apply elem_of_seq in Hui.
        pose proof (m_length _ _ (f_mono _ _ (Frame_trans _ _ _ HF2 HF))) as Hlen.
        simpl in Hlen. rewrite !length_fmap in Hlen. lia. }
      apply wp_bind. eapply wp_get_unit; [exact Hu|].
      destruct (decide (state_ u = k_not_analyzed)) as [Hna|Hna].
      * eapply wp_mono; [apply Hrec; [done|eauto| |done]| |done].
        -- intros q Hq. simpl in Hq. by rewrite HA in Hq.
        -- intros [] s' (HI' & HF' & Hl).
           assert (analysis_stack_ s' = []) as HA' by (by rewrite (f_astack _ _ HF')).
           split_and!; [by split|done|by apply (looked_top_analyzed (abs s') _ HA')].
      * apply wp_ret. split_and!; [by split|apply Frame_refl|].
        pose proof (state_of_abs _ _ _ Hu) as Hst.
        pose proof (top_level_state _ _ _ HI HA Hst).
        rewrite Hst. f_equal. by destruct (state_ u).
    + done.
    + intros [] s3 ([HI3 HA3] & HF3 & Hall). simpl.
      apply wp_bind, wp_modify.
      pose proof (Frame_trans _ _ _ HF2 HF3) as HF13.
      pose proof (Mono_static _ _ (f_mono _ _ HF13)) as Hst13.
      assert (∀ s4, abs s4 = abs s3 → units_ s4 = units_ s3 →
                dictionary_ s4 = dictionary_ s3 →
                target_is_module_ s4 = target_is_module_ sc1 →
                scc_stack_ s4 = scc_stack_ s3 →
                (target_is_module_ sc1 = true →
                 module_dictionary_ s4 = Some (slot_index_ <$> dictionary_ s4)) →
                analyzed_ok def tm s4) as Hfin.
      { intros s4 Habs Hun Hdi Htm Hss Hmd. split.
        - rewrite Habs. eapply Emitted_Ordered, HI3.
        - rewrite Htm. by injection Hk.
        - intros i u Hu. rewrite Hun in Hu.
          assert (state_of (abs s3) i = Some k_analyzed) as Han.
          { apply Hall, elem_of_seq. apply lookup_lt_Some in Hu.
            pose proof (m_length _ _ (f_mono _ _ HF13)) as Hlen.
            simpl in Hlen. rewrite !length_fmap in Hlen. lia. }
          rewrite (state_of_abs _ _ _ Hu) in Han. by injection Han.
        - unfold shapes. rewrite Hun. fold (shapes s3).
          by rewrite (same_static_shapes _ _ Hst13).
        - rewrite Hss. by apply (top_level_stack _ HI3).
        - rewrite Hdi. pose proof (m_dict _ _ (f_mono _ _ HF13)) as Hd13.
          simpl in Hd13. rewrite Hd13, (r_size _ HR).
          pose proof (f_equal length Hsh) as Hl. unfold shapes in Hl.
          by rewrite !length_fmap in Hl.
        - intros Hm. rewrite Htm in Hm. split; [by apply Hmd|].
          intros i u Hu. rewrite Hun in Hu.
          pose proof (same_static_slots _ _ Hst13) as Hsl.
          assert (((λ u, slot_of (def_ u)) <$> units_ s3) !! i = Some (slot_of (def_ u)))
            as Hi.
          { rewrite list_lookup_fmap. by rewrite Hu. }
          rewrite Hsl, list_lookup_fmap in Hi.
          destruct (units_ sc1 !! i) as [u1|] eqn:Hu1; [|done].
          injection Hi as <-. by eapply (r_module _ HR). }
      destruct (target_is_module_ sc1) eqn:Htm.
      * apply wp_modify. apply Hfin; try done.
        simpl. by rewrite (f_target _ _ HF13).
      * apply wp_ret. apply Hfin; try done.
        simpl. by rewrite (f_target _ _ HF13).
    + intros f s' Hal. eapply allowed_top; [exact Hfuel|done|].
      by eapply allowed_weaken.
  - intros f s' Hal. by eapply allowed_top.
Qed.

End Correct.

Arguments abs {Parent}.
Arguments Inv {Parent Hinitial}.
Arguments Frame {Parent}.
Arguments rest {Parent}.
Arguments shapes {Parent}.
Arguments unit_names {Parent}.
Arguments bound {Parent}.
Arguments Reg {Parent}.
Arguments kept {Parent}.
Arguments all_analyzed {Parent}.
Arguments analyzed_ok {Parent}.
Arguments fail_ok NDEBUG {Parent} parent_lookup {Hinitial}.
Arguments top_fail NDEBUG {Parent}.
End Recursive_Scope_Correct.

(** * Registration in a sequential scope *)

Module Sequential_Scope_Correct.
Import Sequential_Scope Recursive_Scope_Correct.

Lemma lookup_None_Some {A} (m : gmap string A) k (x : A) :
  m !! k = None → m !! k = Some x → False.
Proof. congruence. Qed.

(** The dictionary numbers the names [ns] by their position. *)
Record numbered (ns : list string) (d : gmap string slot_t) : Prop := {
  n_slot : ∀ (i : nat) name, ns !! i = Some name → d !! name = Some i;
  n_name : ∀ name (s : nat), d !! name = Some s → ns !! s = Some name;
  n_size : size d = length ns
}.

Lemma numbered_nil : numbered [] ∅.
Proof. split; done. Qed.

Lemma numbered_snoc ns d name :
  numbered ns d → d !! name = None → numbered (ns ++ [name]) (<[name := size d]> d).
Proof.
  intros [H1 H2 H3] Hnone. split.
  - intros i n [[Hlt Hi]|[-> <-]]%lookup_snoc_Some.
    + rewrite lookup_insert_ne; [by apply H1|]. intros <-.
      exact (lookup_None_Some _ _ _ Hnone (H1 _ _ Hi)).
    + rewrite <- H3. by rewrite lookup_insert_eq.
  - intros n s [[<- <-]|[Hne Hs]]%lookup_insert_Some.
    + rewrite H3. by apply list_lookup_middle.
    + apply lookup_app_l_Some. by apply H2.
  - rewrite map_size_insert_None by done. rewrite length_app, H3. simpl. lia.
Qed.

Section Sequential.
Variable NDEBUG : bool.
Variable Parent : Type.
Variable parent_lookup : Identifier → Parent → option Meaning * Parent.
Local Abbreviation St := (Sequential_Scope.t Parent).

(** Analysis leaves the dictionary alone. *)
Definition same_dict (sc sc' : St) : Prop :=
  dictionary_ sc' = dictionary_ sc ∧ target_is_module_ sc' = target_is_module_ sc.

Lemma seq_lookup_frame id (sc : St) :
  wp (lookup parent_lookup id) (λ _ sc', same_dict sc sc') (λ _ _, True) sc.
Proof.
  unfold lookup, Environ_lookup. apply wp_bind. unfold single_lookup.
  apply wp_bind, wp_get.
  destruct (dictionary_ sc !! atom_ id) as [slot|].
  - by destruct (target_is_module_ sc); apply wp_ret, wp_ret.
  - apply wp_ret. unfold wp, parent_chain_lookup.
    by destruct ((parent_lookup id (parent_ sc)).1).
Qed.

Lemma seq_analyze_op_frame ph (sc : St) :
  wp (analyze_op (lookup parent_lookup) ph) (λ _ sc', same_dict sc sc') (λ _ _, True) sc.
Proof.
  unfold analyze_op. apply wp_bind.
  eapply wp_mono;
    [apply (wp_mapM _ _ (λ _, True) same_dict (λ _ _, True) (λ _ _ _, True))| |done];
    try done.
  - intros s1 s2 s3 [? ?] [? ?]. split; congruence.
  - intros id s1 _ _ _. eapply wp_mono; [apply seq_lookup_frame| |done]. done.
  - intros ms s' (_ & HR & _). by apply wp_ret.
Qed.

Lemma seq_Definition_analyze_frame d (sc : St) :
  wp (Definition_analyze NDEBUG (lookup parent_lookup) d)
     (λ d' sc', same_dict sc sc' ∧ name_of d' = name_of d) (λ _ _, True) sc.
Proof.
  destruct d as [s n sl ph e|s n sl lp l]; simpl.
  - apply wp_bind. eapply wp_mono; [apply seq_analyze_op_frame| |done].
    intros m s' HR. by apply wp_ret.
  - apply wp_bind. unfold analyze_lambda. apply wp_bind.
    eapply wp_mono; [apply seq_analyze_op_frame| |done].
    intros m s' HR. by apply wp_ret, wp_ret.
Qed.

Lemma seq_unitary_spec ns d (sc : St) :
  target_is_module_ sc = true → numbered ns (dictionary_ sc) →
  wp (Unitary_add_to_scope (H := scope NDEBUG parent_lookup) d)
     (λ _ sc', target_is_module_ sc' = true ∧
               numbered (ns ++ [atom_ (name_of d)]) (dictionary_ sc'))
     (λ _ _, True) sc.
Proof.
  intros Htm Hn. unfold Unitary_add_to_scope. simpl.
  apply wp_bind. unfold begin_unit. apply wp_bind.
  eapply wp_mono; [apply seq_Definition_analyze_frame| |done].
  intros d' s1 [[Hd1 Ht1] Hname]. apply wp_ret. simpl.
  apply wp_bind. unfold add_binding. apply wp_bind, wp_get.
  destruct (decide (is_Some (dictionary_ s1 !! atom_ (name_of d')))) as [|Hnone];
    [done|].
  apply eq_None_not_Some in Hnone.
  rewrite Ht1, Htm. apply wp_bind, wp_ret, wp_bind, wp_modify, wp_ret.
  unfold end_unit. apply wp_bind, wp_get. apply wp_bind.
  assert (wp (make_setter NDEBUG (set_slot (size (dictionary_ s1)) d')
                (module_slot_
                   (set_dictionary
                      (<[atom_ (name_of d'):=size (dictionary_ s1)]> (dictionary_ s1))
                      s1)))
            (λ _ s2, s2 = set_dictionary
                            (<[atom_ (name_of d'):=size (dictionary_ s1)]>
                               (dictionary_ s1)) s1)
            (λ _ _, True)
            (set_dictionary
               (<[atom_ (name_of d'):=size (dictionary_ s1)]> (dictionary_ s1)) s1))
    as Hset.
  { destruct d' as [? ? ? ? ?|? ? ? ? ?]; simpl.
    - by destruct (module_slot_ s1); apply wp_ret.
    - apply wp_bind. destruct NDEBUG; [by apply wp_ret, wp_ret|by apply wp_fail]. }
  eapply wp_mono; [exact Hset| |done].
  intros op s2 ->. apply wp_modify. simpl. split; [congruence|].
  rewrite <- Hname. apply numbered_snoc; [|done]. by rewrite Hd1.
Qed.

Lemma seq_add_to_scope_spec : ∀ def ns (sc : St),
  target_is_module_ sc = true → numbered ns (dictionary_ sc) →
  wp (add_to_scope (H := scope NDEBUG parent_lookup) def)
     (λ _ sc', target_is_module_ sc' = true ∧
               numbered (ns ++ def_names (unitary_defs def)) (dictionary_ sc'))
     (λ _ _, True) sc.
Proof.
  fix IH 1. intros [k d|k src es] ns sc Htm Hn.
  - simpl. by apply seq_unitary_spec.
  - simpl. revert ns sc Htm Hn. induction es as [|[ph [d|]] es IHes]; intros ns sc Htm Hn.
    + apply wp_ret. by rewrite app_nil_r.
    + apply wp_bind. eapply wp_mono; [by apply IH| |done].
      intros [] s1 [Ht1 Hn1]. simpl.
      eapply wp_mono; [by apply IHes| |done].
      intros [] s2 [Ht2 Hn2]. split; [done|].
      unfold def_names in *. by rewrite fmap_app, app_assoc.
    + apply wp_bind. unfold add_action at 1. apply wp_bind.
      eapply wp_mono; [apply seq_analyze_op_frame| |done].
      intros op s1 [Hd1 Ht1]. apply wp_modify.
      apply IHes; simpl; [congruence|by rewrite Hd1].
Qed.

Lemma seq_analyze_spec def (sc : St) :
  target_is_module_ sc = true → dictionary_ sc = ∅ →
  wp (analyze NDEBUG parent_lookup def)
     (λ _ sc', module_dictionary_ sc' = Some (dictionary_ sc') ∧
               numbered (def_names (unitary_defs def)) (dictionary_ sc'))
     (λ _ _, True) sc.
Proof.
  intros Htm Hd. unfold analyze. apply wp_bind, wp_assert; [intros _|done].
  apply wp_bind.
  eapply wp_mono; [apply (seq_add_to_scope_spec def [])| |done].
  - done.
  - rewrite Hd. apply numbered_nil.
  - intros [] s1 [Ht1 Hn1]. simpl. apply wp_bind, wp_modify, wp_bind, wp_get.
    simpl. rewrite Ht1. by apply wp_modify.
Qed.

End Sequential.
End Sequential_Scope_Correct.

(** * The properties of the specification *)

Module Properties.
Import Recursive_Scope SCC SCC_Steps Recursive_Scope_Correct Sequential_Scope_Correct.

(** ** Sample programs *)

Definition ident (s : string) : Identifier := mkIdentifier s 0.

(** [x = e;], where [e] mentions the names [refs]. *)
Definition data (name : string) (refs : list string)
  : Phrase * option Abstract_Definition :=
  (mkPhrase 0 [],
   Some (Unitary k_recursive
           (Data_Definition 0 (ident name) 0 (mkPhrase 0 (ident <$> refs)) Nullptr))).

(** [f() = e;], where the free names of [e] are [refs]. *)
Definition func (name : string) (refs : list string)
  : Phrase * option Abstract_Definition :=
  (mkPhrase 0 [],
   Some (Unitary k_recursive
           (Function_Definition 0 (ident name) 0
              (mkLambda_Phrase 0 0 0 (mkPhrase 0 (ident <$> refs))) None))).

(** A bare statement that mentions the names [refs]. *)
Definition stmt (refs : list string) : Phrase * option Abstract_Definition :=
  (mkPhrase 0 (ident <$> refs), None).

Definition program (es : list (Phrase * option Abstract_Definition))
  : Abstract_Definition :=
  Compound k_recursive 0 es.

(** An enclosing environment that defines nothing, and one that defines
    every name as a constant. *)
Definition no_parent (id : Identifier) (p : unit) : option Meaning * unit := (None, p).
Definition all_parent (id : Identifier) (p : unit) : option Meaning * unit :=
  (Some (Constant 0 (Other_Value 0)), p).

Definition run (NDEBUG : bool) (def : Abstract_Definition)
  : Outcome unit * Recursive_Scope.t unit :=
  analyze NDEBUG no_parent def (new_scope tt false None 0 0).

(** ** The dependency graph of a definition *)

(** Unit [u] depends on unit [v]: the definition of [u] mentions the name
    that [v] defines. *)
Definition dep (ds : list Unitary_Definition) (u v : nat) : Prop :=
  ∃ du dv id, ds !! u = Some du ∧ ds !! v = Some dv ∧
              id ∈ ids_of du ∧ atom_ id = atom_ (name_of dv).

Lemma shapes_lookup {Parent} (sc : t Parent) ds i u :
  shapes sc = shape <$> ds → units_ sc !! i = Some u →
  ∃ d, ds !! i = Some d ∧ shape d = shape (def_ u).
Proof.
  intros Hs Hu.
  assert (shapes sc !! i = Some (shape (def_ u))) as Hi.
  { unfold shapes. by rewrite list_lookup_fmap, Hu. }
  rewrite Hs, list_lookup_fmap in Hi.
  destruct (ds !! i) as [d|]; [|done]. simpl in Hi. exists d. split; [done|congruence].
Qed.

Lemma shapes_lookup_inv {Parent} (sc : t Parent) ds i d :
  shapes sc = shape <$> ds → ds !! i = Some d →
  ∃ u, units_ sc !! i = Some u ∧ shape (def_ u) = shape d.
Proof.
  intros Hs Hd.
  assert ((shape <$> ds) !! i = Some (shape d)) as Hi.
  { by rewrite list_lookup_fmap, Hd. }
  rewrite <- Hs in Hi. unfold shapes in Hi. rewrite list_lookup_fmap in Hi.
  destruct (units_ sc !! i) as [u|]; [|done]. simpl in Hi. exists u. split; [done|congruence].
Qed.

(** The graph of the cycle detection is the graph of the definition. *)
Lemma edge_dep {Parent} (sc : t Parent) ds u v :
  WF (abs sc) → shapes sc = shape <$> ds → edge (abs sc) u v ↔ dep ds u v.
Proof.
  intros Hwf Hs. split.
  - intros (vu & id & b & Hu & Hid & Hb & <-).
    apply abs_lookup_inv in Hu as (uu & Hu & ->).
    destruct (wf_dict _ Hwf _ _ Hb) as (vv & Hv & Hname & _).
    apply abs_lookup_inv in Hv as (uv & Hv & ->).
    destruct (shapes_lookup _ _ _ _ Hs Hu) as (du & Hdu & Hsu).
    destruct (shapes_lookup _ _ _ _ Hs Hv) as (dv & Hdv & Hsv).
    injection Hsu as _ _ Hids. injection Hsv as _ Hnm _.
    exists du, dv, id. split_and!; [done|done|by rewrite Hids|by rewrite Hnm].
  - intros (du & dv & id & Hdu & Hdv & Hid & Hname).
    destruct (shapes_lookup_inv _ _ _ _ Hs Hdu) as (uu & Hu & Hsu).
    destruct (shapes_lookup_inv _ _ _ _ Hs Hdv) as (uv & Hv & Hsv).
    injection Hsu as _ _ Hids. injection Hsv as _ Hnm _.
    pose proof (wf_units _ Hwf _ _ (abs_lookup _ _ _ _ Hv)) as Hb. simpl in Hb.
    exists (view uu), id, (mkBinding (slot_of (def_ uv)) v).
    split_and!; [by apply abs_lookup|simpl; by rewrite Hids| |done].
    rewrite Hname, <- Hnm. exact Hb.
Qed.

Lemma reach_dep {Parent} (sc : t Parent) ds u v :
  WF (abs sc) → shapes sc = shape <$> ds → reach (abs sc) u v ↔ rtc (dep ds) u v.
Proof.
  intros Hwf Hs. split.
  - apply (rtc_congruence (λ z, z)). intros ? ?. by apply edge_dep.
  - apply (rtc_congruence (λ z, z)). intros ? ?. by apply edge_dep.
Qed.

(** ** Standalone setters of functions *)

(** C8, amended: [Function_Definition::make_setter] stops at the assertion
    of line 56 when assertions are compiled in, and returns a null operation
    when they are compiled out; [Sequential_Scope::end_unit] calls it for
    every unit, so for a function definition it stops there too, or appends
    the null operation.  The registration of a function definition in a
    sequential scope passes on a failure of the analysis of the definition,
    throws "multiply defined" for a name that is bound, and otherwise gets to
    that call: it stops at the assertion with nothing appended, or returns
    with a null action appended. *)
Theorem C8_function_make_setter :
  (∀ NDEBUG (S : Type) s n sl lp l ms (st : S),
     make_setter NDEBUG (Function_Definition s n sl lp l) ms st
     = (if NDEBUG then Returns Nullptr else Fails (Assertion_failed 56), st)) ∧
  (∀ NDEBUG (Parent : Type) unitno s n sl lp l (sc : Sequential_Scope.t Parent),
     Sequential_Scope.end_unit NDEBUG unitno (Function_Definition s n sl lp l) sc
     = if NDEBUG
       then (Returns tt,
             Sequential_Scope.set_actions
               (push_back (Sequential_Scope.actions_ sc) Nullptr) sc)
       else (Fails (Assertion_failed 56), sc)) ∧
  (∀ NDEBUG (Parent : Type) parent_lookup d (sc : Sequential_Scope.t Parent),
     is_data_def d = false →
     match Sequential_Scope.begin_unit NDEBUG parent_lookup d sc with
     | (Fails f, sc1) =>
         Unitary_add_to_scope (H := Sequential_Scope.scope NDEBUG parent_lookup) d sc
         = (Fails f, sc1)
     | (Returns r, sc1) =>
         if decide (is_Some (Sequential_Scope.dictionary_ sc1 !! atom_ (name_of d)))
         then Unitary_add_to_scope (H := Sequential_Scope.scope NDEBUG parent_lookup) d sc
              = (Fails (Throws (Multiply_defined (atom_ (name_of d)))), sc1)
         else ∃ sc2,
                Unitary_add_to_scope (H := Sequential_Scope.scope NDEBUG parent_lookup) d sc
                = (if NDEBUG then Returns tt else Fails (Assertion_failed 56), sc2) ∧
                Sequential_Scope.actions_ sc2
                = if NDEBUG then Sequential_Scope.actions_ sc1 ++ [Nullptr]
                  else Sequential_Scope.actions_ sc1
     end).
Proof.
  split_and!.
  - by intros [].
  - by intros [].
  - intros NDEBUG Parent parent_lookup d sc Hd.
    destruct (Sequential_Scope.begin_unit NDEBUG parent_lookup d sc) as [[r|f] sc1] eqn:Hb.
    2:{ unfold Unitary_add_to_scope. simpl. unfold bind at 1. by rewrite Hb. }
    destruct r as [n d'].
    assert (is_data_def d' = false ∧ name_of d' = name_of d) as [Hd' Hn].
    { unfold Sequential_Scope.begin_unit, bind in Hb.
      destruct (Definition_analyze NDEBUG _ d sc) as [[d''|f] s''] eqn:Ha; [|done].
      injection Hb as _ <- <-.
      destruct d as [|s nm sl lp l]; [done|]. simpl in Ha. unfold bind in Ha.
      destruct (analyze_lambda _ lp sc) as [[m|f] s3]; [|done].
      destruct m; try (by destruct NDEBUG); by injection Ha as <- _. }
    assert (∀ o sc2,
              (let* slot := Sequential_Scope.add_binding (name_of d') n in
               Sequential_Scope.end_unit NDEBUG n (set_slot slot d')) sc1 = (o, sc2) →
              Unitary_add_to_scope (H := Sequential_Scope.scope NDEBUG parent_lookup) d sc
              = (o, sc2)) as Hrest.
    { intros o sc2 Hr. unfold Unitary_add_to_scope. simpl. unfold bind at 1.
      rewrite Hb. exact Hr. }
    destruct (decide (is_Some (Sequential_Scope.dictionary_ sc1 !! atom_ (name_of d))))
      as [Hin|Hout].
    + apply Hrest. unfold bind at 1. unfold Sequential_Scope.add_binding, bind at 1.
      simpl. rewrite Hn. by rewrite decide_True.
    + destruct d' as [|s nm sl lp l]; [done|]. simpl in Hn.
      destruct (Sequential_Scope.target_is_module_ sc1) eqn:Htm, NDEBUG;
        eexists; (split; [apply Hrest; unfold bind at 1;
                          unfold Sequential_Scope.add_binding, bind at 1; simpl;
                          rewrite Hn, decide_False by done; rewrite Htm; reflexivity
                         |reflexivity]).
Qed.

(** [f() = 1;] registered in a sequential scope. *)
Definition one_function : Unitary_Definition :=
  Function_Definition 0 (ident "f") 0 (mkLambda_Phrase 0 0 0 (mkPhrase 0 [])) None.

Definition empty_sequential : Sequential_Scope.t unit :=
  Sequential_Scope.mk tt 0 0 0 false [] None None ∅.

Lemma C8_function_make_setter_witness :
  (∃ sc2, Unitary_add_to_scope (H := Sequential_Scope.scope false no_parent)
            one_function empty_sequential
          = (Fails (Assertion_failed 56), sc2) ∧
          Sequential_Scope.actions_ sc2 = []) ∧
  (∃ sc2, Unitary_add_to_scope (H := Sequential_Scope.scope true no_parent)
            one_function empty_sequential
          = (Returns tt, sc2) ∧
          Sequential_Scope.actions_ sc2 = [Nullptr]).
Proof.
  destruct C8_function_make_setter as (_ & _ & H).
  split.
  - exact (H false unit no_parent one_function empty_sequential eq_refl).
  - exact (H true unit no_parent one_function empty_sequential eq_refl).
Defined.

(** C8 as stated does not hold: with assertions compiled out the standalone
    initializer of a function definition returns normally, with a null
    operation, and the analysis of [f() = 1;] in a sequential scope succeeds
    with that null operation as its one action. *)
Lemma C8_counterexample :
  make_setter true one_function None tt = (Returns Nullptr, tt) ∧
  ∃ sc', Sequential_Scope.analyze true no_parent
           (Compound k_sequential 0 [func "f" []]) empty_sequential
         = (Returns tt, sc') ∧
         Sequential_Scope.actions_ sc' = [Nullptr].
Proof.
  split; [reflexivity|]. eexists. split; [vm_compute; reflexivity|reflexivity].
Qed.

(** ** Duplicate names *)

(** C9: in both scopes [add_binding] of a name that the dictionary has
    throws "multiply defined" and leaves the whole scope, and so the first
    binding of the name, as it was; for [a = 1; a = 2;] the analysis fails
    so and [a] is still bound to the first unit and its slot. *)
Theorem C9_multiply_defined :
  (∀ (Parent : Type) name unitno (sc : Sequential_Scope.t Parent),
     is_Some (Sequential_Scope.dictionary_ sc !! atom_ name) →
     Sequential_Scope.add_binding name unitno sc
     = (Fails (Throws (Multiply_defined (atom_ name))), sc)) ∧
  (∀ (Parent : Type) name unitno (sc : Recursive_Scope.t Parent),
     is_Some (dictionary_ sc !! atom_ name) →
     add_binding name unitno sc
     = (Fails (Throws (Multiply_defined (atom_ name))), sc)) ∧
  (∃ sc', run true (program [data "a" []; data "a" []])
          = (Fails (Throws (Multiply_defined "a")), sc') ∧
          dictionary_ sc' !! "a"%string = Some (mkBinding 0 0)).
Proof.
  split_and!.
  - intros Parent name unitno sc Hin.
    unfold Sequential_Scope.add_binding, bind. simpl. by rewrite decide_True.
  - intros Parent name unitno sc Hin.
    unfold add_binding, bind. simpl. by rewrite decide_True.
  - eexists. split; [vm_compute; reflexivity|vm_compute; reflexivity].
Qed.


(** ** The order of the actions *)

Lemma analyze_returns NDEBUG {Parent} parent_lookup def p tm ms fn fm (sc' : t Parent) :
  analyze NDEBUG parent_lookup def (new_scope p tm ms fn fm) = (Returns tt, sc') →
  analyzed_ok def tm sc'.
Proof.
  intros Hrun.
  exact (wp_returns _ _ _ _ _ _ (analyze_spec NDEBUG Parent parent_lookup def p tm ms fn fm)
           Hrun).
Qed.

(** The budget of the recursion is never used up, and the analysis never
    runs into undefined behaviour. *)
Lemma analyze_defined NDEBUG {Parent} parent_lookup def p tm ms fn fm (sc' : t Parent) f :
  analyze NDEBUG parent_lookup def (new_scope p tm ms fn fm) = (Fails f, sc') →
  f ≠ Out_of_fuel ∧ f ≠ Undefined_behaviour.
Proof.
  intros Hrun.
  pose proof (wp_fails _ _ _ _ _ _
                (analyze_spec NDEBUG Parent parent_lookup def p tm ms fn fm) Hrun) as Hf.
  by destruct f.
Qed.

Lemma analyzed_state {Parent} (sc' : t Parent) def tm u :
  analyzed_ok def tm sc' → u < length (unitary_defs def) →
  state_of (abs sc') u = Some k_analyzed.
Proof.
  intros Hok Hu. apply lookup_lt_is_Some in Hu as [d Hd].
  destruct (shapes_lookup_inv _ _ _ _ (a_shapes _ _ _ _ Hok) Hd) as (uu & Huu & _).
  rewrite (state_of_abs _ _ _ _ Huu). f_equal. by eapply (a_all _ _ _ _ Hok).
Qed.

Lemma dep_lt_l ds u v : dep ds u v → u < length ds.
Proof. intros (du & _ & _ & Hu & _). by eapply lookup_lt_Some. Qed.

(** C1: after a successful analysis, the action that writes the slot of a
    unit comes after the actions that write the slots the unit depends on, or
    it is the same grouped setter and then the two units depend on each other;
    of two units of which the first discovered does not depend on the other,
    the first discovered is written first; and the operation of a bare
    statement comes after the writers of the slots of the names it mentions. *)
Theorem C1_topological_order NDEBUG {Parent} parent_lookup def p tm ms fn fm
    (sc' : t Parent) :
  analyze NDEBUG parent_lookup def (new_scope p tm ms fn fm) = (Returns tt, sc') →
  (∀ u v, dep (unitary_defs def) u v →
     ∃ i j, writer (abs sc') (slot (abs sc') u) i ∧
            writer (abs sc') (slot (abs sc') v) j ∧
            (j < i ∨ (j = i ∧ rtc (dep (unitary_defs def)) v u))) ∧
  (∀ u v i j, u < length (unitary_defs def) → v < length (unitary_defs def) →
     writer (abs sc') (slot (abs sc') u) i → writer (abs sc') (slot (abs sc') v) j →
     ord (abs sc') u < ord (abs sc') v → ¬ rtc (dep (unitary_defs def)) u v → i < j) ∧
  (∀ i ph ms' id b, actions_ sc' !! i = Some (Generic_Op ph ms') → id ∈ ph_ids ph →
     dictionary_ sc' !! atom_ id = Some b →
     ∃ j, j < i ∧ writer (abs sc') (slot_index_ b) j).
Proof.
  intros Hrun. pose proof (analyze_returns _ _ _ _ _ _ _ _ _ Hrun) as Hok.
  pose proof (a_ordered _ _ _ _ Hok) as HE. unfold Ordered in HE.
  pose proof (e_wf _ HE) as Hwf. pose proof (a_shapes _ _ _ _ Hok) as Hs.
  split_and!.
  - intros u v Hd. pose proof (analyzed_state _ _ _ _ Hok (dep_lt_l _ _ _ Hd)) as Hu.
    apply (edge_dep _ _ _ _ Hwf Hs) in Hd.
    destruct (e_topo _ HE _ _ Hu Hd) as (Hv & i & j & a & Ha & Hin & Hw & Hij).
    assert (writer (abs sc') (slot (abs sc') u) i) as Hwu by (by exists a).
    exists i, j. split_and!; [done|done|].
    destruct Hij as [?|[-> _]]; [by left|right]. split; [done|].
    apply (reach_dep _ _ _ _ Hwf Hs). by eapply (e_scc _ HE).
  - intros u v i j Hu Hv Hwu Hwv Hord Hnr.
    pose proof (analyzed_state _ _ _ _ Hok Hu) as Hau.
    pose proof (analyzed_state _ _ _ _ Hok Hv) as Hav.
    destruct (Nat.lt_trichotomy i j) as [?|[->|Hlt]]; [done| |]; exfalso; apply Hnr;
      apply (reach_dep _ _ _ _ Hwf Hs).
    + by eapply (e_scc _ HE).
    + by eapply (e_tie _ HE).
  - intros i ph ms' id b Hi Hid Hb. by eapply (e_stmt _ HE).
Qed.

(** A program with mutual recursion, data that depends on data, and a
    statement. *)
Definition sample : Abstract_Definition :=
  program [data "a" ["b"]; func "f" ["a"; "g"]; func "g" ["f"]; data "b" [];
           stmt ["f"; "a"]].

Lemma C1_topological_order_witness :
  ∃ sc', run true sample = (Returns tt, sc') ∧
    (∀ u v, dep (unitary_defs sample) u v →
       ∃ i j, writer (abs sc') (slot (abs sc') u) i ∧
              writer (abs sc') (slot (abs sc') v) j ∧
              (j < i ∨ (j = i ∧ rtc (dep (unitary_defs sample)) v u))) ∧
    (∀ u v i j, u < length (unitary_defs sample) → v < length (unitary_defs sample) →
       writer (abs sc') (slot (abs sc') u) i → writer (abs sc') (slot (abs sc') v) j →
       ord (abs sc') u < ord (abs sc') v → ¬ rtc (dep (unitary_defs sample)) u v →
       i < j) ∧
    (∀ i ph ms' id b, actions_ sc' !! i = Some (Generic_Op ph ms') → id ∈ ph_ids ph →
       dictionary_ sc' !! atom_ id = Some b →
       ∃ j, j < i ∧ writer (abs sc') (slot_index_ b) j).
Proof.
  eexists. split; [vm_compute; reflexivity|].
  apply (C1_topological_order true no_parent sample tt false None 0 0).
  vm_compute; reflexivity.
Defined.

(** ** Every slot is written once *)

(** C6: after a successful analysis the actions write the slot of every
    unit exactly once.  [analyze_unit] on an initialized unit does nothing;
    a lookup of its name gives the reference to its slot and leaves the scope
    as it is; and the final pass does nothing for a unit that has been
    analyzed. *)
Theorem C6_written_once NDEBUG {Parent} parent_lookup def p tm ms fn fm
    (sc' : t Parent) :
  analyze NDEBUG parent_lookup def (new_scope p tm ms fn fm) = (Returns tt, sc') →
  (∀ i u, units_ sc' !! i = Some u →
     count_writes (slot_of (def_ u)) (actions_ sc') = 1) ∧
  length (units_ sc') = length (unitary_defs def) ∧
  (∀ fuel ui id (sc : t Parent) u,
     units_ sc !! ui = Some u → state_ u = k_analyzed →
     analyze_unit NDEBUG parent_lookup (S fuel) ui id sc = (Returns tt, sc)) ∧
  (∀ fuel id (sc : t Parent) b u,
     dictionary_ sc !! atom_ id = Some b → units_ sc !! unit_index_ b = Some u →
     state_ u = k_analyzed →
     single_lookup (analyze_unit NDEBUG parent_lookup (S fuel)) id sc
     = (Returns (Some (if target_is_module_ sc
                       then Indirect_Strict_Ref id (module_slot_ sc) (slot_index_ b)
                       else Let_Ref id (slot_index_ b))), sc)) ∧
  (∀ fuel ui (sc : t Parent) u,
     units_ sc !! ui = Some u → state_ u = k_analyzed →
     force_unit NDEBUG parent_lookup fuel ui sc = (Returns tt, sc)).
Proof.
  intros Hrun. pose proof (analyze_returns _ _ _ _ _ _ _ _ _ Hrun) as Hok.
  pose proof (a_ordered _ _ _ _ Hok) as HE. unfold Ordered in HE.
  assert (∀ fuel ui id (sc : t Parent) u,
            units_ sc !! ui = Some u → state_ u = k_analyzed →
            analyze_unit NDEBUG parent_lookup (S fuel) ui id sc = (Returns tt, sc))
    as Hidem.
  { intros fuel ui id sc u Hu Hst. simpl. unfold analyze_unit_step, bind, get_unit, bind.
    simpl. rewrite Hu. simpl. by rewrite Hst. }
  split_and!.
  - intros i u Hu. pose proof (e_written _ HE _ _ (abs_lookup _ _ _ _ Hu)) as Hc.
    simpl in Hc. rewrite (a_all _ _ _ _ Hok _ _ Hu) in Hc. by rewrite decide_True in Hc.
  - pose proof (f_equal length (a_shapes _ _ _ _ Hok)) as Hl.
    unfold shapes in Hl. by rewrite !length_fmap in Hl.
  - exact Hidem.
  - intros fuel id sc b u Hb Hu Hst. unfold single_lookup, bind, get.
    cbv beta iota. rewrite Hb. cbv beta iota.
    rewrite (Hidem _ _ _ _ _ Hu Hst). by destruct (target_is_module_ sc).
  - intros fuel ui sc u Hu Hst. unfold force_unit, bind, get_unit, bind. simpl.
    rewrite Hu. simpl. rewrite decide_False; [done|]. by rewrite Hst.
Qed.

Lemma C6_written_once_witness :
  ∃ sc', run true sample = (Returns tt, sc') ∧
    (∀ i u, units_ sc' !! i = Some u →
       count_writes (slot_of (def_ u)) (actions_ sc') = 1) ∧
    length (units_ sc') = 4.
Proof.
  eexists. split; [vm_compute; reflexivity|].
  pose proof (C6_written_once true no_parent sample tt false None 0 0 _
                ltac:(vm_compute; reflexivity)) as (H1 & H2 & _).
  split; [exact H1|exact H2].
Defined.


(** ** Data definitions that depend on themselves *)


Lemma bound_names {Parent} (sc' : t Parent) ds name :
  WF (abs sc') → shapes sc' = shape <$> ds → name ∈ def_names ds →
  is_Some (dictionary_ sc' !! name).
Proof.
  intros Hwf Hs Hin. unfold def_names in Hin.
  apply list_elem_of_fmap in Hin as (d & -> & Hd).
  apply list_elem_of_lookup in Hd as [i Hi].
  destruct (shapes_lookup_inv _ _ _ _ Hs Hi) as (u & Hu & Hsu).
  injection Hsu as _ Hn _.
  pose proof (wf_units _ Hwf _ _ (abs_lookup _ _ _ _ Hu)) as Hb. simpl in Hb.
  rewrite Hn in Hb. eauto.
Qed.

(** [x = y; y = x;] *)
Definition cyclic_data : Abstract_Definition :=
  program [data "x" ["y"]; data "y" ["x"]].



(** ** A unit completes below its parent *)

(** C3, amended: when the body of unit [ui] has been analyzed and unit [p]
    is then on top of the analysis stack, the lowlink of [p] is lowered to
    the lowlink of [ui] if that is smaller, and the analysis fails with
    "illegal recursive reference", at the reference [id] that led to [ui],
    exactly when it was lowered and [ui] itself is a data definition; the
    lowlink stays lowered in that case. *)
Theorem C3_propagate {Parent} ui id (sc : t Parent) u p pu A :
  analysis_stack_ sc = A ++ [p] → units_ sc !! ui = Some u → units_ sc !! p = Some pu →
  propagate ui id sc =
    if decide (scc_lowlink_ u < scc_lowlink_ pu)
    then (if is_data u
          then match id with
               | Some i => Fails (Throws (Illegal_recursive_reference i))
               | None => Fails Undefined_behaviour
               end
          else Returns tt,
          set_units (alter (set_lowlink (scc_lowlink_ u)) p (units_ sc)) sc)
    else (Returns tt, sc).
Proof.
  intros HA Hu Hp. unfold propagate, bind, get, back. cbv beta iota.
  rewrite HA, last_snoc. unfold get_unit, bind, get. cbv beta iota.
  rewrite Hu. cbv beta iota. unfold ret at 1. cbv beta iota.
  rewrite Hp. unfold ret at 1. cbv beta iota.
  destruct (decide (scc_lowlink_ u < scc_lowlink_ pu)); [|done].
  unfold update_unit, modify. cbv beta iota.
  destruct (is_data u); [|done]. by destruct id.
Qed.

(** A scope with the stacks, discovery numbers and lowlinks that the
    analysis of [f() = x; x = g(); g() = f();] has when the body of [g] has
    been analyzed: [f], [x] and [g] are in progress, and [g] has found [f]
    on the stack. *)
Definition below_data : Recursive_Scope.t unit :=
  set_analysis_stack [0; 1]
    (set_scc_stack [0; 1; 2]
       (set_scc_count 3
          (set_units
             [mkUnit (Function_Definition 0 (ident "f") 0
                        (mkLambda_Phrase 0 0 0 (mkPhrase 0 [ident "x"])) None)
                     k_analysis_in_progress 0 0 ∅;
              mkUnit (Data_Definition 0 (ident "x") 1 (mkPhrase 0 [ident "g"]) Nullptr)
                     k_analysis_in_progress 1 1 ∅;
              mkUnit (Function_Definition 0 (ident "g") 2
                        (mkLambda_Phrase 0 0 0 (mkPhrase 0 [ident "f"])) None)
                     k_analysis_in_progress 2 0 ∅]
             (new_scope tt false None 3 3)))).

Lemma C3_propagate_witness :
  ∃ sc', propagate 2 (Some (ident "g")) below_data = (Returns tt, sc') ∧
         scc_lowlink_ <$> units_ sc' = [0; 0; 0].
Proof.
  eexists. split.
  - rewrite (C3_propagate 2 (Some (ident "g")) below_data _ 1 _ [0]
               eq_refl eq_refl eq_refl).
    reflexivity.
  - reflexivity.
Defined.

(** C3 as stated does not hold.  In [f() = x; x = g(); g() = f();] unit
    [g], discovered third, completes below the data definition [x]: the
    lowlink of [x] becomes the lowlink 0 of [g] and not its discovery number
    2, and the analysis goes on although [x] is a data definition; it fails
    later, with "recursive data definition". *)
Lemma C3_counterexample :
  (∃ sc', propagate 2 (Some (ident "g")) below_data = (Returns tt, sc') ∧
          (scc_lowlink_ <$> units_ sc') !! 1 = Some 0 ∧
          (scc_ord_ <$> units_ sc') !! 2 = Some 2 ∧
          (is_data <$> units_ sc') !! 1 = Some true) ∧
  (∃ sc', run true (program [func "f" ["x"]; data "x" ["g"]; func "g" ["f"]])
          = (Fails (Throws (Recursive_data_definition 0)), sc') ∧
          (scc_lowlink_ <$> units_ sc') !! 1 = Some 0 ∧
          (scc_ord_ <$> units_ sc') !! 2 = Some 2 ∧
          (is_data <$> units_ sc') !! 1 = Some true).
Proof.
  split.
  - eexists. split; [vm_compute; reflexivity|]. by vm_compute.
  - eexists. split; [vm_compute; reflexivity|]. by vm_compute.
Qed.


(** ** Components *)

(** C4: at the root of a component, a data definition on top of the stack
    is retired with its own setter, and a function whose component has a data
    definition in it stops at "recursive data definition", which
    [make_function_setter] throws before any action is added; so do
    [x = 1;] and [f() = x; x = f();]. *)
Theorem C4_components NDEBUG {Parent} :
  (∀ (sc : t Parent) ui u K src name sl ph e,
     units_ sc !! ui = Some u → def_ u = Data_Definition src name sl ph e →
     scc_lowlink_ u = scc_ord_ u → scc_stack_ sc = K ++ [ui] →
     ∃ sc', output_component NDEBUG ui sc = (Returns tt, sc') ∧
            actions_ sc' = actions_ sc ++
              [match module_slot_ sc with
               | Some m => Module_Data_Setter src (Some m) sl e
               | None => Data_Setter src sl e false
               end] ∧
            scc_stack_ sc' = K ∧
            units_ sc' = alter (set_state k_analyzed) ui (units_ sc)) ∧
  (∀ (sc : t Parent) ui u K G' g w,
     units_ sc !! ui = Some u → is_data u = false →
     scc_lowlink_ u = scc_ord_ u → scc_stack_ sc = K ++ ui :: G' → ui ∉ K →
     (∀ g', g' ∈ G' → is_Some (units_ sc !! g')) →
     g ∈ G' → units_ sc !! g = Some w → is_data w = true →
     ∃ src, output_component NDEBUG ui sc
            = (Fails (Throws (Recursive_data_definition src)), sc)) ∧
  (∃ sc' e, run NDEBUG (program [data "x" []]) = (Returns tt, sc') ∧
            actions_ sc' = [Data_Setter 0 0 e false]) ∧
  (∃ sc', run NDEBUG (program [func "f" ["x"]; data "x" ["f"]])
          = (Fails (Throws (Recursive_data_definition 0)), sc') ∧
          actions_ sc' = []).
Proof.
  split_and!.
  - intros sc ui u K src name sl ph e Hu Hdef Hroot Hst.
    assert (wp (output_component NDEBUG ui)
              (λ _ sc', actions_ sc' = actions_ sc ++
                          [match module_slot_ sc with
                           | Some m => Module_Data_Setter src (Some m) sl e
                           | None => Data_Setter src sl e false
                           end] ∧
                        scc_stack_ sc' = K ∧
                        units_ sc' = alter (set_state k_analyzed) ui (units_ sc))
              (λ _ _, False) sc) as Hwp.
    { unfold output_component. apply wp_bind. eapply wp_get_unit; [exact Hu|].
      rewrite decide_True by done. apply wp_bind, wp_get.
      unfold is_data. rewrite Hdef. simpl. rewrite Hst. unfold back. rewrite last_snoc.
      apply wp_bind, wp_assert; [intros _|by intros ?%bool_decide_eq_false].
      destruct (K ++ [ui]) as [|k0 K0] eqn:HK; [by destruct K|]. rewrite <- HK.
      apply wp_bind, wp_modify. unfold update_unit. apply wp_bind, wp_modify.
      unfold pop_back. rewrite removelast_last.
      destruct (module_slot_ sc); apply wp_bind, wp_ret, wp_modify; done. }
    apply wp_returns_ex in Hwp as ([] & sc' & Hrun & HQ). eauto.
  - intros sc ui u K G' g w Hu Hdata Hroot Hst HniK Hvalid Hg Hw Hwd.
    assert (wp (output_component NDEBUG ui) (λ _ _, False)
              (λ f sc', sc' = sc ∧ ∃ src, f = Throws (Recursive_data_definition src))
              sc) as Hwp.
    { unfold output_component. apply wp_bind. eapply wp_get_unit; [exact Hu|].
      rewrite decide_True by done. apply wp_bind, wp_get. rewrite Hdata.
      rewrite Hst, (scan_spec _ _ _ HniK), list_lookup_middle by done.
      rewrite drop_app_length.
      destruct (units_of_group _ sc (ui :: G')) as [us Hus].
      { intros g' [->|?]%elem_of_cons; [eauto|by apply Hvalid]. }
      apply wp_bind. eapply wp_mono; [by apply make_function_setter_spec| |done].
      intros op sc' (_ & _ & _ & Hfun). exfalso.
      assert (g ∈ ui :: G') as Hg' by (by right).
      apply list_elem_of_lookup in Hg' as [k Hk].
      destruct (Forall2_lookup_l _ _ _ _ _ Hus Hk) as (w' & Hw' & Hgw).
      rewrite Hw in Hgw. injection Hgw as <-.
      pose proof (Forall_lookup_1 _ _ _ _ Hfun Hw') as Hf. simpl in Hf. congruence. }
    apply wp_fails_ex in Hwp as (f & sc' & Hrun & -> & src & ->). eauto.
  - destruct NDEBUG; eexists _, _; (split; [vm_compute; reflexivity|reflexivity]).
  - destruct NDEBUG; eexists; (split; [vm_compute; reflexivity|reflexivity]).
Qed.


(** A data definition that is the root of its component, and a function
    with a data definition above it on the stack. *)
Definition unit_x : Unit :=
  mkUnit (Data_Definition 0 (ident "x") 0 (mkPhrase 0 [])
            (Generic_Op (mkPhrase 0 []) []))
         k_analysis_in_progress 0 0 ∅.

Definition lone_data : Recursive_Scope.t unit :=
  set_scc_stack [0] (set_units [unit_x] (new_scope tt false None 1 1)).

Definition unit_f : Unit :=
  mkUnit (Function_Definition 0 (ident "f") 0
            (mkLambda_Phrase 0 0 0 (mkPhrase 0 [ident "x"])) None)
         k_analysis_in_progress 0 0 ∅.

Definition unit_x_of_f : Unit :=
  mkUnit (Data_Definition 5 (ident "x") 1 (mkPhrase 0 [ident "f"]) Nullptr)
         k_analysis_in_progress 1 0 ∅.

Definition function_over_data : Recursive_Scope.t unit :=
  set_scc_stack [0; 1]
    (set_units [unit_f; unit_x_of_f] (new_scope tt false None 2 2)).

Lemma C4_components_witness :
  (∃ sc', output_component true 0 lone_data = (Returns tt, sc') ∧
          actions_ sc' = [Data_Setter 0 0 (Generic_Op (mkPhrase 0 []) []) false] ∧
          scc_stack_ sc' = [] ∧
          state_ <$> units_ sc' = [k_analyzed]) ∧
  (∃ src, output_component true 0 function_over_data
          = (Fails (Throws (Recursive_data_definition src)), function_over_data)).
Proof.
  destruct (C4_components true (Parent := unit)) as (H1 & H2 & _). split.
  - destruct (H1 lone_data 0 unit_x [] 0 (ident "x") 0 (mkPhrase 0 [])
                (Generic_Op (mkPhrase 0 []) []) eq_refl eq_refl eq_refl eq_refl)
      as (sc' & Hrun & Ha & Hs & Hu).
    exists sc'. split_and!; [done|done|done|by rewrite Hu].
  - apply (H2 function_over_data 0 unit_f [] [1] 1 unit_x_of_f
             eq_refl eq_refl eq_refl eq_refl).
    + apply not_elem_of_nil.
    + intros g' ->%list_elem_of_singleton. by eexists.
    + by left.
    + reflexivity.
    + reflexivity.
Defined.

(** ** The grouped setter of a function component *)

Definition lambda_of (d : Unitary_Definition) : option Lambda :=
  match d with
  | Function_Definition _ _ _ _ l => l
  | Data_Definition _ _ _ _ _ => None
  end.

(** The slot of the shared nonlocals that holds a member function. *)
Definition member_constant (d : Unitary_Definition) : Meaning :=
  match d with
  | Function_Definition _ _ _ lp l => Constant (lam_loc lp) (Lambda_Value l)
  | Data_Definition _ _ _ _ _ => Nullptr
  end.

Definition member_name (u : Unit) : string := atom_ (name_of (def_ u)).

Definition enter_function (e : Enumeration) (u : Unit) : Enumeration :=
  enter (member_name u) (member_constant (def_ u)) e.

(** An enumeration numbers its names with the positions of its
    expressions. *)
Record EnumOK (e : Enumeration) : Prop := {
  ok_len : next_slot e = length (nonlocal_exprs e);
  ok_lt : ∀ name s, nonlocal_dictionary e !! name = Some s → s < next_slot e;
  ok_inj : ∀ n1 n2 s, nonlocal_dictionary e !! n1 = Some s →
                      nonlocal_dictionary e !! n2 = Some s → n1 = n2;
  ok_surj : ∀ s, s < next_slot e → ∃ name, nonlocal_dictionary e !! name = Some s
}.

Lemma EnumOK_empty : EnumOK (mkEnumeration ∅ [] 0).
Proof. split; simpl; try done. intros s Hs. lia. Qed.

Lemma EnumOK_enter name expr e :
  EnumOK e → nonlocal_dictionary e !! name = None → EnumOK (enter name expr e).
Proof.
  intros [Hlen Hlt Hinj Hsurj] Hnone. split; simpl.
  - unfold push_back. rewrite length_app. simpl. lia.
  - intros n s [[<- <-]|[_ Hn]]%lookup_insert_Some; [lia|].
    pose proof (Hlt _ _ Hn). lia.
  - intros n1 n2 s [[<- <-]|[? H1]]%lookup_insert_Some
                   [[<- Heq]|[? H2]]%lookup_insert_Some; try done.
    + pose proof (Hlt _ _ H2). lia.
    + pose proof (Hlt _ _ H1). lia.
    + by eapply Hinj.
  - intros s Hs. destruct (decide (s = next_slot e)) as [->|Hne].
    + exists name. by rewrite lookup_insert_eq.
    + destruct (Hsurj s) as [n Hn]; [lia|]. exists n.
      rewrite lookup_insert_ne; [done|]. intros <-. exact (lookup_None_Some _ _ _ Hnone Hn).
Qed.

Lemma enter_functions_fold us funs e :
  Forall (λ u, is_data u = false) us →
  enter_functions us funs e
  = inr (funs ++ ((λ u, (slot_of (def_ u), lambda_of (def_ u))) <$> us),
         foldl enter_function e us).
Proof.
  intros Hf. revert funs e. induction Hf as [|u us Hu _ IH]; intros funs e; simpl.
  - by rewrite app_nil_r.
  - unfold is_data in Hu. unfold enter_function at 2, member_name.
    destruct (def_ u) as [|src name sl lp l]; [done|]. simpl.
    rewrite IH. unfold push_back. by rewrite <- app_assoc.
Qed.

Lemma functions_spec us : ∀ e,
  EnumOK e → NoDup (member_name <$> us) →
  (∀ u, u ∈ us → nonlocal_dictionary e !! member_name u = None) →
  EnumOK (foldl enter_function e us) ∧
  nonlocal_exprs (foldl enter_function e us)
  = nonlocal_exprs e ++ ((λ u, member_constant (def_ u)) <$> us) ∧
  (∀ k u, us !! k = Some u →
     nonlocal_dictionary (foldl enter_function e us) !! member_name u
     = Some (next_slot e + k)) ∧
  (∀ name s, nonlocal_dictionary (foldl enter_function e us) !! name = Some s →
     nonlocal_dictionary e !! name = Some s ∨ name ∈ member_name <$> us) ∧
  (∀ name s, nonlocal_dictionary e !! name = Some s →
     nonlocal_dictionary (foldl enter_function e us) !! name = Some s) ∧
  next_slot (foldl enter_function e us) = next_slot e + length us.
Proof.
  induction us as [|u us IH]; intros e Hok Hnd Hfresh; simpl.
  - split_and!; rewrite ?app_nil_r; try done; auto with lia.
  - apply NoDup_cons in Hnd as [Hu Hnd].
    assert (nonlocal_dictionary e !! member_name u = None) as Hnone
      by (apply Hfresh; by left).
    pose proof (EnumOK_enter (member_name u) (member_constant (def_ u)) e Hok Hnone)
      as Hok1. fold (enter_function e u) in Hok1.
    destruct (IH (enter_function e u) Hok1 Hnd) as (H1 & H2 & H3 & H4 & H5 & H6).
    { intros w Hw. unfold enter_function at 1, enter. simpl.
      rewrite lookup_insert_ne; [apply Hfresh; by right|].
      intros Heq. apply Hu. rewrite Heq. by apply list_elem_of_fmap_2. }
    split_and!.
    + done.
    + rewrite H2. unfold enter_function at 1, enter, push_back. simpl.
      by rewrite <- app_assoc.
    + intros [|k] w Hw; simpl in Hw.
      * injection Hw as <-. rewrite Nat.add_0_r. apply H5.
        unfold enter_function, enter. simpl. by rewrite lookup_insert_eq.
      * rewrite (H3 _ _ Hw). unfold enter_function at 1, enter. simpl. f_equal. lia.
    + intros name s Hs. destruct (H4 _ _ Hs) as [Hin|Hin].
      * unfold enter_function at 1, enter in Hin. simpl in Hin.
        apply lookup_insert_Some in Hin as [[<- _]|[_ ?]]; [right; by left|by left].
      * right. by right.
    + intros name s Hs. apply H5. unfold enter_function, enter. simpl.
      rewrite lookup_insert_ne; [done|]. intros <-. exact (lookup_None_Some _ _ _ Hnone Hs).
    + rewrite H6. unfold enter_function at 1, enter. simpl. lia.
Qed.

Lemma captures_spec (l : list (string * Meaning)) : ∀ e,
  EnumOK e →
  EnumOK (foldl enter_capture e l) ∧
  (∀ name s, nonlocal_dictionary e !! name = Some s →
     nonlocal_dictionary (foldl enter_capture e l) !! name = Some s) ∧
  nonlocal_exprs e `prefix_of` nonlocal_exprs (foldl enter_capture e l) ∧
  (∀ b, b ∈ l → is_Some (nonlocal_dictionary (foldl enter_capture e l) !! b.1)) ∧
  (∀ name s, nonlocal_dictionary (foldl enter_capture e l) !! name = Some s →
     nonlocal_dictionary e !! name = Some s ∨
     (next_slot e ≤ s ∧
      ∃ m, (name, m) ∈ l ∧ nonlocal_exprs (foldl enter_capture e l) !! s = Some m)).
Proof.
  induction l as [|b l IH]; intros e Hok; simpl.
  - split_and!; try done; [by intros b ?%elem_of_nil|auto].
  - assert (EnumOK (enter_capture e b) ∧
            (∀ name s, nonlocal_dictionary e !! name = Some s →
               nonlocal_dictionary (enter_capture e b) !! name = Some s) ∧
            nonlocal_exprs e `prefix_of` nonlocal_exprs (enter_capture e b) ∧
            is_Some (nonlocal_dictionary (enter_capture e b) !! b.1) ∧
            next_slot e ≤ next_slot (enter_capture e b) ∧
            (∀ name s, nonlocal_dictionary (enter_capture e b) !! name = Some s →
               nonlocal_dictionary e !! name = Some s ∨
               (s = next_slot e ∧ name = b.1 ∧
                nonlocal_exprs (enter_capture e b) !! s = Some b.2)))
      as (Hok1 & Hkeep1 & Hpre1 & Hin1 & Hle1 & Hnew1).
    { unfold enter_capture. case_decide as Hd.
      - split_and!; try done. auto.
      - apply eq_None_not_Some in Hd. split_and!.
        + by apply EnumOK_enter.
        + intros name s Hs. simpl. rewrite lookup_insert_ne; [done|].
          intros <-. exact (lookup_None_Some _ _ _ Hd Hs).
        + simpl. by apply prefix_app_r.
        + simpl. rewrite lookup_insert_eq. eauto.
        + simpl. lia.
        + intros name s Hs. simpl in Hs.
          apply lookup_insert_Some in Hs as [[<- <-]|[_ ?]]; [right|by left].
          split_and!; [done|done|]. simpl. unfold push_back.
          rewrite (ok_len _ Hok). by apply list_lookup_middle. }
    destruct (IH _ Hok1) as (H1 & H2 & H3 & H4 & H5).
    split_and!.
    + done.
    + auto.
    + by etrans.
    + intros b' [->|Hb']%elem_of_cons; [|by apply H4].
      destruct Hin1 as [s Hs]. rewrite (H2 _ _ Hs). eauto.
    + intros name s Hs. destruct (H5 _ _ Hs) as [Hold|(Hle & m & Hm & Hex)].
      * destruct (Hnew1 _ _ Hold) as [?|(-> & -> & Hex)]; [by left|right].
        split; [done|]. exists b.2. split; [destruct b; by left|].
        eapply prefix_lookup_Some; [exact Hex|exact H3].
      * right. split; [lia|]. exists m. split; [by right|done].
Qed.

Lemma foldl_enter_captures us : ∀ e,
  foldl enter_captures e us
  = foldl enter_capture e (us ≫= captures_in_order).
Proof.
  induction us as [|u us IH]; intros e; [done|].
  simpl. rewrite foldl_app. by rewrite IH.
Qed.

Lemma elem_of_captures_in_order u name m :
  (name, m) ∈ captures_in_order u ↔ nonlocals_ u !! name = Some m.
Proof.
  unfold captures_in_order. rewrite merge_sort_Permutation.
  apply elem_of_map_to_list.
Qed.

Lemma elem_of_captures us name m :
  (name, m) ∈ (us ≫= captures_in_order) ↔
  ∃ u, u ∈ us ∧ nonlocals_ u !! name = Some m.
Proof.
  rewrite list_elem_of_bind. split.
  - intros (u & Hin & Hu). exists u. split; [done|].
    by apply elem_of_captures_in_order in Hin.
  - intros (u & Hu & Hin). exists u. split; [|done].
    by apply elem_of_captures_in_order.
Qed.

(** The captures of a unit are visited in the increasing order of their
    names, each name once. *)
Lemma captures_in_order_sorted u :
  Sorted atom_le (captures_in_order u).*1 ∧ NoDup (captures_in_order u).*1.
Proof.
  assert (Sorted capture_le (captures_in_order u)) as Hs.
  { apply Sorted_merge_sort. intros a b. unfold capture_le, atom_le.
    destruct (String.leb_total a.1 b.1); auto. }
  split.
  - induction Hs as [|b l _ IH Hb]; simpl; constructor; [done|].
    destruct Hb; simpl; by constructor.
  - unfold captures_in_order. rewrite merge_sort_Permutation.
    apply NoDup_fst_map_to_list.
Qed.

(** [pop_component] leaves the actions as they are, however it ends. *)
Lemma pop_component_actions NDEBUG {Parent} n ui : ∀ sc : t Parent,
  wp (pop_component NDEBUG n ui) (λ _ sc', actions_ sc' = actions_ sc)
     (λ _ sc', actions_ sc' = actions_ sc) sc.
Proof.
  assert (∀ (k : M (t Parent) unit) (sc : t Parent),
            (∀ s, actions_ s = actions_ sc →
               wp k (λ _ sc', actions_ sc' = actions_ sc)
                    (λ _ sc', actions_ sc' = actions_ sc) s) →
            wp (let* sc0 := get in
                let* _ := assert_ NDEBUG 227 (bool_decide (0 < length (scc_stack_ sc0))) in
                match back (scc_stack_ sc0) with
                | None => undefined
                | Some u0 =>
                    let* _ := modify (set_scc_stack (pop_back (scc_stack_ sc0))) in
                    let* popped := get_unit u0 in
                    let* unit := get_unit ui in
                    let* _ := assert_ NDEBUG 230
                                (bool_decide (scc_ord_ popped = scc_ord_ unit)) in
                    let* _ := update_unit u0 (set_state k_analyzed) in
                    if decide (u0 = ui) then ret tt else k
                end)
               (λ _ sc', actions_ sc' = actions_ sc)
               (λ _ sc', actions_ sc' = actions_ sc) sc) as Hstep.
  { intros k sc Hk. apply wp_bind, wp_get. apply wp_bind, wp_assert; [intros _|done].
    destruct (back (scc_stack_ sc)) as [u0|]; [|by apply wp_fail].
    apply wp_bind, wp_modify. apply wp_bind. unfold get_unit at 1.
    apply wp_bind, wp_get. simpl.
    destruct (units_ sc !! u0) as [popped|]; [apply wp_ret|by apply wp_fail].
    apply wp_bind. unfold get_unit at 1. apply wp_bind, wp_get. simpl.
    destruct (units_ sc !! ui) as [unit|]; [apply wp_ret|by apply wp_fail].
    apply wp_bind, wp_assert; [intros _|done].
    apply wp_bind, wp_modify. destruct (decide (u0 = ui)); [by apply wp_ret|].
    by apply Hk. }
  induction n as [|n IH]; intros sc; simpl.
  - apply Hstep. intros s Hs. by apply wp_fail.
  - apply Hstep. intros s Hs. rewrite <- Hs. apply IH.
Qed.



(** A component of one unit is retired in any build. *)
Lemma pop_component_single NDEBUG {Parent} n K ui (sc : t Parent) :
  scc_stack_ sc = K ++ [ui] → is_Some (units_ sc !! ui) →
  wp (pop_component NDEBUG n ui) (λ _ _, True) (λ _ _, False) sc.
Proof.
  intros Hst [u Hu].
  assert (wp (let* sc0 := get in
              let* _ := assert_ NDEBUG 227 (bool_decide (0 < length (scc_stack_ sc0))) in
              match back (scc_stack_ sc0) with
              | None => undefined
              | Some u0 =>
                  let* _ := modify (set_scc_stack (pop_back (scc_stack_ sc0))) in
                  let* popped := get_unit u0 in
                  let* unit := get_unit ui in
                  let* _ := assert_ NDEBUG 230
                              (bool_decide (scc_ord_ popped = scc_ord_ unit)) in
                  let* _ := update_unit u0 (set_state k_analyzed) in
                  if decide (u0 = ui) then ret tt
                  else match n with
                       | 0 => out_of_fuel
                       | S n' => pop_component NDEBUG n' ui
                       end
              end) (λ _ _, True) (λ _ _, False) sc) as H.
  { apply wp_bind, wp_get. apply wp_bind, wp_assert.
    2:{ rewrite Hst, length_app. simpl. intros ?%bool_decide_eq_false. lia. }
    intros _. unfold back. rewrite Hst, last_snoc.
    apply wp_bind, wp_modify. apply wp_bind. eapply wp_get_unit; [exact Hu|].
    apply wp_bind. eapply wp_get_unit; [exact Hu|].
    apply wp_bind, wp_assert; [intros _|by intros ?%bool_decide_eq_false].
    apply wp_bind, wp_modify. rewrite decide_True by done. by apply wp_ret. }
  by destruct n.
Qed.


(** C5, amended: for a group of function units with distinct names,
    [make_function_setter] returns one [Function_Setter] for the slots of the
    members, in the order of the group.  Its shared nonlocals hold first the
    lambdas of the members as constants, member [k] in slot [k] under its
    name; then the captures of the members under the names that are not
    names of members, each name in one slot of its own, with an expression
    that a member captured under that name.  At the root of such a component
    [output_component] emits this setter and nothing else, in every build;
    it then retires every member, or, only in a build with assertions and
    only for a component of more than one member, stops at the assertion of
    line 230. *)
Theorem C5_grouped_setter {Parent} (sc : t Parent) (G : list nat) (us : list Unit) :
  Forall2 (λ g u, units_ sc !! g = Some u) G us →
  Forall (λ u, is_data u = false) us →
  NoDup (member_name <$> us) →
  (∃ src d exprs,
     make_function_setter G sc
     = (Returns (Function_Setter src (module_slot_ sc) (Enum_Module_Expr src d exprs)
                   ((λ u, (slot_of (def_ u), lambda_of (def_ u))) <$> us)), sc) ∧
     take (length us) exprs = (λ u, member_constant (def_ u)) <$> us ∧
     (∀ k u, us !! k = Some u → d !! member_name u = Some k) ∧
     (∀ name, is_Some (d !! name) ↔
              name ∈ member_name <$> us ∨ ∃ u, u ∈ us ∧ is_Some (nonlocals_ u !! name)) ∧
     (∀ name s, d !! name = Some s → length us ≤ s →
        ∃ u m, u ∈ us ∧ nonlocals_ u !! name = Some m ∧ exprs !! s = Some m) ∧
     (∀ n1 n2 s, d !! n1 = Some s → d !! n2 = Some s → n1 = n2) ∧
     (∀ s, s < length exprs ↔ ∃ name, d !! name = Some s)) ∧
  (∀ NDEBUG ui u K G', G = ui :: G' → units_ sc !! ui = Some u →
     scc_lowlink_ u = scc_ord_ u → scc_stack_ sc = K ++ ui :: G' →
     ui ∉ K → ui ∉ G' →
     ∃ op o sc', make_function_setter G sc = (Returns op, sc) ∧
                 output_component NDEBUG ui sc = (o, sc') ∧
                 actions_ sc' = actions_ sc ++ [op] ∧
                 ((o = Returns tt ∧ scc_stack_ sc' = K ∧
                   units_ sc' = foldr (alter (set_state k_analyzed)) (units_ sc) G) ∨
                  (o = Fails (Assertion_failed 230) ∧ NDEBUG = false ∧ G' ≠ []))).
Proof.
  intros HG Hfun Hnd.
  pose proof (functions_spec us _ EnumOK_empty Hnd) as (Hok1 & Hex1 & Hk1 & Hin1 & _ & Hn1).
  { intros u _. apply lookup_empty. }
  set (e1 := foldl enter_function (mkEnumeration ∅ [] 0) us) in *.
  pose proof (captures_spec (us ≫= captures_in_order) e1 Hok1)
    as (Hok2 & Hkeep2 & Hpre2 & Hcov2 & Hnew2).
  rewrite <- foldl_enter_captures in Hok2, Hkeep2, Hpre2, Hcov2, Hnew2.
  set (e2 := foldl enter_captures e1 us) in *.
  simpl in Hex1, Hn1, Hk1.
  assert (∃ src, make_function_setter G sc
            = (Returns (Function_Setter src (module_slot_ sc)
                          (Enum_Module_Expr src (nonlocal_dictionary e2)
                             (nonlocal_exprs e2))
                          ((λ u, (slot_of (def_ u), lambda_of (def_ u))) <$> us)), sc))
    as [src Hrun].
  { unfold make_function_setter, bind, get. cbv beta iota.
    rewrite (mapM_get_unit _ _ _ _ HG). cbv beta iota.
    rewrite (enter_functions_fold _ _ _ Hfun). simpl. eauto. }
  split.
  - exists src, (nonlocal_dictionary e2), (nonlocal_exprs e2).
    split_and!.
    + exact Hrun.
    + destruct Hpre2 as [k Hk]. rewrite Hk, Hex1.
      rewrite take_app_length'; [done|]. by rewrite length_fmap.
    + intros k u Hu. apply Hkeep2. exact (Hk1 _ _ Hu).
    + intros name. split.
      * intros [s Hs]. destruct (Hnew2 _ _ Hs) as [Hold|(_ & m & Hm & _)].
        -- destruct (Hin1 _ _ Hold) as [Hemp|?]; [|by left].
           exfalso. exact (lookup_None_Some _ _ _ (lookup_empty _) Hemp).
        -- right. apply elem_of_captures in Hm as (u & Hu & Hm). eauto.
      * intros [Hin|(u & Hu & m & Hm)].
        -- apply list_elem_of_fmap in Hin as (u & -> & Hu).
           apply list_elem_of_lookup in Hu as [k Hk].
           exists k. apply Hkeep2. exact (Hk1 _ _ Hk).
        -- apply (Hcov2 (name, m)). apply elem_of_captures. eauto.
    + intros name s Hs Hle. destruct (Hnew2 _ _ Hs) as [Hold|(_ & m & Hm & Hex)].
      * pose proof (ok_lt _ Hok1 _ _ Hold). lia.
      * apply elem_of_captures in Hm as (u & Hu & Hm). eauto.
    + apply (ok_inj _ Hok2).
    + intros s. rewrite <- (ok_len _ Hok2). split; [apply (ok_surj _ Hok2)|].
      intros [name Hs]. by eapply (ok_lt _ Hok2).
  - intros NDEBUG ui u K G' -> Hu Hroot Hst HniK HniG.
    assert (∀ g, g ∈ ui :: G' → is_Some (units_ sc !! g)) as Hvalid.
    { intros g Hg. apply list_elem_of_lookup in Hg as [k Hk].
      destruct (Forall2_lookup_l _ _ _ _ _ HG Hk) as (w & _ & Hw). eauto. }
    assert (is_data u = false) as Hdata.
    { inversion HG as [|? w ? ? Hw _]; subst. inversion Hfun; subst.
      rewrite Hu in Hw. by injection Hw as <-. }
    set (op := Function_Setter src (module_slot_ sc)
                 (Enum_Module_Expr src (nonlocal_dictionary e2) (nonlocal_exprs e2))
                 ((λ u, (slot_of (def_ u), lambda_of (def_ u))) <$> us)) in Hrun.
    assert (wp (output_component NDEBUG ui)
              (λ _ sc', actions_ sc' = actions_ sc ++ [op] ∧ scc_stack_ sc' = K ∧
                        units_ sc' = foldr (alter (set_state k_analyzed)) (units_ sc)
                                       (ui :: G'))
              (λ f sc', actions_ sc' = actions_ sc ++ [op] ∧
                        f = Assertion_failed 230 ∧ NDEBUG = false ∧ G' ≠ []) sc) as Hwp.
    { unfold output_component. apply wp_bind. eapply wp_get_unit; [exact Hu|].
      rewrite decide_True by done. apply wp_bind, wp_get. rewrite Hdata.
      rewrite Hst, (scan_spec _ _ _ HniK), list_lookup_middle by done.
      rewrite drop_app_length.
      apply wp_bind. unfold wp at 1. rewrite Hrun.
      apply wp_bind, wp_modify.
      match goal with |- wp _ _ _ ?s => set (s3 := s) end.
      assert (wp (pop_component NDEBUG (length (K ++ ui :: G')) ui)
                (λ _ _, True) (λ _ _, G' ≠ []) s3) as Hmany.
      { destruct G' as [|g G'].
        - eapply wp_mono; [apply (pop_component_single NDEBUG _ K ui s3 Hst);
                             apply Hvalid; by left|done|done].
        - eapply wp_mono; [apply (pop_component_actions NDEBUG _ ui s3)|done|done]. }
      eapply wp_mono;
        [apply (wp_conj _ _ _ _ _ _
                  (wp_conj _ _ _ _ _ _
                     (pop_component_spec NDEBUG Parent G' (length (K ++ ui :: G')) K ui s3
                        Hst ltac:(rewrite length_app; simpl; lia) HniG Hvalid)
                     (pop_component_actions NDEBUG (length (K ++ ui :: G')) ui s3))
                  Hmany)| |].
      - intros [] s4 [[(Hst4 & Hun4 & _) Hact4] _].
        split_and!; [exact Hact4|done|exact Hun4].
      - intros f s4 [[[-> HN] Hact4] HG']. split_and!; [exact Hact4|done|done|done]. }
    unfold wp in Hwp.
    destruct (output_component NDEBUG ui sc) as [[[]|f] sc'] eqn:Hrun'.
    + destruct Hwp as (Ha & Hs & Hun).
      exists op, (Returns tt), sc'. split_and!; [exact Hrun|done|exact Ha|]. by left.
    + destruct Hwp as (Ha & -> & HN & HG').
      exists op, (Fails (Assertion_failed 230)), sc'.
      split_and!; [exact Hrun|done|exact Ha|]. by right.
Qed.


(** An enclosing environment that defines every name as a variable of its
    own. *)
Definition op_parent (id : Identifier) (p : unit) : option Meaning * unit :=
  (Some (Let_Ref id 7), p).

(** The scope after the analysis of [f() = g() + y + x; g() = f() + y;],
    and that scope with the two units back on the stack of components, as
    they are when the analysis of [f] gets to its root. *)
Definition mutual_state : Recursive_Scope.t unit :=
  (analyze true op_parent (program [func "f" ["g"; "y"; "x"]; func "g" ["f"; "y"]])
     (new_scope tt false None 0 0)).2.

Definition mutual_units : list Unit := Eval vm_compute in units_ mutual_state.

Definition at_root : Recursive_Scope.t unit := set_scc_stack [0; 1] mutual_state.

Lemma C5_grouped_setter_witness :
  (∃ src d exprs,
     make_function_setter [0; 1] at_root
     = (Returns (Function_Setter src None (Enum_Module_Expr src d exprs)
                   ((λ u, (slot_of (def_ u), lambda_of (def_ u))) <$> mutual_units)),
        at_root) ∧
     take 2 exprs = (λ u, member_constant (def_ u)) <$> mutual_units ∧
     d !! "f"%string = Some 0 ∧ d !! "g"%string = Some 1 ∧
     d !! "x"%string = Some 2 ∧ d !! "y"%string = Some 3 ∧
     exprs !! 2 = Some (Let_Ref (ident "x") 7) ∧
     exprs !! 3 = Some (Let_Ref (ident "y") 7) ∧
     length exprs = 4) ∧
  (∃ op sc', output_component true 0 at_root = (Returns tt, sc') ∧
             actions_ sc' = actions_ at_root ++ [op] ∧ scc_stack_ sc' = []) ∧
  (∃ op sc', output_component false 0 at_root = (Fails (Assertion_failed 230), sc') ∧
             actions_ sc' = actions_ at_root ++ [op]).
Proof.
  destruct (C5_grouped_setter at_root [0; 1] mutual_units) as [Hset Hout].
  - repeat constructor; vm_compute; reflexivity.
  - repeat constructor.
  - apply (bool_decide_unpack _). vm_compute. reflexivity.
  - assert (∃ u, units_ at_root !! 0 = Some u ∧ scc_lowlink_ u = scc_ord_ u)
      as (u0 & Hu0 & Hroot) by (eexists; split; vm_compute; reflexivity).
    split_and!.
    + destruct Hset as (src & d & exprs & Hrun & Htake & Hmem & _).
      exists src, d, exprs. split; [exact Hrun|]. split; [exact Htake|].
      split; [exact (Hmem 0 _ eq_refl)|]. split; [exact (Hmem 1 _ eq_refl)|].
      vm_compute in Hrun. injection Hrun; intros; subst.
      split_and!; vm_compute; reflexivity.
    + destruct (Hout true 0 u0 [] [1]) as (op & o & sc' & _ & Hrun & Hact & Hcase);
        [reflexivity|exact Hu0|exact Hroot|reflexivity
        |apply not_elem_of_nil|by intros ?%list_elem_of_singleton|].
      destruct Hcase as [(-> & Hs & _)|(_ & ? & _)]; [|done].
      exists op, sc'. split_and!; done.
    + destruct (Hout false 0 u0 [] [1]) as (op & o & sc' & _ & Hrun & Hact & Hcase);
        [reflexivity|exact Hu0|exact Hroot|reflexivity
        |apply not_elem_of_nil|by intros ?%list_elem_of_singleton|].
      pose proof (f_equal fst Hrun) as Ho. vm_compute in Ho. subst o.
      exists op, sc'. split; done.
Defined.

(** C5 as stated does not hold for its example: in [f() = g() + 1; g() = 2;]
    only [f] depends on [g], the two functions are two components, and the
    analysis emits two setters, that of [g] first. *)
Lemma C5_counterexample :
  (∃ sc' s1 n1 l1 s2 n2 l2,
     run true (program [func "f" ["g"]; func "g" []]) = (Returns tt, sc') ∧
     actions_ sc' = [Function_Setter s1 None n1 [(1, l1)];
                     Function_Setter s2 None n2 [(0, l2)]]) ∧
  (∃ sc' s1 n1 l1 s2 n2 l2,
     run false (program [func "f" ["g"]; func "g" []]) = (Returns tt, sc') ∧
     actions_ sc' = [Function_Setter s1 None n1 [(1, l1)];
                     Function_Setter s2 None n2 [(0, l2)]]).
Proof.
  split; eexists _, _, _, _, _, _, _; (split; [vm_compute; reflexivity|reflexivity]).
Qed.


(** ** The environment of a function body *)

(** C7, amended: every lookup in the environment of a function body asks
    the enclosing scope.  A constant is returned as it is and nothing is
    captured; another operation is stored in the captures of the unit under
    the name, in place of what was stored under that name, and a symbolic
    reference is returned; a meaning that is not an operation is returned as
    it is; a failure of the enclosing scope is passed on. *)
Theorem C7_function_environ {Parent} parent_lookup rec ui id (sc : t Parent) :
  (∀ m sc1, lookup parent_lookup rec id sc = (Returns m, sc1) →
     Function_Environ_single_lookup parent_lookup rec ui id sc
     = if isa_Constant m then (Returns m, sc1)
       else if isa_Operation m then
         (Returns (Symbolic_Ref id),
          set_units (alter (λ u, set_nonlocals (<[atom_ id := m]> (nonlocals_ u)) u)
                           ui (units_ sc1)) sc1)
       else (Returns m, sc1)) ∧
  (∀ f sc1, lookup parent_lookup rec id sc = (Fails f, sc1) →
     Function_Environ_single_lookup parent_lookup rec ui id sc = (Fails f, sc1)) ∧
  (∀ m sc1 u, lookup parent_lookup rec id sc = (Returns m, sc1) →
     isa_Constant m = false → isa_Operation m = true → units_ sc1 !! ui = Some u →
     ∃ sc2 u2,
       Function_Environ_single_lookup parent_lookup rec ui id sc
       = (Returns (Symbolic_Ref id), sc2) ∧
       units_ sc2 !! ui = Some u2 ∧
       nonlocals_ u2 !! atom_ id = Some m ∧
       (∀ name, name ≠ atom_ id → nonlocals_ u2 !! name = nonlocals_ u !! name) ∧
       (∀ j, j ≠ ui → units_ sc2 !! j = units_ sc1 !! j)).
Proof.
  assert (∀ m sc1, lookup parent_lookup rec id sc = (Returns m, sc1) →
     Function_Environ_single_lookup parent_lookup rec ui id sc
     = if isa_Constant m then (Returns m, sc1)
       else if isa_Operation m then
         (Returns (Symbolic_Ref id),
          set_units (alter (λ u, set_nonlocals (<[atom_ id := m]> (nonlocals_ u)) u)
                           ui (units_ sc1)) sc1)
       else (Returns m, sc1)) as Hmain.
  { intros m sc1 Hl. unfold Function_Environ_single_lookup, bind. rewrite Hl.
    destruct (isa_Constant m); [done|]. by destruct (isa_Operation m). }
  split_and!.
  - exact Hmain.
  - intros f sc1 Hl. unfold Function_Environ_single_lookup, bind. by rewrite Hl.
  - intros m sc1 u Hl Hc Ho Hu. rewrite (Hmain _ _ Hl), Hc, Ho.
    eexists _, _. split; [done|]. simpl. split_and!.
    + by rewrite list_lookup_alter_eq, Hu.
    + simpl. by rewrite lookup_insert_eq.
    + intros name Hne. simpl. by rewrite lookup_insert_ne.
    + intros j Hne. by rewrite list_lookup_alter_ne.
Qed.

(** A function in whose body [y], a variable of the enclosing environment,
    is looked up. *)
Definition in_function : Recursive_Scope.t unit :=
  set_analysis_stack [0]
    (set_units
       [mkUnit (Function_Definition 0 (ident "f") 0
                  (mkLambda_Phrase 0 0 0 (mkPhrase 0 [ident "y"])) None)
               k_analysis_in_progress 0 0 ∅]
       (new_scope tt false None 1 1)).

Lemma C7_function_environ_witness :
  Function_Environ_single_lookup op_parent (analyze_unit true op_parent 1) 0
    (ident "y") in_function
  = (Returns (Symbolic_Ref (ident "y")),
     set_units
       [mkUnit (Function_Definition 0 (ident "f") 0
                  (mkLambda_Phrase 0 0 0 (mkPhrase 0 [ident "y"])) None)
               k_analysis_in_progress 0 0 {[ "y"%string := Let_Ref (ident "y") 7 ]}]
       in_function).
Proof.
  destruct (C7_function_environ op_parent (analyze_unit true op_parent 1) 0
              (ident "y") in_function) as (H & _ & _).
  rewrite (H (Let_Ref (ident "y") 7) in_function); [|vm_compute; reflexivity].
  vm_compute. reflexivity.
Defined.

(** An enclosing environment that counts how often it is asked. *)
Definition counting_parent (id : Identifier) (n : nat) : option Meaning * nat :=
  (Some (Let_Ref id 7), S n).

(** C7 as stated does not hold: in [f() = y + y;] the outer name [y] is
    resolved at each of its two references, so the enclosing environment is
    asked twice; the captures of [f] have the one entry for [y]. *)
Lemma C7_counterexample :
  ∃ sc' u,
    analyze true counting_parent (program [func "f" ["y"; "y"]])
      (new_scope 0 false None 0 0) = (Returns tt, sc') ∧
    parent_ sc' = 2 ∧
    units_ sc' !! 0 = Some u ∧
    map_to_list (nonlocals_ u) = [("y"%string, Let_Ref (ident "y") 7)].
Proof.
  eexists _, _. split; [vm_compute; reflexivity|].
  split; [reflexivity|]. split; [reflexivity|]. vm_compute. reflexivity.
Qed.


(** ** The slots of a module *)

(** C10: when the target is a module, [add_binding] of a new name returns
    the size of the dictionary and binds the name to it, in both scopes;
    after the successful analysis of a definition in a scope that started
    empty, the published module dictionary maps the name of the [i]-th
    unitary definition to [i] and holds nothing else, so it is a bijection
    between the names and the slots below their number; in a recursive scope
    the slot of a binding is also the number of its unit. *)
Theorem C10_module_slots :
  (∀ (Parent : Type) name unitno (sc : Sequential_Scope.t Parent),
     Sequential_Scope.target_is_module_ sc = true →
     Sequential_Scope.dictionary_ sc !! atom_ name = None →
     Sequential_Scope.add_binding name unitno sc
     = (Returns (size (Sequential_Scope.dictionary_ sc)),
        Sequential_Scope.set_dictionary
          (<[atom_ name := size (Sequential_Scope.dictionary_ sc)]>
             (Sequential_Scope.dictionary_ sc)) sc)) ∧
  (∀ (Parent : Type) name unitno (sc : Recursive_Scope.t Parent),
     target_is_module_ sc = true → dictionary_ sc !! atom_ name = None →
     add_binding name unitno sc
     = (Returns (size (dictionary_ sc)),
        set_dictionary
          (<[atom_ name := mkBinding (size (dictionary_ sc)) unitno]> (dictionary_ sc))
          sc)) ∧
  (∀ NDEBUG (Parent : Type) parent_lookup def (sc sc' : Sequential_Scope.t Parent),
     Sequential_Scope.target_is_module_ sc = true →
     Sequential_Scope.dictionary_ sc = ∅ →
     Sequential_Scope.analyze NDEBUG parent_lookup def sc = (Returns tt, sc') →
     ∃ d, Sequential_Scope.module_dictionary_ sc' = Some d ∧
          numbered (def_names (unitary_defs def)) d) ∧
  (∀ NDEBUG (Parent : Type) parent_lookup def p ms fn fm (sc' : Recursive_Scope.t Parent),
     analyze NDEBUG parent_lookup def (new_scope p true ms fn fm) = (Returns tt, sc') →
     ∃ d, module_dictionary_ sc' = Some d ∧
          numbered (def_names (unitary_defs def)) d ∧
          ∀ name b, dictionary_ sc' !! name = Some b →
                    d !! name = Some (slot_index_ b) ∧ slot_index_ b = unit_index_ b) ∧
  (∃ sc' d, analyze true no_parent (program [data "b" ["a"]; data "a" []])
              (new_scope tt true (Some 0) 0 0) = (Returns tt, sc') ∧
            module_dictionary_ sc' = Some d ∧
            d !! "b"%string = Some 0 ∧ d !! "a"%string = Some 1 ∧ size d = 2).
Proof.
  split_and!.
  - intros Parent name unitno sc Htm Hnone.
    unfold Sequential_Scope.add_binding, bind, get. cbv beta iota.
    rewrite decide_False by (rewrite Hnone; by intros [? ?]). by rewrite Htm.
  - intros Parent name unitno sc Htm Hnone.
    unfold add_binding, bind, get. cbv beta iota.
    rewrite decide_False by (rewrite Hnone; by intros [? ?]). by rewrite Htm.
  - intros NDEBUG Parent parent_lookup def sc sc' Htm Hd Hrun.
    pose proof (wp_returns _ _ _ _ _ _
                  (seq_analyze_spec NDEBUG Parent parent_lookup def sc Htm Hd) Hrun)
      as [Hmd Hn]. eauto.
  - intros NDEBUG Parent parent_lookup def p ms fn fm sc' Hrun.
    pose proof (analyze_returns _ _ _ _ _ _ _ _ _ Hrun) as Hok.
    pose proof (a_ordered _ _ _ _ Hok) as HE. unfold Ordered in HE.
    pose proof (e_wf _ HE) as Hwf. pose proof (a_shapes _ _ _ _ Hok) as Hs.
    pose proof (a_target _ _ _ _ Hok) as Htm.
    destruct (a_module _ _ _ _ Hok Htm) as [Hmd Hslots].
    assert (∀ name b, dictionary_ sc' !! name = Some b →
              slot_index_ b = unit_index_ b ∧
              def_names (unitary_defs def) !! unit_index_ b = Some name) as Hb.
    { intros name b Hb. destruct (wf_dict _ Hwf _ _ Hb) as (v & Hv & Hname & Hslot).
      apply abs_lookup_inv in Hv as (u & Hu & ->). simpl in Hname, Hslot.
      pose proof (Hslots _ _ Hu) as Hi. split; [congruence|].
      destruct (shapes_lookup _ _ _ _ Hs Hu) as (dfn & Hdfn & Hsh).
      injection Hsh as _ Hnm _. unfold def_names.
      rewrite list_lookup_fmap, Hdfn. simpl. by rewrite Hnm, Hname. }
    exists (slot_index_ <$> dictionary_ sc'). split_and!.
    + done.
    + split.
      * intros i name Hi. unfold def_names in Hi. rewrite list_lookup_fmap in Hi.
        destruct (unitary_defs def !! i) as [dfn|] eqn:Hdfn; [|done].
        injection Hi as <-.
        destruct (shapes_lookup_inv _ _ _ _ Hs Hdfn) as (u & Hu & Hsh).
        injection Hsh as _ Hnm _.
        pose proof (wf_units _ Hwf _ _ (abs_lookup _ _ _ _ Hu)) as Hbi. simpl in Hbi.
        rewrite lookup_fmap, <- Hnm, Hbi. simpl. f_equal. by apply Hslots.
      * intros name s Hs'. rewrite lookup_fmap in Hs'.
        destruct (dictionary_ sc' !! name) as [b|] eqn:Hbn; [|done].
        injection Hs' as <-. destruct (Hb _ _ Hbn) as [-> ?]. done.
      * rewrite map_size_fmap, (a_size _ _ _ _ Hok). unfold def_names.
        by rewrite length_fmap.
    + intros name b Hbn. destruct (Hb _ _ Hbn) as [? _]. split; [|done].
      by rewrite lookup_fmap, Hbn.
  - eexists _, _. split; [vm_compute; reflexivity|].
    split; [reflexivity|]. split_and!; vm_compute; reflexivity.
Qed.

End Properties.

(** * What a sequential scope emits *)

Module Sequential_Scope_Order.
Import Sequential_Scope Recursive_Scope_Correct Sequential_Scope_Correct.

(** The bare statements and the unitary definitions of a definition, in the
    order in which [add_to_scope] meets them. *)
Inductive Element :=
| Statement (ph : Phrase)
| Defines (d : Unitary_Definition).

Fixpoint elements (def : Abstract_Definition) : list Element :=
  match def with
  | Unitary _ d => [Defines d]
  | Compound _ _ es =>
      (fix each (es : list (Phrase * option Abstract_Definition)) :=
         match es with
         | [] => []
         | (ph, None) :: es' => Statement ph :: each es'
         | (_, Some d) :: es' => elements d ++ each es'
         end) es
  end.

(** The identifiers that the analysis of an element looks up. *)
Definition el_ids (el : Element) : list Identifier :=
  match el with
  | Statement ph => ph_ids ph
  | Defines d => ids_of d
  end.

(** The name an element binds. *)
Definition el_name (el : Element) : option string :=
  match el with
  | Statement _ => None
  | Defines d => Some (atom_ (name_of d))
  end.

Definition names (els : list Element) : list string := omap el_name els.

(** The reference to a slot of the scope. *)
Definition local_ref (tm : bool) (ms : option slot_t) (id : Identifier) (slot : slot_t)
  : Meaning :=
  if tm then Indirect_Strict_Ref id ms slot else Let_Ref id slot.

(** [Data_Definition::make_setter] as a value. *)
Definition data_setter (ms : option slot_t) (src : Location) (slot : slot_t)
    (e : Meaning) : Meaning :=
  match ms with
  | Some m => Module_Data_Setter src (Some m) slot e
  | None => Data_Setter src slot e false
  end.

(** The meanings that an emitted action keeps of the references of its
    element. *)
Definition meanings_of (op : Meaning) : list Meaning :=
  match op with
  | Generic_Op _ ms => ms
  | Data_Setter _ _ (Generic_Op _ ms) _ => ms
  | Module_Data_Setter _ _ _ (Generic_Op _ ms) => ms
  | _ => []
  end.

Lemma make_setter_data {S} NDEBUG src n slot ph e ms :
  make_setter (S := S) NDEBUG (Data_Definition src n slot ph e) ms
  = ret (data_setter ms src slot e).
Proof. by destruct ms. Qed.

Section Sequential.
Variable NDEBUG : bool.
Variable Parent : Type.
Variable parent_lookup : Identifier → Parent → option Meaning * Parent.
Local Abbreviation St := (Sequential_Scope.t Parent).

Variable tm : bool.
Variable ms : option slot_t.

(** What a reference means where the dictionary is [D]: the slot that [D]
    binds the name to, or what the enclosing environment says. *)
Definition resolved (D : gmap string slot_t) (id : Identifier) (m : Meaning) : Prop :=
  match D !! atom_ id with
  | Some slot => m = local_ref tm ms id slot
  | None => ∃ p, (parent_lookup id p).1 = Some m
  end.

Definition analyzed (D : gmap string slot_t) (ph : Phrase) (e : Meaning) : Prop :=
  ∃ ms', e = Generic_Op ph ms' ∧ Forall2 (resolved D) (ph_ids ph) ms'.

(** The action of one element and what it does to the dictionary. *)
Definition emits (D : gmap string slot_t) (el : Element) (op : Meaning)
    (D' : gmap string slot_t) : Prop :=
  match el with
  | Statement ph => analyzed D ph op ∧ D' = D
  | Defines (Data_Definition src n _ ph _) =>
      D !! atom_ n = None ∧
      ∃ slot e, analyzed D ph e ∧ op = data_setter ms src slot e ∧
                D' = <[atom_ n := slot]> D ∧ (tm = true → slot = size D)
  | Defines (Function_Definition src n _ lp _) =>
      NDEBUG = true ∧ op = Nullptr ∧ D !! atom_ n = None ∧
      ∃ slot, D' = <[atom_ n := slot]> D
  end.

Fixpoint emits_all (D : gmap string slot_t) (els : list Element) (ops : list Meaning)
    (D' : gmap string slot_t) : Prop :=
  match els, ops with
  | [], [] => D' = D
  | el :: els', op :: ops' => ∃ D1, emits D el op D1 ∧ emits_all D1 els' ops' D'
  | _, _ => False
  end.

(** How the registration of an element fails where the dictionary is [D]. *)
Definition fails_at (D : gmap string slot_t) (el : Element) (f : Failure) : Prop :=
  match f with
  | Throws (Not_defined id) =>
      id ∈ el_ids el ∧ D !! atom_ id = None ∧ ∃ p, (parent_lookup id p).1 = None
  | Throws (Multiply_defined n) => el_name el = Some n ∧ is_Some (D !! n)
  | Assertion_failed line =>
      line = 56 ∧ NDEBUG = false ∧
      ∃ d, el = Defines d ∧ is_data_def d = false ∧ D !! atom_ (name_of d) = None
  | _ => False
  end.

(** The first [k] elements have been registered and element [k] fails. *)
Definition fails_in (D : gmap string slot_t) (els : list Element) (ops : list Meaning)
    (f : Failure) : Prop :=
  ∃ k el D1, els !! k = Some el ∧ emits_all D (take k els) ops D1 ∧ fails_at D1 el f.

Lemma emits_all_app D els1 ops1 D1 els2 ops2 D2 :
  emits_all D els1 ops1 D1 → emits_all D1 els2 ops2 D2 →
  emits_all D (els1 ++ els2) (ops1 ++ ops2) D2.
Proof.
  revert D ops1. induction els1 as [|el els1 IH]; intros D [|op ops1]; simpl; try done.
  - by intros ->.
  - intros (D' & He & Hall) H2. exists D'. split; [done|]. by apply IH.
Qed.

Lemma emits_all_length D els ops D' : emits_all D els ops D' → length ops = length els.
Proof.
  revert D ops. induction els as [|el els IH]; intros D [|op ops]; simpl; try done.
  intros (D1 & _ & H). f_equal. by eapply IH.
Qed.

Lemma fails_in_l D els1 els2 ops f :
  fails_in D els1 ops f → fails_in D (els1 ++ els2) ops f.
Proof.
  intros (k & el & D1 & Hk & Hall & Hf). exists k, el, D1.
  pose proof (lookup_lt_Some _ _ _ Hk) as Hlt.
  split_and!; [by apply lookup_app_l_Some| |done].
  rewrite take_app_le by lia. done.
Qed.

Lemma fails_in_r D els1 ops1 D1 els2 ops2 f :
  emits_all D els1 ops1 D1 → fails_in D1 els2 ops2 f →
  fails_in D (els1 ++ els2) (ops1 ++ ops2) f.
Proof.
  intros H1 (k & el & D2 & Hk & Hall & Hf). exists (length els1 + k), el, D2.
  split_and!; [| |done].
  - rewrite lookup_app_r by lia. by replace (length els1 + k - length els1) with k by lia.
  - rewrite take_app_add. by eapply emits_all_app.
Qed.

(** *** Lookups *)

(** What a lookup leaves alone: everything but the state of the enclosing
    environments. *)
Definition moved (sc sc' : St) : Prop := ∃ p, sc' = set_parent p sc.

Lemma moved_refl sc : moved sc sc.
Proof. exists (parent_ sc). by destruct sc. Qed.

Lemma moved_trans sc1 sc2 sc3 : moved sc1 sc2 → moved sc2 sc3 → moved sc1 sc3.
Proof. intros [p ->] [q ->]. by exists q. Qed.

Definition unresolved (D : gmap string slot_t) (ids : list Identifier) (f : Failure)
  : Prop :=
  ∃ id, f = Throws (Not_defined id) ∧ id ∈ ids ∧ D !! atom_ id = None ∧
        ∃ p, (parent_lookup id p).1 = None.

Lemma seq_lookup_resolved id (sc : St) :
  target_is_module_ sc = tm → module_slot_ sc = ms →
  wp (lookup parent_lookup id)
     (λ m sc', resolved (dictionary_ sc) id m ∧ moved sc sc')
     (λ f sc', unresolved (dictionary_ sc) [id] f ∧ moved sc sc') sc.
Proof.
  intros Htm Hms. unfold lookup, Environ_lookup. apply wp_bind. unfold single_lookup.
  apply wp_bind, wp_get. unfold resolved, local_ref.
  destruct (dictionary_ sc !! atom_ id) as [slot|] eqn:Hd.
  - rewrite Htm, Hms. destruct tm; apply wp_ret, wp_ret; (split; [done|apply moved_refl]).
  - apply wp_ret. unfold wp, parent_chain_lookup.
    destruct (parent_lookup id (parent_ sc)) as [[m|] p'] eqn:Hp; simpl.
    + split; [|by eexists]. exists (parent_ sc). by rewrite Hp.
    + split; [|by eexists]. exists id. split_and!; [done|by left|done|].
      exists (parent_ sc). by rewrite Hp.
Qed.

Lemma seq_mapM_resolved ids : ∀ (sc : St),
  target_is_module_ sc = tm → module_slot_ sc = ms →
  wp (mapM (lookup parent_lookup) ids)
     (λ ms' sc', Forall2 (resolved (dictionary_ sc)) ids ms' ∧ moved sc sc')
     (λ f sc', unresolved (dictionary_ sc) ids f ∧ moved sc sc') sc.
Proof.
  induction ids as [|id ids IH]; intros sc Htm Hms; simpl.
  - apply wp_ret. split; [constructor|apply moved_refl].
  - apply wp_bind. eapply wp_mono; [by apply seq_lookup_resolved| |].
    + intros m s1 [Hm [p ->]]. simpl. apply wp_bind.
      eapply wp_mono; [by apply IH| |].
      * intros ms' s2 [Hms' [q ->]]. apply wp_ret. split; [by constructor|by exists q].
      * intros f s2 [(i & -> & Hi & Hnone & Hp) [q ->]]. split; [|by exists q].
        exists i. split_and!; [done|by right|done|done].
    + intros f s1 [(i & -> & Hi & Hnone & Hp) Hmv]. split; [|done].
      apply list_elem_of_singleton in Hi as ->.
      exists id. split_and!; [done|by left|done|done].
Qed.

Lemma seq_analyze_op_resolved ph (sc : St) :
  target_is_module_ sc = tm → module_slot_ sc = ms →
  wp (analyze_op (lookup parent_lookup) ph)
     (λ e sc', analyzed (dictionary_ sc) ph e ∧ moved sc sc')
     (λ f sc', unresolved (dictionary_ sc) (ph_ids ph) f ∧ moved sc sc') sc.
Proof.
  intros Htm Hms. unfold analyze_op. apply wp_bind.
  eapply wp_mono; [by apply seq_mapM_resolved| |done].
  intros ms' s1 [H1 H2]. apply wp_ret. split; [|done]. by exists ms'.
Qed.

(** *** One element *)

(** The state after an element: its action has been appended, and the
    dictionary is the one the element leaves. *)
Definition stepped (sc : St) (ops : list Meaning) (D' : gmap string slot_t) (sc' : St)
  : Prop :=
  actions_ sc' = actions_ sc ++ ops ∧ dictionary_ sc' = D' ∧
  target_is_module_ sc' = tm ∧ module_slot_ sc' = ms ∧
  module_dictionary_ sc' = module_dictionary_ sc.

Lemma seq_statement_spec ph (sc : St) :
  target_is_module_ sc = tm → module_slot_ sc = ms →
  wp (Sequential_Scope.add_action parent_lookup ph)
     (λ _ sc', ∃ op, emits (dictionary_ sc) (Statement ph) op (dictionary_ sc') ∧
                     stepped sc [op] (dictionary_ sc') sc')
     (λ f sc', fails_at (dictionary_ sc) (Statement ph) f ∧
               stepped sc [] (dictionary_ sc) sc') sc.
Proof.
  intros Htm Hms. unfold Sequential_Scope.add_action. apply wp_bind.
  eapply wp_mono; [by apply seq_analyze_op_resolved| |].
  - intros e s1 [He [p ->]]. apply wp_modify. exists e. simpl. split; [done|].
    by split_and!.
  - intros f s1 [(i & -> & Hi & Hnone & Hp) [p ->]]. simpl. split; [done|].
    split_and!; try done. by rewrite app_nil_r.
Qed.

Lemma seq_unitary_emits d (sc : St) :
  target_is_module_ sc = tm → module_slot_ sc = ms →
  wp (Unitary_add_to_scope (H := scope NDEBUG parent_lookup) d)
     (λ _ sc', ∃ op, emits (dictionary_ sc) (Defines d) op (dictionary_ sc') ∧
                     stepped sc [op] (dictionary_ sc') sc')
     (λ f sc', fails_at (dictionary_ sc) (Defines d) f ∧
               actions_ sc' = actions_ sc ∧
               target_is_module_ sc' = tm ∧ module_slot_ sc' = ms) sc.
Proof.
  intros Htm Hms. unfold Unitary_add_to_scope. simpl. apply wp_bind.
  unfold Sequential_Scope.begin_unit. apply wp_bind.
  assert (wp (Definition_analyze NDEBUG (lookup parent_lookup) d)
            (λ d' sc', moved sc sc' ∧
               match d with
               | Data_Definition src n sl ph _ =>
                   ∃ e, analyzed (dictionary_ sc) ph e ∧ d' = Data_Definition src n sl ph e
               | Function_Definition src n sl lp _ =>
                   ∃ l, d' = Function_Definition src n sl lp l
               end)
            (λ f sc', unresolved (dictionary_ sc) (ids_of d) f ∧ moved sc sc') sc) as Han.
  { destruct d as [src n sl ph e0|src n sl lp l0]; simpl.
    - apply wp_bind. eapply wp_mono; [by apply seq_analyze_op_resolved| |done].
      intros e s1 [He Hmv]. apply wp_ret. split; [done|]. by exists e.
    - apply wp_bind. unfold analyze_lambda. apply wp_bind.
      eapply wp_mono; [by apply seq_analyze_op_resolved| |done].
      intros e s1 [He Hmv]. apply wp_ret, wp_ret. split; [done|]. by eexists. }
  eapply wp_mono; [exact Han| |].
  2:{ intros f s1 [(i & -> & Hi & Hnone & Hp) [p ->]]. simpl. done. }
  intros d' s1 [[p ->] Hd']. apply wp_ret. simpl.
  assert (name_of d' = name_of d) as Hname.
  { destruct d; [destruct Hd' as (? & _ & ->)|destruct Hd' as (? & ->)]; done. }
  rewrite Hname. apply wp_bind. unfold Sequential_Scope.add_binding.
  apply wp_bind, wp_get. simpl.
  destruct (decide (is_Some (dictionary_ sc !! atom_ (name_of d)))) as [Hin|Hout].
  { unfold throw. apply wp_fail. simpl. done. }
  apply eq_None_not_Some in Hout.
  assert (∀ slot (s2 : St),
            actions_ s2 = actions_ sc → dictionary_ s2 = dictionary_ sc →
            target_is_module_ s2 = tm → module_slot_ s2 = ms →
            module_dictionary_ s2 = module_dictionary_ sc →
            (tm = true → slot = size (dictionary_ sc)) →
            wp (Sequential_Scope.end_unit NDEBUG 0 (set_slot slot d'))
               (λ _ sc', ∃ op, emits (dictionary_ sc) (Defines d) op (dictionary_ sc') ∧
                               stepped sc [op] (dictionary_ sc') sc')
               (λ f sc', fails_at (dictionary_ sc) (Defines d) f ∧
                         actions_ sc' = actions_ sc ∧
                         target_is_module_ sc' = tm ∧ module_slot_ sc' = ms)
               (set_dictionary (<[atom_ (name_of d) := slot]> (dictionary_ s2)) s2))
    as Hrest.
  { intros slot s2 Ha Hd Ht Hm Hmd Hslot.
    unfold Sequential_Scope.end_unit. apply wp_bind, wp_get. simpl. apply wp_bind.
    rewrite Hm. rewrite Hd.
    destruct d as [src n sl ph e0|src n sl lp l0].
    - destruct Hd' as (e & He & ->). unfold set_slot. rewrite make_setter_data.
      apply wp_ret, wp_modify. exists (data_setter ms src slot e). simpl. split.
      + split; [done|]. exists slot, e. done.
      + unfold stepped. simpl. unfold push_back. rewrite Ha. done.
    - destruct Hd' as (l & ->). simpl. apply wp_bind.
      destruct NDEBUG eqn:HN.
      + apply wp_ret, wp_ret, wp_modify. exists Nullptr. simpl. split.
        * split_and!; [done|done|done|]. by exists slot.
        * unfold stepped. simpl. unfold push_back. rewrite Ha. done.
      + apply wp_fail. simpl. split_and!; try done. by eexists. }
  apply wp_bind. destruct (target_is_module_ sc) eqn:Ht.
  - apply wp_ret, wp_bind, wp_modify, wp_ret.
    apply (Hrest (size (dictionary_ sc)) (set_parent p sc)); try done; simpl; congruence.
  - unfold make_slot. apply wp_bind, wp_get, wp_bind, wp_modify, wp_ret.
    apply wp_bind, wp_modify, wp_ret.
    match goal with |- wp _ _ _ (set_dictionary _ ?s) =>
      apply (Hrest (frame_nslots_ (set_parent p sc)) s); try done; simpl; congruence end.
Qed.

(** *** The whole definition *)

Lemma stepped_trans sc ops1 D1 s1 ops2 D2 s2 :
  stepped sc ops1 D1 s1 → stepped s1 ops2 D2 s2 → stepped sc (ops1 ++ ops2) D2 s2.
Proof.
  intros (H1 & H2 & H3 & H4 & H5) (K1 & K2 & K3 & K4 & K5).
  split_and!; try done; try congruence. by rewrite K1, H1, app_assoc.
Qed.

Definition seq_failed (sc : St) (els : list Element) (f : Failure) (sc' : St) : Prop :=
  ∃ ops, fails_in (dictionary_ sc) els ops f ∧ actions_ sc' = actions_ sc ++ ops ∧
         target_is_module_ sc' = tm ∧ module_slot_ sc' = ms.

Lemma seq_add_to_scope_emits : ∀ def (sc : St),
  target_is_module_ sc = tm → module_slot_ sc = ms →
  wp (add_to_scope (H := scope NDEBUG parent_lookup) def)
     (λ _ sc', ∃ ops, emits_all (dictionary_ sc) (elements def) ops (dictionary_ sc') ∧
                      stepped sc ops (dictionary_ sc') sc')
     (seq_failed sc (elements def)) sc.
Proof.
  fix IH 1. intros [k d|k src es] sc Htm Hms.
  - simpl. eapply wp_mono; [by apply seq_unitary_emits| |].
    + intros [] sc' (op & He & Hst). exists [op]. split; [|done]. simpl. eauto.
    + intros f sc' (Hf & Ha & Ht & Hm). exists []. split_and!; try done.
      * exists 0, (Defines d), (dictionary_ sc). done.
      * by rewrite app_nil_r.
  - simpl. revert sc Htm Hms. induction es as [|[ph [d|]] es IHes]; intros sc Htm Hms.
    + apply wp_ret. exists []. split; [done|]. split_and!; try done. by rewrite app_nil_r.
    + apply wp_bind. eapply wp_mono; [by apply IH| |].
      * intros [] s1 (ops1 & He1 & Hst1). simpl.
        pose proof Hst1 as (_ & Hd1 & Ht1 & Hm1 & _).
        eapply wp_mono; [by apply IHes| |].
        -- intros [] s2 (ops2 & He2 & Hst2). exists (ops1 ++ ops2). split.
           ++ by eapply emits_all_app.
           ++ by eapply stepped_trans.
        -- intros f s2 (ops2 & Hf & Ha2 & Ht2 & Hm2).
           exists (ops1 ++ ops2). split_and!; try done.
           ++ by eapply fails_in_r.
           ++ destruct Hst1 as (Ha1 & _). by rewrite Ha2, Ha1, app_assoc.
      * intros f s1 (ops1 & Hf & Ha1 & Ht1 & Hm1). exists ops1. split_and!; try done.
        by apply fails_in_l.
    + apply wp_bind. eapply wp_mono; [by apply seq_statement_spec| |].
      * intros [] s1 (op & He1 & Hst1). simpl.
        pose proof Hst1 as (_ & Hd1 & Ht1 & Hm1 & _).
        eapply wp_mono; [by apply IHes| |].
        -- intros [] s2 (ops2 & He2 & Hst2). exists ([op] ++ ops2). split.
           ++ simpl. eauto.
           ++ by eapply stepped_trans.
        -- intros f s2 (ops2 & Hf & Ha2 & Ht2 & Hm2).
           exists ([op] ++ ops2). split_and!; try done.
           ++ apply (fails_in_r _ [Statement ph] [op] (dictionary_ s1)); [|done].
              simpl. eauto.
           ++ destruct Hst1 as (Ha1 & _). by rewrite Ha2, Ha1, app_assoc.
      * intros f s1 (Hf & Hst1). destruct Hst1 as (Ha1 & Hd1 & Ht1 & Hm1 & _).
        exists []. split_and!; try done.
        exists 0, (Statement ph), (dictionary_ sc). done.
Qed.

(** The frame size goes to the enclosing environment, and a module gets the
    dictionary. *)
Definition published (sc' : St) : Prop :=
  parent_frame_maxslots_ sc' = frame_maxslots_ sc' ∧
  (tm = true → module_dictionary_ sc' = Some (dictionary_ sc')).

Lemma seq_analyze_emits def (sc : St) :
  target_is_module_ sc = tm → module_slot_ sc = ms →
  wp (analyze NDEBUG parent_lookup def)
     (λ _ sc', ∃ ops, emits_all (dictionary_ sc) (elements def) ops (dictionary_ sc') ∧
                      actions_ sc' = actions_ sc ++ ops ∧ published sc')
     (λ f sc', (f = Assertion_failed 73 ∧ NDEBUG = false ∧
                def_kind def ≠ k_sequential ∧ sc' = sc) ∨
               (seq_failed sc (elements def) f sc' ∧
                (NDEBUG = true ∨ def_kind def = k_sequential))) sc.
Proof.
  intros Htm Hms. unfold analyze. apply wp_bind, wp_assert.
  2:{ intros Hk HN. left. split_and!; try done. by apply bool_decide_eq_false in Hk. }
  intros Hk. assert (NDEBUG = true ∨ def_kind def = k_sequential) as Hk'.
  { destruct Hk as [Hk|Hk]; [right|by left]. by apply bool_decide_eq_true in Hk. }
  apply wp_bind. eapply wp_mono; [by apply seq_add_to_scope_emits| |].
  2:{ intros f sc' Hf. right. done. }
  intros [] s1 (ops & He & Ha & Hd & Ht & Hm & Hmd). simpl.
  apply wp_bind, wp_modify, wp_bind, wp_get. simpl. rewrite Ht.
  destruct (target_is_module_ sc) eqn:Htm'.
  - rewrite <- Htm. apply wp_modify. exists ops. simpl. split_and!; try done.
  - rewrite <- Htm. apply wp_ret. exists ops. simpl. split_and!; try done.
    split; [done|]. intros Ht'. congruence.
Qed.

(** *** The dictionary along the elements *)

Lemma emits_grows D el op D' : emits D el op D' → D ⊆ D'.
Proof.
  destruct el as [ph|[src n sl ph e|src n sl lp l]]; simpl.
  - by intros [_ ->].
  - intros (Hnone & slot & e' & _ & _ & -> & _). by apply insert_subseteq.
  - intros (_ & _ & Hnone & slot & ->). by apply insert_subseteq.
Qed.

Lemma emits_all_grows D els ops D' : emits_all D els ops D' → D ⊆ D'.
Proof.
  revert D ops. induction els as [|el els IH]; intros D [|op ops]; simpl; try done.
  - by intros ->.
  - intros (D1 & He & Hall). etrans; [by eapply emits_grows|by eapply IH].
Qed.

Lemma emits_bound D el op D' n :
  emits D el op D' → is_Some (D' !! n) ↔ is_Some (D !! n) ∨ el_name el = Some n.
Proof.
  assert (∀ (nm : string) (slot : slot_t),
            is_Some (<[nm := slot]> D !! n) ↔ is_Some (D !! n) ∨ Some nm = Some n) as Hins.
  { intros nm slot. destruct (decide (nm = n)) as [->|Hne].
    - rewrite lookup_insert_eq. split; [by right|eauto].
    - rewrite lookup_insert_ne by done. split; [by left|]. intros [?|[=]]; done. }
  destruct el as [ph|[src nm sl ph e|src nm sl lp l]]; simpl.
  - intros [_ ->]. split; [by left|]. by intros [?|?].
  - intros (Hnone & slot & e' & _ & _ & -> & _). apply Hins.
  - intros (_ & _ & Hnone & slot & ->). apply Hins.
Qed.

Lemma emits_all_bound D els ops D' n :
  emits_all D els ops D' → is_Some (D' !! n) ↔ is_Some (D !! n) ∨ n ∈ names els.
Proof.
  revert D ops. induction els as [|el els IH]; intros D [|op ops]; simpl; try done.
  - intros ->. split; [by left|]. intros [?|Hn]; [done|]. by apply elem_of_nil in Hn.
  - intros (D1 & He & Hall). rewrite (IH _ _ Hall), (emits_bound _ _ _ _ n He).
    unfold names. simpl. destruct (el_name el) as [nm|] eqn:Hnm.
    + rewrite elem_of_cons. split.
      * intros [[?|[= ->]]|?]; auto.
      * intros [?|[->|?]]; auto.
    + split.
      * intros [[?|[=]]|?]; auto.
      * intros [?|?]; auto.
Qed.

(** Element [k], between the elements before and after it. *)
Lemma emits_all_lookup D els ops D' k el op :
  emits_all D els ops D' → els !! k = Some el → ops !! k = Some op →
  ∃ Dk Dk', emits_all D (take k els) (take k ops) Dk ∧ emits Dk el op Dk' ∧ Dk' ⊆ D'.
Proof.
  revert D ops k. induction els as [|e els IH]; intros D [|o ops] [|k]; simpl; try done.
  - intros (D1 & He & Hall) [= ->] [= ->]. exists D, D1. split_and!; [done|done|].
    by eapply emits_all_grows.
  - intros (D1 & He & Hall) Hel Hop.
    destruct (IH _ _ _ Hall Hel Hop) as (Dk & Dk' & H1 & H2 & H3).
    exists Dk, Dk'. split_and!; [|done|done]. eauto.
Qed.

End Sequential.

Arguments resolved {Parent}.
Arguments analyzed {Parent}.
Arguments emits NDEBUG {Parent}.
Arguments emits_all NDEBUG {Parent}.
Arguments fails_at NDEBUG {Parent}.
Arguments fails_in NDEBUG {Parent}.

(** ** The actions of a sequential scope *)

(** The names that a scope has bound when element [k] of [els] is
    registered: those it had at the start and those of the definitions before
    the element. *)
Definition bound_before {Parent} (sc : t Parent) (els : list Element) (k : nat)
    (n : string) : Prop :=
  is_Some (dictionary_ sc !! n) ∨ n ∈ names (take k els).

Lemma names_app els1 els2 : names (els1 ++ els2) = names els1 ++ names els2.
Proof. unfold names. by rewrite omap_app. Qed.

Lemma names_fresh els k el n :
  NoDup (names els) → els !! k = Some el → el_name el = Some n → n ∉ names (take k els).
Proof.
  intros Hnd Hk Hn Hin. rewrite <- (take_drop_middle _ _ _ Hk), names_app in Hnd.
  apply NoDup_app in Hnd as (_ & Hdisj & _). apply (Hdisj n Hin).
  unfold names. simpl. rewrite Hn. by left.
Qed.

Lemma names_elem_of els k el n :
  els !! k = Some el → el_name el = Some n → n ∈ names els.
Proof.
  intros Hk Hn. unfold names. apply list_elem_of_omap. exists el. split; [|done].
  by eapply list_elem_of_lookup_2.
Qed.

(** A sequential scope emits one action for each element of the definition,
    in the order of the source: the analyzed phrase of a statement, and for a
    data definition the setter of the slot that the scope has bound its name
    to; a function definition leaves a null action behind, which only a build
    without assertions gets to. *)
Theorem sequential_actions_in_source_order NDEBUG {Parent} parent_lookup def
    (sc sc' : t Parent) :
  analyze NDEBUG parent_lookup def sc = (Returns tt, sc') →
  ∃ ops, actions_ sc' = actions_ sc ++ ops ∧ length ops = length (elements def) ∧
    ∀ k el op, elements def !! k = Some el → ops !! k = Some op →
      match el with
      | Statement ph => ∃ ms', op = Generic_Op ph ms'
      | Defines d =>
          if is_data_def d
          then ∃ slot e, dictionary_ sc' !! atom_ (name_of d) = Some slot ∧
                         op = data_setter (module_slot_ sc) (source_of d) slot e ∧
                         writes op = [slot]
          else NDEBUG = true ∧ op = Nullptr
      end.
Proof.
  intros Hrun.
  destruct (wp_returns _ _ _ _ _ _
              (seq_analyze_emits NDEBUG Parent parent_lookup _ _ def sc eq_refl eq_refl)
              Hrun) as (ops & Hall & Ha & _).
  exists ops. split_and!; [done|by eapply emits_all_length|].
  intros k el op Hel Hop.
  destruct (emits_all_lookup _ _ _ _ _ _ _ _ _ _ _ _ Hall Hel Hop)
    as (Dk & Dk' & _ & He & Hsub).
  destruct el as [ph|[src n sl ph e|src n sl lp l]]; simpl in *.
  - destruct He as [(ms' & -> & _) _]. eauto.
  - destruct He as (_ & slot & e' & _ & -> & -> & _). exists slot, e'.
    split_and!; [|done|by destruct (module_slot_ sc)].
    eapply lookup_weaken; [|exact Hsub]. by rewrite lookup_insert_eq.
  - by destruct He as (? & ? & _).
Qed.

(** In a sequential scope a reference sees the definitions before it and
    nothing else of the scope: a name that the scope has bound when the
    element is registered means the slot of that name, and any other name,
    also the element's own and those of later definitions, means what the
    enclosing environment says. *)
Theorem sequential_scope_sees_earlier_definitions NDEBUG {Parent} parent_lookup def
    (sc sc' : t Parent) :
  analyze NDEBUG parent_lookup def sc = (Returns tt, sc') →
  ∃ ops, actions_ sc' = actions_ sc ++ ops ∧
    ∀ k el op, elements def !! k = Some el → ops !! k = Some op →
      (op ≠ Nullptr → length (meanings_of op) = length (el_ids el)) ∧
      ∀ j id m, el_ids el !! j = Some id → meanings_of op !! j = Some m →
        (bound_before sc (elements def) k (atom_ id) →
         ∃ slot, dictionary_ sc' !! atom_ id = Some slot ∧
                 m = local_ref (target_is_module_ sc) (module_slot_ sc) id slot) ∧
        (¬ bound_before sc (elements def) k (atom_ id) →
         ∃ p, (parent_lookup id p).1 = Some m).
Proof.
  intros Hrun.
  destruct (wp_returns _ _ _ _ _ _
              (seq_analyze_emits NDEBUG Parent parent_lookup _ _ def sc eq_refl eq_refl)
              Hrun) as (ops & Hall & Ha & _).
  exists ops. split; [done|]. intros k el op Hel Hop.
  destruct (emits_all_lookup _ _ _ _ _ _ _ _ _ _ _ _ Hall Hel Hop)
    as (Dk & Dk' & Hk & He & Hsub).
  pose proof (emits_grows _ _ _ _ _ _ _ _ _ He) as Hsub'.
  assert (∀ ph ms', el_ids el = ph_ids ph → meanings_of op = ms' →
            Forall2 (resolved parent_lookup (target_is_module_ sc) (module_slot_ sc) Dk)
              (ph_ids ph) ms' →
            (op ≠ Nullptr → length (meanings_of op) = length (el_ids el)) ∧
            ∀ j id m, el_ids el !! j = Some id → meanings_of op !! j = Some m →
              (bound_before sc (elements def) k (atom_ id) →
               ∃ slot, dictionary_ sc' !! atom_ id = Some slot ∧
                       m = local_ref (target_is_module_ sc) (module_slot_ sc) id slot) ∧
              (¬ bound_before sc (elements def) k (atom_ id) →
               ∃ p, (parent_lookup id p).1 = Some m)) as Hmain.
  { intros ph ms' -> -> Hres. split; [intros _; symmetry; by eapply Forall2_length|].
    intros j id m Hid Hm. pose proof (Forall2_lookup_lr _ _ _ _ _ _ Hres Hid Hm) as Hr.
    unfold resolved in Hr.
    pose proof (emits_all_bound _ _ _ _ _ _ _ _ _ (atom_ id) Hk) as Hb.
    fold (bound_before sc (elements def) k (atom_ id)) in Hb.
    destruct (Dk !! atom_ id) as [slot|] eqn:Hd.
    - split.
      + intros _. exists slot. split; [|done].
        eapply lookup_weaken; [|exact Hsub]. by eapply lookup_weaken.
      + intros Hnb. destruct Hnb. apply Hb. eauto.
    - split; [|done]. intros Hbb. apply Hb in Hbb. by destruct Hbb. }
  destruct el as [ph|[src n sl ph e|src n sl lp l]]; simpl in He.
  - destruct He as [(ms' & -> & Hres) _]. by apply (Hmain ph ms').
  - destruct He as (_ & slot & e' & (ms' & -> & Hres) & -> & _ & _).
    apply (Hmain ph ms'); [done| |done]. by destruct (module_slot_ sc).
  - destruct He as (_ & -> & _). split; [done|]. intros j id m _ Hm. done.
Qed.

(** What stops the analysis at element [el], number [k]. *)
Definition stopped_by NDEBUG {Parent} (parent_lookup : Identifier → Parent → option Meaning * Parent)
    (sc : t Parent) (els : list Element) (k : nat) (el : Element) (f : Failure) : Prop :=
  match f with
  | Throws (Multiply_defined n) =>
      el_name el = Some n ∧ bound_before sc els k n
  | Throws (Not_defined id) =>
      id ∈ el_ids el ∧ ¬ bound_before sc els k (atom_ id) ∧
      ∃ p, (parent_lookup id p).1 = None
  | Assertion_failed line =>
      line = 56 ∧ NDEBUG = false ∧ ∃ d, el = Defines d ∧ is_data_def d = false
  | _ => False
  end.

Lemma seq_analyze_fails NDEBUG {Parent} parent_lookup def (sc sc' : t Parent) f :
  analyze NDEBUG parent_lookup def sc = (Fails f, sc') →
  (f = Assertion_failed 73 ∧ NDEBUG = false ∧ def_kind def ≠ k_sequential ∧ sc' = sc) ∨
  ∃ k el ops, elements def !! k = Some el ∧ actions_ sc' = actions_ sc ++ ops ∧
    length ops = k ∧ stopped_by NDEBUG parent_lookup sc (elements def) k el f.
Proof.
  intros Hrun.
  destruct (wp_fails _ _ _ _ _ _
              (seq_analyze_emits NDEBUG Parent parent_lookup _ _ def sc eq_refl eq_refl)
              Hrun) as [?|[(ops & (k & el & D1 & Hel & Hall & Hf) & Ha & _) _]];
    [by left|right].
  exists k, el, ops. split_and!; [done|done| |].
  - rewrite (emits_all_length _ _ _ _ _ _ _ _ _ Hall), length_take.
    apply lookup_lt_Some in Hel. lia.
  - pose proof (λ n, emits_all_bound _ _ _ _ _ _ _ _ _ n Hall) as Hb.
    destruct f as [[n|id|id|src]|line| |]; simpl in Hf; try done.
    + destruct Hf as [Hn Hin]. split; [done|]. by apply Hb.
    + destruct Hf as (Hid & Hnone & Hp). split_and!; [done| |done].
      intros Hbb. apply Hb in Hbb. rewrite Hnone in Hbb. by destruct Hbb.
    + destruct Hf as (-> & HN & d & -> & Hd & _). simpl. eauto.
Qed.

(** How the analysis of a definition in a sequential scope fails: at the
    assertion on the kind of the definition, before anything is done; or at
    the first element that binds a name the scope has bound already, refers
    to a name that nothing before it and no enclosing environment defines, or
    is a function definition in a build with assertions.  The actions of the
    elements before it have been emitted. *)
Theorem sequential_analysis_failures NDEBUG {Parent} parent_lookup def
    (sc sc' : t Parent) f :
  analyze NDEBUG parent_lookup def sc = (Fails f, sc') →
  (f = Assertion_failed 73 ∧ NDEBUG = false ∧ def_kind def ≠ k_sequential ∧ sc' = sc) ∨
  ∃ k el ops, elements def !! k = Some el ∧ actions_ sc' = actions_ sc ++ ops ∧
    length ops = k ∧
    match f with
    | Throws (Multiply_defined n) =>
        el_name el = Some n ∧ bound_before sc (elements def) k n
    | Throws (Not_defined id) =>
        id ∈ el_ids el ∧ ¬ bound_before sc (elements def) k (atom_ id) ∧
        ∃ p, (parent_lookup id p).1 = None
    | Assertion_failed line =>
        line = 56 ∧ NDEBUG = false ∧ ∃ d, el = Defines d ∧ is_data_def d = false
    | _ => False
    end.
Proof. apply seq_analyze_fails. Qed.

(** The analysis of a definition in a sequential scope succeeds when the
    definition is of the sequential kind and holds no function definition
    (or the build has no assertions), the names it defines are distinct and
    new to the scope, and every reference is to a name bound before it or to
    a name that the enclosing environment defines. *)
Theorem sequential_analysis_succeeds NDEBUG {Parent} parent_lookup def (sc : t Parent) :
  NDEBUG = true ∨
    (def_kind def = k_sequential ∧
     ∀ d, Defines d ∈ elements def → is_data_def d = true) →
  NoDup (names (elements def)) →
  (∀ n, n ∈ names (elements def) → dictionary_ sc !! n = None) →
  (∀ k el id, elements def !! k = Some el → id ∈ el_ids el →
     bound_before sc (elements def) k (atom_ id) ∨
     ∀ p, is_Some (parent_lookup id p).1) →
  ∃ sc', analyze NDEBUG parent_lookup def sc = (Returns tt, sc').
Proof.
  intros Hbuild Hnd Hfresh Hrefs.
  destruct (analyze NDEBUG parent_lookup def sc) as [[[]|f] sc'] eqn:Hrun; [by eexists|].
  exfalso.
  destruct (seq_analyze_fails _ _ _ _ _ _ Hrun)
    as [(-> & HN & Hk & _)|(k & el & ops & Hel & _ & _ & Hf)].
  { destruct Hbuild as [?|[? _]]; congruence. }
  destruct f as [[n|id|id|src]|line| |]; try done.
  - destruct Hf as [Hn [Hin|Hin]].
    + rewrite Hfresh in Hin; [by destruct Hin|]. by eapply names_elem_of.
    + by eapply names_fresh.
  - destruct Hf as (Hid & Hnb & p & Hp).
    destruct (Hrefs k el id Hel Hid) as [?|Htot]; [done|].
    specialize (Htot p). rewrite Hp in Htot. by destruct Htot.
  - destruct Hf as (-> & HN & d & -> & Hd).
    destruct Hbuild as [?|[_ Hdata]]; [congruence|].
    rewrite Hdata in Hd; [done|]. by eapply list_elem_of_lookup_2.
Qed.

(** A name that [add_binding] has bound is found by [single_lookup], as
    the reference to the slot that [add_binding] returned; the lookup of any
    other name gives what it gave before; and a lookup never changes the
    scope. *)
Theorem sequential_binding_round_trip {Parent} name unitno (sc sc1 : t Parent) slot :
  add_binding name unitno sc = (Returns slot, sc1) →
  (∀ id, atom_ id = atom_ name →
     single_lookup id sc1
     = (Returns (Some (local_ref (target_is_module_ sc) (module_slot_ sc) id slot)), sc1)) ∧
  (∀ id, atom_ id ≠ atom_ name →
     single_lookup id sc1 = ((single_lookup id sc).1, sc1)) ∧
  (∀ id, dictionary_ sc !! atom_ id = None → single_lookup id sc = (Returns None, sc)) ∧
  dictionary_ sc !! atom_ name = None.
Proof.
  intros Hrun. unfold add_binding, bind, get in Hrun. cbv beta iota in Hrun.
  destruct (decide (is_Some (dictionary_ sc !! atom_ name))) as [|Hnone]; [done|].
  apply eq_None_not_Some in Hnone.
  assert (dictionary_ sc1 = <[atom_ name := slot]> (dictionary_ sc) ∧
          target_is_module_ sc1 = target_is_module_ sc ∧
          module_slot_ sc1 = module_slot_ sc) as (Hd & Ht & Hm).
  { destruct (target_is_module_ sc) eqn:Etm;
      unfold make_slot, bind, get, modify, ret in Hrun; simpl in Hrun;
      by injection Hrun as <- <-. }
  split_and!; [| | |done].
  - intros id Hid. unfold single_lookup, bind, get. cbv beta iota.
    rewrite Hd, Hid, lookup_insert_eq, Ht, Hm. unfold local_ref.
    by destruct (target_is_module_ sc).
  - intros id Hid. unfold single_lookup, bind, get. cbv beta iota.
    rewrite Hd, lookup_insert_ne, Ht, Hm by done.
    destruct (dictionary_ sc !! atom_ id); [|done].
    by destruct (target_is_module_ sc).
  - intros id Hid. unfold single_lookup, bind, get. cbv beta iota. by rewrite Hid.
Qed.

(** ** Examples *)

(** [a = 1; a; b = a + c;] in a sequential scope, and the same with a second
    definition of [a] in the place of [b]. *)
Definition sequence : Abstract_Definition :=
  Compound k_sequential 0
    [Properties.data "a" []; Properties.stmt ["a"]; Properties.data "b" ["a"; "c"]].

Definition sequence_twice : Abstract_Definition :=
  Compound k_sequential 0
    [Properties.data "a" []; Properties.stmt ["a"]; Properties.data "a" ["a"]].

Lemma sequential_actions_in_source_order_witness :
  ∃ sc', analyze false Properties.all_parent sequence Properties.empty_sequential
         = (Returns tt, sc') ∧
    ∃ ops, actions_ sc' = actions_ Properties.empty_sequential ++ ops ∧
      length ops = length (elements sequence) ∧
      ∀ k el op, elements sequence !! k = Some el → ops !! k = Some op →
        match el with
        | Statement ph => ∃ ms', op = Generic_Op ph ms'
        | Defines d =>
            if is_data_def d
            then ∃ slot e, dictionary_ sc' !! atom_ (name_of d) = Some slot ∧
                           op = data_setter (module_slot_ Properties.empty_sequential)
                                  (source_of d) slot e ∧
                           writes op = [slot]
            else false = true ∧ op = Nullptr
        end.
Proof.
  eexists. split; [vm_compute; reflexivity|].
  apply (sequential_actions_in_source_order false Properties.all_parent sequence
           Properties.empty_sequential).
  vm_compute; reflexivity.
Defined.

Lemma sequential_scope_sees_earlier_definitions_witness :
  ∃ sc', analyze false Properties.all_parent sequence Properties.empty_sequential
         = (Returns tt, sc') ∧
    ∃ ops, actions_ sc' = actions_ Properties.empty_sequential ++ ops ∧
      ∀ k el op, elements sequence !! k = Some el → ops !! k = Some op →
        (op ≠ Nullptr → length (meanings_of op) = length (el_ids el)) ∧
        ∀ j id m, el_ids el !! j = Some id → meanings_of op !! j = Some m →
          (bound_before Properties.empty_sequential (elements sequence) k (atom_ id) →
           ∃ slot, dictionary_ sc' !! atom_ id = Some slot ∧
                   m = local_ref (target_is_module_ Properties.empty_sequential)
                         (module_slot_ Properties.empty_sequential) id slot) ∧
          (¬ bound_before Properties.empty_sequential (elements sequence) k (atom_ id) →
           ∃ p, (Properties.all_parent id p).1 = Some m).
Proof.
  eexists. split; [vm_compute; reflexivity|].
  apply (sequential_scope_sees_earlier_definitions false Properties.all_parent sequence
           Properties.empty_sequential).
  vm_compute; reflexivity.
Defined.

Lemma sequential_analysis_failures_witness :
  ∃ sc', analyze false Properties.no_parent sequence_twice Properties.empty_sequential
         = (Fails (Throws (Multiply_defined "a")), sc') ∧
    ((Throws (Multiply_defined "a") = Assertion_failed 73 ∧ false = false ∧
      def_kind sequence_twice ≠ k_sequential ∧ sc' = Properties.empty_sequential) ∨
     ∃ k el ops, elements sequence_twice !! k = Some el ∧
       actions_ sc' = actions_ Properties.empty_sequential ++ ops ∧ length ops = k ∧
       el_name el = Some "a"%string ∧
       bound_before Properties.empty_sequential (elements sequence_twice) k "a").
Proof.
  eexists. split; [vm_compute; reflexivity|].
  apply (sequential_analysis_failures false Properties.no_parent sequence_twice
           Properties.empty_sequential).
  vm_compute; reflexivity.
Defined.

Lemma sequential_analysis_succeeds_witness :
  ∃ sc', analyze false Properties.all_parent sequence Properties.empty_sequential
         = (Returns tt, sc').
Proof.
  apply (sequential_analysis_succeeds false Properties.all_parent sequence
           Properties.empty_sequential).
  - right. split; [reflexivity|]. intros d Hd. simpl in Hd.
    repeat (apply elem_of_cons in Hd as [Hd|Hd]; [by simplify_eq|]).
    by apply elem_of_nil in Hd.
  - apply (bool_decide_unpack _). vm_compute. reflexivity.
  - intros n _. apply lookup_empty.
  - intros k el id _ _. right. intros p. by eexists.
Defined.

Lemma sequential_binding_round_trip_witness :
  ∃ sc1, add_binding (Properties.ident "a") 0 Properties.empty_sequential
         = (Returns 0, sc1) ∧
    (∀ id, atom_ id = atom_ (Properties.ident "a") →
       single_lookup id sc1
       = (Returns (Some (local_ref (target_is_module_ Properties.empty_sequential)
                           (module_slot_ Properties.empty_sequential) id 0)), sc1)) ∧
    (∀ id, atom_ id ≠ atom_ (Properties.ident "a") →
       single_lookup id sc1 = ((single_lookup id Properties.empty_sequential).1, sc1)) ∧
    (∀ id, dictionary_ Properties.empty_sequential !! atom_ id = None →
       single_lookup id Properties.empty_sequential
       = (Returns None, Properties.empty_sequential)) ∧
    dictionary_ Properties.empty_sequential !! atom_ (Properties.ident "a") = None.
Proof.
  eexists. split; [vm_compute; reflexivity|].
  apply (sequential_binding_round_trip (Properties.ident "a") 0
           Properties.empty_sequential).
  vm_compute; reflexivity.
Defined.

End Sequential_Scope_Order.

(** * Why the analysis of a recursive scope fails *)

Module Recursive_Scope_Outcome.
Import Recursive_Scope SCC SCC_Steps Recursive_Scope_Correct.

(** ** Cycles in the dependency graph *)

(** A data definition that depends on itself, directly or through other
    units; and two units that depend on each other. *)
Definition data_cycle (T : Tarjan) : Prop := ∃ x, tc (edge T) x x ∧ ¬ is_fun T x.
Definition mutual (T : Tarjan) : Prop :=
  ∃ u v, u ≠ v ∧ is_fun T u ∧ is_fun T v ∧ reach T u v ∧ reach T v u.

Lemma data_cycle_static T T' : same_static T T' → data_cycle T → data_cycle T'.
Proof.
  intros Hs (x & Hc & Hd). exists x. split.
  - revert Hc. apply (tc_congruence (λ z, z)). intros ? ?. by apply same_static_edge.
  - intros Hf. apply Hd. eapply same_static_is_fun; [|exact Hf]. by apply same_static_sym.
Qed.

Lemma mutual_static T T' : same_static T T' → mutual T → mutual T'.
Proof.
  intros Hs (u & v & Hne & Hu & Hv & H1 & H2). exists u, v.
  split_and!; [done|by eapply same_static_is_fun|by eapply same_static_is_fun| |];
    by eapply same_static_reach.
Qed.

Section Causes.
Context {Hinitial : Initial}.

(** Every unit on the component stack leads to the unit under analysis. *)
Lemma stack_reach_top T A p :
  TInv T → astack T = A ++ [p] → ∀ w, w ∈ sstack T → reach T w p.
Proof.
  intros HT HA.
  assert (p ∈ astack T) as Hp.
  { rewrite HA, elem_of_app, list_elem_of_singleton. by right. }
  assert (state_of T p = Some k_analysis_in_progress) as Hpst.
  { by apply (i_stack _ HT), (i_ain _ HT). }
  assert (∀ n w, ord T w < n → w ∈ sstack T → reach T w p) as H.
  { induction n as [|n IH]; intros w Hlt Hw; [lia|].
    destruct (decide (w ∈ astack T)) as [Hin|Hout].
    - apply (i_reach _ HT w p k_analysis_in_progress); [done|done|done|].
      by eapply astack_le_top.
    - pose proof (i_compl _ HT w Hw Hout) as Hc.
      destruct (i_low_tgt _ HT w Hw) as (z & Hz & Hord & _ & Hr).
      etrans; [exact Hr|]. apply IH; [lia|done]. }
  intros w Hw. apply (H (S (ord T w))); [lia|done].
Qed.

(** A data definition that is looked up while its analysis is in progress
    depends on itself. *)
Lemma cause_in_progress T A p ui :
  TInv T → astack T = A ++ [p] → state_of T ui = Some k_analysis_in_progress →
  ¬ is_fun T ui → edge T p ui → data_cycle T.
Proof.
  intros HT HA Hst Hd He. exists ui. split; [|done].
  eapply tc_rtc_l; [|by apply tc_once].
  eapply stack_reach_top; [done|done|]. by apply (i_stack _ HT).
Qed.

(** So does a data definition whose analysis ends with a lowlink below its
    discovery number. *)
Lemma cause_complete T A ui :
  TInv T → astack T = A ++ [ui] → ¬ is_fun T ui → low T ui < ord T ui → data_cycle T.
Proof.
  intros HT HA Hd Hlt. exists ui. split; [|done].
  assert (ui ∈ sstack T) as Hui by (by eapply top_in_sstack).
  destruct (i_low_tgt _ HT ui Hui) as (z & Hz & Hord & _ & Hr).
  apply rtc_tc in Hr as [<-|Hr]; [lia|].
  eapply tc_rtc_r; [exact Hr|]. by eapply stack_reach_top.
Qed.

(** The units above the root of a component depend on the root and the
    root on them. *)
Lemma above_root_mutual T A ui w :
  TInv T → astack T = A ++ [ui] → w ∈ sstack T → ord T ui ≤ ord T w →
  reach T ui w ∧ reach T w ui.
Proof.
  intros HT HA Hw Hle. split; [|by eapply stack_reach_top].
  apply (i_reach _ HT ui w k_analysis_in_progress); [|by apply (i_stack _ HT)|done|done].
  rewrite HA, elem_of_app, list_elem_of_singleton. by right.
Qed.

Lemma cause_group T A ui w :
  TInv T → astack T = A ++ [ui] → is_fun T ui → w ∈ sstack T → ¬ is_fun T w →
  ord T ui ≤ ord T w → data_cycle T.
Proof.
  intros HT HA Hf Hw Hd Hle. exists w. split; [|done].
  destruct (above_root_mutual T A ui w HT HA Hw Hle) as [H1 H2].
  apply rtc_tc in H2 as [->|H2]; [done|]. by eapply tc_rtc_r.
Qed.

Lemma cause_mutual T A ui w :
  TInv T → astack T = A ++ [ui] → w ∈ sstack T → w ≠ ui → ord T ui ≤ ord T w →
  is_fun T ui → is_fun T w → mutual T.
Proof.
  intros HT HA Hw Hne Hle Hfu Hfw.
  destruct (above_root_mutual T A ui w HT HA Hw Hle) as [H1 H2].
  exists ui, w. split_and!; done.
Qed.

End Causes.
(** ** The analysis of a unit *)

(** The phrase of the action of a bare statement. *)
Definition statement_of (op : Meaning) : option Phrase :=
  match op with
  | Generic_Op ph _ => Some ph
  | _ => None
  end.

(** The identifiers whose meanings an action keeps: those of the phrase of
    a statement or of a data definition. *)
Definition op_ids (op : Meaning) : list Identifier :=
  match op with
  | Generic_Op ph _ => ph_ids ph
  | Data_Setter _ _ (Generic_Op ph _) _ => ph_ids ph
  | Module_Data_Setter _ _ _ (Generic_Op ph _) => ph_ids ph
  | _ => []
  end.

(** What a reference means in a recursive scope with the dictionary [D]:
    the slot of the name, when the scope defines it, and otherwise what the
    enclosing environment says. *)
Definition linked {Parent} (parent_lookup : Identifier → Parent → option Meaning * Parent)
    (tm : bool) (ms : option slot_t) (D : gmap string Binding)
    (id : Identifier) (m : Meaning) : Prop :=
  match D !! atom_ id with
  | Some b => m = Sequential_Scope_Order.local_ref tm ms id (slot_index_ b)
  | None => ∃ q, (parent_lookup id q).1 = Some m
  end.

Section Walk.
Variable NDEBUG : bool.
Variable Parent : Type.
Variable parent_lookup : Identifier → Parent → option Meaning * Parent.
Context {Hinitial : Initial}.
Local Abbreviation St := (t Parent).
Implicit Types (sc : St).

(** The names that the analysis is asked for: among them those that the
    units of the scope mention. *)
Variable wanted : Identifier → Prop.
Hypothesis Hwanted : ∀ x vx id, views initial !! x = Some vx → id ∈ v_ids vx → wanted id.

(** The target of the scope. *)
Variable tm : bool.
Variable msl : option slot_t.

Definition home sc : Prop := target_is_module_ sc = tm ∧ module_slot_ sc = msl.

Local Abbreviation meanings_of := Sequential_Scope_Order.meanings_of.
Local Abbreviation data_setter := Sequential_Scope_Order.data_setter.
Local Abbreviation local_ref := Sequential_Scope_Order.local_ref.
Local Abbreviation lk := (linked parent_lookup tm msl (dict initial)).

(** The references of an action are linked. *)
Definition links (op : Meaning) : Prop := Forall2 lk (op_ids op) (meanings_of op).

(** A setter is the grouped setter of functions, or the setter of the one
    slot of a unit, with the references of that unit. *)
Definition owned (op : Meaning) : Prop :=
  isa_Function_Setter op = true ∨
  ∃ x vx, views initial !! x = Some vx ∧ writes op = [v_slot vx] ∧ op_ids op = v_ids vx.

(** A definition as its analysis in the scope leaves it. *)
Definition def_linked (d : Unitary_Definition) : Prop :=
  match d with
  | Data_Definition _ _ _ ph e => ∃ ms', e = Generic_Op ph ms' ∧ Forall2 lk (ph_ids ph) ms'
  | Function_Definition _ _ _ _ _ => True
  end.

(** What is behind a failure of the analysis: behind an exception for
    illegal recursion a data definition that depends on itself, behind the
    assertion of line 230 two units that depend on each other, and behind an
    undefined name a reference to it. *)
Definition cause (f : Failure) : Prop :=
  match f with
  | Throws (Illegal_recursive_reference _) | Throws (Recursive_data_definition _) =>
      data_cycle initial
  | Throws (Not_defined id) => wanted id
  | Assertion_failed line => line = 230 → mutual initial
  | _ => True
  end.

(** An action that the analysis of a unit emits: a setter, and in a build
    with assertions a setter of one slot. *)
Definition setter (op : Meaning) : Prop :=
  statement_of op = None ∧ links op ∧ owned op ∧
  (NDEBUG = false → length (writes op) ≤ 1).

Definition Appended sc sc' : Prop :=
  ∃ ops, actions_ sc' = actions_ sc ++ ops ∧ Forall setter ops.

Lemma Appended_same sc sc' : actions_ sc' = actions_ sc → Appended sc sc'.
Proof. intros H. exists []. by rewrite app_nil_r. Qed.

Lemma Appended_refl sc : Appended sc sc.
Proof. by apply Appended_same. Qed.

Lemma Appended_trans sc1 sc2 sc3 : Appended sc1 sc2 → Appended sc2 sc3 → Appended sc1 sc3.
Proof.
  intros (o1 & H1 & F1) (o2 & H2 & F2). exists (o1 ++ o2). split.
  - by rewrite H2, H1, app_assoc.
  - by apply Forall_app.
Qed.

Lemma data_cycle_initial T : TInv T → data_cycle T → data_cycle initial.
Proof.
  intros HT. apply data_cycle_static, same_static_sym, (e_static _ (i_emitted _ HT)).
Qed.

Lemma mutual_initial T : TInv T → mutual T → mutual initial.
Proof.
  intros HT. apply mutual_static, same_static_sym, (e_static _ (i_emitted _ HT)).
Qed.

Definition rec_cause (rec : nat → option Identifier → M St unit) : Prop :=
  ∀ ui id sc, Inv sc → home sc → is_Some (units_ sc !! ui) →
    called_from_top (abs sc) ui → (id = None → analysis_stack_ sc = []) →
    wp (rec ui id) (λ _ sc', Appended sc sc') (λ f _, cause f) sc.

(** *** Lookups *)

Section Lookup.
Variable F : nat.
Variable rec : nat → option Identifier → M St unit.
Hypothesis Hrec : rec_spec NDEBUG Parent parent_lookup F rec.
Hypothesis Hcause : rec_cause rec.

Lemma dict_initial sc : Inv sc → dictionary_ sc = dict initial.
Proof. intros HI. by destruct (e_static _ (i_emitted _ HI)) as [_ Hd]. Qed.

Lemma single_lookup_cause id sc :
  Inv sc → home sc → may_look_up Parent sc id →
  wp (single_lookup rec id)
     (λ m sc', Appended sc sc' ∧
               match m with
               | Some m' => lk id m'
               | None => dict initial !! atom_ id = None
               end)
     (λ f _, cause f) sc.
Proof using Hcause.
  intros HI [Ht Hm] Hmay. unfold single_lookup. apply wp_bind, wp_get.
  pose proof (dict_initial sc HI) as HD.
  destruct (dictionary_ sc !! atom_ id) as [b|] eqn:Hb.
  - destruct (wf_dict _ (e_wf _ (i_emitted _ HI)) _ _ Hb) as (v & Hv & _).
    apply wp_bind. eapply wp_mono; [apply Hcause; [done|done| |by apply Hmay|done]| |done].
    + apply abs_valid. eauto.
    + intros [] sc' HA. simpl.
      assert (lk id (local_ref tm msl id (slot_index_ b))) as Hlk.
      { unfold linked. by rewrite <- HD, Hb. }
      rewrite Ht, Hm. unfold Sequential_Scope_Order.local_ref in Hlk.
      destruct tm; by apply wp_ret.
  - apply wp_ret. split; [apply Appended_refl|]. by rewrite <- HD.
Qed.

Lemma lookup_cause id sc :
  Inv sc → home sc → may_look_up Parent sc id → wanted id →
  wp (lookup parent_lookup rec id) (λ m sc', Appended sc sc' ∧ lk id m)
     (λ f _, cause f) sc.
Proof using Hcause.
  intros HI Hh Hmay Hw. unfold lookup, Environ_lookup.
  apply wp_bind. eapply wp_mono; [by apply single_lookup_cause| |done].
  intros [m|] sc' [HA Hm]; simpl; [by apply wp_ret|].
  unfold wp, parent_chain_lookup.
  destruct (parent_lookup id (parent_ sc')) as [[m|] p'] eqn:Hp; simpl; [|done].
  split.
  - eapply Appended_trans; [exact HA|]. by apply Appended_same.
  - unfold linked. rewrite Hm. exists (parent_ sc'). by rewrite Hp.
Qed.

Lemma Function_Environ_single_lookup_cause ui id sc :
  Inv sc → home sc → may_look_up Parent sc id → wanted id →
  wp (Function_Environ_single_lookup parent_lookup rec ui id)
     (λ _ sc', Appended sc sc' ∧ True) (λ f _, cause f) sc.
Proof using Hcause.
  intros HI Hh Hmay Hw. unfold Function_Environ_single_lookup.
  apply wp_bind. eapply wp_mono; [by apply lookup_cause| |done].
  intros m sc' [HA _]. simpl.
  destruct (isa_Constant m); [by apply wp_ret|].
  destruct (isa_Operation m); [|by apply wp_ret].
  apply wp_bind, wp_modify, wp_ret. split; [|done].
  eapply Appended_trans; [exact HA|]. by apply Appended_same.
Qed.

(** An environment whose results are related to the names by [V]. *)
Definition env_cause (V : Identifier → Meaning → Prop)
    (env : Identifier → M St Meaning) : Prop :=
  ∀ id sc, Inv sc → home sc → may_look_up Parent sc id → wanted id →
    wp (env id) (λ m sc', Appended sc sc' ∧ V id m) (λ f _, cause f) sc.

Lemma home_Frame sc sc' : Frame sc sc' → home sc → home sc'.
Proof. intros HF [? ?]. split; [by rewrite (f_target _ _ _ HF)|by rewrite (f_module_slot _ _ _ HF)]. Qed.

Lemma mapM_cause V env ids sc :
  env_spec NDEBUG Parent parent_lookup F env → env_cause V env →
  Inv sc → home sc → (∀ id, id ∈ ids → may_look_up Parent sc id) →
  (∀ id, id ∈ ids → wanted id) →
  wp (mapM env ids) (λ ms sc', Appended sc sc' ∧ Forall2 V ids ms) (λ f _, cause f) sc.
Proof.
  intros Henv Henv2 HI Hh Hmay Hw.
  cut (∀ l s1, (∀ x, x ∈ l → x ∈ ids) → Inv s1 → Frame sc s1 →
         wp (mapM env l) (λ ms s', (Inv s' ∧ Frame s1 s') ∧ Appended s1 s' ∧ Forall2 V l ms)
            (λ f _, cause f) s1).
  { intros H. eapply wp_mono; [apply (H ids sc); [done|done|apply Frame_refl]| |done].
    by intros ms s' (_ & ? & ?). }
  induction l as [|x l IH]; intros s1 Hsub HI1 HF1; simpl.
  { apply wp_ret. split_and!; [done|apply Frame_refl|apply Appended_refl|constructor]. }
  assert (x ∈ ids) as Hx by (apply Hsub; by left).
  assert (may_look_up Parent s1 x) as Hmay1.
  { eapply may_look_up_Frame; [exact HF1|by apply Hmay]. }
  apply wp_bind.
  eapply wp_mono;
    [apply (wp_conj _ _ _ _ _ _ (Henv x s1 HI1 Hmay1)
              (Henv2 x s1 HI1 (home_Frame _ _ HF1 Hh) Hmay1 (Hw x Hx)))| |].
  2:{ by intros f s2 [_ ?]. }
  intros m s2 [(HI2 & HF2 & _) [HA2 HV2]]. simpl. apply wp_bind.
  eapply wp_mono; [apply (IH s2)| |done].
  - intros y Hy. apply Hsub. by right.
  - done.
  - by eapply Frame_trans.
  - intros ms s3 ([HI3 HF3] & HA3 & HV3). apply wp_ret.
    split_and!; [done|by eapply Frame_trans|by eapply Appended_trans|by constructor].
Qed.

(** The definition that [Definition_analyze] returns, for an environment
    whose results are related to the names by [V]. *)
Definition def_related (V : Identifier → Meaning → Prop) (d : Unitary_Definition) : Prop :=
  match d with
  | Data_Definition _ _ _ ph e => ∃ ms', e = Generic_Op ph ms' ∧ Forall2 V (ph_ids ph) ms'
  | Function_Definition _ _ _ _ _ => True
  end.

Lemma Definition_analyze_cause V env d sc :
  env_spec NDEBUG Parent parent_lookup F env → env_cause V env →
  Inv sc → home sc → (∀ id, id ∈ ids_of d → may_look_up Parent sc id) →
  (∀ id, id ∈ ids_of d → wanted id) →
  wp (Definition_analyze NDEBUG env d) (λ d' sc', Appended sc sc' ∧ def_related V d')
     (λ f _, cause f) sc.
Proof.
  intros Henv Henv2 HI Hh Hmay Hw. destruct d as [s n sl ph e|s n sl lp l]; simpl.
  - apply wp_bind. unfold analyze_op. apply wp_bind.
    eapply wp_mono; [by apply (mapM_cause V)| |done].
    intros ms sc' [HA HV]. simpl. apply wp_ret, wp_ret. split; [done|]. simpl. eauto.
  - apply wp_bind. unfold analyze_lambda, analyze_op. apply wp_bind, wp_bind.
    eapply wp_mono; [by apply (mapM_cause V)| |done].
    intros ms sc' [HA HV]. simpl. by apply wp_ret, wp_ret, wp_ret.
Qed.

End Lookup.

(** *** Retiring a component *)

(** In a build with assertions, a component of more than one unit stops at
    the assertion of line 230: the unit on top of the stack has a discovery
    number of its own. *)
Lemma pop_component_debug n K ui g G' sc ug u :
  NDEBUG = false → scc_stack_ sc = K ++ ui :: G' ++ [g] →
  units_ sc !! g = Some ug → units_ sc !! ui = Some u → scc_ord_ ug ≠ scc_ord_ u →
  wp (pop_component NDEBUG n ui) (λ _ _, False) (λ f _, f = Assertion_failed 230) sc.
Proof.
  intros HN Hst Hg Hu Hne.
  assert (scc_stack_ sc = (K ++ ui :: G') ++ [g]) as Hst'.
  { rewrite Hst. by rewrite <- app_assoc. }
  assert (wp (let* sc0 := get in
              let* _ := assert_ NDEBUG 227 (bool_decide (0 < length (scc_stack_ sc0))) in
              match back (scc_stack_ sc0) with
              | None => undefined
              | Some u0 =>
                  let* _ := modify (set_scc_stack (pop_back (scc_stack_ sc0))) in
                  let* popped := get_unit u0 in
                  let* unit := get_unit ui in
                  let* _ := assert_ NDEBUG 230
                              (bool_decide (scc_ord_ popped = scc_ord_ unit)) in
                  let* _ := update_unit u0 (set_state k_analyzed) in
                  if decide (u0 = ui) then ret tt
                  else match n with
                       | 0 => out_of_fuel
                       | S n' => pop_component NDEBUG n' ui
                       end
              end) (λ _ _, False) (λ f _, f = Assertion_failed 230) sc) as H.
  { apply wp_bind, wp_get. apply wp_bind, wp_assert.
    2:{ rewrite Hst', length_app. simpl. intros ?%bool_decide_eq_false. lia. }
    intros _. unfold back. rewrite Hst', last_snoc.
    apply wp_bind, wp_modify. apply wp_bind. eapply wp_get_unit; [exact Hg|].
    apply wp_bind. eapply wp_get_unit; [exact Hu|].
    apply wp_bind, wp_assert; [|done].
    intros [Heq|HN']; [|congruence]. by apply bool_decide_eq_true in Heq. }
  by destruct n.
Qed.

(** [make_function_setter] throws only for a group with a data definition
    in it. *)
Lemma enter_functions_data us : ∀ funs e ex,
  enter_functions us funs e = inl ex → ∃ w, w ∈ us ∧ is_data w = true.
Proof.
  induction us as [|u us IH]; intros funs e ex; simpl; [done|].
  destruct (def_ u) as [src n sl ph e0|src n sl lp l] eqn:Hd.
  - intros _. exists u. split; [by left|]. unfold is_data. by rewrite Hd.
  - intros H. destruct (IH _ _ _ H) as (w & Hw & Hdata). exists w. split; [by right|done].
Qed.

Lemma make_function_setter_data sc (G : list nat) (us : list Unit) f sc' :
  Forall2 (λ g u, units_ sc !! g = Some u) G us →
  make_function_setter G sc = (Fails f, sc') → ∃ w, w ∈ us ∧ is_data w = true.
Proof.
  intros HG. unfold make_function_setter, bind, get. cbv beta iota.
  rewrite (mapM_get_unit _ _ _ _ HG). cbv beta iota.
  destruct (enter_functions us [] (mkEnumeration ∅ [] 0)) as [ex|[funs e]] eqn:He; [|done].
  intros _. by eapply enter_functions_data.
Qed.

(** *** The root of a component *)

Lemma output_root_cause s2 T A ui :
  abs s2 = t_set_astack A T → TInv T → astack T = A ++ [ui] →
  low T ui = ord T ui → home s2 →
  (∀ u, units_ s2 !! ui = Some u → def_linked (def_ u)) →
  wp (output_component NDEBUG ui) (λ _ s3, Appended s2 s3) (λ f _, cause f) s2.
Proof.
  intros Habs HT HA Hroot [_ Hmsl] Hlinked.
  assert (views T = view <$> units_ s2) as Hviews
    by (symmetry; exact (f_equal views Habs)).
  assert (sstack T = scc_stack_ s2) as Hss by (symmetry; exact (f_equal sstack Habs)).
  assert (ui ∈ sstack T) as Hui by (by eapply top_in_sstack).
  destruct (stack_valid _ HT _ Hui) as [vu Hvu].
  assert (∃ u, units_ s2 !! ui = Some u ∧ vu = view u) as (u & Hu & ->).
  { rewrite Hviews, list_lookup_fmap in Hvu.
    destruct (units_ s2 !! ui) as [u|]; [|done]. injection Hvu as <-. eauto. }
  rewrite (low_lookup _ _ _ Hvu), (ord_lookup _ _ _ Hvu) in Hroot. simpl in Hroot.
  destruct (list_elem_of_split _ _ Hui) as (K & G' & HS).
  assert (NoDup (K ++ ui :: G')) as Hnd by (rewrite <- HS; by apply sstack_NoDup).
  assert ((ui ∉ K) ∧ (ui ∉ G')) as [HniK HniG].
  { apply NoDup_app in Hnd as (_ & H1 & H2). apply NoDup_cons in H2 as [H2 _].
    split; [|done]. intros ?. apply (H1 ui); [done|by left]. }
  assert (∀ g, g ∈ G' → g ∈ sstack T ∧ ord T ui < ord T g) as Habove.
  { intros g Hg. split; [rewrite HS, elem_of_app; right; by right|].
    eapply (lookup_lt_sorted_app (ord T) (K ++ [ui]) G').
    - rewrite <- app_assoc. simpl. rewrite <- HS. apply (i_sorted _ HT).
    - apply elem_of_app. right. by left.
    - done. }
  assert (∀ g, g ∈ ui :: G' → is_Some (units_ s2 !! g)) as Hvalid.
  { intros g Hg. assert (is_Some (views T !! g)) as Hv.
    { eapply stack_valid; [done|]. rewrite HS, elem_of_app. by right. }
    rewrite Hviews, list_lookup_fmap in Hv. by apply fmap_is_Some in Hv. }
  unfold output_component. apply wp_bind. eapply wp_get_unit; [exact Hu|].
  rewrite decide_True by done. apply wp_bind, wp_get.
  destruct (is_data u) eqn:Hdata.
  - (* a data definition *)
    apply wp_bind, wp_assert; [intros _|by intros _ _ [=]].
    destruct (scc_stack_ s2) as [|k0 K0] eqn:Hstack; [by apply wp_fail|].
    apply wp_bind, wp_modify. unfold update_unit. apply wp_bind, wp_modify.
    unfold is_data in Hdata. destruct (def_ u) as [src name sl ph e|] eqn:Hdef; [|done].
    rewrite Sequential_Scope_Order.make_setter_data. apply wp_bind, wp_ret.
    unfold push_action. apply wp_modify. eexists [_]. split; [done|].
    specialize (Hlinked u Hu). rewrite Hdef in Hlinked.
    destruct Hlinked as (ms' & -> & Hms').
    constructor; [|done]. split_and!.
    + by destruct (module_slot_ s2).
    + unfold links. by destruct (module_slot_ s2).
    + right. destruct (same_static_lookup _ _ ui (view u)
                         (same_static_sym _ _ (e_static _ (i_emitted _ HT))) Hvu)
        as (v0 & Hv0 & Hst0).
      apply v_static_inv in Hst0 as (_ & _ & Hsl0 & Hids0).
      exists ui, v0. rewrite Hsl0, Hids0. simpl. rewrite Hdef.
      split; [done|]. by destruct (module_slot_ s2).
    + intros _. by destruct (module_slot_ s2).
  - (* a function definition *)
    assert (is_fun T ui) as Hfun by (apply (is_fun_lookup _ _ _ Hvu); done).
    rewrite <- Hss, HS, (scan_spec _ _ _ HniK).
    rewrite lookup_app_r, Nat.sub_diag by done. simpl.
    rewrite drop_app_length.
    destruct (units_of_group _ s2 (ui :: G') Hvalid) as [us Hus].
    apply wp_bind.
    pose proof (make_function_setter_spec _ s2 (ui :: G') us Hus) as Hmk.
    unfold wp at 1. unfold wp in Hmk.
    destruct (make_function_setter (ui :: G') s2) as [[op|f] s'] eqn:Hrun.
    + destruct Hmk as (-> & Hfs & Hw & Hfuns). unfold push_action.
      apply wp_bind, wp_modify.
      match goal with |- wp _ _ _ ?s => set (s3 := s) end.
      assert (scc_stack_ s3 = K ++ ui :: G') as Hst3 by (by rewrite <- HS, Hss).
      assert (actions_ s3 = actions_ s2 ++ [op]) as Hact3 by done.
      assert (units_ s3 = units_ s2) as Hun3 by done.
      remember (length (K ++ ui :: G')) as n eqn:Hn.
      assert (length G' ≤ n) as Hlen by (rewrite Hn, length_app; simpl; lia).
      pose proof (pop_component_spec NDEBUG _ G' n K ui s3 Hst3 Hlen HniG Hvalid) as Hpop.
      assert (Forall setter [op] ∨ (NDEBUG = false ∧ G' ≠ [])) as Hsmall.
      { destruct (decide (NDEBUG = false ∧ G' ≠ [])) as [?|Hno]; [by right|left].
        constructor; [|done].
        split_and!; [by destruct op|destruct op; try done; constructor|by left|].
        intros HN. rewrite Hw.
        apply Forall2_length in Hus. rewrite length_fmap, <- Hus.
        destruct G' as [|? ?]; [simpl; lia|]. destruct Hno. done. }
      unfold wp. unfold wp in Hpop.
      destruct (pop_component NDEBUG n ui s3) as [[[]|f] s4] eqn:Hrun3.
      * destruct Hpop as (_ & _ & Hoth).
        injection Hoth as _ _ _ _ _ Hact _ _ _ _ _ _ _.
        exists [op]. split; [exact Hact|].
        destruct Hsmall as [?|[HN HG]]; [done|]. exfalso.
        destruct (exists_last HG) as (G0 & g0 & ->).
        assert (g0 ∈ G0 ++ [g0]) as Hg0 by (apply elem_of_app; right; by left).
        destruct (Habove g0 Hg0) as [Hg0s Hg0o].
        destruct (Hvalid g0 ltac:(by right)) as [ug Hug].
        pose proof (pop_component_debug n K ui g0 G0 s3 ug u HN Hst3 Hug Hu) as Hdbg.
        unfold wp in Hdbg. rewrite Hrun3 in Hdbg. apply Hdbg. intros Heq.
        assert (ord T g0 = ord T ui); [|lia].
        assert (views T !! g0 = Some (view ug)) as Hvg.
        { rewrite Hviews, list_lookup_fmap, Hug. done. }
        by rewrite (ord_lookup _ _ _ Hvg), (ord_lookup _ _ _ Hvu).
      * destruct Hpop as [-> HN]. simpl. intros _.
        destruct G' as [|g1 G1].
        -- pose proof (Properties.pop_component_single NDEBUG n K ui s3 Hst3
                         (Hvalid ui ltac:(by left))) as Hone.
           unfold wp in Hone. by rewrite Hrun3 in Hone.
        -- destruct (Habove g1 ltac:(by left)) as [Hg1s Hg1o].
           apply (mutual_initial T HT).
           apply (cause_mutual T A ui g1 HT HA Hg1s); [intros ->; lia|lia|done|].
           destruct (Forall2_lookup_l _ _ _ 1 g1 Hus eq_refl) as (w1 & Hw1 & Hg1).
           assert (views T !! g1 = Some (view w1)) as Hvg1.
           { rewrite Hviews, list_lookup_fmap, Hg1. done. }
           rewrite (is_fun_lookup _ _ _ Hvg1). simpl.
           apply (proj1 (Forall_forall _ _) Hfuns w1).
           by eapply list_elem_of_lookup_2.
    + destruct Hmk as (-> & src & ->). simpl.
      destruct (make_function_setter_data _ _ _ _ _ Hus Hrun) as (w & Hw & Hwd).
      apply list_elem_of_lookup in Hw as [k Hk].
      destruct (Forall2_lookup_r _ _ _ _ _ Hus Hk) as (g & Hg & Hgw).
      assert (g ∈ G') as HgG.
      { apply list_elem_of_lookup_2 in Hg. apply elem_of_cons in Hg as [->|?]; [|done].
        rewrite Hu in Hgw. injection Hgw as ->. congruence. }
      destruct (Habove g HgG) as [Hgs Hgo].
      apply (data_cycle_initial T HT). apply (cause_group T A ui g HT HA Hfun Hgs); [|lia].
      assert (views T !! g = Some (view w)) as Hvg.
      { rewrite Hviews, list_lookup_fmap, Hgw. done. }
      rewrite (is_fun_lookup _ _ _ Hvg). simpl. rewrite Hwd. done.
Qed.

(** *** A unit completes *)

Lemma finish_cause sc A ui id :
  Inv sc → analysis_stack_ sc = A ++ [ui] → (id = None → A = []) → home sc →
  (∀ u, units_ sc !! ui = Some u → def_linked (def_ u)) →
  wp (let* _ := modify (λ sc, set_analysis_stack (pop_back (analysis_stack_ sc)) sc) in
      let* _ := propagate ui id in
      output_component NDEBUG ui)
     (λ _ sc', Appended sc sc') (λ f _, cause f) sc.
Proof.
  intros HI HA Hid Hh Hlinked.
  assert (astack (abs sc) = A ++ [ui]) as HAT by exact HA.
  assert (ui ∈ sstack (abs sc)) as Hui by (by eapply top_in_sstack).
  destruct (stack_valid _ HI _ Hui) as [vu Hvu].
  destruct (abs_lookup_inv _ _ _ _ Hvu) as (u & Hu & ->).
  pose proof (low_abs _ _ _ _ Hu) as Hlow. pose proof (ord_abs _ _ _ _ Hu) as Hord.
  apply wp_bind, wp_modify.
  set (s1 := set_analysis_stack (pop_back (analysis_stack_ sc)) sc).
  assert (abs s1 = t_set_astack A (abs sc)) as Habs1.
  { unfold abs, s1, t_set_astack. simpl. unfold pop_back.
    by rewrite HA, removelast_last. }
  assert (analysis_stack_ s1 = A) as HA1.
  { unfold s1. simpl. unfold pop_back. by rewrite HA, removelast_last. }
  assert (units_ s1 !! ui = Some u) as Hu1 by exact Hu.
  assert (Appended sc s1) as Happ1 by (by apply Appended_same).
  apply wp_bind. unfold propagate. apply wp_bind, wp_get. unfold back. rewrite HA1.
  destruct (decide (scc_lowlink_ u = scc_ord_ u)) as [Hroot|Hnroot].
  - (* the root of a component *)
    assert (wp (output_component NDEBUG ui) (λ _ sc', Appended sc sc') (λ f _, cause f) s1)
      as Hout.
    { eapply wp_mono; [apply (output_root_cause s1 (abs sc) A ui); try done| |done].
      - congruence.
      - intros [] s3 H3. exact (Appended_trans _ _ _ Happ1 H3). }
    destruct (last A) as [p|] eqn:Hp; [|apply wp_ret; exact Hout].
    apply last_Some in Hp as [A' ->].
    assert (p ∈ astack (abs sc)) as HpT.
    { rewrite HAT, !elem_of_app, list_elem_of_singleton. left. by right. }
    destruct (stack_valid _ HI p) as [vp Hvp]; [by apply (i_ain _ HI)|].
    destruct (abs_lookup_inv _ _ _ _ Hvp) as (pu & Hpu & ->).
    apply wp_bind. eapply wp_get_unit; [exact Hu1|].
    apply wp_bind. eapply wp_get_unit; [exact Hpu|].
    rewrite decide_False; [apply wp_ret; exact Hout|].
    pose proof (astack_top _ HI _ _ p HAT) as Hlt.
    pose proof (i_low_le _ HI p (i_ain _ HI _ HpT)) as Hle.
    rewrite (low_abs _ _ _ _ Hpu) in Hle. rewrite (ord_abs _ _ _ _ Hpu), Hord in Hlt.
    rewrite (ord_abs _ _ _ _ Hpu) in Hle.
    assert (scc_ord_ pu < scc_ord_ u); [|lia].
    apply Hlt. rewrite elem_of_app, list_elem_of_singleton. by right.
  - (* not the root *)
    assert (low (abs sc) ui ≠ ord (abs sc) ui) as HnrT by congruence.
    pose proof (complete_has_parent _ _ _ HI HAT HnrT) as HAne.
    destruct (last A) as [p|] eqn:Hp; [|by apply last_None in Hp].
    apply last_Some in Hp as [A' ->].
    assert (p ∈ astack (abs sc)) as HpT.
    { rewrite HAT, !elem_of_app, list_elem_of_singleton. left. by right. }
    assert (p ∈ sstack (abs sc)) as HpS by (by apply (i_ain _ HI)).
    destruct (stack_valid _ HI p HpS) as [vp Hvp].
    destruct (abs_lookup_inv _ _ _ _ Hvp) as (pu & Hpu & ->).
    assert (p ≠ ui) as Hpne.
    { intros ->. pose proof (astack_top _ HI _ _ ui HAT) as Hlt.
      assert (ord (abs sc) ui < ord (abs sc) ui); [|lia].
      apply Hlt. rewrite elem_of_app, list_elem_of_singleton. by right. }
    apply wp_bind. eapply wp_get_unit; [exact Hu1|].
    apply wp_bind. eapply wp_get_unit; [exact Hpu|].
    destruct (decide (scc_lowlink_ u < scc_lowlink_ pu)) as [Hlt|Hge].
    + apply wp_bind, wp_modify.
      set (s2 := set_units (alter (set_lowlink (scc_lowlink_ u)) p (units_ s1)) s1).
      assert (units_ s2 !! ui = Some u) as Hu2.
      { unfold s2. simpl. by rewrite list_lookup_alter_ne. }
      destruct (is_data u) eqn:Hdata.
      * destruct id as [i|]; [|by destruct (app_cons_not_nil A' [] p); rewrite Hid].
        unfold illegal_recursive_reference, throw. apply wp_fail. simpl.
        apply (data_cycle_initial (abs sc) HI).
        apply (cause_complete (abs sc) (A' ++ [p]) ui HI HAT).
        -- rewrite (is_fun_abs _ _ _ _ Hu). congruence.
        -- pose proof (i_low_le _ HI ui Hui). lia.
      * apply wp_ret. eapply output_nonroot_spec; [exact Hu2|done|].
        by apply Appended_same.
    + apply wp_ret. by eapply output_nonroot_spec.
Qed.

(** *** One level of [analyze_unit] *)

Lemma step_cause F rec :
  rec_spec NDEBUG Parent parent_lookup F rec → rec_cause rec →
  rec_cause (analyze_unit_step NDEBUG parent_lookup rec).
Proof using Hwanted.
  intros Hrec Hcause ui id sc HI Hh [u Hu] Hcall Hid. unfold analyze_unit_step.
  apply wp_bind. eapply wp_get_unit; [exact Hu|].
  pose proof (state_of_abs _ _ _ _ Hu) as Hst.
  destruct (state_ u) eqn:Hsu.
  - (* first visit *)
    apply wp_bind, wp_get. unfold update_unit at 1.
    apply wp_bind, wp_modify, wp_bind, wp_modify, wp_bind, wp_modify, wp_bind, wp_modify.
    match goal with |- wp _ _ _ ?s => set (s1 := s) end.
    set (u1 := set_scc (scc_count_ sc) (scc_count_ sc) (set_state k_analysis_in_progress u)).
    assert (abs s1 = t_discover ui (abs sc)) as Habs1
      by (etrans; [|apply abs_discover]; reflexivity).
    assert (Inv s1) as HI1 by (unfold Inv; rewrite Habs1; by apply discover_inv).
    assert (analysis_stack_ s1 = analysis_stack_ sc ++ [ui]) as HA1 by done.
    assert (units_ s1 !! ui = Some u1) as Hu1.
    { unfold s1. simpl. by rewrite list_lookup_alter_eq, Hu. }
    assert (Appended sc s1) as Happ1 by (by apply Appended_same).
    assert (∀ i, i ∈ ids_of (def_ u) → may_look_up Parent s1 i) as Hmay.
    { intros i Hi b Hb p Hp. change (last (analysis_stack_ s1) = Some p) in Hp.
      rewrite HA1, last_snoc in Hp. injection Hp as <-.
      exists (view u1), i, b. split_and!; [by apply abs_lookup|done|done|done]. }
    assert (∀ i, i ∈ ids_of (def_ u) → wanted i) as Hwant.
    { intros i Hi.
      destruct (same_static_lookup _ _ ui (view u)
                  (same_static_sym _ _ (e_static _ (i_emitted _ HI))))
        as (v0 & Hv0 & Hst0); [by apply abs_lookup|].
      apply v_static_inv in Hst0 as (_ & _ & _ & Hids).
      apply (Hwanted ui v0 i Hv0). by rewrite Hids. }
    apply wp_bind.
    assert (home s1) as Hh1 by exact Hh.
    match goal with |- wp ?m _ _ _ =>
      assert (wp m (λ _ s2, (Inv s2 ∧ Frame s1 s2) ∧ Appended s1 s2 ∧
                            ∀ u2, units_ s2 !! ui = Some u2 → def_linked (def_ u2))
                (λ f _, cause f) s1) as Hbody end.
    { destruct (is_data u) eqn:Hdata.
      - apply wp_bind.
        eapply wp_mono;
          [apply (wp_conj _ _ _ _ _ _
                    (Definition_analyze_spec NDEBUG Parent parent_lookup F
                       (lookup parent_lookup rec) (def_ u) s1
                       (λ i s H1 H2, lookup_spec NDEBUG Parent parent_lookup F rec Hrec
                                       i s H1 H2) HI1 Hmay)
                    (Definition_analyze_cause F lk (lookup parent_lookup rec) (def_ u) s1
                       (λ i s H1 H2, lookup_spec NDEBUG Parent parent_lookup F rec Hrec
                                       i s H1 H2)
                       (λ i s H1 H2 H3 H4, lookup_cause rec Hcause i s H1 H2 H3 H4)
                       HI1 Hh1 Hmay Hwant))
          | |by intros f s [_ ?]].
        intros d' s2 [(HI2 & HF2 & Hl & Hd1 & Hd2 & Hd3 & Hd4) [HA2 Hrel]]. simpl.
        apply wp_modify.
        pose proof (set_def_neutral _ s1 s2 ui u1 d' Hu1 (f_mono _ _ _ HF2) Hd1 Hd2 Hd3 Hd4)
          as Habs.
        split_and!.
        + unfold Inv. by rewrite Habs.
        + destruct HF2. split; try done. by rewrite Habs.
        + eapply Appended_trans; [exact HA2|]. by apply Appended_same.
        + intros u2 Hu2. simpl in Hu2. rewrite list_lookup_alter_eq in Hu2.
          destruct (units_ s2 !! ui) as [u0|]; [|done]. simpl in Hu2.
          injection Hu2 as <-. exact Hrel.
      - apply wp_bind, wp_get. apply wp_bind.
        eapply wp_mono;
          [apply (wp_conj _ _ _ _ _ _
                    (Definition_analyze_spec NDEBUG Parent parent_lookup F
                       (Function_Environ_single_lookup parent_lookup rec ui) (def_ u) s1
                       (λ i s H1 H2, Function_Environ_single_lookup_spec NDEBUG Parent
                                       parent_lookup F rec Hrec ui i s H1 H2) HI1 Hmay)
                    (Definition_analyze_cause F (λ _ _, True)
                       (Function_Environ_single_lookup parent_lookup rec ui) (def_ u) s1
                       (λ i s H1 H2, Function_Environ_single_lookup_spec NDEBUG Parent
                                       parent_lookup F rec Hrec ui i s H1 H2)
                       (λ i s H1 H2 H3 H4, Function_Environ_single_lookup_cause rec Hcause
                                             ui i s H1 H2 H3 H4) HI1 Hh1 Hmay Hwant))
          | |by intros f s [_ ?]].
        intros d' s2 [(HI2 & HF2 & Hl & Hd1 & Hd2 & Hd3 & Hd4) [HA2 _]]. simpl.
        apply wp_bind, wp_modify, wp_modify.
        pose proof (set_def_neutral _ s1 s2 ui u1 d' Hu1 (f_mono _ _ _ HF2) Hd1 Hd2 Hd3 Hd4)
          as Habs.
        match goal with |- (Inv ?s ∧ _) ∧ _ =>
          assert (abs s = abs s2) as Habs' by exact Habs end.
        assert (is_data_def d' = false) as Hfun.
        { rewrite Hd1. exact Hdata. }
        split_and!.
        + unfold Inv. by rewrite Habs'.
        + destruct HF2. split; try done. by rewrite Habs'.
        + eapply Appended_trans; [exact HA2|]. by apply Appended_same.
        + intros u2 Hu2. simpl in Hu2. rewrite list_lookup_alter_eq in Hu2.
          destruct (units_ s2 !! ui) as [u0|]; [|done]. simpl in Hu2.
          injection Hu2 as <-. simpl. by destruct d'. }
    eapply wp_mono; [exact Hbody| |done].
    intros [] s2 [[HI2 HF2] [HA2 Hlinked]].
    eapply wp_mono; [apply (finish_cause s2 (analysis_stack_ sc) ui id)| |done].
    + done.
    + by rewrite (f_astack _ _ _ HF2).
    + done.
    + by apply (home_Frame s1 s2).
    + done.
    + intros [] s3 HA3.
      exact (Appended_trans _ _ _ Happ1 (Appended_trans _ _ _ HA2 HA3)).
  - (* a unit whose analysis is in progress *)
    assert (ui ∈ sstack (abs sc)) as Hui by (by apply (i_stack _ HI)).
    destruct (i_anc _ HI _ Hui) as (a & Ha & _).
    assert (analysis_stack_ sc ≠ []) as Hne.
    { intros Hnil. simpl in Ha. rewrite Hnil in Ha. by apply elem_of_nil in Ha. }
    destruct (last (analysis_stack_ sc)) as [p|] eqn:Hp; [|by apply last_None in Hp].
    pose proof (Hcall p Hp) as Hedge.
    pose proof Hp as Hp'. apply last_Some in Hp' as [A HA].
    destruct (is_data u) eqn:Hdata.
    { destruct id as [i|]; [|by destruct Hne; apply Hid].
      apply wp_fail. simpl. apply (data_cycle_initial (abs sc) HI).
      apply (cause_in_progress (abs sc) A p ui HI HA Hst); [|done].
      rewrite (is_fun_abs _ _ _ _ Hu). congruence. }
    apply wp_bind, wp_get. apply wp_bind, wp_assert; [intros _|by intros _ _ [=]].
    unfold back. rewrite Hp. apply wp_modify. by apply Appended_same.
  - (* an initialized unit *)
    apply wp_ret. apply Appended_refl.
Qed.

Lemma analyze_unit_cause fuel : rec_cause (analyze_unit NDEBUG parent_lookup fuel).
Proof using Hwanted.
  induction fuel as [|fuel IH].
  - intros ui id sc _ _ _ _ _. simpl. unfold out_of_fuel. by apply wp_fail.
  - simpl. apply (step_cause fuel); [apply analyze_unit_spec|done].
Qed.

End Walk.

Arguments cause {Hinitial}.
Arguments Appended NDEBUG {Parent} parent_lookup {Hinitial}.
Arguments setter NDEBUG {Parent} parent_lookup {Hinitial}.
Arguments links {Parent} parent_lookup {Hinitial}.
Arguments owned {Hinitial}.
Arguments home {Parent}.

(** ** The analysis of a definition *)

Section Top.
Variable NDEBUG : bool.
Variable Parent : Type.
Variable parent_lookup : Identifier → Parent → option Meaning * Parent.
Local Abbreviation St := (t Parent).
Local Abbreviation dep := Properties.dep.

(** The two kinds of cycle, among the unitary definitions of a
    definition. *)
Definition data_depends_on_itself (ds : list Unitary_Definition) : Prop :=
  ∃ x dx, ds !! x = Some dx ∧ is_data_def dx = true ∧ tc (dep ds) x x.

Definition mutually_dependent (ds : list Unitary_Definition) : Prop :=
  ∃ u v, u ≠ v ∧ rtc (dep ds) u v ∧ rtc (dep ds) v u.

(** Two function definitions that depend on each other. *)
Definition functions_mutually_dependent (ds : list Unitary_Definition) : Prop :=
  ∃ u v du dv, u ≠ v ∧ ds !! u = Some du ∧ ds !! v = Some dv ∧
               is_data_def du = false ∧ is_data_def dv = false ∧
               rtc (dep ds) u v ∧ rtc (dep ds) v u.

Lemma functions_mutually_dependent_weaken ds :
  functions_mutually_dependent ds → mutually_dependent ds.
Proof. intros (u & v & _ & _ & Hne & _ & _ & _ & _ & H1 & H2). by exists u, v. Qed.

(** The names that a definition refers to, in its unitary definitions and
    in its bare statements. *)
Definition mentioned (def : Abstract_Definition) (id : Identifier) : Prop :=
  (∃ d, d ∈ unitary_defs def ∧ id ∈ ids_of d) ∨
  (∃ ph, ph ∈ statements def ∧ id ∈ ph_ids ph).

Definition rejected_for (def : Abstract_Definition) (f : Failure) : Prop :=
  match f with
  | Throws (Illegal_recursive_reference _) | Throws (Recursive_data_definition _) =>
      data_depends_on_itself (unitary_defs def)
  | Throws (Not_defined id) => mentioned def id
  | Assertion_failed line => line = 230 → functions_mutually_dependent (unitary_defs def)
  | _ => True
  end.

Lemma tc_first {A} (R : relation A) x y : tc R x y → ∃ z, R x z.
Proof. intros [? ? ?|? ? ? ? _]; eauto. Qed.

Lemma cause_rejected def (sc1 : St) f :
  WF (abs sc1) → shapes sc1 = shape <$> unitary_defs def →
  cause (Hinitial := abs sc1) (mentioned def) f → rejected_for def f.
Proof.
  intros Hwf Hsh.
  assert (data_cycle (abs sc1) → data_depends_on_itself (unitary_defs def)) as Hdata.
  { intros (x & Hc & Hd).
    assert (∃ z, edge (abs sc1) x z) as (z & vx & _ & _ & Hvx & _).
    { by eapply tc_first. }
    apply abs_lookup_inv in Hvx as (ux & Hux & ->).
    destruct (Properties.shapes_lookup _ _ _ _ Hsh Hux) as (dx & Hdx & Hs).
    injection Hs as Hs _ _.
    exists x, dx. split_and!; [done| |].
    - rewrite Hs. rewrite (is_fun_abs _ _ _ _ Hux) in Hd. unfold is_data in Hd.
      by destruct (is_data_def (def_ ux)).
    - revert Hc. apply (tc_congruence (λ z, z)). intros ? ?.
      by apply Properties.edge_dep. }
  assert (mutual (abs sc1) → functions_mutually_dependent (unitary_defs def)) as Hmut.
  { intros (u & v & Hne & Hu & Hv & H1 & H2).
    assert (∀ x, is_fun (abs sc1) x →
              ∃ dx, unitary_defs def !! x = Some dx ∧ is_data_def dx = false) as Hfun.
    { intros x Hx. unfold is_fun in Hx.
      destruct (views (abs sc1) !! x) as [vx|] eqn:Hvx; [|done].
      apply abs_lookup_inv in Hvx as (ux & Hux & ->).
      destruct (Properties.shapes_lookup _ _ _ _ Hsh Hux) as (dx & Hdx & Hs).
      injection Hs as Hs _ _. exists dx. split; [done|].
      rewrite Hs. simpl in Hx. unfold is_data in Hx. by injection Hx. }
    destruct (Hfun u Hu) as (du & Hdu & Hfu). destruct (Hfun v Hv) as (dv & Hdv & Hfv).
    exists u, v, du, dv.
    split_and!; try done; by apply (Properties.reach_dep _ _ _ _ Hwf Hsh). }
  unfold cause. destruct f as [[ | | | ]|line| |]; simpl; try done.
  intros H Hl. by apply Hmut, H.
Qed.

Lemma mentioned_units def (sc1 : St) x vx id :
  shapes sc1 = shape <$> unitary_defs def →
  views (abs sc1) !! x = Some vx → id ∈ v_ids vx → mentioned def id.
Proof.
  intros Hsh Hvx Hid. apply abs_lookup_inv in Hvx as (ux & Hux & ->).
  destruct (Properties.shapes_lookup _ _ _ _ Hsh Hux) as (dx & Hdx & Hs).
  injection Hs as _ _ Hs. left. exists dx. split; [by eapply list_elem_of_lookup_2|].
  simpl in Hid. by rewrite Hs.
Qed.

Lemma omap_setters {G : Initial} tm ms (ops : list Meaning) :
  Forall (setter NDEBUG parent_lookup tm ms) ops → omap statement_of ops = [].
Proof.
  induction 1 as [|op ops [Hop _] _ IH]; [done|]. simpl. by rewrite Hop.
Qed.

(** An action that writes one slot at most, in a build with assertions. *)
Definition small (op : Meaning) : Prop := NDEBUG = false → length (writes op) ≤ 1.

(** An action whose references are linked, and which is the action of a
    statement, a grouped setter of functions or the setter of a unit. *)
Definition fine (T : Tarjan) (tm : bool) (ms : option slot_t) (op : Meaning) : Prop :=
  links parent_lookup (Hinitial := T) tm ms op ∧
  (is_Some (statement_of op) ∨ owned (Hinitial := T) op).

Lemma fine_static T T' tm ms op : same_static T T' → fine T tm ms op → fine T' tm ms op.
Proof.
  intros Hs [Hl Ho]. split.
  - unfold links in *. destruct Hs as [_ Hd]. unfold initial in *. by rewrite Hd.
  - destruct Ho as [?|[?|(x & vx & Hvx & Hw & Hi)]]; [by left|right; by left|].
    right. right. destruct (same_static_lookup _ _ _ _ Hs Hvx) as (vx' & Hvx' & Hst).
    apply v_static_inv in Hst as (_ & _ & Hsl & Hids).
    exists x, vx'. unfold initial in *. rewrite Hsl, Hids. done.
Qed.

Lemma setter_fine {G : Initial} tm ms op :
  setter NDEBUG parent_lookup tm ms op → fine G tm ms op.
Proof. intros (_ & Hl & Ho & _). split; [done|by right]. Qed.

(** A successful analysis has emitted the actions of the statements in the
    order of the statements, and the references of its actions are linked;
    one that fails for recursion or for an undefined name has a reason in the
    definition. *)
Lemma analyze_outcome def p tm ms fn fm :
  wp (analyze NDEBUG parent_lookup def)
     (λ _ sc', omap statement_of (actions_ sc') = statements def ∧
               Forall small (actions_ sc') ∧
               Forall (fine (abs sc') tm ms) (actions_ sc'))
     (λ f _, rejected_for def f)
     (new_scope p tm ms fn fm).
Proof.
  unfold analyze. apply wp_bind, wp_assert; [intros _|by intros _ _ [=]].
  apply wp_bind, wp_modify. apply wp_bind.
  eapply wp_mono; [apply add_to_scope_spec, Reg_set_source, Reg_new| |].
  2:{ by intros f sc' (n & -> & Hnd). }
  intros [] sc1 (HR & Hsh & Hph & Hk). simpl in Hsh, Hph.
  apply wp_bind, wp_get.
  pose (G := abs sc1 : Initial).
  assert (Inv (Hinitial := G) sc1) as HI1.
  { apply initial_inv; [done|apply (r_wf _ _ HR)| |apply (r_sstack _ _ HR)
                       |apply (r_astack _ _ HR)|apply (r_acts _ _ HR)].
    intros i v Hv. apply abs_lookup_inv in Hv as (u & Hu & ->). simpl.
    by eapply r_fresh. }
  pose proof (analyze_unit_spec NDEBUG Parent parent_lookup (Hinitial := G) (fuel_of sc1))
    as Hrec.
  pose proof (analyze_unit_cause NDEBUG Parent parent_lookup (Hinitial := G)
                (mentioned def) (λ x vx id, mentioned_units def sc1 x vx id Hsh)
                tm ms (fuel_of sc1)) as Hcause.
  assert (home tm ms sc1) as Hh1.
  { unfold kept in Hk. simpl in Hk. injection Hk as Ht Hm _. by split. }
  assert (∀ f, cause (Hinitial := G) (mentioned def) f → rejected_for def f) as Hconv.
  { intros f. apply (cause_rejected def sc1); [apply (r_wf _ _ HR)|done]. }
  (* the bare statements *)
  assert (∀ phs (s : St), Inv (Hinitial := G) s → analysis_stack_ s = [] →
            home tm ms s →
            (∀ a, a ∈ phs → a ∈ statements def) →
            wp (forM_ phs (λ a,
                  let* op := analyze_op
                               (lookup parent_lookup
                                  (analyze_unit NDEBUG parent_lookup (fuel_of sc1))) a in
                  push_action op))
               (λ _ s', (Inv (Hinitial := G) s' ∧ analysis_stack_ s' = [] ∧ Frame s s') ∧
                        ∃ ops, actions_ s' = actions_ s ++ ops ∧
                               omap statement_of ops = phs ∧ Forall small ops ∧
                               Forall (fine G tm ms) ops)
               (λ f _, cause (Hinitial := G) (mentioned def) f) s) as Hloop.
  { induction phs as [|a phs IH]; intros s HI HA Hh Hsub; simpl.
    - apply wp_ret. split; [split_and!; [done|done|apply Frame_refl]|].
      exists []. by rewrite app_nil_r.
    - apply wp_bind, wp_bind. unfold analyze_op. apply wp_bind.
      assert (∀ id, id ∈ ph_ids a → may_look_up Parent s id) as Hmay.
      { intros id _ b _ q Hq. simpl in Hq. by rewrite HA in Hq. }
      assert (∀ id, id ∈ ph_ids a → mentioned def id) as Hment.
      { intros id Hid. right. exists a. split; [|done]. apply Hsub. by left. }
      eapply wp_mono;
        [apply (wp_conj _ _ _ _ _ _
                  (mapM_lookup_spec NDEBUG Parent parent_lookup (Hinitial := G)
                     (fuel_of sc1) _ (ph_ids a) s
                     (λ i s' H1 H2, lookup_spec NDEBUG Parent parent_lookup _ _ Hrec
                                      i s' H1 H2) HI Hmay)
                  (mapM_cause NDEBUG Parent parent_lookup (Hinitial := G)
                     (mentioned def) tm ms (fuel_of sc1)
                     (linked parent_lookup tm ms (dict G)) _ (ph_ids a) s
                     (λ i s' H1 H2, lookup_spec NDEBUG Parent parent_lookup _ _ Hrec
                                      i s' H1 H2)
                     (λ i s' H1 H2 H3 H4, lookup_cause NDEBUG Parent parent_lookup
                                            (mentioned def) tm ms _ Hcause i s' H1 H2 H3 H4)
                     HI Hh Hmay Hment))
        | |by intros f s' [_ ?]].
      intros m_s s' [(HI' & HF' & Hl) [(ops1 & Hact1 & Hset1) Hlinks]]. simpl.
      apply wp_ret. unfold push_action. apply wp_modify.
      assert (analysis_stack_ s' = []) as HA' by (by rewrite (f_astack _ _ _ HF')).
      set (op := Generic_Op a m_s).
      set (s'' := set_actions (push_back (actions_ s') op) s').
      assert (abs s'' = t_push op (abs s')) as Habs by done.
      assert (Inv (Hinitial := G) s'') as HI''.
      { unfold Inv. rewrite Habs. apply push_inv; [done|].
        intros id b Hid Hb. apply (looked_top_analyzed (abs s') _ HA').
        apply (Hl id Hid b).
        pose proof (m_dict _ _ (f_mono _ _ _ HF')) as Hd. simpl in Hd, Hb.
        by rewrite <- Hd. }
      assert (Frame s s'') as HF''.
      { eapply Frame_trans; [exact HF'|].
        apply Frame_intro; [|done|done]. rewrite Habs. apply push_Mono. }
      eapply wp_mono;
        [apply (IH s'' HI'' HA');
           [by apply (home_Frame _ tm ms s s'')|intros ? ?; apply Hsub; by right]| |done].
      intros [] s3 [(HI3 & HA3 & HF3) (ops3 & Hact3 & Hom3 & Hsm3 & Hfine3)].
      split; [split_and!; [done|done|by eapply Frame_trans]|].
      exists (ops1 ++ [op] ++ ops3). split_and!.
      + rewrite Hact3. unfold s''. simpl. unfold push_back. rewrite Hact1.
        by rewrite <- !app_assoc.
      + rewrite !omap_app, (omap_setters _ _ _ Hset1). simpl. by rewrite Hom3.
      + apply Forall_app. split; [|apply Forall_app; split; [|done]].
        * eapply Forall_impl; [exact Hset1|]. by intros ? (_ & _ & _ & ?).
        * constructor; [|done]. intros _. simpl. lia.
      + apply Forall_app. split; [|apply Forall_app; split; [|done]].
        * eapply Forall_impl; [exact Hset1|]. intros ? ?. by eapply setter_fine.
        * constructor; [|done]. split; [exact Hlinks|]. left. by eexists. }
  apply wp_bind.
  eapply wp_mono; [apply (Hloop (action_phrases_ sc1) sc1 HI1 (r_astack _ _ HR) Hh1);
                     intros a Ha; by rewrite <- Hph|
                  |intros f s' Hc; by apply Hconv].
  intros [] s2 [(HI2 & HA2 & HF2) (ops2 & Hact2 & Hom2 & Hsm2 & Hfine2)]. simpl.
  assert (home tm ms s2) as Hh2 by (by apply (home_Frame _ tm ms sc1 s2)).
  (* the units that nothing has looked up *)
  apply wp_bind.
  eapply wp_mono;
    [apply (wp_forM _ _ (λ s : St, Inv (Hinitial := G) s ∧ analysis_stack_ s = [])
              (λ s s', Frame s s' ∧ Appended NDEBUG parent_lookup tm ms s s') (λ _ _, True)
              (λ _ f _, cause (Hinitial := G) (mentioned def) f))| |].
  - intros s. split; [apply Frame_refl|apply Appended_refl].
  - intros s1 s3 s4 [? ?] [? ?]. split; [by eapply Frame_trans|by eapply Appended_trans].
  - done.
  - done.
  - intros ui s Hui [HI HA] [HF HAp]. unfold force_unit.
    assert (is_Some (units_ s !! ui)) as [u Hu].
    { apply lookup_lt_is_Some. apply elem_of_seq in Hui.
      pose proof (m_length _ _ (f_mono _ _ _ (Frame_trans _ _ _ _ HF2 HF))) as Hlen.
      simpl in Hlen. rewrite !length_fmap in Hlen. lia. }
    apply wp_bind. eapply wp_get_unit; [exact Hu|].
    destruct (decide (state_ u = k_not_analyzed)) as [Hna|Hna].
    + assert (called_from_top (abs s) ui) as Hcall.
      { intros q Hq. simpl in Hq. by rewrite HA in Hq. }
      eapply wp_mono;
        [apply (wp_conj _ _ _ _ _ _
                  (Hrec ui None s HI (ex_intro _ u Hu) Hcall (λ _, HA))
                  (Hcause ui None s HI (home_Frame _ tm ms s2 s HF Hh2)
                     (ex_intro _ u Hu) Hcall (λ _, HA)))
        | |by intros f s' [_ ?]].
      intros [] s' [(HI' & HF' & Hl) HAp'].
      assert (analysis_stack_ s' = []) as HA' by (by rewrite (f_astack _ _ _ HF')).
      split_and!; done.
    + apply wp_ret. split_and!; [done|done|apply Frame_refl|apply Appended_refl|done].
  - done.
  - intros [] s3 ([HI3 HA3] & [HF3 (ops3 & Hact3 & Hset3)] & _). simpl.
    apply wp_bind, wp_modify.
    assert (omap statement_of (actions_ s3) = statements def ∧
            Forall small (actions_ s3) ∧
            Forall (fine (abs s3) tm ms) (actions_ s3)) as Hfin.
    { rewrite Hact3, Hact2, (r_acts _ _ HR). simpl. split_and!.
      - rewrite omap_app, (omap_setters _ _ _ Hset3), app_nil_r, Hom2. exact Hph.
      - apply Forall_app. split; [done|].
        eapply Forall_impl; [exact Hset3|]. by intros ? (_ & _ & _ & ?).
      - eapply Forall_impl; [|intros op; apply (fine_static G (abs s3));
                               apply (e_static _ (i_emitted _ HI3))].
        apply Forall_app. split; [done|].
        eapply Forall_impl; [exact Hset3|]. intros ? ?. by eapply setter_fine. }
    destruct (target_is_module_ sc1); [apply wp_modify|apply wp_ret]; exact Hfin.
  - intros f s' Hc. by apply Hconv.
Qed.

Lemma two_elements {A} (l : list A) x y : x ∈ l → y ∈ l → x ≠ y → 2 ≤ length l.
Proof.
  intros Hx Hy Hne. destruct l as [|a [|b l]]; simpl; [|exfalso|lia].
  - by apply elem_of_nil in Hx.
  - apply list_elem_of_singleton in Hx, Hy. congruence.
Qed.

Lemma dep_valid ds u v : u ≠ v → rtc (dep ds) u v → u < length ds.
Proof.
  intros Hne Hr. destruct Hr as [|u w v Hd _]; [done|]. by eapply Properties.dep_lt_l.
Qed.

(** ** The outcome of the analysis *)

(** An exception for illegal recursion is justified: when the analysis of a
    definition in a recursive scope throws "illegal recursive reference" or
    "recursive data definition", a data definition of the scope depends on
    itself, directly or through other definitions. *)
Theorem recursion_errors_are_justified def p tm ms fn fm (sc' : St) e :
  analyze NDEBUG parent_lookup def (new_scope p tm ms fn fm) = (Fails (Throws e), sc') →
  (∃ id, e = Illegal_recursive_reference id) ∨
    (∃ src, e = Recursive_data_definition src) →
  data_depends_on_itself (unitary_defs def).
Proof.
  intros Hrun He.
  pose proof (wp_fails _ _ _ _ _ _ (analyze_outcome def p tm ms fn fm) Hrun) as Hc.
  by destruct He as [[id ->]|[src ->]].
Qed.

(** An exception for an undefined name is justified: when the analysis of a
    definition in a recursive scope throws "not defined" for a name, the
    definition refers to that name, in a unitary definition or in a bare
    statement, no definition of the scope defines it, and the enclosing
    environment does not know it. *)
Theorem undefined_name_errors_are_justified def p tm ms fn fm (sc' : St) id :
  analyze NDEBUG parent_lookup def (new_scope p tm ms fn fm)
  = (Fails (Throws (Not_defined id)), sc') →
  mentioned def id ∧ (atom_ id ∉ def_names (unitary_defs def)) ∧
  ∃ q, (parent_lookup id q).1 = None.
Proof.
  intros Hrun.
  pose proof (wp_fails _ _ _ _ _ _ (analyze_outcome def p tm ms fn fm) Hrun) as Hc.
  pose proof (wp_fails _ _ _ _ _ _
                (analyze_spec NDEBUG Parent parent_lookup def p tm ms fn fm) Hrun) as Hf.
  destruct Hf as (HE & Hs & Hnone & q & Hq). split_and!; [done| |by exists q].
  intros Hin. destruct (Properties.bound_names _ _ _ (e_wf _ HE) Hs Hin) as [b Hb].
  congruence.
Qed.

(** The assertion of line 230 fails only in a build with assertions and only
    where two definitions of the scope depend on each other. *)
Theorem assertion_230_is_mutual_recursion def p tm ms fn fm (sc' : St) :
  analyze NDEBUG parent_lookup def (new_scope p tm ms fn fm)
  = (Fails (Assertion_failed 230), sc') →
  NDEBUG = false ∧ mutually_dependent (unitary_defs def).
Proof.
  intros Hrun.
  pose proof (wp_fails _ _ _ _ _ _ (analyze_outcome def p tm ms fn fm) Hrun) as Hc.
  pose proof (wp_fails _ _ _ _ _ _
                (analyze_spec NDEBUG Parent parent_lookup def p tm ms fn fm) Hrun) as Hf.
  destruct Hf as [HN _]. split; [done|].
  by apply functions_mutually_dependent_weaken, Hc.
Qed.

(** In a build with assertions the analysis succeeds only where no two
    definitions of the scope depend on each other: every grouped setter it
    emits is the setter of one function. *)
Theorem debug_build_rejects_mutual_recursion def p tm ms fn fm (sc' : St) :
  NDEBUG = false →
  analyze NDEBUG parent_lookup def (new_scope p tm ms fn fm) = (Returns tt, sc') →
  (∀ u v, rtc (dep (unitary_defs def)) u v → rtc (dep (unitary_defs def)) v u → u = v) ∧
  (∀ op, op ∈ actions_ sc' → length (writes op) ≤ 1).
Proof.
  intros HN Hrun.
  destruct (wp_returns _ _ _ _ _ _ (analyze_outcome def p tm ms fn fm) Hrun)
    as (_ & Hsmall & _).
  assert (∀ op, op ∈ actions_ sc' → length (writes op) ≤ 1) as Hone.
  { intros op Hop. by apply (proj1 (Forall_forall _ _) Hsmall op Hop). }
  split; [|done]. intros u v Huv Hvu.
  destruct (decide (u = v)) as [|Hne]; [done|exfalso].
  pose proof (Properties.analyze_returns _ _ _ _ _ _ _ _ _ Hrun) as Hok.
  pose proof (a_ordered _ _ _ _ Hok) as HE. unfold Ordered in HE.
  pose proof (e_wf _ HE) as Hwf. pose proof (a_shapes _ _ _ _ Hok) as Hs.
  pose proof (Properties.analyzed_state _ _ _ _ Hok (dep_valid _ _ _ Hne Huv)) as Hau.
  pose proof (Properties.analyzed_state _ _ _ _ Hok
                (dep_valid _ _ _ (not_eq_sym Hne) Hvu)) as Hav.
  apply (Properties.reach_dep _ _ _ _ Hwf Hs) in Huv, Hvu.
  destruct (analyzed_reach (Hinitial := abs sc') _ _ _ HE Hau Huv) as [_ H1].
  destruct (analyzed_reach (Hinitial := abs sc') _ _ _ HE Hav Hvu) as [_ H2].
  pose proof Hau as Hau'. apply state_of_Some in Hau' as (vu & Hvu' & Hsu).
  pose proof Hav as Hav'. apply state_of_Some in Hav' as (vv & Hvv & Hsv).
  assert (∀ x vx, views (abs sc') !! x = Some vx → v_state vx = k_analyzed →
            ∃ i, writer (abs sc') (slot (abs sc') x) i) as Hwr.
  { intros x vx Hvx Hsx.
    destruct (count_writes_pos (v_slot vx) (actions_ sc')) as (i & a & Hi & Hin).
    - pose proof (e_written _ HE _ _ Hvx) as Hc. simpl in Hc. rewrite Hc.
      rewrite decide_True by done. lia.
    - exists i, a. by rewrite (slot_lookup _ _ _ Hvx). }
  destruct (Hwr u vu Hvu' Hsu) as (i & Hi). destruct (Hwr v vv Hvv Hsv) as (j & Hj).
  pose proof (H1 i j Hi Hj). pose proof (H2 j i Hj Hi). assert (i = j) as -> by lia.
  destruct Hi as (a & Ha & Hina). destruct Hj as (b & Hb & Hinb).
  simpl in Ha, Hb. rewrite Ha in Hb. injection Hb as <-.
  assert (slot (abs sc') u ≠ slot (abs sc') v) as Hslots.
  { intros Heq. apply Hne. eapply (wf_slots _ Hwf u v vu vv); [done|done|].
    by rewrite <- (slot_lookup _ _ _ Hvu'), <- (slot_lookup _ _ _ Hvv). }
  pose proof (two_elements _ _ _ Hina Hinb Hslots).
  pose proof (Hone a (list_elem_of_lookup_2 _ _ _ Ha)). lia.
Qed.

(** The actions of the bare statements of a recursive scope are in the
    action list in the order of the statements, whatever setters the
    analysis has put between them. *)
Theorem statements_in_source_order def p tm ms fn fm (sc' : St) :
  analyze NDEBUG parent_lookup def (new_scope p tm ms fn fm) = (Returns tt, sc') →
  omap statement_of (actions_ sc') = statements def.
Proof.
  intros Hrun.
  by destruct (wp_returns _ _ _ _ _ _ (analyze_outcome def p tm ms fn fm) Hrun).
Qed.

(** In a recursive scope a reference sees every definition of the scope,
    wherever the definition is in the source.  After a successful analysis
    the dictionary binds the names of the definitions; every reference that
    an action holds is the reference to the slot of its name, when the scope
    defines the name, and otherwise what the enclosing environment says;
    every statement has its action; and every data definition has the action
    that writes its slot, with the references of the definition. *)
Theorem recursive_scope_sees_all_definitions def p tm ms fn fm (sc' : St) :
  analyze NDEBUG parent_lookup def (new_scope p tm ms fn fm) = (Returns tt, sc') →
  (∀ n, is_Some (dictionary_ sc' !! n) ↔ n ∈ def_names (unitary_defs def)) ∧
  (∀ op, op ∈ actions_ sc' →
     Forall2 (linked parent_lookup tm ms (dictionary_ sc'))
       (op_ids op) (Sequential_Scope_Order.meanings_of op)) ∧
  (∀ ph, ph ∈ statements def → ∃ ms', Generic_Op ph ms' ∈ actions_ sc') ∧
  (∀ x d, unitary_defs def !! x = Some d → is_data_def d = true →
     ∃ b op, dictionary_ sc' !! atom_ (name_of d) = Some b ∧ op ∈ actions_ sc' ∧
             writes op = [slot_index_ b] ∧ op_ids op = ids_of d).
Proof.
  intros Hrun.
  destruct (wp_returns _ _ _ _ _ _ (analyze_outcome def p tm ms fn fm) Hrun)
    as (Hom & _ & Hfine).
  pose proof (Properties.analyze_returns _ _ _ _ _ _ _ _ _ Hrun) as Hok.
  pose proof (a_ordered _ _ _ _ Hok) as HE. unfold Ordered in HE.
  pose proof (e_wf _ HE) as Hwf. pose proof (a_shapes _ _ _ _ Hok) as Hs.
  split_and!.
  - intros n. split; [|by apply (Properties.bound_names _ _ _ Hwf Hs)].
    intros [b Hb]. destruct (wf_dict _ Hwf n b Hb) as (v & Hv & Hn & _).
    apply abs_lookup_inv in Hv as (u & Hu & ->).
    destruct (Properties.shapes_lookup _ _ _ _ Hs Hu) as (d & Hd & Hsh).
    injection Hsh as _ Hname _. unfold def_names. apply list_elem_of_fmap.
    exists d. split; [|by eapply list_elem_of_lookup_2]. simpl in Hn. by rewrite Hname.
  - intros op Hop. by destruct (proj1 (Forall_forall _ _) Hfine op Hop) as [Hl _].
  - intros ph Hph. rewrite <- Hom in Hph.
    apply list_elem_of_omap in Hph as (op & Hop & Hst).
    destruct op; try done. injection Hst as ->. eauto.
  - intros x d Hd Hdata.
    destruct (Properties.shapes_lookup_inv _ _ _ _ Hs Hd) as (u & Hu & Hsh).
    injection Hsh as Hsd Hsn Hsi.
    pose proof (abs_lookup _ _ _ _ Hu) as Hv.
    assert (state_ u = k_analyzed) as Hst by (by eapply (a_all _ _ _ _ Hok)).
    destruct (count_writes_pos (slot_of (def_ u)) (actions_ sc')) as (i & a & Hi & Hin).
    { pose proof (e_written _ HE _ _ Hv) as Hc. simpl in Hc. rewrite Hc.
      rewrite decide_True by done. lia. }
    pose proof (list_elem_of_lookup_2 _ _ _ Hi) as Ha.
    destruct (proj1 (Forall_forall _ _) Hfine a Ha) as [_ Ho].
    pose proof (wf_units _ Hwf _ _ Hv) as Hb. simpl in Hb. rewrite Hsn in Hb.
    exists (mkBinding (slot_of (def_ u)) x), a. split_and!; [done|done| |].
    + destruct Ho as [[ph Hph]|[Hfs|(x' & vx' & Hvx' & Hw & _)]].
      * destruct a; try done. by apply elem_of_nil in Hin.
      * exfalso.
        assert (is_fun (abs sc') x) as Hfun.
        { apply (e_fun _ HE x i a); [|done| |done].
          - rewrite (state_of_abs _ _ _ _ Hu). by f_equal.
          - by rewrite (slot_lookup _ _ _ Hv). }
        rewrite (is_fun_abs _ _ _ _ Hu) in Hfun. unfold is_data in Hfun. congruence.
      * rewrite Hw in Hin. apply list_elem_of_singleton in Hin.
        rewrite Hw. simpl. by rewrite <- Hin.
    + destruct Ho as [[ph Hph]|[Hfs|(x' & vx' & Hvx' & Hw & Hids)]].
      * destruct a; try done. by apply elem_of_nil in Hin.
      * exfalso.
        assert (is_fun (abs sc') x) as Hfun.
        { apply (e_fun _ HE x i a); [|done| |done].
          - rewrite (state_of_abs _ _ _ _ Hu). by f_equal.
          - by rewrite (slot_lookup _ _ _ Hv). }
        rewrite (is_fun_abs _ _ _ _ Hu) in Hfun. unfold is_data in Hfun. congruence.
      * rewrite Hw in Hin. apply list_elem_of_singleton in Hin.
        assert (x = x') as <-.
        { eapply (wf_slots _ Hwf x x'); [exact Hv|exact Hvx'|]. simpl. done. }
        unfold initial in Hvx'. rewrite Hv in Hvx'. injection Hvx' as <-.
        rewrite Hids. simpl. done.
Qed.

(** The analysis of a definition in a recursive scope succeeds when the
    definition is of the recursive kind, the names it defines are distinct,
    every other name that it refers to is defined by the enclosing
    environment, no data definition depends on itself, and, in a build with
    assertions, no two definitions depend on each other.  The order of the
    definitions does not matter. *)
Theorem recursive_analysis_succeeds def p tm ms fn fm :
  NDEBUG = true ∨
    (def_kind def = k_recursive ∧ ¬ mutually_dependent (unitary_defs def)) →
  NoDup (def_names (unitary_defs def)) →
  (∀ id q, mentioned def id → atom_ id ∉ def_names (unitary_defs def) →
           is_Some (parent_lookup id q).1) →
  ¬ data_depends_on_itself (unitary_defs def) →
  ∃ sc', analyze NDEBUG parent_lookup def (new_scope p tm ms fn fm) = (Returns tt, sc').
Proof.
  intros Hbuild Hnd Hparent Hdata.
  destruct (analyze NDEBUG parent_lookup def (new_scope p tm ms fn fm))
    as [[[]|f] sc'] eqn:Hrun; [by eexists|exfalso].
  pose proof (wp_fails _ _ _ _ _ _ (analyze_outcome def p tm ms fn fm) Hrun) as Hc.
  pose proof (wp_fails _ _ _ _ _ _
                (analyze_spec NDEBUG Parent parent_lookup def p tm ms fn fm) Hrun) as Hf.
  destruct f as [[n|id|id|src]|line| |]; simpl in Hf, Hc; try done.
  - destruct Hf as (HE & Hs & Hnone & q & Hq).
    destruct (decide (atom_ id ∈ def_names (unitary_defs def))) as [Hin|Hout].
    + destruct (Properties.bound_names _ _ _ (e_wf _ HE) Hs Hin) as [b Hb]. congruence.
    + destruct (Hparent id q Hc Hout) as [m Hm]. congruence.
  - destruct Hf as [HN [->|[-> Hk]]].
    + destruct Hbuild as [?|[_ Hmut]]; [congruence|].
      by apply Hmut, functions_mutually_dependent_weaken, Hc.
    + destruct Hbuild as [?|[? _]]; congruence.
Qed.


End Top.

(** ** Examples *)

(** [a = b; f() = a + f(); f; b = 1; a;]: no two definitions depend on each
    other.  [f() = g() + a; g() = f(); a = 1; f;]: two functions that do.
    [a = b;] alone refers to a name that nothing defines. *)
Definition layered : Abstract_Definition :=
  Properties.program
    [Properties.data "a" ["b"]; Properties.func "f" ["a"; "f"]; Properties.stmt ["f"];
     Properties.data "b" []; Properties.stmt ["a"]].

Definition mutual_functions : Abstract_Definition :=
  Properties.program
    [Properties.func "f" ["g"; "a"]; Properties.func "g" ["f"]; Properties.data "a" [];
     Properties.stmt ["f"]].

Definition dangling : Abstract_Definition :=
  Properties.program [Properties.data "a" ["b"]].


Lemma recursion_errors_are_justified_witness :
  data_depends_on_itself (unitary_defs Properties.cyclic_data).
Proof.
  eapply (recursion_errors_are_justified true unit Properties.all_parent
            Properties.cyclic_data tt false None 0 0).
  - vm_compute. reflexivity.
  - left. eexists. reflexivity.
Defined.

Lemma undefined_name_errors_are_justified_witness :
  mentioned dangling (Properties.ident "b") ∧
  (atom_ (Properties.ident "b") ∉ def_names (unitary_defs dangling)) ∧
  ∃ q, (Properties.no_parent (Properties.ident "b") q).1 = None.
Proof.
  eapply (undefined_name_errors_are_justified true unit Properties.no_parent
            dangling tt false None 0 0).
  vm_compute. reflexivity.
Defined.

Lemma assertion_230_is_mutual_recursion_witness :
  false = false ∧ mutually_dependent (unitary_defs mutual_functions).
Proof.
  eapply (assertion_230_is_mutual_recursion false unit Properties.no_parent
            mutual_functions tt false None 0 0).
  vm_compute. reflexivity.
Defined.

Lemma debug_build_rejects_mutual_recursion_witness :
  ∃ sc', analyze false Properties.no_parent layered (new_scope tt false None 0 0)
         = (Returns tt, sc') ∧
    (∀ u v, rtc (Properties.dep (unitary_defs layered)) u v →
            rtc (Properties.dep (unitary_defs layered)) v u → u = v) ∧
    (∀ op, op ∈ actions_ sc' → length (writes op) ≤ 1).
Proof.
  eexists. split; [vm_compute; reflexivity|].
  apply (debug_build_rejects_mutual_recursion false unit Properties.no_parent
           layered tt false None 0 0).
  - reflexivity.
  - vm_compute. reflexivity.
Defined.

Lemma statements_in_source_order_witness :
  ∃ sc', analyze true Properties.no_parent layered (new_scope tt false None 0 0)
         = (Returns tt, sc') ∧
    omap statement_of (actions_ sc') = statements layered.
Proof.
  eexists. split; [vm_compute; reflexivity|].
  apply (statements_in_source_order true unit Properties.no_parent
           layered tt false None 0 0).
  vm_compute. reflexivity.
Defined.

Lemma recursive_scope_sees_all_definitions_witness :
  ∃ sc', analyze true Properties.no_parent layered (new_scope tt false None 0 0)
         = (Returns tt, sc') ∧
    (∀ n, is_Some (dictionary_ sc' !! n) ↔ n ∈ def_names (unitary_defs layered)) ∧
    (∀ op, op ∈ actions_ sc' →
       Forall2 (linked Properties.no_parent false None (dictionary_ sc'))
         (op_ids op) (Sequential_Scope_Order.meanings_of op)) ∧
    (∀ ph, ph ∈ statements layered → ∃ ms', Generic_Op ph ms' ∈ actions_ sc') ∧
    (∀ x d, unitary_defs layered !! x = Some d → is_data_def d = true →
       ∃ b op, dictionary_ sc' !! atom_ (name_of d) = Some b ∧ op ∈ actions_ sc' ∧
               writes op = [slot_index_ b] ∧ op_ids op = ids_of d).
Proof.
  eexists. split; [vm_compute; reflexivity|].
  apply (recursive_scope_sees_all_definitions true unit Properties.no_parent
           layered tt false None 0 0).
  vm_compute. reflexivity.
Defined.

Lemma recursive_analysis_succeeds_witness :
  ∃ sc', analyze true Properties.no_parent mutual_functions (new_scope tt false None 0 0)
         = (Returns tt, sc').
Proof.
  apply (recursive_analysis_succeeds true unit Properties.no_parent
           mutual_functions tt false None 0 0).
  - left. reflexivity.
  - apply (bool_decide_unpack _). vm_compute. reflexivity.
  - intros id q Hm Hout. exfalso. apply Hout. clear Hout.
    destruct Hm as [(d & Hd & Hid)|(ph & Hph & Hid)].
    + simpl in Hd.
      repeat (apply elem_of_cons in Hd as [->|Hd];
              [simpl in Hid;
               repeat (apply elem_of_cons in Hid as [->|Hid];
                       [apply (bool_decide_unpack _); vm_compute; reflexivity|]);
               by apply elem_of_nil in Hid|]).
      by apply elem_of_nil in Hd.
    + simpl in Hph.
      repeat (apply elem_of_cons in Hph as [->|Hph];
              [simpl in Hid;
               repeat (apply elem_of_cons in Hid as [->|Hid];
                       [apply (bool_decide_unpack _); vm_compute; reflexivity|]);
               by apply elem_of_nil in Hid|]).
      by apply elem_of_nil in Hph.
  - intros (x & dx & Hx & Hdata & Hc).
    destruct (tc_first _ _ _ Hc) as (z & du & dv & id & Hu & _ & Hid & _).
    destruct x as [|[|[|x]]]; simpl in Hx, Hu; simplify_eq; try done.
    simpl in Hid. by apply elem_of_nil in Hid.
Defined.

End Recursive_Scope_Outcome.

(** * Registration in a recursive scope *)

Module Recursive_Scope_Registration.
Import Recursive_Scope Recursive_Scope_Correct.

(** The unit that [begin_unit] makes for a definition, with the slot that
    [add_binding] has assigned to it. *)
Definition registered_unit (d : Unitary_Definition) (slot : slot_t) : Unit :=
  mkUnit (set_slot slot d) k_not_analyzed 0 0 ∅.

Section Registration.
Variable Parent : Type.
Local Abbreviation St := (t Parent).
Implicit Types (sc : St).

(** The members of a scope that registration leaves alone: nothing is
    analyzed, emitted or looked up. *)
Definition fixed sc :=
  (actions_ sc, parent_ sc, scc_stack_ sc, analysis_stack_ sc, scc_count_ sc,
   source_ sc, target_is_module_ sc, module_slot_ sc, module_dictionary_ sc).

(** The names are distinct and new to the dictionary. *)
Definition fresh (D : gmap string Binding) (ds : list Unitary_Definition) : Prop :=
  NoDup (def_names ds) ∧ ∀ n, n ∈ def_names ds → D !! n = None.

Record registered sc (ds : list Unitary_Definition) (slots : list slot_t)
    (phs : list Phrase) (sc' : St) : Prop := {
  g_len : length slots = length ds;
  g_units : units_ sc' = units_ sc ++ zip_with registered_unit ds slots;
  g_phrases : action_phrases_ sc' = action_phrases_ sc ++ phs;
  g_bound : ∀ k d s, ds !! k = Some d → slots !! k = Some s →
    dictionary_ sc' !! atom_ (name_of d) = Some (mkBinding s (length (units_ sc) + k));
  g_other : ∀ n, n ∉ def_names ds → dictionary_ sc' !! n = dictionary_ sc !! n;
  g_fresh : fresh (dictionary_ sc) ds;
  g_size : size (dictionary_ sc') = size (dictionary_ sc) + length ds;
  g_module : target_is_module_ sc = true →
             slots = seq (size (dictionary_ sc)) (length ds);
  g_fixed : fixed sc' = fixed sc
}.

(** Registration stops at definition [k], whose name is bound already. *)
Definition duplicate sc (ds : list Unitary_Definition) (f : Failure) : Prop :=
  ∃ k d, ds !! k = Some d ∧ f = Throws (Multiply_defined (atom_ (name_of d))) ∧
         fresh (dictionary_ sc) (take k ds) ∧
         (is_Some (dictionary_ sc !! atom_ (name_of d)) ∨
          atom_ (name_of d) ∈ def_names (take k ds)).

Lemma def_names_app ds1 ds2 : def_names (ds1 ++ ds2) = def_names ds1 ++ def_names ds2.
Proof. unfold def_names. by rewrite fmap_app. Qed.

Lemma registered_nil sc : registered sc [] [] [] sc.
Proof.
  split; try done.
  - by rewrite app_nil_r.
  - by rewrite app_nil_r.
  - split; [constructor|]. by intros n ?%elem_of_nil.
Qed.

Lemma registered_bound sc ds slots phs sc' n :
  registered sc ds slots phs sc' → n ∈ def_names ds → is_Some (dictionary_ sc' !! n).
Proof.
  intros HR Hn. unfold def_names in Hn. apply list_elem_of_fmap in Hn as (d & -> & Hd).
  apply list_elem_of_lookup in Hd as [k Hk].
  destruct (lookup_lt_is_Some_2 slots k) as [s Hs].
  { rewrite (g_len _ _ _ _ _ HR). by eapply lookup_lt_Some. }
  rewrite (g_bound _ _ _ _ _ HR k d s Hk Hs). eauto.
Qed.

Lemma fresh_app D ds1 ds2 (D1 : gmap string Binding) :
  fresh D ds1 → fresh D1 ds2 →
  (∀ n, n ∈ def_names ds1 → is_Some (D1 !! n)) →
  (∀ n, n ∉ def_names ds1 → D1 !! n = D !! n) →
  fresh D (ds1 ++ ds2).
Proof.
  intros [Hnd1 Hf1] [Hnd2 Hf2] Hin Hout. split.
  - rewrite def_names_app. apply NoDup_app. split_and!; [done| |done].
    intros n Hn1 Hn2. destruct (Hin n Hn1) as [b Hb]. by rewrite (Hf2 n Hn2) in Hb.
  - intros n Hn. rewrite def_names_app in Hn. apply elem_of_app in Hn as [Hn|Hn].
    + by apply Hf1.
    + destruct (decide (n ∈ def_names ds1)) as [Hn1|Hn1]; [by apply Hf1|].
      rewrite <- (Hout n Hn1). by apply Hf2.
Qed.

Lemma registered_app sc ds1 sl1 ph1 s1 ds2 sl2 ph2 s2 :
  registered sc ds1 sl1 ph1 s1 → registered s1 ds2 sl2 ph2 s2 →
  registered sc (ds1 ++ ds2) (sl1 ++ sl2) (ph1 ++ ph2) s2.
Proof.
  intros H1 H2.
  assert (length (units_ s1) = length (units_ sc) + length ds1) as Hlen.
  { rewrite (g_units _ _ _ _ _ H1), length_app, length_zip_with_l_eq; [done|].
    by rewrite (g_len _ _ _ _ _ H1). }
  assert (target_is_module_ s1 = target_is_module_ sc) as Htm.
  { pose proof (g_fixed _ _ _ _ _ H1) as Hf. by injection Hf. }
  split.
  - rewrite !length_app. by rewrite (g_len _ _ _ _ _ H1), (g_len _ _ _ _ _ H2).
  - rewrite (g_units _ _ _ _ _ H2), (g_units _ _ _ _ _ H1), <- app_assoc.
    f_equal. symmetry. apply zip_with_app. by rewrite (g_len _ _ _ _ _ H1).
  - by rewrite (g_phrases _ _ _ _ _ H2), (g_phrases _ _ _ _ _ H1), app_assoc.
  - intros k d s Hd Hs.
    destruct (decide (k < length ds1)) as [Hlt|Hge].
    + rewrite lookup_app_l in Hd by done.
      rewrite lookup_app_l in Hs by (by rewrite (g_len _ _ _ _ _ H1)).
      rewrite (g_other _ _ _ _ _ H2).
      * by apply (g_bound _ _ _ _ _ H1).
      * intros Hin. destruct (g_fresh _ _ _ _ _ H2) as [_ Hf].
        specialize (Hf _ Hin). by rewrite (g_bound _ _ _ _ _ H1 k d s Hd Hs) in Hf.
    + rewrite lookup_app_r in Hd by lia.
      rewrite lookup_app_r in Hs by (rewrite (g_len _ _ _ _ _ H1); lia).
      rewrite (g_len _ _ _ _ _ H1) in Hs.
      rewrite (g_bound _ _ _ _ _ H2 _ d s Hd Hs). do 2 f_equal. lia.
  - intros n Hn. rewrite def_names_app in Hn.
    rewrite (g_other _ _ _ _ _ H2), (g_other _ _ _ _ _ H1); [done| |];
      intros ?; apply Hn, elem_of_app; auto.
  - eapply fresh_app; [apply H1|apply H2| |].
    + intros n Hn. by eapply registered_bound.
    + apply (g_other _ _ _ _ _ H1).
  - rewrite (g_size _ _ _ _ _ H2), (g_size _ _ _ _ _ H1), length_app. lia.
  - intros Hm. rewrite (g_module _ _ _ _ _ H1 Hm), (g_module _ _ _ _ _ H2) by congruence.
    rewrite (g_size _ _ _ _ _ H1), length_app. by rewrite seq_app.
  - by rewrite (g_fixed _ _ _ _ _ H2), (g_fixed _ _ _ _ _ H1).
Qed.

Lemma duplicate_l sc ds1 ds2 f : duplicate sc ds1 f → duplicate sc (ds1 ++ ds2) f.
Proof.
  intros (k & d & Hk & -> & Hf & Hin). exists k, d.
  pose proof (lookup_lt_Some _ _ _ Hk) as Hlt.
  rewrite take_app_le by lia. split_and!; [by apply lookup_app_l_Some|done|done|done].
Qed.

Lemma duplicate_r sc ds1 sl1 ph1 s1 ds2 f :
  registered sc ds1 sl1 ph1 s1 → duplicate s1 ds2 f → duplicate sc (ds1 ++ ds2) f.
Proof.
  intros H1 (k & d & Hk & -> & Hf & Hin). exists (length ds1 + k), d.
  rewrite take_app_add. split_and!.
  - rewrite lookup_app_r by lia. by replace (length ds1 + k - length ds1) with k by lia.
  - done.
  - eapply fresh_app; [apply H1|exact Hf| |].
    + intros n Hn. by eapply registered_bound.
    + apply (g_other _ _ _ _ _ H1).
  - rewrite def_names_app, elem_of_app.
    destruct (decide (atom_ (name_of d) ∈ def_names ds1)) as [?|Hn]; [right; by left|].
    destruct Hin as [Hin|Hin]; [left|right; by right].
    by rewrite <- (g_other _ _ _ _ _ H1 _ Hn).
Qed.

Lemma registered_one sc (s2 : St) d slot :
  dictionary_ sc !! atom_ (name_of d) = None →
  units_ s2 = units_ sc ++ [mkUnit d k_not_analyzed 0 0 ∅] →
  dictionary_ s2
  = <[atom_ (name_of d) := mkBinding slot (length (units_ sc))]> (dictionary_ sc) →
  action_phrases_ s2 = action_phrases_ sc → fixed s2 = fixed sc →
  (target_is_module_ sc = true → slot = size (dictionary_ sc)) →
  registered sc [d] [slot] []
    (set_units (alter (set_def (set_slot slot d)) (length (units_ sc)) (units_ s2)) s2).
Proof.
  intros Hnone Hun Hd Hph Hfix Hm. split; simpl.
  - done.
  - rewrite Hun, alter_app_r_alt, Nat.sub_diag by done. done.
  - by rewrite app_nil_r.
  - intros [|k] d' s' Hd' Hs'; [|done]. injection Hd' as <-. injection Hs' as <-.
    by rewrite Hd, lookup_insert_eq, Nat.add_0_r.
  - intros n Hn. rewrite Hd, lookup_insert_ne; [done|].
    intros <-. apply Hn. by left.
  - split; [apply NoDup_singleton|]. by intros n ->%list_elem_of_singleton.
  - rewrite Hd, map_size_insert_None by done. lia.
  - intros Ht. by rewrite Hm.
  - done.
Qed.

Lemma unitary_registered d sc :
  wp (Unitary_add_to_scope (H := scope) d)
     (λ _ sc', ∃ slot, registered sc [d] [slot] [] sc')
     (λ f _, duplicate sc [d] f) sc.
Proof.
  unfold Unitary_add_to_scope. simpl. apply wp_bind. unfold begin_unit.
  apply wp_bind, wp_modify, wp_bind, wp_get, wp_ret. simpl.
  unfold push_back. rewrite length_app. simpl.
  replace (length (units_ sc) + 1 - 1) with (length (units_ sc)) by lia.
  apply wp_bind. unfold add_binding. apply wp_bind, wp_get. simpl.
  destruct (decide (is_Some (dictionary_ sc !! atom_ (name_of d)))) as [Hin|Hout].
  { unfold throw. apply wp_fail. exists 0, d. split_and!; [done|done| |by left].
    split; [constructor|]. by intros n ?%elem_of_nil. }
  apply eq_None_not_Some in Hout. apply wp_bind.
  destruct (target_is_module_ sc) eqn:Htm.
  - apply wp_ret, wp_bind, wp_modify, wp_ret. unfold end_unit, update_unit.
    apply wp_modify. exists (size (dictionary_ sc)). by apply registered_one.
  - unfold make_slot. apply wp_bind, wp_get, wp_bind, wp_modify, wp_ret.
    apply wp_bind, wp_modify, wp_ret. unfold end_unit, update_unit.
    apply wp_modify. exists (frame_nslots_ sc).
    apply registered_one; try done. intros Ht. congruence.
Qed.

Lemma add_to_scope_registered : ∀ def sc,
  wp (add_to_scope (H := scope) def)
     (λ _ sc', ∃ slots, registered sc (unitary_defs def) slots (statements def) sc')
     (λ f _, duplicate sc (unitary_defs def) f) sc.
Proof.
  fix IH 1. intros [k d|k src es] sc.
  - simpl. eapply wp_mono; [apply unitary_registered| |done].
    intros [] s' (slot & HR). by exists [slot].
  - simpl. revert sc. induction es as [|[ph [d|]] es IHes]; intros sc.
    + apply wp_ret. exists []. apply registered_nil.
    + apply wp_bind. eapply wp_mono; [apply IH| |].
      * intros [] s1 (sl1 & H1). simpl. eapply wp_mono; [apply IHes| |].
        -- intros [] s2 (sl2 & H2). exists (sl1 ++ sl2). by eapply registered_app.
        -- intros f s2 Hf. by eapply duplicate_r.
      * intros f s1 Hf. by apply duplicate_l.
    + apply wp_bind. unfold add_action at 1. apply wp_modify.
      set (s1 := set_action_phrases (push_back (action_phrases_ sc) ph) sc).
      assert (registered sc [] [] [ph] s1) as H1.
      { split; try done.
        - by rewrite app_nil_r.
        - split; [constructor|]. by intros n ?%elem_of_nil. }
      eapply wp_mono; [apply IHes| |].
      * intros [] s2 (sl2 & H2). exists sl2.
        apply (registered_app sc [] [] [ph] s1 _ sl2 _ s2 H1 H2).
      * intros f s2 Hf. apply (duplicate_r sc [] [] [ph] s1 _ f H1 Hf).
Qed.

End Registration.

Arguments fixed {Parent}.
Arguments registered {Parent}.
Arguments duplicate {Parent}.

(** Registration in a recursive scope analyzes nothing: it appends one
    unit for each definition, in the order of the source, not analyzed and
    with its slot assigned, and binds the name of the definition to that slot
    and unit; it queues the phrases of the bare statements in their order; and
    it emits no action and looks nothing up.  For a module the slots count up
    from the size of the dictionary. *)
Theorem recursive_registration_is_lazy {Parent} def (sc sc' : t Parent) :
  add_to_scope (H := scope) def sc = (Returns tt, sc') →
  ∃ slots,
    length slots = length (unitary_defs def) ∧
    units_ sc' = units_ sc ++ zip_with registered_unit (unitary_defs def) slots ∧
    action_phrases_ sc' = action_phrases_ sc ++ statements def ∧
    (∀ k d s, unitary_defs def !! k = Some d → slots !! k = Some s →
       dictionary_ sc' !! atom_ (name_of d)
       = Some (mkBinding s (length (units_ sc) + k))) ∧
    (∀ n, n ∉ def_names (unitary_defs def) →
       dictionary_ sc' !! n = dictionary_ sc !! n) ∧
    (target_is_module_ sc = true →
     slots = seq (size (dictionary_ sc)) (length (unitary_defs def))) ∧
    actions_ sc' = actions_ sc ∧ parent_ sc' = parent_ sc ∧
    scc_stack_ sc' = scc_stack_ sc ∧ scc_count_ sc' = scc_count_ sc.
Proof.
  intros Hrun.
  destruct (wp_returns _ _ _ _ _ _ (add_to_scope_registered Parent def sc) Hrun)
    as (slots & HR).
  exists slots. pose proof (g_fixed _ _ _ _ _ _ HR) as Hf. injection Hf as ? ? ? ? ? ? ? ? ?.
  split_and!; try done; apply HR.
Qed.

(** Registration in a recursive scope succeeds exactly when the names of the
    definitions are distinct and new to the scope; otherwise it throws
    "multiply defined" for the first definition whose name is bound
    already. *)
Theorem recursive_registration_outcome {Parent} def (sc : t Parent) :
  ((∃ sc', add_to_scope (H := scope) def sc = (Returns tt, sc')) ↔
   NoDup (def_names (unitary_defs def)) ∧
   ∀ n, n ∈ def_names (unitary_defs def) → dictionary_ sc !! n = None) ∧
  (∀ f sc', add_to_scope (H := scope) def sc = (Fails f, sc') →
     ∃ k d, unitary_defs def !! k = Some d ∧
            f = Throws (Multiply_defined (atom_ (name_of d))) ∧
            NoDup (def_names (take k (unitary_defs def))) ∧
            (is_Some (dictionary_ sc !! atom_ (name_of d)) ∨
             atom_ (name_of d) ∈ def_names (take k (unitary_defs def)))).
Proof.
  pose proof (add_to_scope_registered Parent def sc) as Hwp. unfold wp in Hwp.
  assert (∀ f, duplicate sc (unitary_defs def) f →
            ¬ (NoDup (def_names (unitary_defs def)) ∧
               ∀ n, n ∈ def_names (unitary_defs def) → dictionary_ sc !! n = None))
    as Hdup.
  { intros f (k & d & Hk & _ & _ & Hin) [Hnd Hfresh].
    assert (atom_ (name_of d) ∈ def_names (unitary_defs def)) as Hd.
    { unfold def_names. apply list_elem_of_fmap. exists d. split; [done|].
      by eapply list_elem_of_lookup_2. }
    destruct Hin as [Hin|Hin].
    - rewrite (Hfresh _ Hd) in Hin. by destruct Hin.
    - rewrite <- (take_drop_middle _ _ _ Hk), def_names_app in Hnd.
      apply NoDup_app in Hnd as (_ & Hdisj & _). apply (Hdisj _ Hin). by left. }
  destruct (add_to_scope (H := scope) def sc) as [[[]|f] s'] eqn:Hrun.
  - destruct Hwp as (slots & HR). split; [|done]. split; [|by eauto].
    intros _. apply (g_fresh _ _ _ _ _ _ HR).
  - split.
    + split; [by intros [? ?]|]. intros Hok. by destruct (Hdup f Hwp).
    + intros f' sc' [= <- <-]. destruct Hwp as (k & d & Hk & -> & [Hnd _] & Hin).
      exists k, d. done.
Qed.

(** ** Example *)

(** [a = 1; f() = a; a;] registered in the scope of a module. *)
Definition registered_sample : Abstract_Definition :=
  Properties.program
    [Properties.data "a" []; Properties.func "f" ["a"]; Properties.stmt ["a"]].

Lemma recursive_registration_is_lazy_witness :
  ∃ sc', add_to_scope (H := scope) registered_sample (new_scope tt true None 0 0)
         = (Returns tt, sc') ∧
  ∃ slots,
    length slots = length (unitary_defs registered_sample) ∧
    units_ sc' = units_ (new_scope tt true None 0 0)
                 ++ zip_with registered_unit (unitary_defs registered_sample) slots ∧
    action_phrases_ sc' = action_phrases_ (new_scope tt true None 0 0)
                          ++ statements registered_sample ∧
    (∀ k d s, unitary_defs registered_sample !! k = Some d → slots !! k = Some s →
       dictionary_ sc' !! atom_ (name_of d)
       = Some (mkBinding s (length (units_ (new_scope tt true None 0 0)) + k))) ∧
    (∀ n, n ∉ def_names (unitary_defs registered_sample) →
       dictionary_ sc' !! n = dictionary_ (new_scope tt true None 0 0) !! n) ∧
    (target_is_module_ (new_scope tt true None 0 0) = true →
     slots = seq (size (dictionary_ (new_scope tt true None 0 0)))
               (length (unitary_defs registered_sample))) ∧
    actions_ sc' = actions_ (new_scope tt true None 0 0) ∧
    parent_ sc' = parent_ (new_scope tt true None 0 0) ∧
    scc_stack_ sc' = scc_stack_ (new_scope tt true None 0 0) ∧
    scc_count_ sc' = scc_count_ (new_scope tt true None 0 0).
Proof.
  eexists. split; [vm_compute; reflexivity|].
  apply (recursive_registration_is_lazy registered_sample (new_scope tt true None 0 0)).
  vm_compute. reflexivity.
Defined.

End Recursive_Scope_Registration.
